(** * meta-drive: the Google Drive to PostgreSQL synchronisation engine

    A shallow embedding of

    - [GoogleDriveSyncService] (src/unnamed/part_003, imported as
      [$lib/google-drive-sync]): the paginated engine with progress events,
    - [GoogleDriveService] (src/unnamed/part_002, imported as
      [$lib/google-drive]) and the one-shot [POST] handler of
      src/src/routes/api/drive/sync/+server.ts,
    - [handleStartSync] of the [GET] handler of the same route, the
      messages of its [handleProgressStream], and [verifyDataIntegrity]
      with the whole answer of [POST],
    - the events of src/src/lib/sync-events.ts,
    - the state of the sync page (src/unnamed/part_004) and its
      [handleProgressEvent],

    over a model of the two Prisma tables of the migration
    (src/unnamed/part_005: [DriveFile], [DrivePermission] with its
    cascading foreign key).

    The engine is embedded twice.  [GoogleDriveSyncService] follows its
    text alone; [Deployed] is the same engine on PostgreSQL transactions,
    with listeners that may throw and a [findMany] that chooses its order.
    The first is the second in the environment [Deployed.textual]
    (lemma [textual_startSync]). *)

From Stdlib Require Import ZArith QArith String Ascii List Lia DecimalString.
From stdpp Require Import base decidable option list strings gmap.

Local Open Scope string_scope.
Local Open Scope list_scope.

(** ** JavaScript values, object spread and [JSON.stringify] *)

Module Js.

(** The scalars that occur in the two tables.  A [Date] is the instant in
    milliseconds; a column of type [Int] holds a [Num]. *)
Inductive value :=
| Null
| Bool (b : bool)
| Num (n : Z)
| Str (s : string)
| Date (ms : Z).

#[global] Instance value_eq_dec : EqDecision value.
Proof. solve_decision. Defined.

(** An object is the sequence of its own properties in insertion order. *)
Definition object := list (string * value).


(** [o[k] = v]: an existing key keeps its position, a new key goes last. *)
Fixpoint set (o : object) (k : string) (v : value) : object :=
  match o with
  | [] => [(k, v)]
  | (k', v') :: o' =>
      if String.eqb k' k then (k', v) :: o' else (k', v') :: set o' k v
  end.

(** [Object.keys] *)
Definition keys (o : object) : list string := map fst o.

Definition assign (target src : object) : object :=
  fold_left (fun o kv => set o (fst kv) (snd kv)) src target.

(** [{...a, ...b}] is [spread [a; b]]. *)
Definition spread (srcs : list object) : object :=
  fold_left assign srcs [].

(** The JSON text of an object lists the members in property order.  The
    text is kept as the sequence of its members: within one column the text
    of a scalar determines the scalar, and a [Date] is written through
    [toJSON] as its ISO instant. *)
Inductive json :=
| JsonNull
| JsonBool (b : bool)
| JsonNumber (n : Z)
| JsonString (s : string)
| JsonIso (ms : Z).

#[global] Instance json_eq_dec : EqDecision json.
Proof. solve_decision. Defined.

Definition toJSON (v : value) : json :=
  match v with
  | Null => JsonNull
  | Bool b => JsonBool b
  | Num n => JsonNumber n
  | Str s => JsonString s
  | Date ms => JsonIso ms
  end.

Definition JSON_stringify (o : object) : list (string * json) :=
  map (fun kv => (fst kv, toJSON (snd kv))) o.

(** [a || b] on strings: the empty string is falsy. *)
Definition or_str (a : option string) (b : string) : string :=
  match a with
  | Some s => if String.eqb s "" then b else s
  | None => b
  end.

(** [a || null] on strings. *)
Definition or_null (a : option string) : option string :=
  match a with
  | Some s => if String.eqb s "" then None else Some s
  | None => None
  end.

(** [a || false]. *)
Definition or_false (a : option bool) : bool :=
  match a with Some b => b | None => false end.

(** [a || null] on numbers: [0] is falsy. *)
Definition or_null_num (a : option Z) : option Z :=
  match a with
  | Some n => if Z.eqb n 0 then None else Some n
  | None => None
  end.

(** [Array.prototype.join]. *)
Fixpoint join (sep : string) (l : list string) : string :=
  match l with
  | [] => ""
  | [x] => x
  | x :: l' => x ++ sep ++ join sep l'
  end.

(** The doubles of the progress arithmetic: quotients of counters, scaled
    and shifted by constants, so exact rationals with the two special values
    that a division by a zero counter produces. *)
Inductive number :=
| NaN
| Infinity
| Fin (q : Q).

Definition div (a b : nat) : number :=
  match b with
  | O => match a with O => NaN | _ => Infinity end
  | _ => Fin (Z.of_nat a # Pos.of_nat b)
  end.

(** [x * c] and [c + x] for a positive constant [c]. *)
Definition times (x : number) (c : Q) : number :=
  match x with
  | Fin q => Fin (q * c)
  | other => other
  end.

Definition plus (c : Q) (x : number) : number :=
  match x with
  | Fin q => Fin (c + q)
  | other => other
  end.

(** [Math.min(x, c)]: [NaN] is contagious. *)
Definition Math_min (x : number) (c : Q) : number :=
  match x with
  | NaN => NaN
  | Infinity => Fin c
  | Fin q => Fin (if Qle_bool q c then q else c)
  end.

(** [a <= b]; every comparison with [NaN] is false. *)
Definition leb (a b : number) : bool :=
  match a, b with
  | Fin x, Fin y => Qle_bool x y
  | Fin _, Infinity => true
  | Infinity, Infinity => true
  | _, _ => false
  end.

End Js.

(** ** The change check of both synchronisers *)

(** [JSON.stringify(existing) !== JSON.stringify({...existing, ...data})] *)
Definition hasChanges (existing data : Js.object) : bool :=
  negb (bool_decide
          (Js.JSON_stringify existing
           = Js.JSON_stringify (Js.spread [existing; data]))).

Inductive SyncDecision := Create | Update | Skip.

#[global] Instance SyncDecision_eq_dec : EqDecision SyncDecision.
Proof. solve_decision. Defined.

(** The [if (existing) { if (hasChanges) update } else create] of the
    four loops. *)
Definition changeCheck (existing : option Js.object) (data : Js.object)
  : SyncDecision :=
  match existing with
  | Some e => if hasChanges e data then Update else Skip
  | None => Create
  end.

(** ** Records of the Drive API, of the two services and of the tables *)

(** [drive_v3.Schema$File], with the fields the listing asks for.  [size] is
    the number that [parseInt] reads from the API's decimal string and the
    two times are the instants that [new Date] reads from the RFC 3339
    strings; [None] stands for an absent (or empty, hence falsy) field. *)
Module SchemaFile.
Record t := mk {
  id : string;
  name : option string;
  mimeType : option string;
  parents : option (list string);
  size : option Z;
  createdTime : option Z;
  modifiedTime : option Z;
  trashed : option bool
}.
End SchemaFile.

(** [drive_v3.Schema$Permission]. *)
Module SchemaPermission.
Record t := mk {
  id : string;
  type : option string;
  role : option string;
  emailAddress : option string;
  domain : option string;
  allowFileDiscovery : option bool
}.
End SchemaPermission.

(** [interface DriveFileData]. *)
Module DriveFileData.
Record t := mk {
  id : string;
  name : string;
  mimeType : option string;
  parents : option (list string);
  size : option Z;
  createdTime : option Z;
  modifiedTime : option Z;
  trashed : bool;
  isFolder : bool
}.
End DriveFileData.

(** A row of table [DriveFile], columns in the order of the migration. *)
Module DriveFile.
Record t := mk {
  id : string;
  name : string;
  mimeType : option string;
  parents : option string;
  size : option Z;
  modifiedTime : option Z;
  createdTime : option Z;
  isFolder : bool;
  trashed : bool
}.

#[global] Instance eq_dec : EqDecision t.
Proof. solve_decision. Defined.

Definition opt {A} (f : A -> Js.value) (o : option A) : Js.value :=
  match o with Some a => f a | None => Js.Null end.

(** The object that [findUnique] returns for a row, and equally the object
    literal [driveFileData]: both list the nine keys in this order. *)
Definition object (r : t) : Js.object :=
  [ ("id", Js.Str (id r));
    ("name", Js.Str (name r));
    ("mimeType", opt Js.Str (mimeType r));
    ("parents", opt Js.Str (parents r));
    ("size", opt Js.Num (size r));
    ("modifiedTime", opt Js.Date (modifiedTime r));
    ("createdTime", opt Js.Date (createdTime r));
    ("isFolder", Js.Bool (isFolder r));
    ("trashed", Js.Bool (trashed r)) ].
End DriveFile.

(** A row of table [DrivePermission]; [interface DrivePermissionData] has
    the same seven fields. *)
Module DrivePermission.
Record t := mk {
  id : string;
  fileId : string;
  type : string;
  role : string;
  emailAddress : option string;
  domain : option string;
  allowFileDiscovery : bool
}.

#[global] Instance eq_dec : EqDecision t.
Proof. solve_decision. Defined.

Definition object (r : t) : Js.object :=
  [ ("id", Js.Str (id r));
    ("fileId", Js.Str (fileId r));
    ("type", Js.Str (type r));
    ("role", Js.Str (role r));
    ("emailAddress", DriveFile.opt Js.Str (emailAddress r));
    ("domain", DriveFile.opt Js.Str (domain r));
    ("allowFileDiscovery", Js.Bool (allowFileDiscovery r)) ].
End DrivePermission.

(** ** The persistence layer *)

Module Prisma.

Record Db := mkDb {
  driveFile : list DriveFile.t;
  drivePermission : list DrivePermission.t
}.

(** The writes that throw, as a property of the row that is written: the
    client or the server refuses it (a value outside its column's range, a
    malformed field, a rule of the database). *)
Record Faults := mkFaults {
  refusesFile : DriveFile.t -> bool;
  refusesPermission : DrivePermission.t -> bool
}.

Definition noFaults : Faults := mkFaults (fun _ => false) (fun _ => false).

Definition fileIds (db : Db) : list string := map DriveFile.id (driveFile db).
Definition permissionIds (db : Db) : list string :=
  map DrivePermission.id (drivePermission db).

(** The rows of a table after an [update] of the row keyed [id]. *)
Definition replace {A} (key : A -> string) (id : string) (data : A)
  (l : list A) : list A :=
  map (fun r => if String.eqb (key r) id then data else r) l.

Module driveFile_.
Definition findUnique (db : Db) (id : string) : option DriveFile.t :=
  List.find (fun r => String.eqb (DriveFile.id r) id) (driveFile db).

(** [create]: throws on a refused row and on a taken primary key. *)
Definition create (flt : Faults) (db : Db) (data : DriveFile.t) : option Db :=
  if refusesFile flt data then None
  else match findUnique db (DriveFile.id data) with
       | Some _ => None
       | None => Some (mkDb (driveFile db ++ [data]) (drivePermission db))
       end.

(** [update]: throws on a refused row and when no row has the key. *)
Definition update (flt : Faults) (db : Db) (id : string) (data : DriveFile.t)
  : option Db :=
  if refusesFile flt data then None
  else match findUnique db id with
       | None => None
       | Some _ =>
           Some (mkDb (replace DriveFile.id id data (driveFile db))
                      (drivePermission db))
       end.

(** [deleteMany({where: {id: {in: ids}}})]; the foreign key deletes the
    permissions of a deleted file ([ON DELETE CASCADE]). *)
Definition deleteMany (db : Db) (ids : list string) : Db :=
  mkDb (filter (fun r => DriveFile.id r ∉ ids) (driveFile db))
       (filter (fun p => ¬ (DrivePermission.fileId p ∈ fileIds db
                            ∧ DrivePermission.fileId p ∈ ids))
               (drivePermission db)).
End driveFile_.

Module drivePermission_.
Definition findUnique (db : Db) (id : string) : option DrivePermission.t :=
  List.find (fun r => String.eqb (DrivePermission.id r) id)
            (drivePermission db).

(** The foreign key [DrivePermission_fileId_fkey]. *)
Definition references (db : Db) (data : DrivePermission.t) : bool :=
  bool_decide (DrivePermission.fileId data ∈ fileIds db).

Definition create (flt : Faults) (db : Db) (data : DrivePermission.t)
  : option Db :=
  if refusesPermission flt data then None
  else if negb (references db data) then None
  else match findUnique db (DrivePermission.id data) with
       | Some _ => None
       | None => Some (mkDb (driveFile db) (drivePermission db ++ [data]))
       end.

Definition update (flt : Faults) (db : Db) (id : string)
  (data : DrivePermission.t) : option Db :=
  if refusesPermission flt data then None
  else if negb (references db data) then None
  else match findUnique db id with
       | None => None
       | Some _ =>
           Some (mkDb (driveFile db)
                      (replace DrivePermission.id id data
                         (drivePermission db)))
       end.

(** [findMany({where: {fileId: {notIn: ids}}})] *)
Definition findMany_fileId_notIn (db : Db) (ids : list string)
  : list DrivePermission.t :=
  filter (fun p => DrivePermission.fileId p ∉ ids) (drivePermission db).

Definition deleteMany (db : Db) (ids : list string) : Db :=
  mkDb (driveFile db)
       (filter (fun p => DrivePermission.id p ∉ ids) (drivePermission db)).
End drivePermission_.

(** The primary keys of the two tables and the foreign key. *)
Definition unique (db : Db) : Prop :=
  NoDup (fileIds db) ∧ NoDup (permissionIds db).

Definition referential (db : Db) : Prop :=
  ∀ p, p ∈ drivePermission db -> DrivePermission.fileId p ∈ fileIds db.

End Prisma.

(** ** src/src/lib/sync-events.ts *)

Inductive EventType := page_loaded | file_processed.

Record SyncProgressEvent := mkEvent {
  type : EventType;
  total : nat;
  done : nat;
  percent : Js.number
}.

Record SyncStats := mkStats {
  stats_totalFiles : nat;
  stats_processedFiles : nat;
  stats_totalPermissions : nat;
  stats_processedPermissions : nat;
  stats_errors : nat
}.

(** What [driveSyncEmitter] emits. *)
Inductive Emitted :=
| progress (e : SyncProgressEvent)
| sync_complete (stats : SyncStats)
| sync_error.

(** ** The Drive API as the services see it *)

Module Drive.

(** One answer of [files.list]: the files of the page, or [None] when the
    request throws.  A listing is the first answer and the answers to the
    requests that follow it; an answer carries a [nextPageToken] exactly
    when another answer follows. *)
Definition response := option (list SchemaFile.t).
Definition listing := (response * list response)%type.

(** The files of a listing that is read to its end; [None] when one of its
    requests throws. *)
Fixpoint drainFrom (r : response) (rest : list response)
  (acc : list SchemaFile.t) : option (list SchemaFile.t) :=
  match r with
  | None => None
  | Some files =>
      match rest with
      | [] => Some (acc ++ files)
      | r' :: rest' => drainFrom r' rest' (acc ++ files)
      end
  end.

Definition drain (l : listing) : option (list SchemaFile.t) :=
  drainFrom (fst l) (snd l) [].

Record t := mk {
  (** the answers to the requests of [getTotalFileCount] *)
  countListing : listing;
  (** the answers to the requests of [syncDriveFilesWithPagination] *)
  fetchListing : listing;
  (** [permissions.list] for a file; [None] when the request throws *)
  permissions_list : string -> option (list SchemaPermission.t)
}.

End Drive.

(** The successful writes and the transaction brackets of a run, in
    order. *)
Inductive Op :=
| TxBegin
| TxCommit
| FileCreated (r : DriveFile.t)
| FileUpdated (r : DriveFile.t)
| PermissionCreated (r : DrivePermission.t)
| PermissionUpdated (r : DrivePermission.t).

Definition isWrite (o : Op) : bool :=
  match o with
  | TxBegin | TxCommit => false
  | _ => true
  end.

(** The creates and updates among the operations. *)
Definition writes (ops : list Op) : list Op := List.filter isWrite ops.

(** ** [$lib/google-drive-sync] (src/unnamed/part_003) *)

Module GoogleDriveSyncService.

(** The private counters of the service object, the database it writes,
    what it has broadcast and what it has written. *)
Record t := mk {
  totalFiles : nat;
  processedFiles : nat;
  totalPermissions : nat;
  processedPermissions : nat;
  errors : nat;
  db : Prisma.Db;
  emitted : list Emitted;
  ops : list Op
}.

Definition new (db : Prisma.Db) : t := mk 0 0 0 0 0 db [] [].

Definition set_totalFiles (n : nat) (s : t) : t :=
  mk n (processedFiles s) (totalPermissions s) (processedPermissions s)
     (errors s) (db s) (emitted s) (ops s).
Definition set_totalPermissions (n : nat) (s : t) : t :=
  mk (totalFiles s) (processedFiles s) n (processedPermissions s)
     (errors s) (db s) (emitted s) (ops s).
Definition set_errors (n : nat) (s : t) : t :=
  mk (totalFiles s) (processedFiles s) (totalPermissions s)
     (processedPermissions s) n (db s) (emitted s) (ops s).
Definition set_db (d : Prisma.Db) (s : t) : t :=
  mk (totalFiles s) (processedFiles s) (totalPermissions s)
     (processedPermissions s) (errors s) d (emitted s) (ops s).
Definition emit (e : Emitted) (s : t) : t :=
  mk (totalFiles s) (processedFiles s) (totalPermissions s)
     (processedPermissions s) (errors s) (db s) (emitted s ++ [e]) (ops s).
Definition record (o : Op) (s : t) : t :=
  mk (totalFiles s) (processedFiles s) (totalPermissions s)
     (processedPermissions s) (errors s) (db s) (emitted s) (ops s ++ [o]).

Definition broadcastProgress (e : SyncProgressEvent) : t -> t :=
  emit (progress e).

(** *** [getTotalFileCount] *)

(** The [do ... while (pageToken)] loop; [None] when a request threw. *)
Fixpoint countLoop (r : Drive.response) (rest : list Drive.response)
  (totalCount : nat) (s : t) : option nat * t :=
  match r with
  | None => (None, s)
  | Some files =>
      let totalCount := totalCount + length files in
      let s := broadcastProgress
                 (mkEvent page_loaded totalCount 0
                    (Js.Math_min (Js.times (Js.div totalCount 1000) 100) 5))
                 s in
      match rest with
      | [] => (Some totalCount, s)
      | r' :: rest' => countLoop r' rest' totalCount s
      end
  end.

Definition getTotalFileCount (drive : Drive.t) (s : t) : nat * t :=
  let '(r, rest) := Drive.countListing drive in
  match countLoop r rest 0 s with
  | (Some totalCount, s') => (totalCount, s')
  | (None, s') => (0, s')
  end.

(** *** [syncDriveFilesWithPagination] and [processFilesBatch] *)

Fixpoint fetchLoop (r : Drive.response) (rest : list Drive.response)
  (allFiles : list SchemaFile.t) (s : t) : option (list SchemaFile.t) * t :=
  match r with
  | None => (None, s)
  | Some files =>
      let allFiles := allFiles ++ files in
      let s := broadcastProgress
                 (mkEvent page_loaded (totalFiles s) (length allFiles)
                    (Js.Math_min
                       (Js.times (Js.div (length allFiles) (totalFiles s)) 60)
                       60))
                 s in
      match rest with
      | [] => (Some allFiles, s)
      | r' :: rest' => fetchLoop r' rest' allFiles s
      end
  end.

(** The [allFiles.map] of lines 175-185. *)
Definition toDriveFileData (file : SchemaFile.t) : DriveFileData.t :=
  DriveFileData.mk
    (SchemaFile.id file)
    (Js.or_str (SchemaFile.name file) "Untitled")
    (Js.or_null (SchemaFile.mimeType file))
    (SchemaFile.parents file)
    (SchemaFile.size file)
    (SchemaFile.createdTime file)
    (SchemaFile.modifiedTime file)
    (Js.or_false (SchemaFile.trashed file))
    (bool_decide (SchemaFile.mimeType file
                  = Some "application/vnd.google-apps.folder")).

(** The object literal [driveFileData]. *)
Definition driveFileData (fileData : DriveFileData.t) : DriveFile.t :=
  DriveFile.mk
    (DriveFileData.id fileData)
    (DriveFileData.name fileData)
    (DriveFileData.mimeType fileData)
    (match DriveFileData.parents fileData with
     | Some parents => Some (Js.join "," parents)
     | None => None
     end)
    (DriveFileData.size fileData)
    (DriveFileData.modifiedTime fileData)
    (DriveFileData.createdTime fileData)
    (DriveFileData.isFolder fileData)
    (DriveFileData.trashed fileData).

(** [files.slice(i, j)] *)
Definition slice {A} (i j : nat) (l : list A) : list A :=
  take (j - i) (drop i l).

Definition batchSize : nat := 10.

(** [for (let i = 0; i < files.length; i += batchSize)]; the loop runs at
    most [files.length] times. *)
Fixpoint batchLoop {A} (fuel i : nat) (files : list A) : list (list A) :=
  match fuel with
  | O => []
  | S fuel' =>
      if Nat.ltb i (length files)
      then slice i (i + batchSize) files
             :: batchLoop fuel' (i + batchSize) files
      else []
  end.

Definition batchesOf {A} (files : list A) : list (list A) :=
  batchLoop (length files) 0 files.

(** The database part of the [try] block: look the row up, compare, and
    [update], [create] or leave it.  [None] when the write throws. *)
Definition upsertFile (flt : Prisma.Faults) (db : Prisma.Db)
  (data : DriveFile.t) : option (Prisma.Db * list Op) :=
  let existingFile := Prisma.driveFile_.findUnique db (DriveFile.id data) in
  match changeCheck (option_map DriveFile.object existingFile)
                    (DriveFile.object data) with
  | Update =>
      option_map (fun d => (d, [FileUpdated data]))
        (Prisma.driveFile_.update flt db (DriveFile.id data) data)
  | Create =>
      option_map (fun d => (d, [FileCreated data]))
        (Prisma.driveFile_.create flt db data)
  | Skip => Some (db, [])
  end.

(** The body of [for (const fileData of batch)]: the [try] block and its
    [catch]. *)
Definition processFile (flt : Prisma.Faults) (s : t)
  (fileData : DriveFileData.t) : t :=
  match upsertFile flt (db s) (driveFileData fileData) with
  | Some (d, o) =>
      let s := mk (totalFiles s) (S (processedFiles s)) (totalPermissions s)
                  (processedPermissions s) (errors s) d (emitted s)
                  (ops s ++ o) in
      broadcastProgress
        (mkEvent file_processed (totalFiles s) (processedFiles s)
           (Js.Math_min
              (Js.plus 60
                 (Js.times (Js.div (processedFiles s) (totalFiles s)) 35))
              95))
        s
  | None => set_errors (S (errors s)) s
  end.

(** [prisma.$transaction(async (tx) => { for ... })] for one batch. *)
Definition processBatch (flt : Prisma.Faults) (s : t)
  (batch : list DriveFileData.t) : t :=
  record TxCommit (fold_left (processFile flt) batch (record TxBegin s)).

Definition processFilesBatch (flt : Prisma.Faults)
  (files : list DriveFileData.t) (s : t) : t :=
  fold_left (processBatch flt) (batchesOf files) s.

(** [false] when a page request threw: the exception leaves the method. *)
Definition syncDriveFilesWithPagination (flt : Prisma.Faults)
  (drive : Drive.t) (s : t) : bool * t :=
  let '(r, rest) := Drive.fetchListing drive in
  match fetchLoop r rest [] s with
  | (Some allFiles, s') =>
      (true, processFilesBatch flt (map toDriveFileData allFiles) s')
  | (None, s') => (false, s')
  end.

(** *** [syncAllPermissions] *)

(** The object literal [drivePermissionData]. *)
Definition drivePermissionData (fileId : string)
  (permission : SchemaPermission.t) : DrivePermission.t :=
  DrivePermission.mk
    (SchemaPermission.id permission)
    fileId
    (Js.or_str (SchemaPermission.type permission) "user")
    (Js.or_str (SchemaPermission.role permission) "reader")
    (Js.or_null (SchemaPermission.emailAddress permission))
    (Js.or_null (SchemaPermission.domain permission))
    (Js.or_false (SchemaPermission.allowFileDiscovery permission)).

(** The database part of the inner [try] block. *)
Definition upsertPermission (flt : Prisma.Faults) (db : Prisma.Db)
  (data : DrivePermission.t) : option (Prisma.Db * list Op) :=
  let existingPermission :=
    Prisma.drivePermission_.findUnique db (DrivePermission.id data) in
  match changeCheck (option_map DrivePermission.object existingPermission)
                    (DrivePermission.object data) with
  | Update =>
      option_map (fun d => (d, [PermissionUpdated data]))
        (Prisma.drivePermission_.update flt db (DrivePermission.id data) data)
  | Create =>
      option_map (fun d => (d, [PermissionCreated data]))
        (Prisma.drivePermission_.create flt db data)
  | Skip => Some (db, [])
  end.

(** The body of [for (const permission of permissions)], on the set
    [processedPermissionIds] and the service. *)
Definition processPermission (flt : Prisma.Faults) (fileId : string)
  (acc : gset string * t) (permission : SchemaPermission.t)
  : gset string * t :=
  let '(processedPermissionIds, s) := acc in
  if decide (SchemaPermission.id permission ∈ processedPermissionIds)
  then acc
  else
    match upsertPermission flt (db s)
            (drivePermissionData fileId permission) with
    | Some (d, o) =>
        ({[SchemaPermission.id permission]} ∪ processedPermissionIds,
         mk (totalFiles s) (processedFiles s) (totalPermissions s)
            (S (processedPermissions s)) (errors s) d (emitted s)
            (ops s ++ o))
    | None => (processedPermissionIds, set_errors (S (errors s)) s)
    end.

(** The body of [for (let i = 0; i < allFiles.length; i++)], with
    [n = allFiles.length]. *)
Definition permissionsOfFile (flt : Prisma.Faults) (drive : Drive.t)
  (n : nat) (acc : gset string * t) (file : nat * string)
  : gset string * t :=
  let '(i, fileId) := file in
  let '(processedPermissionIds, s) := acc in
  match Drive.permissions_list drive fileId with
  | None => (processedPermissionIds, set_errors (S (errors s)) s)
  | Some permissions =>
      let s :=
        set_totalPermissions (totalPermissions s + length permissions) s in
      let '(processedPermissionIds, s) :=
        fold_left (processPermission flt fileId) permissions
          (processedPermissionIds, record TxBegin s) in
      let s := record TxCommit s in
      (processedPermissionIds,
       broadcastProgress
         (mkEvent file_processed n (i + 1)
            (Js.Math_min (Js.plus 95 (Js.times (Js.div i n) 5)) 100))
         s)
  end.

Definition syncAllPermissions (flt : Prisma.Faults) (drive : Drive.t)
  (s : t) : t :=
  let allFiles := Prisma.fileIds (db s) in
  let s := set_totalPermissions 0 s in
  snd (fold_left (permissionsOfFile flt drive (length allFiles))
         (imap pair allFiles) (∅, s)).

(** *** [cleanupOrphanedData] *)

Definition cleanupOrphanedData (s : t) : t :=
  let allFileIds := Prisma.fileIds (db s) in
  let orphanedPermissions :=
    Prisma.drivePermission_.findMany_fileId_notIn (db s) allFileIds in
  if Nat.ltb 0 (length orphanedPermissions)
  then set_db (Prisma.drivePermission_.deleteMany (db s)
                 (map DrivePermission.id orphanedPermissions)) s
  else s.

Definition getSyncStats (s : t) : SyncStats :=
  mkStats (totalFiles s) (processedFiles s) (totalPermissions s)
          (processedPermissions s) (errors s).

(** *** [startSync]

    [folderId] only selects the query of the two listings, which [drive]
    answers.  The result is [None] when the run throws. *)
Definition startSync (flt : Prisma.Faults) (drive : Drive.t)
  (db0 : Prisma.Db) : option SyncStats * t :=
  let s := new db0 in
  let '(n, s) := getTotalFileCount drive s in
  let s := set_totalFiles n s in
  match syncDriveFilesWithPagination flt drive s with
  | (true, s) =>
      let s := syncAllPermissions flt drive s in
      let s := cleanupOrphanedData s in
      let stats := getSyncStats s in
      (Some stats, emit (sync_complete stats) s)
  | (false, s) => (None, emit sync_error s)
  end.

End GoogleDriveSyncService.

(** ** [$lib/google-drive] (src/unnamed/part_002) *)

Module GoogleDriveService.

(** [listAllFiles]: one request, no pagination; a failed request is thrown
    on as a new error. *)
Definition listAllFiles (r : Drive.response) : option (list DriveFileData.t) :=
  option_map
    (map (fun file =>
            DriveFileData.mk
              (SchemaFile.id file)
              (Js.or_str (SchemaFile.name file) "")
              (Js.or_null (SchemaFile.mimeType file))
              (SchemaFile.parents file)
              (SchemaFile.size file)
              (SchemaFile.createdTime file)
              (SchemaFile.modifiedTime file)
              (Js.or_false (SchemaFile.trashed file))
              (bool_decide (SchemaFile.mimeType file
                            = Some "application/vnd.google-apps.folder"))))
    r.

(** [getFilePermissions]: the [catch] answers with the empty array. *)
Definition getFilePermissions (drive : Drive.t) (fileId : string)
  : list DrivePermission.t :=
  match Drive.permissions_list drive fileId with
  | Some permissions =>
      map (fun permission =>
             DrivePermission.mk
               (SchemaPermission.id permission)
               fileId
               (Js.or_str (SchemaPermission.type permission) "")
               (Js.or_str (SchemaPermission.role permission) "")
               (Js.or_null (SchemaPermission.emailAddress permission))
               (Js.or_null (SchemaPermission.domain permission))
               (Js.or_false (SchemaPermission.allowFileDiscovery permission)))
          permissions
  | None => []
  end.

(** [syncAllData]; the files come from the first answer of the listing. *)
Definition syncAllData (drive : Drive.t)
  : option (list DriveFileData.t * list DrivePermission.t) :=
  match listAllFiles (fst (Drive.fetchListing drive)) with
  | Some files =>
      Some (files,
            fold_left
              (fun allPermissions file =>
                 allPermissions
                   ++ getFilePermissions drive (DriveFileData.id file))
              files [])
  | None => None
  end.

End GoogleDriveService.

(** ** src/src/routes/api/drive/sync/+server.ts *)

Module SyncServer.

(** The counters [upserted], [updated], [skipped], [errors] of a loop, the
    database and the successful writes. *)
Record Tally := mkTally {
  upserted : nat;
  updated : nat;
  skipped : nat;
  errors : nat;
  db : Prisma.Db;
  ops : list Op
}.

Record FilesResult := mkFilesResult {
  files_upserted : nat;
  files_updated : nat;
  files_skipped : nat;
  files_errors : nat;
  files_total : nat
}.

Record PermissionsResult := mkPermissionsResult {
  permissions_upserted : nat;
  permissions_updated : nat;
  permissions_skipped : nat;
  permissions_errors : nat;
  permissions_cleaned : nat;
  permissions_total : nat
}.

(** *** [cleanupOrphanedRecords] *)

Definition cleanupOrphanedRecords (currentFiles : list DriveFileData.t)
  (db : Prisma.Db) : Prisma.Db :=
  let currentFileIds := map DriveFileData.id currentFiles in
  let orphanedPermissions :=
    Prisma.drivePermission_.findMany_fileId_notIn db currentFileIds in
  let db :=
    if Nat.ltb 0 (length orphanedPermissions)
    then Prisma.drivePermission_.deleteMany db
           (map DrivePermission.id orphanedPermissions)
    else db in
  let orphanedFiles :=
    filter (fun f => DriveFile.id f ∉ currentFileIds) (Prisma.driveFile db) in
  if Nat.ltb 0 (length orphanedFiles)
  then Prisma.driveFile_.deleteMany db (map DriveFile.id orphanedFiles)
  else db.

(** *** [syncDriveFiles] *)

(** The object literal [driveFileData] of [syncDriveFiles], with its [||]
    defaults. *)
Definition driveFileData (fileData : DriveFileData.t) : DriveFile.t :=
  DriveFile.mk
    (DriveFileData.id fileData)
    (Js.or_str (Some (DriveFileData.name fileData)) "Untitled")
    (Js.or_null (DriveFileData.mimeType fileData))
    (match DriveFileData.parents fileData with
     | Some parents => Some (Js.join "," parents)
     | None => None
     end)
    (Js.or_null_num (DriveFileData.size fileData))
    (DriveFileData.modifiedTime fileData)
    (DriveFileData.createdTime fileData)
    (DriveFileData.isFolder fileData)
    (DriveFileData.trashed fileData).

Definition syncFile (flt : Prisma.Faults) (s : Tally)
  (fileData : DriveFileData.t) : Tally :=
  let existingFile :=
    Prisma.driveFile_.findUnique (db s) (DriveFileData.id fileData) in
  let data := driveFileData fileData in
  match changeCheck (option_map DriveFile.object existingFile)
                    (DriveFile.object data) with
  | Update =>
      match Prisma.driveFile_.update flt (db s)
              (DriveFileData.id fileData) data with
      | Some d => mkTally (upserted s) (S (updated s)) (skipped s) (errors s)
                          d (ops s ++ [FileUpdated data])
      | None => mkTally (upserted s) (updated s) (skipped s) (S (errors s))
                        (db s) (ops s)
      end
  | Skip => mkTally (upserted s) (updated s) (S (skipped s)) (errors s)
                    (db s) (ops s)
  | Create =>
      match Prisma.driveFile_.create flt (db s) data with
      | Some d => mkTally (S (upserted s)) (updated s) (skipped s) (errors s)
                          d (ops s ++ [FileCreated data])
      | None => mkTally (upserted s) (updated s) (skipped s) (S (errors s))
                        (db s) (ops s)
      end
  end.

Definition syncDriveFiles (flt : Prisma.Faults)
  (files : list DriveFileData.t) (db0 : Prisma.Db) : FilesResult * Tally :=
  let s := fold_left (syncFile flt) files
             (mkTally 0 0 0 0 db0 [TxBegin]) in
  let s := mkTally (upserted s) (updated s) (skipped s) (errors s) (db s)
                   (ops s ++ [TxCommit]) in
  (mkFilesResult (upserted s) (updated s) (skipped s) (errors s)
                 (length files), s).

(** *** [syncDrivePermissions] *)

Definition drivePermissionData (permissionData : DrivePermission.t)
  : DrivePermission.t :=
  DrivePermission.mk
    (DrivePermission.id permissionData)
    (DrivePermission.fileId permissionData)
    (Js.or_str (Some (DrivePermission.type permissionData)) "user")
    (Js.or_str (Some (DrivePermission.role permissionData)) "reader")
    (Js.or_null (DrivePermission.emailAddress permissionData))
    (Js.or_null (DrivePermission.domain permissionData))
    (DrivePermission.allowFileDiscovery permissionData).

Definition syncPermission (flt : Prisma.Faults) (s : Tally)
  (permissionData : DrivePermission.t) : Tally :=
  let existingPermission :=
    Prisma.drivePermission_.findUnique (db s)
      (DrivePermission.id permissionData) in
  let data := drivePermissionData permissionData in
  match changeCheck (option_map DrivePermission.object existingPermission)
                    (DrivePermission.object data) with
  | Update =>
      match Prisma.drivePermission_.update flt (db s)
              (DrivePermission.id permissionData) data with
      | Some d => mkTally (upserted s) (S (updated s)) (skipped s) (errors s)
                          d (ops s ++ [PermissionUpdated data])
      | None => mkTally (upserted s) (updated s) (skipped s) (S (errors s))
                        (db s) (ops s)
      end
  | Skip => mkTally (upserted s) (updated s) (S (skipped s)) (errors s)
                    (db s) (ops s)
  | Create =>
      match Prisma.drivePermission_.create flt (db s) data with
      | Some d => mkTally (S (upserted s)) (updated s) (skipped s) (errors s)
                          d (ops s ++ [PermissionCreated data])
      | None => mkTally (upserted s) (updated s) (skipped s) (S (errors s))
                        (db s) (ops s)
      end
  end.

Definition syncDrivePermissions (flt : Prisma.Faults)
  (permissions : list DrivePermission.t) (files : list DriveFileData.t)
  (db0 : Prisma.Db) : PermissionsResult * Tally :=
  let cleaned := 0 in
  let validFileIds : gset string :=
    list_to_set (map DriveFileData.id files) in
  let validPermissions :=
    filter (fun p => DrivePermission.fileId p ∈ validFileIds) permissions in
  let s := fold_left (syncPermission flt) validPermissions
             (mkTally 0 0 0 0 db0 [TxBegin]) in
  let s := mkTally (upserted s) (updated s) (skipped s) (errors s) (db s)
                   (ops s ++ [TxCommit]) in
  (mkPermissionsResult (upserted s) (updated s) (skipped s) (errors s)
                       cleaned (length validPermissions), s).

(** *** The [POST] handler up to its statistics *)

Record SyncReport := mkReport {
  report_files : FilesResult;
  report_permissions : PermissionsResult;
  report_db : Prisma.Db
}.

Definition POST (flt : Prisma.Faults) (drive : Drive.t) (db0 : Prisma.Db)
  : option SyncReport :=
  match GoogleDriveService.syncAllData drive with
  | Some (files, allPermissions) =>
      let db1 := cleanupOrphanedRecords files db0 in
      let '(filesResult, s) := syncDriveFiles flt files db1 in
      let '(permissionsResult, s) :=
        syncDrivePermissions flt allPermissions files (db s) in
      Some (mkReport filesResult permissionsResult (db s))
  | None => None
  end.

(** *** [handleStartSync] of the [GET] handler *)

Record Response := mkResponse {
  status : nat;
  success : bool
}.

(** The runs in flight, each with its [folderId]: the promises of
    [startSync] that have not settled.  The handler itself keeps no record
    of them. *)
Definition InFlight := list (option string).

(** [constructed] is false when [new GoogleDriveSyncService()] throws (the
    credentials file cannot be read). *)
Definition handleStartSync (constructed : bool) (folderId : option string)
  (running : InFlight) : Response * InFlight :=
  if constructed
  then (mkResponse 200 true, running ++ [folderId])
  else (mkResponse 500 false, running).

End SyncServer.

(** ** Catalogues and databases for the examples *)

Module Example.

Import GoogleDriveSyncService.

(** The percentages of the progress events, in the order of emission. *)
Definition percents (l : list Emitted) : list Js.number :=
  omap (fun e => match e with
                 | progress e => Some (percent e)
                 | _ => None
                 end) l.

(** Every percentage is at least the one before it. *)
Fixpoint nondecreasing (l : list Js.number) : bool :=
  match l with
  | x :: (y :: _) as l' => Js.leb x y && nondecreasing l'
  | _ => true
  end.

Definition file (id : string) (modifiedTime : Z) : SchemaFile.t :=
  SchemaFile.mk id (Some ("name of " ++ id)%string) (Some "text/plain")
    (Some ["root"]) (Some 1024%Z) (Some 1000%Z) (Some modifiedTime) None.

Definition unnamed (id : string) : SchemaFile.t :=
  SchemaFile.mk id None (Some "text/plain") None None None None None.

Definition grant (id : string) : SchemaPermission.t :=
  SchemaPermission.mk id None None (Some (id ++ "@example.org")%string)
    None None.

Definition row (f : SchemaFile.t) : DriveFile.t :=
  driveFileData (toDriveFileData f).

(** A catalogue whose listing fits one page. *)
Definition catalogue (files : list SchemaFile.t)
  (grants : string -> option (list SchemaPermission.t)) : Drive.t :=
  Drive.mk (Some files, []) (Some files, []) grants.

Definition emptyDb : Prisma.Db := Prisma.mkDb [] [].

(** *** Three persisted entries, of which the catalogue still has two *)

Definition A := file "A" 1.
Definition B := file "B" 2.
Definition C := file "C" 3.

Definition dbABC : Prisma.Db :=
  Prisma.mkDb [row A; row B; row C]
    [drivePermissionData "A" (grant "pa");
     drivePermissionData "C" (grant "pc")].

Definition driveAB : Drive.t :=
  catalogue [A; B]
    (fun f => if String.eqb f "A" then Some [grant "pa"] else Some []).

(** *** Thirteen full pages *)

Definition numbered (n : nat) : SchemaFile.t :=
  file ("f" ++ NilEmpty.string_of_uint (Nat.to_uint n))%string (Z.of_nat n).

Definition page (k : nat) : list SchemaFile.t :=
  map numbered (seq (100 * k) 100).

Definition thirteenPages : Drive.listing :=
  (Some (page 0), map (fun k => Some (page k)) (seq 1 12)).

Definition drive1300 : Drive.t :=
  Drive.mk thirteenPages thirteenPages (fun _ => Some []).

(** *** Two entries shared with the same grantee *)

Definition driveShared : Drive.t :=
  catalogue [A; B] (fun _ => Some [grant "p"]).

Definition dbAB : Prisma.Db := Prisma.mkDb [row A; row B] [].

(** The write of the grant on [A] throws, the one on [B] does not. *)
Definition refusesOnA : Prisma.Faults :=
  Prisma.mkFaults (fun _ => false)
    (fun r => String.eqb (DrivePermission.fileId r) "A").

(** The write of the file [B] throws. *)
Definition refusesB : Prisma.Faults :=
  Prisma.mkFaults (fun r => String.eqb (DriveFile.id r) "B")
    (fun _ => false).

(** *** Ten entries, the grant listing of one of which throws *)

Definition ten : list SchemaFile.t := map numbered (seq 0 10).

Definition driveTen : Drive.t :=
  catalogue ten
    (fun f => if String.eqb f "f3" then None
              else Some [grant ("g" ++ f)%string]).

End Example.

(** ** Vocabulary of the properties *)

Module Spec.

Import GoogleDriveSyncService.

(** A fetched file is persisted as fetched unless its row is refused. *)
Definition settled (flt : Prisma.Faults) (files : list DriveFileData.t)
  (d : Prisma.Db) : Prop :=
  ∀ f, f ∈ files ->
    Prisma.driveFile_.findUnique d (DriveFileData.id f)
    = Some (driveFileData f)
    ∨ Prisma.refusesFile flt (driveFileData f) = true.

(** How the permission phase may move from one point to a later one: the
    set of processed ids grows, the file table stays, the rows of the
    processed ids stay, no refused row appears and the primary key is
    kept. *)
Definition advances (flt : Prisma.Faults)
  (a b : gset string * Prisma.Db) : Prop :=
  a.1 ⊆ b.1
  ∧ Prisma.driveFile b.2 = Prisma.driveFile a.2
  ∧ (∀ id, id ∈ a.1 ->
       Prisma.drivePermission_.findUnique b.2 id
       = Prisma.drivePermission_.findUnique a.2 id)
  ∧ (∀ r, Prisma.refusesPermission flt r = true ->
       r ∈ Prisma.drivePermission b.2 -> r ∈ Prisma.drivePermission a.2)
  ∧ (NoDup (Prisma.permissionIds a.2) -> NoDup (Prisma.permissionIds b.2)).

(** Every processed id has a row, and that row belongs to a persisted
    file. *)
Definition anchored (a : gset string * Prisma.Db) : Prop :=
  ∀ id, id ∈ a.1 ->
    ∃ r, Prisma.drivePermission_.findUnique a.2 id = Some r
         ∧ DrivePermission.fileId r ∈ Prisma.fileIds a.2.

(** [d] is [final] after a pruning that keeps the file table and at least
    the permissions of persisted files. *)
Definition pruned (d final : Prisma.Db) : Prop :=
  Prisma.driveFile d = Prisma.driveFile final
  ∧ (∀ r, r ∈ Prisma.drivePermission d -> r ∈ Prisma.drivePermission final)
  ∧ (∀ id r, Prisma.drivePermission_.findUnique final id = Some r ->
       DrivePermission.fileId r ∈ Prisma.fileIds final ->
       Prisma.drivePermission_.findUnique d id = Some r).






(** A field of the API that is absent or empty. *)
Definition missing (field : option string) : Prop :=
  field = None ∨ field = Some "".

(** An operation of the one-shot permission loop that, if it writes, writes
    a permission of one of the given files. *)
Definition withinFiles (fileIds : list string) (o : Op) : Prop :=
  match o with
  | PermissionCreated r | PermissionUpdated r =>
      DrivePermission.fileId r ∈ fileIds
  | TxBegin | TxCommit => True
  | FileCreated _ | FileUpdated _ => False
  end.

(** In the one-shot synchroniser: a row to write is persisted as it is,
    unless its write throws (for a permission: is refused or breaks the
    foreign key). *)
Definition filesPersisted (flt : Prisma.Faults) (rows : list DriveFile.t)
  (d : Prisma.Db) : Prop :=
  ∀ r, r ∈ rows ->
    Prisma.driveFile_.findUnique d (DriveFile.id r) = Some r
    ∨ Prisma.refusesFile flt r = true.

Definition permissionsPersisted (flt : Prisma.Faults)
  (rows : list DrivePermission.t) (d : Prisma.Db) : Prop :=
  ∀ r, r ∈ rows ->
    Prisma.drivePermission_.findUnique d (DrivePermission.id r) = Some r
    ∨ Prisma.refusesPermission flt r = true
    ∨ DrivePermission.fileId r ∉ Prisma.fileIds d.

(** Nothing in the database lies outside the fetched files. *)
Definition within (fileIds : list string) (d : Prisma.Db) : Prop :=
  (∀ r, r ∈ Prisma.driveFile d -> DriveFile.id r ∈ fileIds)
  ∧ (∀ p, p ∈ Prisma.drivePermission d -> DrivePermission.fileId p ∈ fileIds).

(** The ids of the permission rows written, in order. *)
Definition permissionWrites (ops : list Op) : list string :=
  omap (fun o => match o with
                 | PermissionCreated r | PermissionUpdated r =>
                     Some (DrivePermission.id r)
                 | _ => None
                 end) ops.

(** The permission writes so far are of distinct ids, all of them marked
    as processed. *)
Definition onceEach (a : gset string * t) : Prop :=
  NoDup (permissionWrites (ops a.2))
  ∧ ∀ id, id ∈ permissionWrites (ops a.2) -> id ∈ a.1.

(** The entries whose grant listing throws. *)
Definition throwing (drive : Drive.t) (fileIds : list string) : list string :=
  filter (fun f => Drive.permissions_list drive f = None) fileIds.

(** The same catalogue, where an entry whose grant listing throws has no
    grants instead. *)
Definition forgiving (drive : Drive.t) : Drive.t :=
  Drive.mk (Drive.countListing drive) (Drive.fetchListing drive)
    (fun f => match Drive.permissions_list drive f with
              | Some permissions => Some permissions
              | None => Some []
              end).

(** Two points of the permission phase that agree on everything but the
    brackets of empty transactions, the broadcasts, and [k] more errors on
    the left. *)
Definition alike (k : nat) (x y : gset string * t) : Prop :=
  x.1 = y.1
  ∧ db x.2 = db y.2
  ∧ processedPermissions x.2 = processedPermissions y.2
  ∧ totalPermissions x.2 = totalPermissions y.2
  ∧ writes (ops x.2) = writes (ops y.2)
  ∧ errors x.2 = errors y.2 + k.

(** The service when the file phase begins, and when the run is over. *)
Definition fetchedState (drive : Drive.t) (db0 : Prisma.Db) : t :=
  let c := getTotalFileCount drive (new db0) in
  (fetchLoop (Drive.fetchListing drive).1 (Drive.fetchListing drive).2 []
     (set_totalFiles c.1 c.2)).2.

Definition settledState (flt : Prisma.Faults) (drive : Drive.t)
  (db0 : Prisma.Db) (files : list SchemaFile.t) : t :=
  cleanupOrphanedData
    (syncAllPermissions flt drive
       (processFilesBatch flt (map toDriveFileData files)
          (fetchedState drive db0))).

End Spec.

(** ** The answer of [POST] and [verifyDataIntegrity]
    (src/src/routes/api/drive/sync/+server.ts) *)

Module SyncResult.

(** What [verifyDataIntegrity] returns.  Both numbers are counts of
    [prisma.drivePermission.count]; the reads of the model do not throw, so
    the answer of the [catch] block does not occur. *)
Record IntegrityCheck := mkIntegrityCheck {
  orphanedPermissions : nat;
  invalidFileReferences : nat;
  isConsistent : bool
}.

Definition verifyDataIntegrity (db : Prisma.Db) : IntegrityCheck :=
  let orphanedPermissions :=
    length (Prisma.drivePermission_.findMany_fileId_notIn db
              (Prisma.fileIds db)) in
  let allFileIds : gset string := list_to_set (Prisma.fileIds db) in
  let permissionsWithInvalidFiles :=
    length (Prisma.drivePermission_.findMany_fileId_notIn db
              (elements allFileIds)) in
  mkIntegrityCheck orphanedPermissions permissionsWithInvalidFiles
    (Nat.eqb orphanedPermissions 0).

(** The object [result] of [POST]: [sync.files], [sync.permissions],
    [sync.integrity] and [database]. *)
Record t := mk {
  files_total : nat;
  files_upserted : nat;
  files_updated : nat;
  files_skipped : nat;
  files_errors : nat;
  files_folders : nat;
  files_regularFiles : nat;
  permissions_total : nat;
  permissions_upserted : nat;
  permissions_updated : nat;
  permissions_skipped : nat;
  permissions_errors : nat;
  permissions_cleaned : nat;
  integrity : IntegrityCheck;
  totalDriveFiles : nat;
  totalDrivePermissions : nat
}.

(** [POST] with its whole answer: [None] is the answer with status 500 of
    the [catch] block, reached when the listing of the files throws.  The
    second component is the database afterwards. *)
Definition POST (flt : Prisma.Faults) (drive : Drive.t) (db0 : Prisma.Db)
  : option t * Prisma.Db :=
  match GoogleDriveService.syncAllData drive with
  | Some (files, allPermissions) =>
      let db1 := SyncServer.cleanupOrphanedRecords files db0 in
      let '(filesResult, s) := SyncServer.syncDriveFiles flt files db1 in
      let '(permissionsResult, s) :=
        SyncServer.syncDrivePermissions flt allPermissions files
          (SyncServer.db s) in
      let db := SyncServer.db s in
      let integrityCheck := verifyDataIntegrity db in
      (Some (mk (length files)
                (SyncServer.files_upserted filesResult)
                (SyncServer.files_updated filesResult)
                (SyncServer.files_skipped filesResult)
                (SyncServer.files_errors filesResult)
                (length (List.filter DriveFileData.isFolder files))
                (length (List.filter
                           (fun f => negb (DriveFileData.isFolder f)) files))
                (length allPermissions)
                (SyncServer.permissions_upserted permissionsResult)
                (SyncServer.permissions_updated permissionsResult)
                (SyncServer.permissions_skipped permissionsResult)
                (SyncServer.permissions_errors permissionsResult)
                (SyncServer.permissions_cleaned permissionsResult)
                integrityCheck
                (length (Prisma.driveFile db))
                (length (Prisma.drivePermission db))),
       db)
  | None => (None, db0)
  end.

End SyncResult.

(** ** The event stream of [handleProgressStream] *)

Module ProgressStream.

(** The [data:] of a message, as [JSON.parse] reads it on the other side. *)
Inductive Data :=
| Connected
| SyncStart
| Progress (type : EventType) (total done : nat) (percent : option Q)
| SyncComplete (stats : SyncStats)
| SyncError
| Ping.

(** [JSON.stringify] writes [NaN] and [Infinity] as [null]. *)
Definition JSON_number (x : Js.number) : option Q :=
  match x with
  | Js.Fin q => Some q
  | Js.NaN | Js.Infinity => None
  end.

Definition progressHandler (event : SyncProgressEvent) : Data :=
  Progress (type event) (total event) (done event)
    (JSON_number (percent event)).

Definition syncCompleteHandler (stats : SyncStats) : Data :=
  SyncComplete stats.

Definition syncErrorHandler : Data := SyncError.

(** What the listeners of a connected stream enqueue for one emission of
    [driveSyncEmitter]. *)
Definition enqueued (e : Emitted) : Data :=
  match e with
  | progress event => progressHandler event
  | sync_complete stats => syncCompleteHandler stats
  | sync_error => syncErrorHandler
  end.

End ProgressStream.

(** ** The sync page (src/unnamed/part_004) *)

Module SyncPage.

Inductive SyncPhase :=
| idle
| counting
| loading
| processing
| permissions
| complete
| error.

#[global] Instance SyncPhase_eq_dec : EqDecision SyncPhase.
Proof. solve_decision. Defined.

(** The state variables of the component, but for the text of
    [currentMessage]; [eventSource] is whether a connection is held. *)
Record t := mk {
  isSyncing : bool;
  progress : Q;
  total : nat;
  done : nat;
  syncStats : option SyncStats;
  eventSource : bool;
  currentPhase : SyncPhase
}.

(** [event.percent || 0]: [null] and [0] are falsy. *)
Definition or_zero (percent : option Q) : Q :=
  match percent with
  | Some q => if Qeq_bool q 0 then 0 else q
  | None => 0
  end.

(** [event.percent < 60]: [null] is compared as [0]. *)
Definition below60 (percent : option Q) : bool :=
  match percent with
  | Some q => negb (Qle_bool 60 q)
  | None => true
  end.

Definition handleProgressEvent (event : ProgressStream.Data) (ui : t) : t :=
  match event with
  | ProgressStream.Connected => ui
  | ProgressStream.SyncStart =>
      mk (isSyncing ui) (progress ui) (total ui) (done ui) (syncStats ui)
         (eventSource ui) counting
  | ProgressStream.Progress page_loaded total done percent =>
      mk (isSyncing ui) (or_zero percent) total done (syncStats ui)
         (eventSource ui) loading
  | ProgressStream.Progress file_processed total done percent =>
      mk (isSyncing ui) (or_zero percent) total done (syncStats ui)
         (eventSource ui)
         (if below60 percent then processing else permissions)
  | ProgressStream.SyncComplete stats =>
      mk false 100 (total ui) (total ui) (Some stats) false complete
  | ProgressStream.SyncError =>
      mk false (progress ui) (total ui) (done ui) (syncStats ui) false error
  | ProgressStream.Ping => ui
  end.

(** The page after the messages of a stream, in order. *)
Definition received (events : list ProgressStream.Data) (ui : t) : t :=
  fold_left (fun ui event => handleProgressEvent event ui) events ui.

(** [startSync]: [ok] is whether the start request is answered with a 2xx
    status. *)
Definition startSync (ok : bool) (ui : t) : t :=
  if isSyncing ui then ui
  else if ok then mk true 0 0 0 None true counting
  else mk false 0 0 0 None (eventSource ui) error.

End SyncPage.

(** ** Catalogues for the further examples *)

Module Fixture.

Import Example.

(** The second request of the fetch throws; the count is complete. *)
Definition driveBroken : Drive.t :=
  Drive.mk (Some [A; B], []) (Some [A], [None])
    (fun _ => Some [grant "pa"]).

(** The count throws on its second request; the fetch is complete. *)
Definition driveUncounted : Drive.t :=
  Drive.mk (Some [A], [None]) (Some [A; B], [])
    (fun _ => Some [grant "p"]).

(** An empty file and a folder. *)
Definition empty : SchemaFile.t :=
  SchemaFile.mk "E" (Some "empty.txt") (Some "text/plain") (Some ["root"])
    (Some 0%Z) (Some 1000%Z) (Some 2000%Z) None.

Definition folder : SchemaFile.t :=
  SchemaFile.mk "D" (Some "docs") (Some "application/vnd.google-apps.folder")
    None None (Some 1000%Z) (Some 2000%Z) None.

Definition driveFolder : Drive.t :=
  catalogue [folder; A]
    (fun f => if String.eqb f "A" then None else Some [grant "pd"]).

(** [A] is shared with two grantees; the catalogue shows only ["pa"]. *)
Definition dbRevoked : Prisma.Db :=
  Prisma.mkDb [row A; row B]
    [GoogleDriveSyncService.drivePermissionData "A" (grant "pa");
     GoogleDriveSyncService.drivePermissionData "A" (grant "old")].

(** What [syncAllData] collects from the catalogues of [A] and [B]: the
    two files, and a grant of [Example.grant] as listed for a file. *)
Definition listedAB : list DriveFileData.t :=
  default [] (GoogleDriveService.listAllFiles (Some [A; B])).

Definition collected (id fileId : string) : DrivePermission.t :=
  DrivePermission.mk id fileId "" "" (Some (id ++ "@example.org")%string)
    None false.

(** The page of a browser that has just started a run. *)
Definition started : SyncPage.t :=
  SyncPage.startSync true (SyncPage.mk false 0 0 0 None false SyncPage.idle).

End Fixture.

(** ** Vocabulary of the further properties *)

Module Further.

Import GoogleDriveSyncService.

(** [lo <= x1 <= ... <= xn <= hi], all of them finite. *)
Fixpoint climbs (lo : Q) (l : list Js.number) (hi : Q) : Prop :=
  match l with
  | [] => (lo <= hi)%Q
  | x :: l' => ∃ q, x = Js.Fin q ∧ (lo <= q)%Q ∧ climbs q l' hi
  end.

(** The number of a finite percentage, [d] for the others. *)
Definition finite (d : Q) (x : Js.number) : Q :=
  match x with
  | Js.Fin q => q
  | _ => d
  end.

(** The three percentages of the engine, as functions of their counter. *)
Definition fetchPercent (totalFiles done : nat) : Js.number :=
  Js.Math_min (Js.times (Js.div done totalFiles) 60) 60.

Definition filePercent (totalFiles processedFiles : nat) : Js.number :=
  Js.Math_min (Js.plus 60 (Js.times (Js.div processedFiles totalFiles) 35)) 95.

Definition permissionPercent (n i : nat) : Js.number :=
  Js.Math_min (Js.plus 95 (Js.times (Js.div i n) 5)) 100.

Definition countPercent (totalCount : nat) : Js.number :=
  Js.Math_min (Js.times (Js.div totalCount 1000) 100) 5.

(** From [s] to [s'] the service has broadcast the progress events
    [events] and nothing else. *)
Definition emits (s s' : t) (events : list SyncProgressEvent) : Prop :=
  emitted s' = emitted s ++ map progress events.

(** The last thing a run emits. *)
Definition terminal (result : option SyncStats) : Emitted :=
  match result with
  | Some stats => sync_complete stats
  | None => sync_error
  end.

(** The ids of the grants that the listings of the given entries show, in
    order, with repetitions. *)
Definition listedGrants (drive : Drive.t) (fileIds : list string)
  : list string :=
  concat (map (fun f => match Drive.permissions_list drive f with
                        | Some permissions =>
                            map SchemaPermission.id permissions
                        | None => []
                        end) fileIds).

(** The grants that the listings of the given entries show, each with its
    entry, in the order of the entries and of each listing; and the first
    of them with a given id. *)
Definition occurrences (drive : Drive.t) (fileIds : list string)
  : list (string * SchemaPermission.t) :=
  concat (map (fun f => match Drive.permissions_list drive f with
                        | Some permissions => map (pair f) permissions
                        | None => []
                        end) fileIds).

Definition firstOccurrence (drive : Drive.t) (fileIds : list string)
  (id : string) : option (string * SchemaPermission.t) :=
  List.find (fun o => String.eqb (SchemaPermission.id o.2) id)
    (occurrences drive fileIds).

(** The processed ids are the ids of the occurrences [seen] so far, and the
    row of each is the one of its first occurrence. *)
Definition firstWins (occ : list (string * SchemaPermission.t))
  (acc : gset string * t) : Prop :=
  ∀ id,
    match List.find (fun o => String.eqb (SchemaPermission.id o.2) id) occ with
    | Some (fileId, p) =>
        id ∈ acc.1
        ∧ Prisma.drivePermission_.findUnique (db acc.2) id
          = Some (drivePermissionData fileId p)
    | None => id ∉ acc.1
    end.

(** What holds in the loop of [syncAllPermissions] that started from [s],
    after the entries [done]: the file table is as it was; the processed
    ids are listed ids, as many as [processedPermissions] has grown, and
    all the listed ids when no write is refused; [totalPermissions] is the
    number of listed grants; the row of a processed id holds one of its
    listed occurrences; the row of an id that is not listed is as it was;
    no id has lost its row. *)
Definition phaseInvariant (flt : Prisma.Faults) (drive : Drive.t) (s : t)
  (done : list string) (acc : gset string * t) : Prop :=
  Prisma.driveFile (db acc.2) = Prisma.driveFile (db s)
  ∧ acc.1 ⊆ list_to_set (listedGrants drive done)
  ∧ processedPermissions acc.2 = processedPermissions s + size acc.1
  ∧ totalPermissions acc.2 = length (listedGrants drive done)
  ∧ ((∀ row, Prisma.refusesPermission flt row = false) ->
     list_to_set (listedGrants drive done) ⊆ acc.1)
  ∧ (∀ id, id ∈ acc.1 ->
       ∃ fileId permissions p,
         fileId ∈ done
         ∧ Drive.permissions_list drive fileId = Some permissions
         ∧ p ∈ permissions ∧ SchemaPermission.id p = id
         ∧ Prisma.drivePermission_.findUnique (db acc.2) id
           = Some (drivePermissionData fileId p))
  ∧ (∀ id, id ∉ listedGrants drive done ->
       Prisma.drivePermission_.findUnique (db acc.2) id
       = Prisma.drivePermission_.findUnique (db s) id)
  ∧ (∀ id, id ∈ Prisma.permissionIds (db s) ->
           id ∈ Prisma.permissionIds (db acc.2)).

End Further.

(** ** The engine where it runs: PostgreSQL and the listeners of the stream

    [GoogleDriveSyncService] above follows the text of the engine and
    nothing else: a write that throws leaves its transaction usable, a
    broadcast returns, and [findMany] answers in the order of the table.
    That text decides none of the three.

    - The tables are PostgreSQL tables (src/unnamed/part_005).  A statement
      that fails there aborts the enclosing [$transaction]: every later
      statement of the transaction fails too, [findUnique] included, and
      the commit discards what the transaction had written.  A row that
      the client refuses before it sends a statement aborts nothing.
    - [driveSyncEmitter.emit] runs the listeners of [handleProgressStream]
      synchronously.  Their [cleanup] is returned from [start], where
      nothing calls it, so a listener outlives its client and
      [controller.enqueue] throws on the closed stream: a broadcast can
      throw into the engine.
    - [findMany] has no [orderBy]: the rows come in the order the database
      chooses (PostgreSQL: an updated row after the others).

    [Deployed] is the engine with the three made explicit, on the same
    service object and the same tables. *)

Module Deployed.

Import GoogleDriveSyncService.

Record Env := mkEnv {
  (** the rows that the client refuses before a statement is sent *)
  refused : Prisma.Faults;
  (** the rows whose statement fails in the database *)
  failing : Prisma.Faults;
  (** whether a listener throws on the broadcast that follows [k] earlier
      broadcasts of the run *)
  listenerThrows : nat -> bool;
  (** the order in which [findMany] returns the ids of table [DriveFile] *)
  findMany : list string -> list string
}.

(** What a write inside a transaction comes to. *)
Inductive Outcome (A : Type) :=
| Done (a : A)
| Rejected
| Failed.

Arguments Done {A} a.
Arguments Rejected {A}.
Arguments Failed {A}.

(** A statement with its row: refused by the client, failed in the
    database (by the row itself, or by a key of the table), or executed. *)
Definition statement {A} (refusedByClient failsInDatabase : bool)
  (result : option A) : Outcome A :=
  if refusedByClient then Rejected
  else if failsInDatabase then Failed
  else match result with
       | Some a => Done a
       | None => Failed
       end.

(** The database part of the [try] block of [processFilesBatch]. *)
Definition upsertFile (env : Env) (db : Prisma.Db) (data : DriveFile.t)
  : Outcome (Prisma.Db * list Op) :=
  let existingFile := Prisma.driveFile_.findUnique db (DriveFile.id data) in
  match changeCheck (option_map DriveFile.object existingFile)
                    (DriveFile.object data) with
  | Update =>
      statement (Prisma.refusesFile (refused env) data)
        (Prisma.refusesFile (failing env) data)
        (option_map (fun d => (d, [FileUpdated data]))
           (Prisma.driveFile_.update Prisma.noFaults db (DriveFile.id data)
              data))
  | Create =>
      statement (Prisma.refusesFile (refused env) data)
        (Prisma.refusesFile (failing env) data)
        (option_map (fun d => (d, [FileCreated data]))
           (Prisma.driveFile_.create Prisma.noFaults db data))
  | Skip => Done (db, [])
  end.

(** The database part of the inner [try] block of [syncAllPermissions]. *)
Definition upsertPermission (env : Env) (db : Prisma.Db)
  (data : DrivePermission.t) : Outcome (Prisma.Db * list Op) :=
  let existingPermission :=
    Prisma.drivePermission_.findUnique db (DrivePermission.id data) in
  match changeCheck (option_map DrivePermission.object existingPermission)
                    (DrivePermission.object data) with
  | Update =>
      statement (Prisma.refusesPermission (refused env) data)
        (Prisma.refusesPermission (failing env) data)
        (option_map (fun d => (d, [PermissionUpdated data]))
           (Prisma.drivePermission_.update Prisma.noFaults db
              (DrivePermission.id data) data))
  | Create =>
      statement (Prisma.refusesPermission (refused env) data)
        (Prisma.refusesPermission (failing env) data)
        (option_map (fun d => (d, [PermissionCreated data]))
           (Prisma.drivePermission_.create Prisma.noFaults db data))
  | Skip => Done (db, [])
  end.

(** [driveSyncEmitter.emit]: the event is emitted; [true] when a listener
    throws on it. *)
Definition emit (env : Env) (e : Emitted) (s : t) : bool * t :=
  (listenerThrows env (length (emitted s)), GoogleDriveSyncService.emit e s).

Definition broadcastProgress (env : Env) (e : SyncProgressEvent) (s : t)
  : bool * t :=
  emit env (progress e) s.

(** *** [getTotalFileCount] *)

(** The loop is inside the [try]: a request that throws and a listener
    that throws both end it with [None]. *)
Fixpoint countLoop (env : Env) (r : Drive.response)
  (rest : list Drive.response) (totalCount : nat) (s : t) : option nat * t :=
  match r with
  | None => (None, s)
  | Some files =>
      let totalCount := totalCount + length files in
      let '(threw, s) :=
        broadcastProgress env
          (mkEvent page_loaded totalCount 0
             (Js.Math_min (Js.times (Js.div totalCount 1000) 100) 5))
          s in
      if threw then (None, s)
      else match rest with
           | [] => (Some totalCount, s)
           | r' :: rest' => countLoop env r' rest' totalCount s
           end
  end.

Definition getTotalFileCount (env : Env) (drive : Drive.t) (s : t)
  : nat * t :=
  let '(r, rest) := Drive.countListing drive in
  match countLoop env r rest 0 s with
  | (Some totalCount, s') => (totalCount, s')
  | (None, s') => (0, s')
  end.

(** *** [syncDriveFilesWithPagination] and [processFilesBatch] *)

(** No [try] here: [None] when a request or a listener throws. *)
Fixpoint fetchLoop (env : Env) (r : Drive.response)
  (rest : list Drive.response) (allFiles : list SchemaFile.t) (s : t)
  : option (list SchemaFile.t) * t :=
  match r with
  | None => (None, s)
  | Some files =>
      let allFiles := allFiles ++ files in
      let '(threw, s) :=
        broadcastProgress env
          (mkEvent page_loaded (totalFiles s) (length allFiles)
             (Js.Math_min
                (Js.times (Js.div (length allFiles) (totalFiles s)) 60)
                60))
          s in
      if threw then (None, s)
      else match rest with
           | [] => (Some allFiles, s)
           | r' :: rest' => fetchLoop env r' rest' allFiles s
           end
  end.

(** The body of [for (const fileData of batch)] inside the transaction;
    the flag tells whether the transaction is aborted.  In an aborted
    transaction [findUnique] throws.  The broadcast is inside the [try],
    after [processedFiles++]. *)
Definition processFile (env : Env) (acc : bool * t)
  (fileData : DriveFileData.t) : bool * t :=
  let '(aborted, s) := acc in
  if aborted then (true, set_errors (S (errors s)) s)
  else
    match upsertFile env (db s) (driveFileData fileData) with
    | Done (d, o) =>
        let s := mk (totalFiles s) (S (processedFiles s)) (totalPermissions s)
                    (processedPermissions s) (errors s) d (emitted s)
                    (ops s ++ o) in
        let '(threw, s) :=
          broadcastProgress env
            (mkEvent file_processed (totalFiles s) (processedFiles s)
               (Js.Math_min
                  (Js.plus 60
                     (Js.times (Js.div (processedFiles s) (totalFiles s)) 35))
                  95))
            s in
        (false, if threw then set_errors (S (errors s)) s else s)
    | Rejected => (false, set_errors (S (errors s)) s)
    | Failed => (true, set_errors (S (errors s)) s)
    end.

(** [prisma.$transaction(async (tx) => { for ... })] for one batch: the
    callback returns, the commit is asked for, and the database answers an
    aborted transaction by rolling it back. *)
Definition processBatch (env : Env) (s : t) (batch : list DriveFileData.t)
  : t :=
  let '(aborted, s') :=
    fold_left (processFile env) batch (false, record TxBegin s) in
  record TxCommit (if aborted then set_db (db s) s' else s').

Definition processFilesBatch (env : Env) (files : list DriveFileData.t)
  (s : t) : t :=
  fold_left (processBatch env) (batchesOf files) s.

Definition syncDriveFilesWithPagination (env : Env) (drive : Drive.t)
  (s : t) : bool * t :=
  let '(r, rest) := Drive.fetchListing drive in
  match fetchLoop env r rest [] s with
  | (Some allFiles, s') =>
      (true, processFilesBatch env (map toDriveFileData allFiles) s')
  | (None, s') => (false, s')
  end.

(** *** [syncAllPermissions] *)

(** The body of [for (const permission of permissions)] inside the
    transaction of a file.  The test of [processedPermissionIds] comes
    before the [try] and asks nothing of the database. *)
Definition processPermission (env : Env) (fileId : string)
  (acc : bool * (gset string * t)) (permission : SchemaPermission.t)
  : bool * (gset string * t) :=
  let '(aborted, (processedPermissionIds, s)) := acc in
  if decide (SchemaPermission.id permission ∈ processedPermissionIds)
  then acc
  else if aborted
  then (true, (processedPermissionIds, set_errors (S (errors s)) s))
  else
    match upsertPermission env (db s)
            (drivePermissionData fileId permission) with
    | Done (d, o) =>
        (false,
         ({[SchemaPermission.id permission]} ∪ processedPermissionIds,
          mk (totalFiles s) (processedFiles s) (totalPermissions s)
             (S (processedPermissions s)) (errors s) d (emitted s)
             (ops s ++ o)))
    | Rejected =>
        (false, (processedPermissionIds, set_errors (S (errors s)) s))
    | Failed =>
        (true, (processedPermissionIds, set_errors (S (errors s)) s))
    end.

(** The body of [for (let i = 0; i < allFiles.length; i++)].  The set
    [processedPermissionIds] is not part of the transaction: an id added
    before the transaction aborted stays in it.  The broadcast is inside
    the outer [try]. *)
Definition permissionsOfFile (env : Env) (drive : Drive.t) (n : nat)
  (acc : gset string * t) (file : nat * string) : gset string * t :=
  let '(i, fileId) := file in
  let '(processedPermissionIds, s) := acc in
  match Drive.permissions_list drive fileId with
  | None => (processedPermissionIds, set_errors (S (errors s)) s)
  | Some permissions =>
      let s :=
        set_totalPermissions (totalPermissions s + length permissions) s in
      let '(aborted, (processedPermissionIds, s')) :=
        fold_left (processPermission env fileId) permissions
          (false, (processedPermissionIds, record TxBegin s)) in
      let s := record TxCommit (if aborted then set_db (db s) s' else s') in
      let '(threw, s) :=
        broadcastProgress env
          (mkEvent file_processed n (i + 1)
             (Js.Math_min (Js.plus 95 (Js.times (Js.div i n) 5)) 100))
          s in
      (processedPermissionIds,
       if threw then set_errors (S (errors s)) s else s)
  end.

Definition syncAllPermissions (env : Env) (drive : Drive.t) (s : t) : t :=
  let allFiles := findMany env (Prisma.fileIds (db s)) in
  let s := set_totalPermissions 0 s in
  snd (fold_left (permissionsOfFile env drive (length allFiles))
         (imap pair allFiles) (∅, s)).

(** *** [startSync]

    [broadcastSyncComplete] is inside the [try]: when a listener throws on
    it, the [catch] broadcasts [sync_error] and the run throws. *)
Definition startSync (env : Env) (drive : Drive.t) (db0 : Prisma.Db)
  : option SyncStats * t :=
  let s := new db0 in
  let '(n, s) := getTotalFileCount env drive s in
  let s := set_totalFiles n s in
  match syncDriveFilesWithPagination env drive s with
  | (true, s) =>
      let s := syncAllPermissions env drive s in
      let s := cleanupOrphanedData s in
      let stats := getSyncStats s in
      let '(threw, s) := emit env (sync_complete stats) s in
      if threw then (None, snd (emit env sync_error s))
      else (Some stats, s)
  | (false, s) => (None, snd (emit env sync_error s))
  end.

(** *** Environments *)

(** No listener throws. *)
Definition quiet (env : Env) : Prop :=
  ∀ k, listenerThrows env k = false.

(** [findMany] returns the rows of the table, in some order. *)
Definition ordered (env : Env) : Prop :=
  ∀ ids, findMany env ids ≡ₚ ids.

(** No file row, no permission row is refused or fails. *)
Definition acceptsFiles (env : Env) : Prop :=
  ∀ row, Prisma.refusesFile (refused env) row = false
         ∧ Prisma.refusesFile (failing env) row = false.

Definition acceptsPermissions (env : Env) : Prop :=
  ∀ row, Prisma.refusesPermission (refused env) row = false
         ∧ Prisma.refusesPermission (failing env) row = false.

(** The environment that [GoogleDriveSyncService] stands for: every
    refusal comes from the client, no listener throws, and [findMany]
    answers in the order of the table. *)
Definition textual (flt : Prisma.Faults) : Env :=
  mkEnv flt Prisma.noFaults (fun _ => false) (fun ids => ids).

(** Whether the write of a record fails in the database, and whether the
    client refuses it, when the table holds [d]. *)
Definition fails (env : Env) (d : Prisma.Db) (fileData : DriveFileData.t)
  : bool :=
  match upsertFile env d (driveFileData fileData) with
  | Failed => true
  | _ => false
  end.

Definition rejects (env : Env) (d : Prisma.Db) (fileData : DriveFileData.t)
  : bool :=
  match upsertFile env d (driveFileData fileData) with
  | Rejected => true
  | _ => false
  end.

(** The transaction of a batch brackets its writes. *)
Definition bracket (inner : list Op) : list Op :=
  TxBegin :: inner ++ [TxCommit].

(** No listener throws on the [n] broadcasts that follow the first [k]. *)
Definition quietFor (env : Env) (k n : nat) : bool :=
  forallb (fun i => negb (listenerThrows env i)) (seq k n).

(** The number of requests that read a listing to its end. *)
Definition pages (l : Drive.listing) : nat := S (length (snd l)).

(** The service when the file phase begins, and when the pruning is
    over. *)
Definition fetchedState (env : Env) (drive : Drive.t) (db0 : Prisma.Db)
  : t :=
  let c := getTotalFileCount env drive (new db0) in
  (fetchLoop env (Drive.fetchListing drive).1 (Drive.fetchListing drive).2 []
     (set_totalFiles c.1 c.2)).2.

Definition settledState (env : Env) (drive : Drive.t) (db0 : Prisma.Db)
  (files : list SchemaFile.t) : t :=
  cleanupOrphanedData
    (syncAllPermissions env drive
       (processFilesBatch env (map toDriveFileData files)
          (fetchedState env drive db0))).

(** Two points of the permission phase that agree on everything but the
    brackets of empty transactions, the broadcasts and the errors; where
    no listener throws, the left one has [k] more errors. *)
Definition alike (env : Env) (k : nat) (x y : gset string * t) : Prop :=
  x.1 = y.1
  ∧ db x.2 = db y.2
  ∧ processedPermissions x.2 = processedPermissions y.2
  ∧ totalPermissions x.2 = totalPermissions y.2
  ∧ writes (ops x.2) = writes (ops y.2)
  ∧ (quiet env -> errors x.2 = errors y.2 + k).

(** The persisted state equals the fetched state: every fetched file has
    its row as fetched, and every grant id that the listing of a persisted
    entry shows has the row of its first occurrence, in the order in which
    [findMany] returns the entries (an id is the key of one row, so of the
    entries that share a grantee one only is recorded). *)
Definition filesPersisted (files : list SchemaFile.t) (d : Prisma.Db)
  : Prop :=
  ∀ f, f ∈ files ->
    Prisma.driveFile_.findUnique d (SchemaFile.id f)
    = Some (driveFileData (toDriveFileData f)).

Definition grantsPersisted (env : Env) (drive : Drive.t) (d : Prisma.Db)
  : Prop :=
  ∀ id fileId p,
    Further.firstOccurrence drive (findMany env (Prisma.fileIds d)) id
    = Some (fileId, p) ->
    Prisma.drivePermission_.findUnique d id
    = Some (drivePermissionData fileId p).

End Deployed.

(** ** Environments and catalogues for the examples of the engine where it
    runs *)

Module Scenario.

Import Example.

(** Nothing is refused, nothing fails, no listener throws, [findMany]
    answers in the order of the table. *)
Definition plain : Deployed.Env := Deployed.textual Prisma.noFaults.

(** The statement that writes [B] fails in the database. *)
Definition failsB : Deployed.Env :=
  Deployed.mkEnv Prisma.noFaults refusesB (fun _ => false) (fun ids => ids).

(** The client refuses the row of [B] before it sends a statement. *)
Definition rejectsB : Deployed.Env := Deployed.textual refusesB.

(** A listener throws on the broadcast that follows [k] others. *)
Definition deafAt (k : nat) : Deployed.Env :=
  Deployed.mkEnv Prisma.noFaults Prisma.noFaults (Nat.eqb k) (fun ids => ids).

(** [findMany] returns the entries in the reverse of the order of the
    table. *)
Definition reversed : Deployed.Env :=
  Deployed.mkEnv Prisma.noFaults Prisma.noFaults (fun _ => false)
    (@List.rev string).

(** The catalogue of [A], [B] and [C], none of them shared. *)
Definition driveABC : Drive.t := catalogue [A; B; C] (fun _ => Some []).

(** The three records of its one batch. *)
Definition recordA : DriveFileData.t :=
  GoogleDriveSyncService.toDriveFileData A.
Definition recordB : DriveFileData.t :=
  GoogleDriveSyncService.toDriveFileData B.
Definition recordC : DriveFileData.t :=
  GoogleDriveSyncService.toDriveFileData C.

End Scenario.

(** * Properties *)

(** ** Objects and the change check *)

Section ObjectFacts.

Implicit Types (o e d : Js.object) (k : string) (v : Js.value).






Lemma keys_set_in o k v : k ∈ Js.keys o -> Js.keys (Js.set o k v) = Js.keys o.
Proof.
  induction o as [|[k0 v0] o IH]; simpl; intros Hin.
  - by apply elem_of_nil in Hin.
  - destruct (String.eqb_spec k0 k) as [->|Hne]; simpl; [done|].
    f_equal. apply IH. apply elem_of_cons in Hin as [?|?]; congruence.
Qed.






Lemma JSON_stringify_inj o o' :
  Js.JSON_stringify o = Js.JSON_stringify o' -> o = o'.
Proof.
  revert o'. induction o as [|[k v] o IH]; intros [|[k' v'] o']; simpl;
    try discriminate; [done|].
  intros [= Hk Hv Hr]. f_equal; [|auto].
  f_equal; [done|]. destruct v, v'; simpl in Hv; congruence.
Qed.




End ObjectFacts.

(** The nine keys of a file row and the seven of a permission row are
    distinct. *)
Lemma DriveFile_keys r : NoDup (Js.keys (DriveFile.object r)).
Proof. unfold Js.keys. simpl. apply (bool_decide_unpack _). by vm_compute. Qed.

Lemma DrivePermission_keys r : NoDup (Js.keys (DrivePermission.object r)).
Proof. unfold Js.keys. simpl. apply (bool_decide_unpack _). by vm_compute. Qed.

Lemma file_changeCheck (r data : DriveFile.t) :
  changeCheck (Some (DriveFile.object r)) (DriveFile.object data)
  = if decide (r = data) then Skip else Update.
Proof.
  unfold changeCheck, hasChanges.
  destruct (decide (r = data)) as [->|Hne].
  - rewrite bool_decide_eq_true_2; [done|]. by destruct data.
  - rewrite bool_decide_eq_false_2; [done|].
    intros H. apply JSON_stringify_inj in H. apply Hne.
    destruct r, data. cbn in H. injection H. intros.
    repeat match goal with
           | H : DriveFile.opt _ ?a = DriveFile.opt _ ?b |- _ =>
               destruct a, b; simpl in H; try discriminate H;
               try injection H as H
           end.
    all: congruence.
Qed.

Lemma permission_changeCheck (r data : DrivePermission.t) :
  changeCheck (Some (DrivePermission.object r)) (DrivePermission.object data)
  = if decide (r = data) then Skip else Update.
Proof.
  unfold changeCheck, hasChanges.
  destruct (decide (r = data)) as [->|Hne].
  - rewrite bool_decide_eq_true_2; [done|]. by destruct data.
  - rewrite bool_decide_eq_false_2; [done|].
    intros H. apply JSON_stringify_inj in H. apply Hne.
    destruct r, data. cbn in H. injection H. intros.
    repeat match goal with
           | H : DriveFile.opt _ ?a = DriveFile.opt _ ?b |- _ =>
               destruct a, b; simpl in H; try discriminate H;
               try injection H as H
           end.
    all: congruence.
Qed.

(** ** Tables keyed by [id] *)

Section Keyed.

Context {A : Type} (key : A -> string).

Implicit Types (l : list A) (id : string) (r data : A).

Lemma find_Some_elem l id r :
  List.find (fun r => String.eqb (key r) id) l = Some r ->
  r ∈ l ∧ key r = id.
Proof.
  induction l as [|x l IH]; simpl; [done|].
  destruct (String.eqb_spec (key x) id) as [Hx|Hx].
  - intros [= ->]. split; [left|done].
  - intros H. destruct (IH H). split; [by right|done].
Qed.

Lemma find_None_keys l id :
  List.find (fun r => String.eqb (key r) id) l = None <-> id ∉ map key l.
Proof.
  induction l as [|x l IH]; simpl.
  - split; [intros _; apply not_elem_of_nil|done].
  - destruct (String.eqb_spec (key x) id) as [Hx|Hx].
    + split; [done|]. intros H. exfalso. apply H. rewrite Hx. left.
    + rewrite IH, not_elem_of_cons. split; [by split|by intros [_ ?]].
Qed.

Lemma find_elem l r :
  NoDup (map key l) -> r ∈ l ->
  List.find (fun x => String.eqb (key x) (key r)) l = Some r.
Proof.
  induction l as [|x l IH]; simpl; intros Hnd Hin.
  - by apply elem_of_nil in Hin.
  - apply NoDup_cons in Hnd as [Hx Hnd].
    apply elem_of_cons in Hin as [->|Hin].
    + by rewrite String.eqb_refl.
    + destruct (String.eqb_spec (key x) (key r)) as [He|He]; [|auto].
      exfalso. apply Hx. rewrite He. by apply list_elem_of_fmap_2.
Qed.

Lemma find_snoc l data id :
  List.find (fun r => String.eqb (key r) id) (l ++ [data])
  = match List.find (fun r => String.eqb (key r) id) l with
    | Some r => Some r
    | None => if String.eqb (key data) id then Some data else None
    end.
Proof.
  induction l as [|x l IH]; simpl; [done|].
  by destruct (String.eqb (key x) id).
Qed.

Lemma keys_replace l id data :
  key data = id -> map key (Prisma.replace key id data l) = map key l.
Proof.
  intros Hk. unfold Prisma.replace. rewrite map_map. apply map_ext.
  intros r. by destruct (String.eqb_spec (key r) id) as [->|].
Qed.

Lemma find_replace l id data id' :
  key data = id ->
  List.find (fun r => String.eqb (key r) id') (Prisma.replace key id data l)
  = if String.eqb id id'
    then option_map (fun _ => data)
           (List.find (fun r => String.eqb (key r) id) l)
    else List.find (fun r => String.eqb (key r) id') l.
Proof.
  intros Hk. induction l as [|x l IH]; simpl.
  - by destruct (String.eqb id id').
  - destruct (String.eqb_spec (key x) id) as [Hx|Hx].
    + rewrite Hk. destruct (String.eqb_spec id id') as [->|Hne]; [done|].
      rewrite IH. destruct (String.eqb_spec (key x) id'); congruence.
    + rewrite IH. destruct (String.eqb_spec id id') as [<-|Hne].
      * by destruct (String.eqb_spec (key x) id).
      * done.
Qed.

Lemma elem_replace l id data r :
  r ∈ Prisma.replace key id data l -> r = data ∨ r ∈ l.
Proof.
  unfold Prisma.replace. intros (x & -> & Hx)%list_elem_of_fmap.
  destruct (String.eqb (key x) id); auto.
Qed.

Lemma replace_absent l id data :
  id ∉ map key l -> Prisma.replace key id data l = l.
Proof.
  induction l as [|x l IH]; simpl; intros H; [done|].
  apply not_elem_of_cons in H as [Hne H].
  destruct (String.eqb_spec (key x) id); [congruence|]. by rewrite IH.
Qed.

(** A selection keeps what a look-up finds, when the found row passes. *)
Lemma find_filter (P : A -> Prop) `{!∀ x, Decision (P x)} l id r :
  List.find (fun r => String.eqb (key r) id) l = Some r -> P r ->
  List.find (fun r => String.eqb (key r) id) (filter P l) = Some r.
Proof.
  induction l as [|x l IH]; simpl; [done|].
  destruct (String.eqb_spec (key x) id) as [Hx|Hx].
  - intros [= ->] Hr. rewrite filter_cons_True by done. simpl.
    rewrite <- Hx. by rewrite String.eqb_refl.
  - intros Hf Hr. destruct (decide (P x)).
    + rewrite filter_cons_True by done. simpl.
      destruct (String.eqb_spec (key x) id); [done|]. auto.
    + rewrite filter_cons_False by done. auto.
Qed.

End Keyed.

(** ** The two upserts *)

Section Upsert.

Import GoogleDriveSyncService.

Variable flt : Prisma.Faults.

Lemma upsertFile_spec db data :
  upsertFile flt db data
  = match Prisma.driveFile_.findUnique db (DriveFile.id data) with
    | None =>
        if Prisma.refusesFile flt data then None
        else Some (Prisma.mkDb (Prisma.driveFile db ++ [data])
                               (Prisma.drivePermission db),
                   [FileCreated data])
    | Some r =>
        if decide (r = data) then Some (db, [])
        else if Prisma.refusesFile flt data then None
        else Some (Prisma.mkDb
                     (Prisma.replace DriveFile.id (DriveFile.id data) data
                        (Prisma.driveFile db))
                     (Prisma.drivePermission db),
                   [FileUpdated data])
    end.
Proof.
  unfold upsertFile, Prisma.driveFile_.update, Prisma.driveFile_.create.
  destruct (Prisma.driveFile_.findUnique db (DriveFile.id data)) as [r|] eqn:E;
    cbn [option_map].
  - rewrite file_changeCheck. destruct (decide (r = data)); [done|].
    by destruct (Prisma.refusesFile flt data).
  - cbn [changeCheck]. by destruct (Prisma.refusesFile flt data).
Qed.

Lemma upsertPermission_spec db data :
  upsertPermission flt db data
  = match Prisma.drivePermission_.findUnique db (DrivePermission.id data) with
    | None =>
        if Prisma.refusesPermission flt data then None
        else if negb (Prisma.drivePermission_.references db data) then None
        else Some (Prisma.mkDb (Prisma.driveFile db)
                               (Prisma.drivePermission db ++ [data]),
                   [PermissionCreated data])
    | Some r =>
        if decide (r = data) then Some (db, [])
        else if Prisma.refusesPermission flt data then None
        else if negb (Prisma.drivePermission_.references db data) then None
        else Some (Prisma.mkDb (Prisma.driveFile db)
                     (Prisma.replace DrivePermission.id
                        (DrivePermission.id data) data
                        (Prisma.drivePermission db)),
                   [PermissionUpdated data])
    end.
Proof.
  unfold upsertPermission, Prisma.drivePermission_.update,
    Prisma.drivePermission_.create.
  destruct (Prisma.drivePermission_.findUnique db (DrivePermission.id data))
    as [r|] eqn:E; cbn [option_map].
  - rewrite permission_changeCheck. destruct (decide (r = data)); [done|].
    destruct (Prisma.refusesPermission flt data); [done|].
    by destruct (Prisma.drivePermission_.references db data).
  - cbn [changeCheck]. destruct (Prisma.refusesPermission flt data); [done|].
    by destruct (Prisma.drivePermission_.references db data).
Qed.

(** A row that is already there is left alone. *)
Lemma upsertFile_present db data :
  Prisma.driveFile_.findUnique db (DriveFile.id data) = Some data ->
  upsertFile flt db data = Some (db, []).
Proof. intros H. rewrite upsertFile_spec, H. by rewrite decide_True. Qed.

Lemma upsertPermission_present db data :
  Prisma.drivePermission_.findUnique db (DrivePermission.id data) = Some data ->
  upsertPermission flt db data = Some (db, []).
Proof. intros H. rewrite upsertPermission_spec, H. by rewrite decide_True. Qed.

(** After a successful upsert the row is there, ... *)
Lemma upsertFile_found db data db' o :
  upsertFile flt db data = Some (db', o) ->
  Prisma.driveFile_.findUnique db' (DriveFile.id data) = Some data.
Proof.
  rewrite upsertFile_spec. unfold Prisma.driveFile_.findUnique.
  destruct (List.find _ (Prisma.driveFile db)) as [r|] eqn:E.
  - destruct (decide (r = data)) as [->|]; [by intros [= <- <-]|].
    destruct (Prisma.refusesFile flt data); [done|]. intros [= <- <-]. simpl.
    rewrite (find_replace DriveFile.id) by done.
    by rewrite String.eqb_refl, E.
  - destruct (Prisma.refusesFile flt data); [done|]. intros [= <- <-]. simpl.
    rewrite (find_snoc DriveFile.id), E. by rewrite String.eqb_refl.
Qed.

Lemma upsertPermission_found db data db' o :
  upsertPermission flt db data = Some (db', o) ->
  Prisma.drivePermission_.findUnique db' (DrivePermission.id data) = Some data.
Proof.
  rewrite upsertPermission_spec. unfold Prisma.drivePermission_.findUnique.
  destruct (List.find _ (Prisma.drivePermission db)) as [r|] eqn:E.
  - destruct (decide (r = data)) as [->|]; [by intros [= <- <-]|].
    destruct (Prisma.refusesPermission flt data); [done|].
    destruct (negb _); [done|]. intros [= <- <-]. simpl.
    rewrite (find_replace DrivePermission.id) by done.
    by rewrite String.eqb_refl, E.
  - destruct (Prisma.refusesPermission flt data); [done|].
    destruct (negb _); [done|]. intros [= <- <-]. simpl.
    rewrite (find_snoc DrivePermission.id), E. by rewrite String.eqb_refl.
Qed.

(** ... the rows under the other keys are as before, ... *)
Lemma upsertFile_other db data db' o id :
  upsertFile flt db data = Some (db', o) -> id ≠ DriveFile.id data ->
  Prisma.driveFile_.findUnique db' id = Prisma.driveFile_.findUnique db id.
Proof.
  rewrite upsertFile_spec. unfold Prisma.driveFile_.findUnique. intros H Hne.
  revert H.
  destruct (List.find (fun r => String.eqb (DriveFile.id r) (DriveFile.id data))
              (Prisma.driveFile db)) as [r|] eqn:E.
  - destruct (decide (r = data)) as [->|]; [by intros [= <- <-]|].
    destruct (Prisma.refusesFile flt data); [done|].
    intros [= <- <-]. simpl.
    rewrite (find_replace DriveFile.id) by done.
    destruct (String.eqb_spec (DriveFile.id data) id); [congruence|done].
  - destruct (Prisma.refusesFile flt data); [done|].
    intros [= <- <-]. simpl. rewrite (find_snoc DriveFile.id).
    destruct (String.eqb_spec (DriveFile.id data) id); [congruence|].
    by destruct (List.find (fun r => String.eqb (DriveFile.id r) id) _).
Qed.

Lemma upsertPermission_other db data db' o id :
  upsertPermission flt db data = Some (db', o) ->
  id ≠ DrivePermission.id data ->
  Prisma.drivePermission_.findUnique db' id
  = Prisma.drivePermission_.findUnique db id.
Proof.
  rewrite upsertPermission_spec. unfold Prisma.drivePermission_.findUnique.
  intros H Hne. revert H.
  destruct (List.find
              (fun r => String.eqb (DrivePermission.id r)
                          (DrivePermission.id data))
              (Prisma.drivePermission db)) as [r|] eqn:E.
  - destruct (decide (r = data)) as [->|]; [by intros [= <- <-]|].
    destruct (Prisma.refusesPermission flt data); [done|].
    destruct (negb _); [done|]. intros [= <- <-]. simpl.
    rewrite (find_replace DrivePermission.id) by done.
    destruct (String.eqb_spec (DrivePermission.id data) id);
      [congruence|done].
  - destruct (Prisma.refusesPermission flt data); [done|].
    destruct (negb _); [done|]. intros [= <- <-]. simpl.
    rewrite (find_snoc DrivePermission.id).
    destruct (String.eqb_spec (DrivePermission.id data) id); [congruence|].
    by destruct (List.find (fun r => String.eqb (DrivePermission.id r) id) _).
Qed.

(** ... and each upsert touches its own table only. *)
Lemma upsertFile_permissions db data db' o :
  upsertFile flt db data = Some (db', o) ->
  Prisma.drivePermission db' = Prisma.drivePermission db.
Proof.
  rewrite upsertFile_spec. intros H.
  repeat case_match; simplify_eq; done.
Qed.

Lemma upsertPermission_files db data db' o :
  upsertPermission flt db data = Some (db', o) ->
  Prisma.driveFile db' = Prisma.driveFile db.
Proof.
  rewrite upsertPermission_spec. intros H.
  repeat case_match; simplify_eq; done.
Qed.

(** No upsert removes a file row. *)
Lemma upsertFile_keeps db data db' o id :
  upsertFile flt db data = Some (db', o) ->
  id ∈ Prisma.fileIds db -> id ∈ Prisma.fileIds db'.
Proof.
  rewrite upsertFile_spec. unfold Prisma.fileIds.
  repeat case_match; intros; simplify_eq; simpl; try done.
  - by rewrite (keys_replace DriveFile.id).
  - rewrite map_app. apply elem_of_app. by left.
Qed.

End Upsert.

(** ** Batches of [processFilesBatch] *)

Section Batches.

Import GoogleDriveSyncService.

Context {A : Type}.

Implicit Types (files : list A).

Lemma batchLoop_lookup fuel i files k :
  length files - i <= fuel ->
  batchLoop fuel i files !! k
  = if Nat.ltb (i + batchSize * k) (length files)
    then Some (take batchSize (drop (i + batchSize * k) files))
    else None.
Proof.
  revert i k. induction fuel as [|fuel IH]; intros i k Hfuel;
    cbn [batchLoop].
  - rewrite lookup_nil.
    destruct (Nat.ltb_spec (i + batchSize * k) (length files)); [lia|done].
  - destruct (Nat.ltb_spec i (length files)) as [Hi|Hi].
    + destruct k as [|k].
      * rewrite Nat.mul_0_r, Nat.add_0_r. cbn [lookup list_lookup].
        destruct (Nat.ltb_spec i (length files)); [|lia].
        unfold slice. do 2 f_equal. lia.
      * cbn [lookup list_lookup].
        rewrite IH by (unfold batchSize in *; lia).
        replace (i + batchSize + batchSize * k) with (i + batchSize * S k)
          by lia.
        done.
    + rewrite lookup_nil.
      destruct (Nat.ltb_spec (i + batchSize * k) (length files)); [lia|done].
Qed.

Lemma batchLoop_concat fuel i files :
  length files - i <= fuel ->
  concat (batchLoop fuel i files) = drop i files.
Proof.
  revert i. induction fuel as [|fuel IH]; intros i Hfuel; cbn [batchLoop].
  - rewrite drop_ge by lia. done.
  - destruct (Nat.ltb_spec i (length files)) as [Hi|Hi]; cbn [concat].
    + rewrite IH by (unfold batchSize in *; lia).
      unfold slice. replace (i + batchSize - i) with batchSize by lia.
      rewrite <- drop_drop. apply take_drop.
    + rewrite drop_ge by lia. done.
Qed.

Lemma batchesOf_concat files : concat (batchesOf files) = files.
Proof. unfold batchesOf. rewrite batchLoop_concat by lia. apply drop_0. Qed.

(** The [k]-th batch is the [k]-th run of ten consecutive files. *)
Lemma batchesOf_lookup files k :
  batchesOf files !! k
  = if Nat.ltb (batchSize * k) (length files)
    then Some (take batchSize (drop (batchSize * k) files))
    else None.
Proof. unfold batchesOf. by rewrite batchLoop_lookup by lia. Qed.

Lemma batchesOf_bounded files :
  Forall (fun batch => 0 < length batch <= batchSize) (batchesOf files).
Proof.
  apply Forall_lookup. intros k batch. rewrite batchesOf_lookup.
  destruct (Nat.ltb_spec (batchSize * k) (length files)); [|done].
  intros [= <-]. rewrite length_take, length_drop.
  unfold batchSize in *. lia.
Qed.

End Batches.

(** ** The file phase of the engine *)

Section FilePhase.

Import GoogleDriveSyncService Spec.

Variable flt : Prisma.Faults.

Implicit Types (s : t) (f : DriveFileData.t) (files : list DriveFileData.t).

(** Induction over the records in submission order, through the batches
    and their transaction brackets. *)
Lemma processFilesBatch_ind (P : list DriveFileData.t -> t -> Prop) files s :
  P [] s ->
  (∀ done f rest s, files = done ++ f :: rest ->
     P done s -> P (done ++ [f]) (processFile flt s f)) ->
  (∀ done o s, isWrite o = false -> P done s -> P done (record o s)) ->
  P files (processFilesBatch flt files s).
Proof.
  intros Hnil Hstep Hrec.
  assert (Hbatch : ∀ batch pre rest s,
             files = pre ++ batch ++ rest -> P pre s ->
             P (pre ++ batch) (fold_left (processFile flt) batch s)).
  { induction batch as [|f batch IH]; intros pre rest s0 Hfiles Hpre; simpl.
    - by rewrite app_nil_r.
    - replace (pre ++ f :: batch) with ((pre ++ [f]) ++ batch)
        by (by rewrite <- app_assoc).
      apply (IH _ rest).
      + by rewrite <- app_assoc.
      + by apply (Hstep pre f (batch ++ rest)). }
  assert (Hall : ∀ batches pre s,
             files = pre ++ concat batches -> P pre s ->
             P files (fold_left (processBatch flt) batches s)).
  { induction batches as [|batch batches IH]; intros pre s0 Hfiles Hpre;
      simpl in *.
    - rewrite app_nil_r in Hfiles. by subst.
    - apply (IH (pre ++ batch)).
      + by rewrite <- app_assoc.
      + unfold processBatch. apply Hrec; [done|].
        apply (Hbatch _ _ (concat batches)); [done|].
        by apply Hrec. }
  unfold processFilesBatch. apply (Hall _ []); [|done].
  by rewrite batchesOf_concat.
Qed.

Lemma upsertFile_None db data :
  upsertFile flt db data = None -> Prisma.refusesFile flt data = true.
Proof.
  rewrite upsertFile_spec. repeat case_match; done.
Qed.

Lemma upsertFile_writes db data db' o :
  upsertFile flt db data = Some (db', o) ->
  (o = [] ∧ db' = db)
  ∨ (Prisma.refusesFile flt data = false
     ∧ (o = [FileCreated data] ∨ o = [FileUpdated data])).
Proof.
  rewrite upsertFile_spec. repeat case_match; intros; simplify_eq; auto.
Qed.

(** What the file phase leaves untouched. *)
Lemma processFilesBatch_frame files s :
  let s' := processFilesBatch flt files s in
  totalFiles s' = totalFiles s
  ∧ totalPermissions s' = totalPermissions s
  ∧ processedPermissions s' = processedPermissions s
  ∧ Prisma.drivePermission (db s') = Prisma.drivePermission (db s).
Proof.
  apply (processFilesBatch_ind
           (fun _ s' =>
              totalFiles s' = totalFiles s
              ∧ totalPermissions s' = totalPermissions s
              ∧ processedPermissions s' = processedPermissions s
              ∧ Prisma.drivePermission (db s')
                = Prisma.drivePermission (db s))); [done| |done].
  intros _ f _ s0 _ (H1 & H2 & H3 & H4). unfold processFile.
  destruct (upsertFile flt (db s0) (driveFileData f)) as [[d o]|] eqn:E;
    simpl; [|done].
  apply upsertFile_permissions in E. by rewrite E.
Qed.

(** Every record is either processed or counted as an error. *)
Lemma processFilesBatch_accounts files s :
  let s' := processFilesBatch flt files s in
  processedFiles s' + errors s'
  = processedFiles s + errors s + length files.
Proof.
  apply (processFilesBatch_ind
           (fun done s' =>
              processedFiles s' + errors s'
              = processedFiles s + errors s + length done));
    [simpl; lia| |done].
  intros done f _ s0 _ H. rewrite length_app. simpl. unfold processFile.
  destruct (upsertFile flt (db s0) (driveFileData f)) as [[d o]|];
    simpl; lia.
Qed.

Lemma processFilesBatch_settles files s :
  NoDup (map DriveFileData.id files) ->
  settled flt files (db (processFilesBatch flt files s)).
Proof.
  intros Hnd.
  apply (processFilesBatch_ind (fun done s' => settled flt done (db s')));
    [by intros f ?%elem_of_nil| |done].
  intros done f rest s0 -> IH g Hg. unfold processFile.
  destruct (upsertFile flt (db s0) (driveFileData f)) as [[d o]|] eqn:E;
    simpl.
  - apply elem_of_app in Hg as [Hg|Hg%list_elem_of_singleton].
    + destruct (IH g Hg) as [Hfound|Hrefused]; [|by right].
      left. rewrite (upsertFile_other flt _ _ _ _ _ E); [done|].
      simpl. intros Heq.
      rewrite map_app in Hnd. apply NoDup_app in Hnd as (_ & Hdis & _).
      apply (Hdis (DriveFileData.id g)).
      * by apply list_elem_of_fmap_2.
      * simpl. rewrite Heq. left.
    + subst g. left. apply (upsertFile_found flt _ _ _ _ E).
  - apply elem_of_app in Hg as [Hg|Hg%list_elem_of_singleton].
    + by apply IH.
    + subst g. right. by apply (upsertFile_None (db s0)).
Qed.

(** On a settled database the phase writes nothing. *)
Lemma processFilesBatch_quiet files s :
  settled flt files (db s) ->
  let s' := processFilesBatch flt files s in
  db s' = db s ∧ writes (ops s') = writes (ops s).
Proof.
  intros Hset.
  apply (processFilesBatch_ind
           (fun _ s' => db s' = db s ∧ writes (ops s') = writes (ops s)));
    [done| |].
  - intros done f rest s0 -> [Hdb Hops]. unfold processFile.
    destruct (Hset f) as [Hfound|Hrefused].
    { apply elem_of_app. right. left. }
    + rewrite Hdb, upsertFile_present by done. simpl.
      by rewrite app_nil_r.
    + destruct (upsertFile flt (db s0) (driveFileData f)) as [[d o]|] eqn:E;
        simpl; [|done].
      apply upsertFile_writes in E as [[-> ->]|[? _]]; [|congruence].
      by rewrite app_nil_r.
  - intros _ o s0 Ho [Hdb Hops]. simpl. split; [done|].
    unfold writes. rewrite List.filter_app. simpl. rewrite Ho.
    by rewrite app_nil_r.
Qed.

End FilePhase.

(** ** The permission phase of the engine *)

Section PermissionPhase.

Import GoogleDriveSyncService Spec.

Variable flt : Prisma.Faults.

Implicit Types (s : t) (seen : gset string) (p : SchemaPermission.t).

Lemma upsertPermission_None db data :
  upsertPermission flt db data = None ->
  Prisma.refusesPermission flt data = true
  ∨ DrivePermission.fileId data ∉ Prisma.fileIds db.
Proof.
  rewrite upsertPermission_spec. unfold Prisma.drivePermission_.references.
  intros H. destruct (Prisma.refusesPermission flt data); [by left|].
  right. intros Hin. rewrite bool_decide_eq_true_2 in H by done.
  simpl in H. repeat case_match; done.
Qed.

Lemma upsertPermission_writes db data db' o :
  upsertPermission flt db data = Some (db', o) ->
  (o = [] ∧ db' = db)
  ∨ (Prisma.refusesPermission flt data = false
     ∧ DrivePermission.fileId data ∈ Prisma.fileIds db
     ∧ (o = [PermissionCreated data] ∨ o = [PermissionUpdated data])).
Proof.
  rewrite upsertPermission_spec. unfold Prisma.drivePermission_.references.
  intros H. destruct (decide (DrivePermission.fileId data ∈ Prisma.fileIds db)).
  - rewrite bool_decide_eq_true_2 in H by done. simpl in H.
    repeat case_match; simplify_eq; auto.
  - rewrite bool_decide_eq_false_2 in H by done. simpl in H.
    repeat case_match; simplify_eq; auto.
Qed.

Lemma upsertPermission_ids db data db' o :
  upsertPermission flt db data = Some (db', o) ->
  NoDup (Prisma.permissionIds db) -> NoDup (Prisma.permissionIds db').
Proof.
  rewrite upsertPermission_spec. unfold Prisma.permissionIds.
  destruct (Prisma.drivePermission_.findUnique db (DrivePermission.id data))
    as [r|] eqn:E.
  - repeat case_match; intros; simplify_eq; simpl; [done|].
    by rewrite (keys_replace DrivePermission.id).
  - repeat case_match; intros; simplify_eq; simpl.
    rewrite map_app. simpl. apply NoDup_app. split_and!; [done| |].
    + intros id Hid ->%list_elem_of_singleton.
      by apply (find_None_keys DrivePermission.id) in E.
    + apply NoDup_singleton.
Qed.

Lemma upsertPermission_rows db data db' o r :
  upsertPermission flt db data = Some (db', o) ->
  r ∈ Prisma.drivePermission db' ->
  r ∈ Prisma.drivePermission db
  ∨ (r = data ∧ Prisma.refusesPermission flt data = false).
Proof.
  rewrite upsertPermission_spec.
  repeat case_match; intros; simplify_eq; simpl in *; auto.
  - match goal with
    | H : _ ∈ Prisma.replace _ _ _ _ |- _ =>
        apply elem_replace in H as [->|?]; auto
    end.
  - match goal with
    | H : _ ∈ _ ++ _ |- _ =>
        apply elem_of_app in H as [? | ->%list_elem_of_singleton]; auto
    end.
Qed.

Lemma advances_refl a : advances flt a a.
Proof. by unfold advances. Qed.

Lemma advances_trans a b c :
  advances flt a b -> advances flt b c -> advances flt a c.
Proof.
  intros (S1 & F1 & L1 & R1 & N1) (S2 & F2 & L2 & R2 & N2).
  unfold advances. split_and!.
  - set_solver.
  - congruence.
  - intros id Hid. rewrite L2, L1; [done..|]. set_solver.
  - auto.
  - auto.
Qed.

(** One permission of one file. *)
Lemma processPermission_advances fileId seen s p :
  let r := processPermission flt fileId (seen, s) p in
  advances flt (seen, db s) (r.1, db r.2).
Proof.
  unfold processPermission.
  destruct (decide (SchemaPermission.id p ∈ seen)) as [Hin|Hin];
    [apply advances_refl|].
  destruct (upsertPermission flt (db s) (drivePermissionData fileId p))
    as [[d o]|] eqn:E; simpl; [|apply advances_refl].
  unfold advances; simpl. split_and!.
  - set_solver.
  - by apply upsertPermission_files in E.
  - intros id Hid. apply (upsertPermission_other flt _ _ _ _ _ E).
    simpl. intros ->. done.
  - intros r Hr Hrow.
    destruct (upsertPermission_rows _ _ _ _ _ E Hrow) as [?|[-> ?]];
      [done|congruence].
  - exact (upsertPermission_ids _ _ _ _ E).
Qed.

Lemma processPermission_anchored fileId seen s p :
  fileId ∈ Prisma.fileIds (db s) ->
  anchored (seen, db s) ->
  let r := processPermission flt fileId (seen, s) p in
  anchored (r.1, db r.2).
Proof.
  intros Hfile Hanch. unfold processPermission.
  destruct (decide (SchemaPermission.id p ∈ seen)) as [Hin|Hin]; [done|].
  destruct (upsertPermission flt (db s) (drivePermissionData fileId p))
    as [[d o]|] eqn:E; simpl; [|done].
  assert (Hfiles : Prisma.fileIds d = Prisma.fileIds (db s)).
  { unfold Prisma.fileIds. by rewrite (upsertPermission_files _ _ _ _ _ E). }
  intros id Hid. simpl in *. rewrite Hfiles.
  destruct (decide (id = SchemaPermission.id p)) as [->|Hne].
  - exists (drivePermissionData fileId p). split; [|done].
    apply (upsertPermission_found flt _ _ _ _ E).
  - destruct (Hanch id) as (r & Hr & Hf).
    { apply elem_of_union in Hid as [Hid%elem_of_singleton|Hid]; done. }
    exists r. split; [|done].
    by rewrite (upsertPermission_other flt _ _ _ _ _ E).
Qed.

(** All permissions of one file. *)
Lemma permissions_advance fileId permissions seen s :
  let r := fold_left (processPermission flt fileId) permissions (seen, s) in
  advances flt (seen, db s) (r.1, db r.2).
Proof.
  revert seen s. induction permissions as [|p permissions IH];
    intros seen s; cbn [fold_left]; [apply advances_refl|].
  destruct (processPermission flt fileId (seen, s) p) as [seen' s'] eqn:E.
  apply (advances_trans _ (seen', db s')); [|exact (IH seen' s')].
  pose proof (processPermission_advances fileId seen s p) as H.
  by rewrite E in H.
Qed.

Lemma permissions_anchored fileId permissions seen s :
  fileId ∈ Prisma.fileIds (db s) ->
  anchored (seen, db s) ->
  let r := fold_left (processPermission flt fileId) permissions (seen, s) in
  anchored (r.1, db r.2).
Proof.
  revert seen s. induction permissions as [|p permissions IH];
    intros seen s Hfile Hanch; cbn [fold_left]; [done|].
  destruct (processPermission flt fileId (seen, s) p) as [seen' s'] eqn:E.
  pose proof (processPermission_advances fileId seen s p) as (_ & Hf & _).
  pose proof (processPermission_anchored fileId seen s p Hfile Hanch) as Ha.
  rewrite E in Hf, Ha. simpl in *. apply IH; [|done].
  unfold Prisma.fileIds. by rewrite Hf.
Qed.

Lemma writes_app a b : writes (a ++ b) = writes a ++ writes b.
Proof. unfold writes. apply List.filter_app. Qed.

(** Replaying the permissions of a file on a database [D] that agrees with
    where the first pass ended: the same ids are processed and nothing is
    written. *)
Lemma permissions_replay fileId permissions D seen s s2 :
  let r1 := fold_left (processPermission flt fileId) permissions (seen, s) in
  fileId ∈ Prisma.fileIds (db s) ->
  NoDup (Prisma.permissionIds (db s)) ->
  db s2 = D ->
  (∀ id, id ∈ r1.1 ->
     Prisma.drivePermission_.findUnique D id
     = Prisma.drivePermission_.findUnique (db r1.2) id) ->
  (∀ r, Prisma.refusesPermission flt r = true ->
     r ∈ Prisma.drivePermission D -> r ∈ Prisma.drivePermission (db r1.2)) ->
  let r2 := fold_left (processPermission flt fileId) permissions (seen, s2) in
  r2.1 = r1.1 ∧ db r2.2 = D ∧ writes (ops r2.2) = writes (ops s2).
Proof.
  revert seen s s2. induction permissions as [|p permissions IH];
    intros seen s s2; cbn [fold_left]; [done|].
  intros Hfile Hnd Hdb H1 H2.
  destruct (processPermission flt fileId (seen, s) p) as [seen' s'] eqn:E1.
  pose proof (permissions_advance fileId permissions seen' s')
    as (Hsub & Hfiles & Hfrozen & Hrefused & _).
  cbn [fst snd] in *.
  unfold processPermission in E1 |- *.
  destruct (decide (SchemaPermission.id p ∈ seen)) as [Hin|Hin].
  { injection E1 as <- <-. by apply IH. }
  destruct (upsertPermission flt (db s) (drivePermissionData fileId p))
    as [[d o]|] eqn:U; injection E1 as <- <-.
  - assert (Hfound :
      Prisma.drivePermission_.findUnique D (SchemaPermission.id p)
      = Some (drivePermissionData fileId p)).
    { assert (SchemaPermission.id p
              ∈ ({[SchemaPermission.id p]} ∪ seen : gset string)) as Hp
        by (apply elem_of_union; left; by apply elem_of_singleton).
      rewrite H1 by (by apply Hsub). cbn [db] in Hfrozen.
      rewrite Hfrozen by done.
      apply (upsertPermission_found flt _ _ _ _ U). }
    rewrite Hdb, upsertPermission_present by done.
    assert (Hfile' : fileId ∈ Prisma.fileIds d).
    { unfold Prisma.fileIds.
      by rewrite (upsertPermission_files flt _ _ _ _ U). }
    pose proof (upsertPermission_ids _ _ _ _ U Hnd) as Hnd'.
    match goal with
    | |- context [fold_left _ _ (_, ?s2')] =>
        destruct (IH ({[SchemaPermission.id p]} ∪ seen)
                    (mk (totalFiles s) (processedFiles s)
                        (totalPermissions s) (S (processedPermissions s))
                        (errors s) d (emitted s) (ops s ++ o))
                    s2' Hfile' Hnd' eq_refl H1 H2) as (Hs & Hd & Ho)
    end.
    split_and!; [done..|]. etransitivity; [exact Ho|].
    cbn [ops]. by rewrite app_nil_r.
  - assert (Hrefuse : Prisma.refusesPermission flt
                        (drivePermissionData fileId p) = true).
    { by destruct (upsertPermission_None _ _ U). }
    assert (Hfail : upsertPermission flt D (drivePermissionData fileId p)
                    = None).
    { rewrite upsertPermission_spec, Hrefuse.
      destruct (Prisma.drivePermission_.findUnique D _) as [r|] eqn:Er;
        [|done].
      destruct (decide (r = drivePermissionData fileId p)) as [->|]; [|done].
      exfalso. apply (find_Some_elem DrivePermission.id) in Er as [Er _].
      apply H2 in Er; [|done]. apply Hrefused in Er; [|done].
      unfold set_errors in Er. cbn [db] in Er.
      apply (find_elem DrivePermission.id) in Er; [|done].
      apply (upsertPermission_present flt) in Er. congruence. }
    rewrite Hdb, Hfail.
    match goal with
    | |- context [fold_left _ _ (_, ?s2')] =>
        destruct (IH seen (set_errors (S (errors s)) s) s2'
                    Hfile Hnd Hdb H1 H2) as (Hs & Hd & Ho)
    end.
    done.
Qed.

Section Listing.

Variable drive : Drive.t.
Variable n : nat.

Lemma permissionsOfFile_advances seen s i fileId :
  let r := permissionsOfFile flt drive n (seen, s) (i, fileId) in
  advances flt (seen, db s) (r.1, db r.2).
Proof.
  unfold permissionsOfFile.
  destruct (Drive.permissions_list drive fileId) as [permissions|];
    [|apply advances_refl].
  pose proof (permissions_advance fileId permissions seen
                (record TxBegin
                   (set_totalPermissions
                      (totalPermissions s + length permissions) s))) as H.
  by destruct (fold_left _ permissions _) as [seen' s'].
Qed.

Lemma permissionsOfFile_anchored seen s i fileId :
  fileId ∈ Prisma.fileIds (db s) ->
  anchored (seen, db s) ->
  let r := permissionsOfFile flt drive n (seen, s) (i, fileId) in
  anchored (r.1, db r.2).
Proof.
  intros Hfile Hanch. unfold permissionsOfFile.
  destruct (Drive.permissions_list drive fileId) as [permissions|]; [|done].
  pose proof (permissions_anchored fileId permissions seen
                (record TxBegin
                   (set_totalPermissions
                      (totalPermissions s + length permissions) s))
                Hfile Hanch) as H.
  by destruct (fold_left _ permissions _) as [seen' s'].
Qed.

(** All files of the phase. *)
Lemma files_advance (files : list (nat * string)) seen s :
  let r := fold_left (permissionsOfFile flt drive n) files (seen, s) in
  advances flt (seen, db s) (r.1, db r.2).
Proof.
  revert seen s. induction files as [|[i fileId] files IH];
    intros seen s; cbn [fold_left]; [apply advances_refl|].
  destruct (permissionsOfFile flt drive n (seen, s) (i, fileId))
    as [seen' s'] eqn:E.
  apply (advances_trans _ (seen', db s')); [|exact (IH seen' s')].
  pose proof (permissionsOfFile_advances seen s i fileId) as H.
  by rewrite E in H.
Qed.

Lemma files_anchored (files : list (nat * string)) seen s :
  (∀ file, file ∈ files -> file.2 ∈ Prisma.fileIds (db s)) ->
  anchored (seen, db s) ->
  let r := fold_left (permissionsOfFile flt drive n) files (seen, s) in
  anchored (r.1, db r.2).
Proof.
  revert seen s. induction files as [|[i fileId] files IH];
    intros seen s Hfiles Hanch; cbn [fold_left]; [done|].
  destruct (permissionsOfFile flt drive n (seen, s) (i, fileId))
    as [seen' s'] eqn:E.
  pose proof (permissionsOfFile_advances seen s i fileId) as (_ & Hf & _).
  pose proof (permissionsOfFile_anchored seen s i fileId) as Ha.
  rewrite E in Hf, Ha. simpl in *. apply IH.
  - intros file Hin. unfold Prisma.fileIds. rewrite Hf.
    apply Hfiles. by right.
  - apply Ha; [|done]. apply (Hfiles (i, fileId)). left.
Qed.

Lemma permissionsOfFile_replay D seen s s2 i fileId :
  let r1 := permissionsOfFile flt drive n (seen, s) (i, fileId) in
  fileId ∈ Prisma.fileIds (db s) ->
  NoDup (Prisma.permissionIds (db s)) ->
  db s2 = D ->
  (∀ id, id ∈ r1.1 ->
     Prisma.drivePermission_.findUnique D id
     = Prisma.drivePermission_.findUnique (db r1.2) id) ->
  (∀ r, Prisma.refusesPermission flt r = true ->
     r ∈ Prisma.drivePermission D -> r ∈ Prisma.drivePermission (db r1.2)) ->
  let r2 := permissionsOfFile flt drive n (seen, s2) (i, fileId) in
  r2.1 = r1.1 ∧ db r2.2 = D ∧ writes (ops r2.2) = writes (ops s2).
Proof.
  unfold permissionsOfFile.
  destruct (Drive.permissions_list drive fileId) as [permissions|];
    [|by intros].
  intros Hfile Hnd Hdb.
  pose proof (permissions_replay fileId permissions D seen
                (record TxBegin
                   (set_totalPermissions
                      (totalPermissions s + length permissions) s))
                (record TxBegin
                   (set_totalPermissions
                      (totalPermissions s2 + length permissions) s2))
                Hfile Hnd Hdb) as Hreplay.
  destruct (fold_left _ permissions (seen, record TxBegin
              (set_totalPermissions
                 (totalPermissions s + length permissions) s)))
    as [seen1 s1].
  destruct (fold_left _ permissions (seen, record TxBegin
              (set_totalPermissions
                 (totalPermissions s2 + length permissions) s2)))
    as [seen2 s2'].
  cbn [fst snd] in *. intros H1 H2.
  destruct (Hreplay H1 H2) as (-> & <- & Ho).
  split_and!; [done..|]. cbn [ops record broadcastProgress emit].
  rewrite writes_app, Ho. cbn [ops record set_totalPermissions].
  rewrite writes_app. simpl. by rewrite !app_nil_r.
Qed.

Lemma files_replay D (files : list (nat * string)) seen s s2 :
  let r1 := fold_left (permissionsOfFile flt drive n) files (seen, s) in
  (∀ file, file ∈ files -> file.2 ∈ Prisma.fileIds (db s)) ->
  NoDup (Prisma.permissionIds (db s)) ->
  db s2 = D ->
  (∀ id, id ∈ r1.1 ->
     Prisma.drivePermission_.findUnique D id
     = Prisma.drivePermission_.findUnique (db r1.2) id) ->
  (∀ r, Prisma.refusesPermission flt r = true ->
     r ∈ Prisma.drivePermission D -> r ∈ Prisma.drivePermission (db r1.2)) ->
  let r2 := fold_left (permissionsOfFile flt drive n) files (seen, s2) in
  r2.1 = r1.1 ∧ db r2.2 = D ∧ writes (ops r2.2) = writes (ops s2).
Proof.
  revert seen s s2. induction files as [|[i fileId] files IH];
    intros seen s s2; cbn [fold_left]; [done|].
  intros Hfiles Hnd Hdb H1 H2.
  pose proof (permissionsOfFile_advances seen s i fileId)
    as (_ & Hf & _ & _ & Hnd').
  pose proof (permissionsOfFile_replay D seen s s2 i fileId) as Hstep.
  destruct (permissionsOfFile flt drive n (seen, s) (i, fileId))
    as [seen1 s1].
  destruct (permissionsOfFile flt drive n (seen, s2) (i, fileId))
    as [seen2 s2'].
  pose proof (files_advance files seen1 s1)
    as (Hsub & _ & Hfrozen & Hrefused & _).
  cbn [fst snd] in *.
  destruct Hstep as (-> & Hdb' & Ho); [by apply (Hfiles (i, fileId)); left
                                      |done|done| |auto|].
  { intros id Hid. rewrite H1 by (by apply Hsub). by apply Hfrozen. }
  destruct (IH seen1 s1 s2') as (Hs & Hd & Ho'); [|by apply Hnd'|done..|].
  { intros file Hin. unfold Prisma.fileIds. rewrite Hf.
    apply Hfiles. by right. }
  split_and!; [done..|]. by rewrite Ho'.
Qed.

End Listing.

(** *** Errors of the phase *)

Local Ltac alike_fields :=
  unfold alike;
  cbn [fst snd db processedPermissions totalPermissions ops errors emitted
       totalFiles processedFiles set_errors set_totalPermissions record
       broadcastProgress emit] in *.

Lemma processPermission_alike k fileId x y p :
  alike k x y ->
  alike k (processPermission flt fileId x p) (processPermission flt fileId y p).
Proof.
  destruct x as [seen s], y as [seen' s'].
  intros (Hs & Hd & Hp & Ht & Ho & He). cbn [fst snd] in *. subst seen'.
  unfold processPermission. rewrite <- Hd.
  destruct (decide (SchemaPermission.id p ∈ seen)); [done|].
  destruct (upsertPermission flt (db s) (drivePermissionData fileId p))
    as [[d o]|]; alike_fields; split_and!;
    rewrite ?writes_app, ?Ho, ?Hp; try first [done|lia].
Qed.

Lemma permissions_alike k fileId permissions x y :
  alike k x y ->
  alike k (fold_left (processPermission flt fileId) permissions x)
          (fold_left (processPermission flt fileId) permissions y).
Proof.
  revert x y. induction permissions as [|p permissions IH]; intros x y H;
    cbn [fold_left]; [done|].
  apply IH. by apply processPermission_alike.
Qed.

Lemma permissionsOfFile_alike drive drive' n k x y i fileId permissions :
  Drive.permissions_list drive fileId = Some permissions ->
  Drive.permissions_list drive' fileId = Some permissions ->
  alike k x y ->
  alike k (permissionsOfFile flt drive n x (i, fileId))
          (permissionsOfFile flt drive' n y (i, fileId)).
Proof.
  intros Hl Hl' Hxy. destruct x as [seen s], y as [seen' s'].
  unfold permissionsOfFile. rewrite Hl, Hl'.
  pose proof (permissions_alike k fileId permissions
    (seen, record TxBegin
             (set_totalPermissions
                (totalPermissions s + length permissions) s))
    (seen', record TxBegin
              (set_totalPermissions
                 (totalPermissions s' + length permissions) s'))) as H.
  destruct (fold_left _ permissions (seen, _)) as [seen1 s1].
  destruct (fold_left _ permissions (seen', _)) as [seen1' s1'].
  destruct Hxy as (Hs & Hd & Hp & Ht & Ho & He). cbn [fst snd] in *.
  destruct H as (Hs1 & Hd1 & Hp1 & Ht1 & Ho1 & He1).
  { alike_fields. split_and!;
      rewrite ?writes_app, ?Ho, ?Ht; try first [done|lia]. }
  alike_fields. split_and!; rewrite ?writes_app, ?Ho1; try first [done|lia].
Qed.

(** A listing that throws costs one error and nothing else: the phase ends
    as it would had the entry no grants. *)
Lemma files_alike drive n (files : list (nat * string)) k x y :
  alike k x y ->
  alike (k + length (throwing drive (map snd files)))
        (fold_left (permissionsOfFile flt drive n) files x)
        (fold_left (permissionsOfFile flt (forgiving drive) n) files y).
Proof.
  revert k x y. induction files as [|[i fileId] files IH]; intros k x y Hxy;
    cbn [fold_left map snd].
  - unfold throwing. simpl. by rewrite Nat.add_0_r.
  - unfold throwing.
    destruct (Drive.permissions_list drive fileId) as [permissions|] eqn:Hl.
    + rewrite filter_cons_False by (by rewrite Hl).
      apply IH. apply (permissionsOfFile_alike _ _ _ _ _ _ _ _ permissions);
        [done| |done].
      simpl. by rewrite Hl.
    + rewrite filter_cons_True by done. cbn [length].
      replace (k + S (length (filter
                 (fun f => Drive.permissions_list drive f = None)
                 (map snd files))))
        with (S k + length (throwing drive (map snd files)))
        by (unfold throwing; lia).
      apply IH. destruct x as [seen s], y as [seen' s'].
      destruct Hxy as (Hs & Hd & Hp & Ht & Ho & He). cbn [fst snd] in *.
      unfold permissionsOfFile. rewrite Hl.
      cbn [forgiving Drive.permissions_list]. rewrite Hl.
      cbn [fold_left length].
      alike_fields. split_and!;
        rewrite ?writes_app, ?Ho, ?Nat.add_0_r; try first [done|simpl; lia].
      simpl. by rewrite !app_nil_r.
Qed.

(** When no write is refused, the errors of the phase are the listings that
    threw. *)
Lemma permissions_errors fileId permissions seen s :
  (∀ r, Prisma.refusesPermission flt r = false) ->
  fileId ∈ Prisma.fileIds (db s) ->
  errors (fold_left (processPermission flt fileId) permissions (seen, s)).2
  = errors s.
Proof.
  intros Hok. revert seen s.
  induction permissions as [|p permissions IH]; intros seen s Hfile;
    cbn [fold_left]; [done|].
  pose proof (processPermission_advances fileId seen s p) as (_ & Hf & _).
  assert (He : errors (processPermission flt fileId (seen, s) p).2
               = errors s).
  { unfold processPermission.
    destruct (decide (SchemaPermission.id p ∈ seen)); [done|].
    destruct (upsertPermission flt (db s) (drivePermissionData fileId p))
      as [[d o]|] eqn:U; [done|].
    apply upsertPermission_None in U as [U|U]; [|done].
    by rewrite Hok in U. }
  destruct (processPermission flt fileId (seen, s) p) as [seen' s'].
  cbn [fst snd] in *. rewrite IH; [done|].
  unfold Prisma.fileIds. by rewrite Hf.
Qed.

Lemma files_errors drive n (files : list (nat * string)) seen s :
  (∀ r, Prisma.refusesPermission flt r = false) ->
  (∀ file, file ∈ files -> file.2 ∈ Prisma.fileIds (db s)) ->
  errors (fold_left (permissionsOfFile flt drive n) files (seen, s)).2
  = errors s + length (throwing drive (map snd files)).
Proof.
  intros Hok. revert seen s.
  induction files as [|[i fileId] files IH]; intros seen s Hfiles;
    cbn [fold_left map snd].
  - unfold throwing. simpl. lia.
  - pose proof (permissionsOfFile_advances drive n seen s i fileId)
      as (_ & Hf & _).
    assert (He : errors (permissionsOfFile flt drive n (seen, s) (i, fileId)).2
                 = errors s + length (throwing drive [fileId])).
    { unfold permissionsOfFile, throwing.
      destruct (Drive.permissions_list drive fileId) as [permissions|] eqn:Hl.
      - rewrite filter_cons_False by (by rewrite Hl).
        pose proof (permissions_errors fileId permissions seen
          (record TxBegin
             (set_totalPermissions
                (totalPermissions s + length permissions) s)) Hok) as H.
        destruct (fold_left _ permissions _) as [seen1 s1].
        cbn in *. rewrite H; [lia|]. apply (Hfiles (i, fileId)). left.
      - rewrite filter_cons_True by done. simpl. lia. }
    destruct (permissionsOfFile flt drive n (seen, s) (i, fileId))
      as [seen' s'].
    cbn [fst snd] in *. rewrite IH.
    + rewrite He. unfold throwing.
      change (fileId :: map snd files) with ([fileId] ++ map snd files).
      rewrite filter_app, length_app. lia.
    + intros file Hin. unfold Prisma.fileIds. rewrite Hf.
      apply Hfiles. by right.
Qed.

(** *** Each id is written once *)

Lemma permissionWrites_app a b :
  permissionWrites (a ++ b) = permissionWrites a ++ permissionWrites b.
Proof. unfold permissionWrites. apply omap_app. Qed.

Lemma upsertPermission_ops db data db' o :
  upsertPermission flt db data = Some (db', o) ->
  permissionWrites o = [] ∨ permissionWrites o = [DrivePermission.id data].
Proof.
  intros [[-> _]|(_ & _ & [->| ->])]%upsertPermission_writes; auto.
Qed.

Lemma processPermission_onceEach fileId seen s p :
  onceEach (seen, s) -> onceEach (processPermission flt fileId (seen, s) p).
Proof.
  intros [Hnd Hsub]. unfold processPermission.
  destruct (decide (SchemaPermission.id p ∈ seen)) as [Hin|Hin]; [done|].
  destruct (upsertPermission flt (db s) (drivePermissionData fileId p))
    as [[d o]|] eqn:U; [|done].
  unfold onceEach in *. cbn [fst snd ops] in *.
  rewrite permissionWrites_app.
  apply upsertPermission_ops in U as [-> | ->].
  - rewrite app_nil_r. split; [done|]. intros id Hid.
    apply elem_of_union. right. auto.
  - cbn [DrivePermission.id drivePermissionData]. split.
    + apply NoDup_app. split_and!; [done| |apply NoDup_singleton].
      intros id Hid ->%list_elem_of_singleton. auto.
    + intros id [Hid| ->%list_elem_of_singleton]%elem_of_app;
        apply elem_of_union; [right; auto|left].
      by apply elem_of_singleton.
Qed.

Lemma permissions_onceEach fileId permissions x :
  onceEach x -> onceEach (fold_left (processPermission flt fileId) permissions x).
Proof.
  revert x. induction permissions as [|p permissions IH]; intros [seen s] H;
    cbn [fold_left]; [done|].
  apply IH. by apply processPermission_onceEach.
Qed.

Lemma files_onceEach drive n (files : list (nat * string)) x :
  onceEach x -> onceEach (fold_left (permissionsOfFile flt drive n) files x).
Proof.
  revert x. induction files as [|[i fileId] files IH]; intros [seen s] H;
    cbn [fold_left]; [done|].
  apply IH. unfold permissionsOfFile.
  destruct (Drive.permissions_list drive fileId) as [permissions|]; [|done].
  pose proof (permissions_onceEach fileId permissions
    (seen, record TxBegin
             (set_totalPermissions
                (totalPermissions s + length permissions) s))) as Hp.
  destruct (fold_left _ permissions _) as [seen1 s1].
  unfold onceEach in *.
  cbn [fst snd ops record set_totalPermissions broadcastProgress emit] in *.
  rewrite permissionWrites_app in *. simpl in *.
  rewrite app_nil_r in *. by apply Hp.
Qed.

Lemma syncAllPermissions_onceEach drive s :
  permissionWrites (ops s) = [] ->
  NoDup (permissionWrites (ops (syncAllPermissions flt drive s))).
Proof.
  intros Hs. unfold syncAllPermissions.
  pose proof (files_onceEach drive (length (Prisma.fileIds (db s)))
                (imap pair (Prisma.fileIds (db s)))
                (∅, set_totalPermissions 0 s)) as H.
  destruct (fold_left _ _ _) as [seen1 s1]. apply H.
  unfold onceEach. cbn [fst snd ops set_totalPermissions]. rewrite Hs.
  split; [apply NoDup_nil_2|].
  by intros id ?%elem_of_nil.
Qed.

(** *** The phase as a whole, and [cleanupOrphanedData] *)

Lemma imap_pair_elem (l : list string) (file : nat * string) :
  file ∈ imap pair l -> file.2 ∈ l.
Proof.
  intros (i & y & -> & Hl)%elem_of_lookup_imap. simpl.
  by apply list_elem_of_lookup_2 in Hl.
Qed.

Lemma imap_pair_snd (l : list string) : map snd (imap pair l) = l.
Proof.
  apply list_eq. intros i. rewrite list_lookup_fmap, list_lookup_imap.
  by destruct (l !! i).
Qed.

(** A throwing listing costs one error; apart from that the phase ends as
    on the forgiving catalogue. *)
Lemma syncAllPermissions_alike drive s :
  let failing := syncAllPermissions flt drive s in
  let empty := syncAllPermissions flt (forgiving drive) s in
  db failing = db empty
  ∧ processedPermissions failing = processedPermissions empty
  ∧ totalPermissions failing = totalPermissions empty
  ∧ writes (ops failing) = writes (ops empty)
  ∧ errors failing
    = errors empty + length (throwing drive (Prisma.fileIds (db s))).
Proof.
  unfold syncAllPermissions.
  pose proof (files_alike drive (length (Prisma.fileIds (db s)))
                (imap pair (Prisma.fileIds (db s))) 0
                (∅, set_totalPermissions 0 s)
                (∅, set_totalPermissions 0 s)) as H.
  rewrite imap_pair_snd in H.
  destruct (fold_left (permissionsOfFile flt drive _) _ _) as [seen1 s1].
  destruct (fold_left (permissionsOfFile flt (forgiving drive) _) _ _)
    as [seen2 s2].
  destruct H as (_ & Hd & Hp & Ht & Ho & He); [by unfold alike|].
  cbn [fst snd] in *. by rewrite Nat.add_0_l in He.
Qed.

Lemma syncAllPermissions_errors drive s :
  (∀ r, Prisma.refusesPermission flt r = false) ->
  errors (syncAllPermissions flt drive s)
  = errors s + length (throwing drive (Prisma.fileIds (db s))).
Proof.
  intros Hok. unfold syncAllPermissions.
  rewrite files_errors; [by rewrite imap_pair_snd|done|].
  intros file Hin. by apply imap_pair_elem.
Qed.

Lemma syncAllPermissions_files drive s :
  Prisma.driveFile (db (syncAllPermissions flt drive s))
  = Prisma.driveFile (db s).
Proof.
  unfold syncAllPermissions.
  pose proof (files_advance drive (length (Prisma.fileIds (db s)))
                (imap pair (Prisma.fileIds (db s))) ∅
                (set_totalPermissions 0 s)) as (_ & Hf & _).
  exact Hf.
Qed.

Lemma syncAllPermissions_ids drive s :
  NoDup (Prisma.permissionIds (db s)) ->
  NoDup (Prisma.permissionIds (db (syncAllPermissions flt drive s))).
Proof.
  unfold syncAllPermissions.
  pose proof (files_advance drive (length (Prisma.fileIds (db s)))
                (imap pair (Prisma.fileIds (db s))) ∅
                (set_totalPermissions 0 s)) as (_ & _ & _ & _ & Hnd).
  exact Hnd.
Qed.

(** Run again on a pruning of its own result, the phase writes nothing. *)
Lemma syncAllPermissions_replay drive s s2 :
  NoDup (Prisma.permissionIds (db s)) ->
  pruned (db s2) (db (syncAllPermissions flt drive s)) ->
  let s2' := syncAllPermissions flt drive s2 in
  db s2' = db s2 ∧ writes (ops s2') = writes (ops s2).
Proof.
  intros Hnd (Hfiles & Hrows & Hkept).
  rewrite syncAllPermissions_files in Hfiles.
  unfold syncAllPermissions in *.
  assert (Hids : Prisma.fileIds (db s2) = Prisma.fileIds (db s))
    by (unfold Prisma.fileIds; by rewrite Hfiles).
  rewrite Hids.
  set (n := length (Prisma.fileIds (db s))) in *.
  set (files := imap pair (Prisma.fileIds (db s))) in *.
  pose proof (files_replay drive n (db s2) files ∅
                (set_totalPermissions 0 s) (set_totalPermissions 0 s2))
    as Hreplay.
  pose proof (files_anchored drive n files ∅ (set_totalPermissions 0 s))
    as Hanch.
  destruct (fold_left _ files (∅, set_totalPermissions 0 s)) as [seen1 s1].
  destruct (fold_left _ files (∅, set_totalPermissions 0 s2)) as [seen2 s2'].
  cbn [fst snd db set_totalPermissions] in *.
  assert (Ha : anchored (seen1, db s1)).
  { apply Hanch.
    - intros file Hin. by apply imap_pair_elem.
    - intros id' Hid'. by apply elem_of_empty in Hid'. }
  destruct Hreplay as (_ & Hdb & Ho).
  - intros file Hin. by apply imap_pair_elem.
  - done.
  - done.
  - intros id Hid. destruct (Ha id Hid) as (r & Hr & Hf).
    cbn [fst snd] in *. rewrite Hr. by apply Hkept.
  - auto.
  - done.
Qed.

End PermissionPhase.

(** ** Counting, fetching and pruning in the engine *)

Section Run.

Import GoogleDriveSyncService Spec.

Variable flt : Prisma.Faults.

Implicit Types (s : t) (drive : Drive.t).

(** The two listing loops only broadcast. *)
Lemma countLoop_frame r rest k s :
  let c := countLoop r rest k s in
  db c.2 = db s ∧ ops c.2 = ops s ∧ errors c.2 = errors s
  ∧ processedFiles c.2 = processedFiles s.
Proof.
  revert r k s. induction rest as [|r' rest IH]; intros [files|] k s;
    cbn [countLoop fst snd]; try done.
  match goal with
  | |- context [countLoop ?r ?rest ?k ?s] =>
      destruct (IH r k s) as (-> & -> & -> & ->)
  end.
  done.
Qed.

Lemma countLoop_count r rest k s s' :
  (countLoop r rest k s).1 = (countLoop r rest k s').1.
Proof.
  revert r k s s'. induction rest as [|r' rest IH];
    intros [files|] k s s'; simpl; first [done|apply IH].
Qed.

Lemma getTotalFileCount_frame drive s :
  let c := getTotalFileCount drive s in
  db c.2 = db s ∧ ops c.2 = ops s ∧ errors c.2 = errors s
  ∧ processedFiles c.2 = processedFiles s.
Proof.
  unfold getTotalFileCount. destruct (Drive.countListing drive) as [r rest].
  pose proof (countLoop_frame r rest 0 s) as H.
  by destruct (countLoop r rest 0 s) as [[k|] s'].
Qed.

Lemma getTotalFileCount_count drive s s' :
  (getTotalFileCount drive s).1 = (getTotalFileCount drive s').1.
Proof.
  unfold getTotalFileCount. destruct (Drive.countListing drive) as [r rest].
  pose proof (countLoop_count r rest 0 s s') as H.
  destruct (countLoop r rest 0 s) as [[k|] s1],
           (countLoop r rest 0 s') as [[k'|] s1']; simpl in *; congruence.
Qed.

Lemma fetchLoop_frame r rest acc s :
  let c := fetchLoop r rest acc s in
  c.1 = Drive.drainFrom r rest acc
  ∧ db c.2 = db s ∧ ops c.2 = ops s ∧ errors c.2 = errors s
  ∧ processedFiles c.2 = processedFiles s ∧ totalFiles c.2 = totalFiles s.
Proof.
  revert r acc s. induction rest as [|r' rest IH]; intros [files|] acc s;
    cbn [fetchLoop Drive.drainFrom fst snd]; try done.
  match goal with
  | |- context [fetchLoop ?r ?rest ?acc ?s] =>
      destruct (IH r acc s) as (-> & -> & -> & -> & -> & ->)
  end.
  done.
Qed.

Lemma settled_files files d d' :
  Prisma.driveFile d = Prisma.driveFile d' ->
  settled flt files d -> settled flt files d'.
Proof.
  unfold settled, Prisma.driveFile_.findUnique. intros <-. done.
Qed.

Lemma same_key_same_row {A} (key : A -> string) (l : list A) x y :
  NoDup (map key l) -> x ∈ l -> y ∈ l -> key x = key y -> x = y.
Proof.
  intros Hnd Hx Hy Hk.
  pose proof (find_elem key l x Hnd Hx) as Fx.
  pose proof (find_elem key l y Hnd Hy) as Fy.
  rewrite Hk in Fx. congruence.
Qed.

Lemma cleanupOrphanedData_frame s :
  let s' := cleanupOrphanedData s in
  ops s' = ops s ∧ errors s' = errors s ∧ emitted s' = emitted s
  ∧ Prisma.driveFile (db s') = Prisma.driveFile (db s).
Proof. unfold cleanupOrphanedData. by case_match. Qed.

Lemma cleanupOrphanedData_pruned s :
  NoDup (Prisma.permissionIds (db s)) ->
  pruned (db (cleanupOrphanedData s)) (db s).
Proof.
  intros Hnd. unfold cleanupOrphanedData.
  case_match; [|by unfold pruned].
  unfold pruned, Prisma.drivePermission_.deleteMany,
    Prisma.drivePermission_.findMany_fileId_notIn,
    Prisma.drivePermission_.findUnique. cbn [db set_db Prisma.driveFile
    Prisma.drivePermission]. split_and!; [done| |].
  - by intros r [_ ?]%list_elem_of_filter.
  - intros id r Hr Hfile.
    apply (find_filter DrivePermission.id); [done|].
    intros (r' & Hid & [Hr' Hin]%list_elem_of_filter)%list_elem_of_fmap.
    apply (find_Some_elem DrivePermission.id) in Hr as [Hr _].
    assert (r = r') as <-; [|done].
    by apply (same_key_same_row DrivePermission.id
                (Prisma.drivePermission (db s))).
Qed.

Lemma cleanupOrphanedData_referential s :
  Prisma.referential (db (cleanupOrphanedData s)).
Proof.
  unfold cleanupOrphanedData.
  destruct (Nat.ltb_spec 0 (length
    (Prisma.drivePermission_.findMany_fileId_notIn (db s)
       (Prisma.fileIds (db s))))) as [Hlt|Hge].
  - unfold Prisma.referential, Prisma.drivePermission_.deleteMany,
      Prisma.drivePermission_.findMany_fileId_notIn. cbn.
    intros p [Hp Hin]%list_elem_of_filter.
    destruct (decide (DrivePermission.fileId p ∈ Prisma.fileIds (db s)))
      as [|Hno]; [done|].
    exfalso. apply Hp. apply list_elem_of_fmap_2.
    by apply list_elem_of_filter.
  - apply Nat.le_0_r, nil_length_inv in Hge.
    unfold Prisma.drivePermission_.findMany_fileId_notIn in Hge.
    intros p Hp.
    destruct (decide (DrivePermission.fileId p ∈ Prisma.fileIds (db s)))
      as [|Hno]; [done|].
    assert (p ∈ filter (fun p => DrivePermission.fileId p
                                 ∉ Prisma.fileIds (db s))
                  (Prisma.drivePermission (db s)))
      as Hin by (by apply list_elem_of_filter).
    rewrite Hge in Hin. by apply elem_of_nil in Hin.
Qed.

(** With the foreign key intact there is nothing to prune. *)
Lemma cleanupOrphanedData_quiet s :
  Prisma.referential (db s) -> cleanupOrphanedData s = s.
Proof.
  intros Href. unfold cleanupOrphanedData.
  assert (Prisma.drivePermission_.findMany_fileId_notIn (db s)
            (Prisma.fileIds (db s)) = []) as ->; [|done].
  unfold Prisma.drivePermission_.findMany_fileId_notIn.
  apply elem_of_nil_inv. intros p [Hno Hp]%list_elem_of_filter.
  apply Hno. by apply Href.
Qed.

End Run.

(** ** A run of the engine as a whole *)

Section StartSync.

Import GoogleDriveSyncService Spec.

Variable flt : Prisma.Faults.
Variable drive : Drive.t.

Lemma fetchedState_frame db0 :
  db (fetchedState drive db0) = db0 ∧ ops (fetchedState drive db0) = [].
Proof.
  unfold fetchedState.
  pose proof (getTotalFileCount_frame drive (new db0)) as (Hd & Ho & _).
  destruct (getTotalFileCount drive (new db0)) as [n sc].
  destruct (Drive.fetchListing drive) as [r rest].
  pose proof (fetchLoop_frame r rest [] (set_totalFiles n sc))
    as (_ & Hd' & Ho' & _).
  cbn [fst snd] in *. by rewrite Hd', Ho'.
Qed.

Lemma startSync_returns db0 files :
  Drive.drain (Drive.fetchListing drive) = Some files ->
  startSync flt drive db0
  = (Some (getSyncStats (settledState flt drive db0 files)),
     emit (sync_complete (getSyncStats (settledState flt drive db0 files)))
       (settledState flt drive db0 files)).
Proof.
  unfold startSync, settledState, fetchedState,
    syncDriveFilesWithPagination, Drive.drain.
  destruct (getTotalFileCount drive (new db0)) as [n sc].
  destruct (Drive.fetchListing drive) as [r rest].
  pose proof (fetchLoop_frame r rest [] (set_totalFiles n sc)) as (Hf & _).
  cbn [fst snd] in *.
  destruct (fetchLoop r rest [] (set_totalFiles n sc)) as [fetched sf].
  cbn [fst snd] in *. intros Hdrain. by rewrite Hf, Hdrain.
Qed.

Lemma startSync_throws db0 :
  Drive.drain (Drive.fetchListing drive) = None ->
  (startSync flt drive db0).1 = None.
Proof.
  unfold startSync, syncDriveFilesWithPagination, Drive.drain.
  destruct (getTotalFileCount drive (new db0)) as [n sc].
  destruct (Drive.fetchListing drive) as [r rest].
  pose proof (fetchLoop_frame r rest [] (set_totalFiles n sc)) as (Hf & _).
  cbn [fst snd] in *.
  destruct (fetchLoop r rest [] (set_totalFiles n sc)) as [fetched sf].
  cbn [fst snd] in *. intros Hdrain. by rewrite Hf, Hdrain.
Qed.

Lemma toDriveFileData_ids files :
  map DriveFileData.id (map toDriveFileData files) = map SchemaFile.id files.
Proof. by rewrite map_map. Qed.

(** A second run on the result of the first leaves the database as it is
    and writes nothing. *)
Lemma settledState_again db0 files :
  NoDup (Prisma.permissionIds db0) ->
  NoDup (map SchemaFile.id files) ->
  let s1 := settledState flt drive db0 files in
  let s2 := settledState flt drive (db s1) files in
  db s2 = db s1 ∧ writes (ops s2) = [].
Proof.
  intros Hperm Hfiles. unfold settledState.
  set (fs := map toDriveFileData files).
  destruct (fetchedState_frame db0) as [Hdf Hof].
  set (sf := fetchedState drive db0) in *.
  set (sA := processFilesBatch flt fs sf).
  assert (HsetA : settled flt fs (db sA)).
  { apply processFilesBatch_settles. unfold fs.
    by rewrite toDriveFileData_ids. }
  assert (HndA : NoDup (Prisma.permissionIds (db sA))).
  { destruct (processFilesBatch_frame flt fs sf) as (_ & _ & _ & Hp).
    unfold Prisma.permissionIds. fold sA in Hp. by rewrite Hp, Hdf. }
  set (sB := syncAllPermissions flt drive sA).
  pose proof (syncAllPermissions_files flt drive sA) as HfB. fold sB in HfB.
  pose proof (syncAllPermissions_ids flt drive sA HndA) as HndB.
  fold sB in HndB.
  set (sC := cleanupOrphanedData sB).
  pose proof (cleanupOrphanedData_pruned sB HndB) as Hpruned.
  pose proof (cleanupOrphanedData_referential sB) as Href.
  destruct (cleanupOrphanedData_frame sB) as (_ & _ & _ & HfC).
  fold sC in Hpruned, Href, HfC.
  destruct (fetchedState_frame (db sC)) as [Hdf2 Hof2].
  set (sf2 := fetchedState drive (db sC)) in *.
  assert (Hset2 : settled flt fs (db sf2)).
  { apply (settled_files flt fs (db sA)); [|done].
    by rewrite Hdf2, HfC, HfB. }
  destruct (processFilesBatch_quiet flt fs sf2 Hset2) as [HdA2 HoA2].
  set (sA2 := processFilesBatch flt fs sf2) in *.
  destruct (syncAllPermissions_replay flt drive sA sA2 HndA) as [HdB2 HoB2].
  { fold sB. by rewrite HdA2, Hdf2. }
  set (sB2 := syncAllPermissions flt drive sA2) in *.
  rewrite cleanupOrphanedData_quiet.
  - split; [congruence|]. by rewrite HoB2, HoA2, Hof2.
  - by rewrite HdB2, HdA2, Hdf2.
Qed.

End StartSync.

(** ** The one-shot synchroniser *)

Section OneShot.

Import SyncServer.

Variable flt : Prisma.Faults.

Lemma syncFile_spec s f :
  let data := driveFileData f in
  syncFile flt s f
  = match Prisma.driveFile_.findUnique (db s) (DriveFileData.id f) with
    | None =>
        if Prisma.refusesFile flt data
        then mkTally (upserted s) (updated s) (skipped s) (S (errors s))
                     (db s) (ops s)
        else mkTally (S (upserted s)) (updated s) (skipped s) (errors s)
                     (Prisma.mkDb (Prisma.driveFile (db s) ++ [data])
                                  (Prisma.drivePermission (db s)))
                     (ops s ++ [FileCreated data])
    | Some r =>
        if decide (r = data)
        then mkTally (upserted s) (updated s) (S (skipped s)) (errors s)
                     (db s) (ops s)
        else if Prisma.refusesFile flt data
        then mkTally (upserted s) (updated s) (skipped s) (S (errors s))
                     (db s) (ops s)
        else mkTally (upserted s) (S (updated s)) (skipped s) (errors s)
                     (Prisma.mkDb
                        (Prisma.replace DriveFile.id (DriveFileData.id f)
                           data (Prisma.driveFile (db s)))
                        (Prisma.drivePermission (db s)))
                     (ops s ++ [FileUpdated data])
    end.
Proof.
  unfold syncFile, Prisma.driveFile_.update, Prisma.driveFile_.create.
  cbn [driveFileData DriveFile.id].
  destruct (Prisma.driveFile_.findUnique (db s) (DriveFileData.id f))
    as [r|] eqn:E; cbn [option_map].
  - rewrite file_changeCheck. destruct (decide (r = driveFileData f));
      [done|].
    by destruct (Prisma.refusesFile flt (driveFileData f)).
  - cbn [changeCheck]. by destruct (Prisma.refusesFile flt (driveFileData f)).
Qed.

Lemma syncPermission_spec s p :
  let data := drivePermissionData p in
  syncPermission flt s p
  = match Prisma.drivePermission_.findUnique (db s) (DrivePermission.id p) with
    | None =>
        if Prisma.refusesPermission flt data
           || negb (Prisma.drivePermission_.references (db s) data)
        then mkTally (upserted s) (updated s) (skipped s) (S (errors s))
                     (db s) (ops s)
        else mkTally (S (upserted s)) (updated s) (skipped s) (errors s)
                     (Prisma.mkDb (Prisma.driveFile (db s))
                                  (Prisma.drivePermission (db s) ++ [data]))
                     (ops s ++ [PermissionCreated data])
    | Some r =>
        if decide (r = data)
        then mkTally (upserted s) (updated s) (S (skipped s)) (errors s)
                     (db s) (ops s)
        else if Prisma.refusesPermission flt data
                || negb (Prisma.drivePermission_.references (db s) data)
        then mkTally (upserted s) (updated s) (skipped s) (S (errors s))
                     (db s) (ops s)
        else mkTally (upserted s) (S (updated s)) (skipped s) (errors s)
                     (Prisma.mkDb (Prisma.driveFile (db s))
                        (Prisma.replace DrivePermission.id
                           (DrivePermission.id p) data
                           (Prisma.drivePermission (db s))))
                     (ops s ++ [PermissionUpdated data])
    end.
Proof.
  unfold syncPermission, Prisma.drivePermission_.update,
    Prisma.drivePermission_.create.
  cbn [drivePermissionData DrivePermission.id].
  destruct (Prisma.drivePermission_.findUnique (db s) (DrivePermission.id p))
    as [r|] eqn:E; cbn [option_map].
  - rewrite permission_changeCheck.
    destruct (decide (r = drivePermissionData p)); [done|].
    destruct (Prisma.refusesPermission flt (drivePermissionData p));
      [done|].
    by destruct (Prisma.drivePermission_.references (db s)
                   (drivePermissionData p)).
  - cbn [changeCheck].
    destruct (Prisma.refusesPermission flt (drivePermissionData p));
      [done|].
    by destruct (Prisma.drivePermission_.references (db s)
                   (drivePermissionData p)).
Qed.

End OneShot.

(** ** A run of the one-shot synchroniser *)

Section OneShotRun.

Import SyncServer Spec.

Variable flt : Prisma.Faults.

Implicit Types (s : Tally) (d : Prisma.Db).

(** Each loop body is the upsert of the engine with the counters of the
    decision. *)
Lemma syncFile_upsert s f :
  let s' := syncFile flt s f in
  match GoogleDriveSyncService.upsertFile flt (db s) (driveFileData f) with
  | Some (d, o) =>
      db s' = d ∧ ops s' = ops s ++ o ∧ errors s' = errors s
      ∧ (o = [] -> upserted s' = upserted s ∧ updated s' = updated s)
  | None =>
      db s' = db s ∧ ops s' = ops s ∧ errors s' = S (errors s)
      ∧ upserted s' = upserted s ∧ updated s' = updated s
  end.
Proof.
  cbv zeta. rewrite syncFile_spec, upsertFile_spec. cbv zeta.
  cbn [driveFileData DriveFile.id].
  repeat case_match; simplify_eq; cbn; rewrite ?app_nil_r; split_and!;
    try done.
Qed.

Lemma syncPermission_upsert s p :
  let s' := syncPermission flt s p in
  match GoogleDriveSyncService.upsertPermission flt (db s)
          (drivePermissionData p) with
  | Some (d, o) =>
      db s' = d ∧ ops s' = ops s ++ o ∧ errors s' = errors s
      ∧ (o = [] -> upserted s' = upserted s ∧ updated s' = updated s)
  | None =>
      db s' = db s ∧ ops s' = ops s ∧ errors s' = S (errors s)
      ∧ upserted s' = upserted s ∧ updated s' = updated s
  end.
Proof.
  cbv zeta. rewrite syncPermission_spec, upsertPermission_spec. cbv zeta.
  cbn [drivePermissionData DrivePermission.id].
  destruct (Prisma.refusesPermission flt _);
    destruct (Prisma.drivePermission_.references _ _);
    repeat case_match; simplify_eq; cbn; rewrite ?app_nil_r; split_and!;
    try done.
Qed.

(** Induction over a loop in the order of its records. *)
Lemma fold_left_ind {A B} (f : B -> A -> B) (P : list A -> B -> Prop)
  (l : list A) (b : B) :
  P [] b ->
  (∀ done x rest b', l = done ++ x :: rest ->
     P done b' -> P (done ++ [x]) (f b' x)) ->
  P l (fold_left f l b).
Proof.
  intros Hnil Hstep.
  assert (H : ∀ rest done b', l = done ++ rest -> P done b' ->
              P l (fold_left f rest b')).
  { induction rest as [|x rest IH]; intros done b' Hl Hdone; simpl.
    - rewrite app_nil_r in Hl. by subst.
    - apply (IH (done ++ [x])); [by rewrite <- app_assoc|].
      by apply (Hstep done x rest). }
  by apply (H l []).
Qed.

(** *** The file loop *)

Lemma syncFiles_frame files s :
  Prisma.drivePermission (db (fold_left (syncFile flt) files s))
  = Prisma.drivePermission (db s).
Proof.
  apply (fold_left_ind (syncFile flt)
           (fun _ s' => Prisma.drivePermission (db s')
                        = Prisma.drivePermission (db s))); [done|].
  intros _ f _ s0 _ H. pose proof (syncFile_upsert s0 f) as Hu.
  cbv zeta in Hu.
  destruct (GoogleDriveSyncService.upsertFile flt (db s0) (driveFileData f))
    as [[d o]|] eqn:U.
  - destruct Hu as (-> & _). by rewrite (upsertFile_permissions flt _ _ _ _ U).
  - destruct Hu as (-> & _). done.
Qed.

Lemma syncFiles_settle files s :
  NoDup (map DriveFileData.id files) ->
  filesPersisted flt (map driveFileData files)
    (db (fold_left (syncFile flt) files s)).
Proof.
  intros Hnd.
  apply (fold_left_ind (syncFile flt)
           (fun done s' => filesPersisted flt (map driveFileData done)
                             (db s'))).
  { by intros r ?%elem_of_nil. }
  intros done f rest s0 -> IH r Hr. pose proof (syncFile_upsert s0 f) as Hu.
  cbv zeta in Hu. rewrite map_app in Hr.
  destruct (GoogleDriveSyncService.upsertFile flt (db s0) (driveFileData f))
    as [[d o]|] eqn:U.
  - destruct Hu as (-> & _).
    apply elem_of_app in Hr as [Hr|Hr%list_elem_of_singleton].
    + destruct (IH r Hr) as [Hfound|?]; [|by right]. left.
      rewrite (upsertFile_other flt _ _ _ _ _ U); [done|].
      apply list_elem_of_fmap in Hr as (g & -> & Hg).
      cbn [driveFileData DriveFile.id]. intros Heq.
      rewrite map_app in Hnd. apply NoDup_app in Hnd as (_ & Hdis & _).
      apply (Hdis (DriveFileData.id g)); [by apply list_elem_of_fmap_2|].
      rewrite Heq. left.
    + subst r. left. apply (upsertFile_found flt _ _ _ _ U).
  - destruct Hu as (-> & _).
    apply elem_of_app in Hr as [Hr|Hr%list_elem_of_singleton].
    + by apply IH.
    + subst r. right. by apply (upsertFile_None flt (db s0)).
Qed.

Lemma syncFiles_quiet files s :
  filesPersisted flt (map driveFileData files) (db s) ->
  let s' := fold_left (syncFile flt) files s in
  db s' = db s ∧ upserted s' = upserted s ∧ updated s' = updated s
  ∧ ops s' = ops s.
Proof.
  intros Hp.
  apply (fold_left_ind (syncFile flt)
           (fun _ s' => db s' = db s ∧ upserted s' = upserted s
                        ∧ updated s' = updated s ∧ ops s' = ops s));
    [done|].
  intros done f rest s0 -> (Hd & Hi & Hu & Ho).
  pose proof (syncFile_upsert s0 f) as Hstep. cbv zeta in Hstep.
  destruct (Hp (driveFileData f)) as [Hfound|Hrefused].
  { apply list_elem_of_fmap_2. apply elem_of_app. right. left. }
  - rewrite Hd, upsertFile_present in Hstep by done.
    destruct Hstep as (-> & -> & _ & Hc). destruct (Hc eq_refl) as [-> ->].
    by rewrite app_nil_r.
  - destruct (GoogleDriveSyncService.upsertFile flt (db s0) (driveFileData f))
      as [[d o]|] eqn:U.
    + apply (upsertFile_writes flt) in U as [[-> ->]|[? _]]; [|congruence].
      destruct Hstep as (-> & -> & _ & Hc). destruct (Hc eq_refl) as [-> ->].
      by rewrite app_nil_r.
    + by destruct Hstep as (-> & -> & _ & -> & ->).
Qed.

Lemma syncFiles_within fileIds files s :
  (∀ f, f ∈ files -> DriveFileData.id f ∈ fileIds) ->
  within fileIds (db s) ->
  within fileIds (db (fold_left (syncFile flt) files s)).
Proof.
  intros Hfiles Hs.
  apply (fold_left_ind (syncFile flt) (fun _ s' => within fileIds (db s')));
    [done|].
  intros done f rest s0 -> [Hf Hp].
  pose proof (syncFile_upsert s0 f) as Hu. cbv zeta in Hu.
  destruct (GoogleDriveSyncService.upsertFile flt (db s0) (driveFileData f))
    as [[d o]|] eqn:U; [|by destruct Hu as (-> & _)].
  destruct Hu as (-> & _). split.
  - rewrite upsertFile_spec in U.
    repeat case_match; simplify_eq; cbn; try done.
    + intros r [-> |Hr]%(elem_replace DriveFile.id); [|by apply Hf].
      apply Hfiles. apply elem_of_app. right. left.
    + intros r [Hr| ->%list_elem_of_singleton]%elem_of_app; [by apply Hf|].
      apply Hfiles. apply elem_of_app. right. left.
  - by rewrite (upsertFile_permissions flt _ _ _ _ U).
Qed.

Lemma syncFiles_cover files s :
  (∀ r, Prisma.refusesFile flt r = false) ->
  ∀ f, f ∈ files ->
    DriveFileData.id f ∈ Prisma.fileIds (db (fold_left (syncFile flt) files s)).
Proof.
  intros Hok.
  apply (fold_left_ind (syncFile flt)
           (fun done s' => ∀ f, f ∈ done ->
                             DriveFileData.id f ∈ Prisma.fileIds (db s'))).
  { by intros f ?%elem_of_nil. }
  intros done f rest s0 _ IH g Hg.
  pose proof (syncFile_upsert s0 f) as Hu. cbv zeta in Hu.
  destruct (GoogleDriveSyncService.upsertFile flt (db s0) (driveFileData f))
    as [[d o]|] eqn:U.
  - destruct Hu as (-> & _).
    apply elem_of_app in Hg as [Hg|Hg%list_elem_of_singleton].
    + apply (upsertFile_keeps _ _ _ _ _ _ U). by apply IH.
    + subst g. apply (upsertFile_found flt) in U.
      apply (find_Some_elem DriveFile.id) in U as [U _].
      apply (list_elem_of_fmap_2 DriveFile.id) in U. exact U.
  - apply (upsertFile_None flt) in U. by rewrite Hok in U.
Qed.

(** *** The permission loop *)

Lemma syncPermissions_frame permissions s :
  Prisma.driveFile (db (fold_left (syncPermission flt) permissions s))
  = Prisma.driveFile (db s).
Proof.
  apply (fold_left_ind (syncPermission flt)
           (fun _ s' => Prisma.driveFile (db s') = Prisma.driveFile (db s)));
    [done|].
  intros _ p _ s0 _ H. pose proof (syncPermission_upsert s0 p) as Hu.
  cbv zeta in Hu.
  destruct (GoogleDriveSyncService.upsertPermission flt (db s0)
              (drivePermissionData p)) as [[d o]|] eqn:U.
  - destruct Hu as (-> & _). by rewrite (upsertPermission_files flt _ _ _ _ U).
  - by destruct Hu as (-> & _).
Qed.

Lemma syncPermissions_settle permissions s :
  NoDup (map DrivePermission.id permissions) ->
  permissionsPersisted flt (map drivePermissionData permissions)
    (db (fold_left (syncPermission flt) permissions s)).
Proof.
  intros Hnd.
  apply (fold_left_ind (syncPermission flt)
           (fun done s' =>
              Prisma.driveFile (db s') = Prisma.driveFile (db s)
              ∧ permissionsPersisted flt (map drivePermissionData done)
                  (db s'))).
  { split; [done|]. by intros r ?%elem_of_nil. }
  intros done p rest s0 -> [Hfiles IH].
  pose proof (syncPermission_upsert s0 p) as Hu. cbv zeta in Hu.
  destruct (GoogleDriveSyncService.upsertPermission flt (db s0)
              (drivePermissionData p)) as [[d o]|] eqn:U.
  - destruct Hu as (-> & _).
    pose proof (upsertPermission_files flt _ _ _ _ U) as Hd.
    split; [congruence|]. intros r Hr. rewrite map_app in Hr.
    unfold Prisma.fileIds. rewrite Hd.
    apply elem_of_app in Hr as [Hr|Hr%list_elem_of_singleton].
    + destruct (IH r Hr) as [Hfound|?]; [|by right]. left.
      rewrite (upsertPermission_other flt _ _ _ _ _ U); [done|].
      apply list_elem_of_fmap in Hr as (g & -> & Hg).
      cbn [drivePermissionData DrivePermission.id]. intros Heq.
      rewrite map_app in Hnd. apply NoDup_app in Hnd as (_ & Hdis & _).
      apply (Hdis (DrivePermission.id g)); [by apply list_elem_of_fmap_2|].
      rewrite Heq. left.
    + subst r. left. apply (upsertPermission_found flt _ _ _ _ U).
  - destruct Hu as (-> & _). split; [done|]. intros r Hr.
    rewrite map_app in Hr.
    apply elem_of_app in Hr as [Hr|Hr%list_elem_of_singleton].
    + by apply IH.
    + subst r. right. by apply (upsertPermission_None flt (db s0)).
Qed.

Lemma syncPermissions_quiet permissions s :
  permissionsPersisted flt (map drivePermissionData permissions) (db s) ->
  let s' := fold_left (syncPermission flt) permissions s in
  db s' = db s ∧ upserted s' = upserted s ∧ updated s' = updated s
  ∧ ops s' = ops s.
Proof.
  intros Hp.
  apply (fold_left_ind (syncPermission flt)
           (fun _ s' => db s' = db s ∧ upserted s' = upserted s
                        ∧ updated s' = updated s ∧ ops s' = ops s));
    [done|].
  intros done p rest s0 -> (Hd & Hi & Hu & Ho).
  pose proof (syncPermission_upsert s0 p) as Hstep. cbv zeta in Hstep.
  destruct (Hp (drivePermissionData p)) as [Hfound|Hthrows].
  { apply list_elem_of_fmap_2. apply elem_of_app. right. left. }
  - rewrite Hd, upsertPermission_present in Hstep by done.
    destruct Hstep as (-> & -> & _ & Hc). destruct (Hc eq_refl) as [-> ->].
    by rewrite app_nil_r.
  - destruct (GoogleDriveSyncService.upsertPermission flt (db s0)
                (drivePermissionData p)) as [[d o]|] eqn:U.
    + apply (upsertPermission_writes flt) in U as [[-> ->]|(Hr & Hf & _)].
      * destruct Hstep as (-> & -> & _ & Hc).
        destruct (Hc eq_refl) as [-> ->]. by rewrite app_nil_r.
      * rewrite Hd in Hf. destruct Hthrows; [congruence|done].
    + by destruct Hstep as (-> & -> & _ & -> & ->).
Qed.

Lemma syncPermissions_within fileIds permissions s :
  (∀ p, p ∈ permissions -> DrivePermission.fileId p ∈ fileIds) ->
  within fileIds (db s) ->
  within fileIds (db (fold_left (syncPermission flt) permissions s)).
Proof.
  intros Hvalid Hs.
  apply (fold_left_ind (syncPermission flt)
           (fun _ s' => within fileIds (db s'))); [done|].
  intros done p rest s0 -> [Hf Hp].
  pose proof (syncPermission_upsert s0 p) as Hu. cbv zeta in Hu.
  destruct (GoogleDriveSyncService.upsertPermission flt (db s0)
              (drivePermissionData p)) as [[d o]|] eqn:U;
    [|by destruct Hu as (-> & _)].
  destruct Hu as (-> & _). split.
  - by rewrite (upsertPermission_files flt _ _ _ _ U).
  - intros r Hr.
    destruct (upsertPermission_rows flt _ _ _ _ _ U Hr) as [?|[-> _]];
      [by apply Hp|].
    cbn [drivePermissionData DrivePermission.fileId].
    apply Hvalid. apply elem_of_app. right. left.
Qed.

(** *** [cleanupOrphanedRecords] *)

Lemma cleanupOrphanedRecords_within files d :
  within (map DriveFileData.id files) (cleanupOrphanedRecords files d).
Proof.
  unfold cleanupOrphanedRecords.
  set (R := map DriveFileData.id files).
  set (d1 := if Nat.ltb 0 _ then _ else d).
  assert (H1 : ∀ p, p ∈ Prisma.drivePermission d1 ->
                    DrivePermission.fileId p ∈ R).
  { intros p Hp. destruct (decide (DrivePermission.fileId p ∈ R)) as [|Hno];
      [done|exfalso]. revert Hp. unfold d1.
    destruct (Nat.ltb_spec 0 (length
      (Prisma.drivePermission_.findMany_fileId_notIn d R))) as [Hlt|Hge].
    - unfold Prisma.drivePermission_.deleteMany,
        Prisma.drivePermission_.findMany_fileId_notIn. cbn.
      intros [Hid Hp]%list_elem_of_filter. apply Hid.
      apply list_elem_of_fmap_2. by apply list_elem_of_filter.
    - apply Nat.le_0_r, nil_length_inv in Hge. intros Hp.
      assert (p ∈ Prisma.drivePermission_.findMany_fileId_notIn d R) as Hin
        by (by apply list_elem_of_filter).
      rewrite Hge in Hin. by apply elem_of_nil in Hin. }
  destruct (Nat.ltb_spec 0 (length
    (filter (fun f => DriveFile.id f ∉ R) (Prisma.driveFile d1))))
    as [Hlt|Hge].
  - split.
    + unfold Prisma.driveFile_.deleteMany. cbn.
      intros r [Hid Hr]%list_elem_of_filter.
      destruct (decide (DriveFile.id r ∈ R)) as [|Hno]; [done|exfalso].
      apply Hid. apply list_elem_of_fmap_2. by apply list_elem_of_filter.
    + unfold Prisma.driveFile_.deleteMany. cbn.
      intros p [_ Hp]%list_elem_of_filter. by apply H1.
  - apply Nat.le_0_r, nil_length_inv in Hge. split; [|done].
    intros r Hr. destruct (decide (DriveFile.id r ∈ R)) as [|Hno];
      [done|exfalso].
    assert (r ∈ filter (fun f => DriveFile.id f ∉ R) (Prisma.driveFile d1))
      as Hin by (by apply list_elem_of_filter).
    rewrite Hge in Hin. by apply elem_of_nil in Hin.
Qed.

Lemma cleanupOrphanedRecords_quiet files d :
  within (map DriveFileData.id files) d -> cleanupOrphanedRecords files d = d.
Proof.
  intros [Hf Hp]. unfold cleanupOrphanedRecords.
  assert (Prisma.drivePermission_.findMany_fileId_notIn d
            (map DriveFileData.id files) = []) as ->.
  { apply elem_of_nil_inv. intros p [Hno Hin]%list_elem_of_filter.
    apply Hno. by apply Hp. }
  cbn [length Nat.ltb Nat.leb].
  assert (filter (fun f => DriveFile.id f ∉ map DriveFileData.id files)
            (Prisma.driveFile d) = []) as ->; [|done].
  apply elem_of_nil_inv. intros r [Hno Hin]%list_elem_of_filter.
  apply Hno. by apply Hf.
Qed.

(** *** [POST] *)

Lemma filesPersisted_files rows d d' :
  Prisma.driveFile d = Prisma.driveFile d' ->
  filesPersisted flt rows d -> filesPersisted flt rows d'.
Proof.
  unfold filesPersisted, Prisma.driveFile_.findUnique. by intros <-.
Qed.

Lemma validPermissions_valid (permissions : list DrivePermission.t)
  (files : list DriveFileData.t) p :
  p ∈ filter (fun p => DrivePermission.fileId p
                       ∈ (list_to_set (map DriveFileData.id files)
                            : gset string)) permissions ->
  DrivePermission.fileId p ∈ map DriveFileData.id files.
Proof. intros [H _]%list_elem_of_filter. by apply elem_of_list_to_set in H. Qed.

Lemma validPermissions_ids (permissions : list DrivePermission.t)
  (files : list DriveFileData.t) :
  NoDup (map DrivePermission.id permissions) ->
  NoDup (map DrivePermission.id
           (filter (fun p => DrivePermission.fileId p
                             ∈ (list_to_set (map DriveFileData.id files)
                                  : gset string)) permissions)).
Proof.
  intros Hnd. apply (sublist_NoDup _ _ Hnd).
  apply (fmap_sublist DrivePermission.id). apply sublist_filter.
Qed.

(** After a [POST] nothing outside the fetched files is left, and without
    refused writes every fetched file is there. *)
Lemma POST_prunes drive db0 report :
  POST flt drive db0 = Some report ->
  ∃ files allPermissions,
    GoogleDriveService.syncAllData drive = Some (files, allPermissions)
    ∧ within (map DriveFileData.id files) (report_db report)
    ∧ ((∀ r, Prisma.refusesFile flt r = false) ->
       ∀ f, f ∈ files ->
         DriveFileData.id f ∈ Prisma.fileIds (report_db report)).
Proof.
  unfold POST.
  destruct (GoogleDriveService.syncAllData drive) as [[files ps]|]; [|done].
  unfold syncDriveFiles, syncDrivePermissions. cbn [db]. intros [= <-].
  exists files, ps. cbn [report_db db]. split; [done|]. split.
  - apply syncPermissions_within; [apply validPermissions_valid|].
    apply syncFiles_within; [by intros f ?%(list_elem_of_fmap_2 DriveFileData.id)|].
    apply cleanupOrphanedRecords_within.
  - intros Hok f Hf. unfold Prisma.fileIds.
    rewrite syncPermissions_frame. by apply syncFiles_cover.
Qed.

(** A second [POST] on an unchanged catalogue, with distinct file ids and
    distinct permission ids, creates and updates nothing. *)
Lemma POST_again drive db0 report :
  POST flt drive db0 = Some report ->
  (∀ files allPermissions,
     GoogleDriveService.syncAllData drive = Some (files, allPermissions) ->
     NoDup (map DriveFileData.id files)
     ∧ NoDup (map DrivePermission.id allPermissions)) ->
  ∃ report2,
    POST flt drive (report_db report) = Some report2
    ∧ report_db report2 = report_db report
    ∧ files_upserted (report_files report2) = 0
    ∧ files_updated (report_files report2) = 0
    ∧ permissions_upserted (report_permissions report2) = 0
    ∧ permissions_updated (report_permissions report2) = 0.
Proof.
  intros Hpost Hnd.
  destruct (POST_prunes drive db0 report Hpost)
    as (files & ps & Hdata & Hwithin & _).
  destruct (Hnd files ps Hdata) as [Hfiles Hps].
  revert Hpost. unfold POST. rewrite Hdata.
  unfold syncDriveFiles, syncDrivePermissions. cbn [db]. intros [= <-].
  cbn [report_db db] in *.
  set (valid := filter _ ps) in *.
  set (sF := fold_left (syncFile flt) files _) in *.
  set (sP := fold_left (syncPermission flt) valid _) in *.
  rewrite cleanupOrphanedRecords_quiet by done.
  assert (HpersF : filesPersisted flt (map driveFileData files) (db sP)).
  { apply (filesPersisted_files _ (db sF)).
    - unfold sP. by rewrite syncPermissions_frame.
    - by apply syncFiles_settle. }
  assert (HpersP : permissionsPersisted flt (map drivePermissionData valid)
                     (db sP)).
  { apply syncPermissions_settle. by apply validPermissions_ids. }
  destruct (syncFiles_quiet files (mkTally 0 0 0 0 (db sP) [TxBegin]) HpersF)
    as (Hd & Hi & Hu & _).
  set (sF2 := fold_left (syncFile flt) files
                (mkTally 0 0 0 0 (db sP) [TxBegin])) in *.
  cbn [db upserted updated] in Hd, Hi, Hu.
  destruct (syncPermissions_quiet valid (mkTally 0 0 0 0 (db sF2) [TxBegin]))
    as (Hd' & Hi' & Hu' & _).
  { cbn [db]. by rewrite Hd. }
  set (sP2 := fold_left (syncPermission flt) valid
                (mkTally 0 0 0 0 (db sF2) [TxBegin])) in *.
  cbn [db upserted updated] in Hd', Hi', Hu'.
  eexists. split; [reflexivity|].
  cbn [report_db report_files report_permissions db files_upserted
       files_updated permissions_upserted permissions_updated upserted
       updated] in *.
  split_and!; congruence.
Qed.

End OneShotRun.

(** ** The parents column *)

Section Parents.

Import Spec.

Local Open Scope string_scope.








End Parents.

(** * The properties of the specification *)

(** ** C5: change detection *)

Section ChangeDetection.

Import Spec.


End ChangeDetection.

(** ** C6: defaults *)

Section Defaults.

Import Spec.

Lemma or_str_missing field default :
  missing field -> Js.or_str field default = default.
Proof. by intros [-> | ->]. Qed.

(** C6.  The placeholder ["Untitled"] for a missing name and the defaults
    ["user"] and ["reader"] for a missing grant type and role are part of
    the record that is compared, not only of the record that is written:
    once a file or a grant with such missing fields has been persisted (with
    the defaults in its row), synchronising the unchanged record again
    writes nothing.  This holds for the engine and for the one-shot
    synchroniser (which counts one skip). *)
Theorem defaults_applied_before_comparison :
  (∀ flt d0 file d o,
     let data := GoogleDriveSyncService.driveFileData
                   (GoogleDriveSyncService.toDriveFileData file) in
     GoogleDriveSyncService.upsertFile flt d0 data = Some (d, o) ->
     (missing (SchemaFile.name file) ->
      ∃ r, Prisma.driveFile_.findUnique d (SchemaFile.id file) = Some r
           ∧ DriveFile.name r = "Untitled")
     ∧ changeCheck
         (option_map DriveFile.object
            (Prisma.driveFile_.findUnique d (SchemaFile.id file)))
         (DriveFile.object data) = Skip
     ∧ GoogleDriveSyncService.upsertFile flt d data = Some (d, []))
  ∧ (∀ flt d0 fileId permission d o,
       let data := GoogleDriveSyncService.drivePermissionData fileId
                     permission in
       GoogleDriveSyncService.upsertPermission flt d0 data = Some (d, o) ->
       (missing (SchemaPermission.type permission) ->
        missing (SchemaPermission.role permission) ->
        ∃ r, Prisma.drivePermission_.findUnique d
               (SchemaPermission.id permission) = Some r
             ∧ DrivePermission.type r = "user"
             ∧ DrivePermission.role r = "reader")
       ∧ changeCheck
           (option_map DrivePermission.object
              (Prisma.drivePermission_.findUnique d
                 (SchemaPermission.id permission)))
           (DrivePermission.object data) = Skip
       ∧ GoogleDriveSyncService.upsertPermission flt d data = Some (d, []))
  ∧ (∀ flt s f,
       let s1 := SyncServer.syncFile flt s f in
       SyncServer.errors s1 = SyncServer.errors s ->
       (DriveFileData.name f = "" ->
        ∃ r, Prisma.driveFile_.findUnique (SyncServer.db s1)
               (DriveFileData.id f) = Some r
             ∧ DriveFile.name r = "Untitled")
       ∧ SyncServer.syncFile flt s1 f
         = SyncServer.mkTally (SyncServer.upserted s1) (SyncServer.updated s1)
             (S (SyncServer.skipped s1)) (SyncServer.errors s1)
             (SyncServer.db s1) (SyncServer.ops s1))
  ∧ (∀ flt s p,
       let s1 := SyncServer.syncPermission flt s p in
       SyncServer.errors s1 = SyncServer.errors s ->
       (DrivePermission.type p = "" -> DrivePermission.role p = "" ->
        ∃ r, Prisma.drivePermission_.findUnique (SyncServer.db s1)
               (DrivePermission.id p) = Some r
             ∧ DrivePermission.type r = "user"
             ∧ DrivePermission.role r = "reader")
       ∧ SyncServer.syncPermission flt s1 p
         = SyncServer.mkTally (SyncServer.upserted s1) (SyncServer.updated s1)
             (S (SyncServer.skipped s1)) (SyncServer.errors s1)
             (SyncServer.db s1) (SyncServer.ops s1)).
Proof.
  split_and!.
  - intros flt d0 file d o data U.
    pose proof (upsertFile_found flt _ _ _ _ U) as Hfound.
    cbn [data GoogleDriveSyncService.driveFileData
         GoogleDriveSyncService.toDriveFileData DriveFile.id
         DriveFileData.id] in Hfound.
    split_and!.
    + intros Hname. exists data. split; [done|].
      cbn. by apply or_str_missing.
    + rewrite Hfound. cbn [option_map]. rewrite file_changeCheck.
      by rewrite decide_True.
    + by apply upsertFile_present.
  - intros flt d0 fileId permission d o data U.
    pose proof (upsertPermission_found flt _ _ _ _ U) as Hfound.
    cbn [data GoogleDriveSyncService.drivePermissionData
         DrivePermission.id] in Hfound.
    split_and!.
    + intros Htype Hrole. exists data. split; [done|].
      cbn. by rewrite !or_str_missing.
    + rewrite Hfound. cbn [option_map]. rewrite permission_changeCheck.
      by rewrite decide_True.
    + by apply upsertPermission_present.
  - intros flt s f s1 Herr.
    assert (Hfound : Prisma.driveFile_.findUnique (SyncServer.db s1)
                       (DriveFileData.id f)
                     = Some (SyncServer.driveFileData f)).
    { revert Herr. unfold s1. rewrite syncFile_spec. cbv zeta.
      unfold Prisma.driveFile_.findUnique.
      destruct (List.find _ (Prisma.driveFile (SyncServer.db s)))
        as [r|] eqn:E.
      - destruct (decide (r = SyncServer.driveFileData f)) as [->|];
          [done|].
        destruct (Prisma.refusesFile flt (SyncServer.driveFileData f));
          cbn; [lia|]. intros _.
        rewrite (find_replace DriveFile.id) by done.
        by rewrite String.eqb_refl, E.
      - destruct (Prisma.refusesFile flt (SyncServer.driveFileData f));
          cbn; [lia|]. intros _.
        rewrite (find_snoc DriveFile.id), E. cbn.
        by rewrite String.eqb_refl. }
    split.
    + intros Hname. eexists. split; [exact Hfound|]. cbn. by rewrite Hname.
    + rewrite syncFile_spec. cbv zeta. rewrite Hfound.
      by rewrite decide_True.
  - intros flt s p s1 Herr.
    assert (Hfound : Prisma.drivePermission_.findUnique (SyncServer.db s1)
                       (DrivePermission.id p)
                     = Some (SyncServer.drivePermissionData p)).
    { revert Herr. unfold s1. rewrite syncPermission_spec. cbv zeta.
      unfold Prisma.drivePermission_.findUnique.
      destruct (List.find _ (Prisma.drivePermission (SyncServer.db s)))
        as [r|] eqn:E.
      - destruct (decide (r = SyncServer.drivePermissionData p)) as [->|];
          [done|].
        destruct (_ || _); cbn; [lia|]. intros _.
        rewrite (find_replace DrivePermission.id) by done.
        by rewrite String.eqb_refl, E.
      - destruct (_ || _); cbn; [lia|]. intros _.
        rewrite (find_snoc DrivePermission.id), E. cbn.
        by rewrite String.eqb_refl. }
    split.
    + intros Htype Hrole. eexists. split; [exact Hfound|]. cbn.
      by rewrite Htype, Hrole.
    + rewrite syncPermission_spec. cbv zeta. rewrite Hfound.
      by rewrite decide_True.
Qed.

End Defaults.

(** ** The operations of a batch *)

Section BatchCommit.

Import GoogleDriveSyncService.

Variable flt : Prisma.Faults.

Lemma upsertFile_isWrite db data db' o :
  upsertFile flt db data = Some (db', o) -> Forall (fun x => isWrite x = true) o.
Proof.
  intros [[-> _]|[_ [-> | ->]]]%upsertFile_writes; repeat constructor.
Qed.

(** The records of a batch add writes only. *)
Lemma batch_ops batch s :
  ∃ inner,
    ops (fold_left (processFile flt) batch s) = ops s ++ inner
    ∧ Forall (fun o => isWrite o = true) inner.
Proof.
  revert s. induction batch as [|f batch IH]; intros s; cbn [fold_left].
  - exists []. by rewrite app_nil_r.
  - destruct (IH (processFile flt s f)) as (inner & -> & Hinner).
    unfold processFile.
    destruct (upsertFile flt (db s) (driveFileData f)) as [[d o]|] eqn:U.
    + exists (o ++ inner). cbn. rewrite app_assoc. split; [done|].
      apply Forall_app. split; [|done]. by apply upsertFile_isWrite in U.
    + by exists inner.
Qed.

Lemma batch_accounts batch s :
  let s' := fold_left (processFile flt) batch s in
  processedFiles s' + errors s' = processedFiles s + errors s + length batch.
Proof.
  revert s. induction batch as [|f batch IH]; intros s; cbn [fold_left].
  - simpl. lia.
  - cbv zeta in IH. rewrite IH. unfold processFile.
    destruct (upsertFile flt (db s) (driveFileData f)) as [[d o]|]; simpl; lia.
Qed.

End BatchCommit.

(** ** C10: the referential filter of the one-shot synchroniser *)

Section ReferentialFilter.

Import SyncServer Spec.

Variable flt : Prisma.Faults.

Lemma filter_all {A} (P : A -> Prop) `{!∀ x, Decision (P x)} (l : list A) :
  Forall P l -> filter P l = l.
Proof.
  induction 1 as [|x l Hx Hl IH]; [done|].
  rewrite filter_cons_True by done. by rewrite IH.
Qed.

Lemma syncPermission_step s p :
  let s' := syncPermission flt s p in
  upserted s' + updated s' + skipped s' + errors s'
  = S (upserted s + updated s + skipped s + errors s)
  ∧ (ops s' = ops s
     ∨ ops s' = ops s ++ [PermissionCreated (drivePermissionData p)]
     ∨ ops s' = ops s ++ [PermissionUpdated (drivePermissionData p)]).
Proof.
  cbv zeta. rewrite syncPermission_spec. cbv zeta.
  repeat case_match; cbn; split; auto; lia.
Qed.

Lemma syncPermissions_fold fileIds permissions s :
  Forall (fun p => DrivePermission.fileId p ∈ fileIds) permissions ->
  Forall (withinFiles fileIds) (ops s) ->
  let s' := fold_left (syncPermission flt) permissions s in
  upserted s' + updated s' + skipped s' + errors s'
  = upserted s + updated s + skipped s + errors s + length permissions
  ∧ Forall (withinFiles fileIds) (ops s').
Proof.
  revert s. induction permissions as [|p permissions IH]; intros s Hvalid Hops;
    cbn [fold_left].
  - simpl. split; [lia|done].
  - apply Forall_cons in Hvalid as [Hp Hvalid].
    destruct (syncPermission_step s p) as [Hcount Hstep].
    destruct (IH (syncPermission flt s p) Hvalid) as [Hc Ho].
    + destruct Hstep as [-> |[-> | ->]]; [done|..];
        (apply Forall_app; split; [done|]); by repeat constructor.
    + split; [|done]. cbv zeta in Hc. rewrite Hc. simpl. lia.
Qed.

(** C10.  [syncDrivePermissions] writes only permissions whose [fileId] is
    the id of one of the fetched files: the others are dropped before the
    loop, so the call is the call on the valid permissions alone and every
    write is of a permission of a fetched file; its [total] is the number of
    valid permissions, each of which is counted once as upserted, updated,
    skipped or error; its [cleaned] is 0 whatever the database was, also in
    the report of a [POST] whose cleanup deleted orphaned permissions. *)
Theorem one_shot_filters_by_fetched_files
  (permissions : list DrivePermission.t) (files : list DriveFileData.t)
  (db0 : Prisma.Db) :
  let fileIds := map DriveFileData.id files in
  let valid :=
    filter (fun p => DrivePermission.fileId p ∈ fileIds) permissions in
  let r := syncDrivePermissions flt permissions files db0 in
  r = syncDrivePermissions flt valid files db0
  ∧ permissions_total r.1 = length valid
  ∧ permissions_cleaned r.1 = 0
  ∧ permissions_upserted r.1 + permissions_updated r.1
    + permissions_skipped r.1 + permissions_errors r.1
    = permissions_total r.1
  ∧ Forall (withinFiles fileIds) (ops r.2)
  ∧ (∀ drive report,
       POST flt drive db0 = Some report ->
       permissions_cleaned (report_permissions report) = 0).
Proof.
  intros fileIds valid r.
  assert (Hfilter :
    filter (fun p => DrivePermission.fileId p
                     ∈ (list_to_set (map DriveFileData.id files)
                          : gset string)) permissions = valid).
  { unfold valid, fileIds. apply list_filter_iff.
    intros p. apply elem_of_list_to_set. }
  assert (Hvalid : Forall (fun p => DrivePermission.fileId p ∈ fileIds) valid).
  { apply Forall_forall. by intros p [? _]%list_elem_of_filter. }
  assert (Hagain :
    filter (fun p => DrivePermission.fileId p
                     ∈ (list_to_set (map DriveFileData.id files)
                          : gset string)) valid = valid).
  { apply filter_all. apply Forall_forall. intros p Hp.
    apply elem_of_list_to_set.
    eapply Forall_forall in Hvalid; [exact Hvalid|done]. }
  destruct (syncPermissions_fold fileIds valid
              (mkTally 0 0 0 0 db0 [TxBegin]) Hvalid) as [Hcount Hops].
  { by repeat constructor. }
  unfold r, syncDrivePermissions. cbv zeta. rewrite Hfilter, Hagain.
  cbn [fst snd permissions_total permissions_cleaned permissions_upserted
       permissions_updated permissions_skipped permissions_errors
       ops upserted updated skipped errors] in *.
  split_and!; [done|done|done|lia| |].
  - apply Forall_app. split; [done|]. by repeat constructor.
  - intros drive report. unfold POST.
    destruct (GoogleDriveService.syncAllData drive) as [[fs ps]|]; [|done].
    destruct (syncDriveFiles flt fs _) as [filesResult s1].
    unfold syncDrivePermissions. by intros [= <-].
Qed.

End ReferentialFilter.

(** ** C4: starting a run *)

Section SingleFlight.

Import SyncServer.

(** C4 (as the handler behaves).  [handleStartSync] keeps no record of the
    runs in flight and never answers with a conflict: its answer does not
    depend on them; whenever the service can be constructed the request is
    answered with success and one more run is in flight, also when a run for
    the same [folderId] is already in flight; the only other answer is the
    500 of a failed construction, which starts nothing. *)
Theorem start_is_never_a_conflict (constructed : bool)
  (folderId : option string) (running : InFlight) :
  let r := handleStartSync constructed folderId running in
  r.1 = (handleStartSync constructed folderId []).1
  ∧ (constructed = true ->
     r.1 = mkResponse 200 true ∧ r.2 = running ++ [folderId])
  ∧ (constructed = false -> r.1 = mkResponse 500 false ∧ r.2 = running)
  ∧ status r.1 ≠ 409.
Proof.
  unfold handleStartSync. destruct constructed; cbn; split_and!;
    try done; lia.
Qed.

End SingleFlight.

(** ** Counters of a whole run *)

Section Counters.

Import GoogleDriveSyncService Spec.

Variable flt : Prisma.Faults.
Variable drive : Drive.t.

Lemma processFilesBatch_errors files s :
  (∀ r, Prisma.refusesFile flt r = false) ->
  errors (processFilesBatch flt files s) = errors s.
Proof.
  intros Hok.
  apply (processFilesBatch_ind flt (fun _ s' => errors s' = errors s));
    [done| |done].
  intros _ f _ s0 _ H. unfold processFile.
  destruct (upsertFile flt (db s0) (driveFileData f)) as [[d o]|] eqn:U;
    [done|].
  apply upsertFile_None in U. by rewrite Hok in U.
Qed.

Lemma processFilesBatch_permissionWrites files s :
  permissionWrites (ops s) = [] ->
  permissionWrites (ops (processFilesBatch flt files s)) = [].
Proof.
  intros Hs.
  apply (processFilesBatch_ind flt
           (fun _ s' => permissionWrites (ops s') = [])); [done| |].
  - intros _ f _ s0 _ H. unfold processFile.
    destruct (upsertFile flt (db s0) (driveFileData f)) as [[d o]|] eqn:U;
      [|done].
    cbn. rewrite permissionWrites_app, H.
    by apply upsertFile_writes in U as [[-> _]|[_ [-> | ->]]].
  - intros _ o s0 Ho H. cbn. rewrite permissionWrites_app, H.
    by destruct o.
Qed.

Lemma processPermission_processedFiles fileId x p :
  processedFiles (processPermission flt fileId x p).2 = processedFiles x.2.
Proof.
  destruct x as [seen s]. unfold processPermission.
  destruct (decide _); [done|].
  by destruct (upsertPermission flt _ _) as [[d o]|].
Qed.

Lemma permissions_processedFiles fileId permissions x :
  processedFiles (fold_left (processPermission flt fileId) permissions x).2
  = processedFiles x.2.
Proof.
  revert x. induction permissions as [|p permissions IH]; intros x;
    cbn [fold_left]; [done|].
  by rewrite IH, processPermission_processedFiles.
Qed.

Lemma files_processedFiles n (files : list (nat * string)) x :
  processedFiles (fold_left (permissionsOfFile flt drive n) files x).2
  = processedFiles x.2.
Proof.
  revert x. induction files as [|[i fileId] files IH]; intros [seen s];
    cbn [fold_left]; [done|].
  rewrite IH. unfold permissionsOfFile.
  destruct (Drive.permissions_list drive fileId) as [permissions|]; [|done].
  pose proof (permissions_processedFiles fileId permissions
    (seen, record TxBegin
             (set_totalPermissions
                (totalPermissions s + length permissions) s))) as H.
  by destruct (fold_left _ permissions _) as [seen1 s1].
Qed.

Lemma syncAllPermissions_processedFiles s :
  processedFiles (syncAllPermissions flt drive s) = processedFiles s.
Proof. unfold syncAllPermissions. by rewrite files_processedFiles. Qed.

Lemma fetchedState_counters db0 :
  errors (fetchedState drive db0) = 0
  ∧ processedFiles (fetchedState drive db0) = 0.
Proof.
  unfold fetchedState.
  pose proof (getTotalFileCount_frame drive (new db0)) as (_ & _ & He & Hp).
  destruct (getTotalFileCount drive (new db0)) as [n sc].
  destruct (Drive.fetchListing drive) as [r rest].
  pose proof (fetchLoop_frame r rest [] (set_totalFiles n sc))
    as (_ & _ & _ & He' & Hp' & _).
  cbn [fst snd] in *. by rewrite He', Hp'.
Qed.

(** Without refused writes a run processes every fetched file and its only
    errors are the grant listings that threw. *)
Lemma settledState_counters db0 files :
  (∀ r, Prisma.refusesFile flt r = false) ->
  (∀ r, Prisma.refusesPermission flt r = false) ->
  let s1 := settledState flt drive db0 files in
  processedFiles s1 = length files
  ∧ errors s1 = length (throwing drive (Prisma.fileIds (db s1))).
Proof.
  intros Hfile Hperm. unfold settledState.
  destruct (fetchedState_counters db0) as [He Hp].
  set (sf := fetchedState drive db0) in *.
  set (fs := map toDriveFileData files).
  pose proof (processFilesBatch_errors fs sf Hfile) as HeA.
  pose proof (processFilesBatch_accounts flt fs sf) as HaA.
  set (sA := processFilesBatch flt fs sf) in *.
  pose proof (syncAllPermissions_errors flt drive sA Hperm) as HeB.
  pose proof (syncAllPermissions_processedFiles sA) as HpB.
  pose proof (syncAllPermissions_files flt drive sA) as HfB.
  set (sB := syncAllPermissions flt drive sA) in *.
  destruct (cleanupOrphanedData_frame sB) as (_ & HeC & _ & HfC).
  assert (HpC : processedFiles (cleanupOrphanedData sB) = processedFiles sB).
  { unfold cleanupOrphanedData. by case_match. }
  cbv zeta in HaA. unfold fs in HaA. rewrite length_map in HaA.
  split.
  - rewrite HpC, HpB. lia.
  - rewrite HeC, HeB. unfold Prisma.fileIds. rewrite HfC, HfB. lia.
Qed.

Lemma startSync_throws_ops db0 :
  Drive.drain (Drive.fetchListing drive) = None ->
  ops (startSync flt drive db0).2 = [].
Proof.
  unfold startSync, syncDriveFilesWithPagination, Drive.drain.
  pose proof (getTotalFileCount_frame drive (new db0)) as (_ & Ho & _).
  destruct (getTotalFileCount drive (new db0)) as [n sc].
  destruct (Drive.fetchListing drive) as [r rest].
  pose proof (fetchLoop_frame r rest [] (set_totalFiles n sc))
    as (Hf & _ & Ho' & _).
  destruct (fetchLoop r rest [] (set_totalFiles n sc)) as [fetched sf].
  cbn [fst snd] in *. intros Hdrain. rewrite Hf, Hdrain.
  cbn [snd ops emit]. rewrite Ho'. cbn [ops set_totalFiles]. exact Ho.
Qed.

End Counters.

(** ** C9: one write per grant id *)

Section Deduplication.

Import GoogleDriveSyncService Spec.

(** C9 (as the engine behaves).  Within a run each permission id is written
    at most once.  An occurrence of an id that is already in
    [processedPermissionIds] is skipped without a create, an update, an
    error or a [processedPermissions] increment.  An id enters that set
    exactly when the [try] block of an occurrence completes; an occurrence
    whose write throws costs one error and leaves the id unmarked. *)
Theorem each_grant_id_written_once (flt : Prisma.Faults) :
  (∀ drive db0,
     NoDup (permissionWrites (ops (startSync flt drive db0).2)))
  ∧ (∀ fileId seen s p,
       SchemaPermission.id p ∈ seen ->
       processPermission flt fileId (seen, s) p = (seen, s))
  ∧ (∀ fileId seen s p,
       SchemaPermission.id p ∉ seen ->
       let r := processPermission flt fileId (seen, s) p in
       (SchemaPermission.id p ∈ r.1
        <-> upsertPermission flt (db s) (drivePermissionData fileId p)
            ≠ None)
       ∧ (upsertPermission flt (db s) (drivePermissionData fileId p) = None
          -> r = (seen, set_errors (S (errors s)) s))).
Proof.
  split_and!.
  - intros drive db0.
    destruct (Drive.drain (Drive.fetchListing drive)) as [files|] eqn:Hdrain.
    + rewrite (startSync_returns flt drive db0 files Hdrain).
      cbn [snd ops emit]. unfold settledState.
      destruct (cleanupOrphanedData_frame
                  (syncAllPermissions flt drive
                     (processFilesBatch flt (map toDriveFileData files)
                        (fetchedState drive db0)))) as (-> & _).
      apply syncAllPermissions_onceEach.
      apply processFilesBatch_permissionWrites.
      by destruct (fetchedState_frame drive db0) as [_ ->].
    + rewrite startSync_throws_ops by done. apply NoDup_nil_2.
  - intros fileId seen s p Hin. unfold processPermission.
    by rewrite decide_True.
  - intros fileId seen s p Hin. unfold processPermission.
    rewrite decide_False by done.
    destruct (upsertPermission flt (db s) (drivePermissionData fileId p))
      as [[d o]|]; cbn [fst snd].
    + split; [|done]. split; [done|]. intros _.
      apply elem_of_union. left. by apply elem_of_singleton.
    + split; [|done]. split; [done|]. by intros [].
Qed.

End Deduplication.

(** ** C1: pruning *)

Section Pruning.

Import GoogleDriveSyncService Spec Example.

(** The engine deletes no file row: whatever the catalogue, every entry
    that was persisted before a run is persisted after it. *)
Lemma startSync_keeps_entries flt drive db0 id :
  id ∈ Prisma.fileIds db0 ->
  id ∈ Prisma.fileIds (db (startSync flt drive db0).2).
Proof.
  intros Hid.
  assert (Hfile : ∀ files s,
            id ∈ Prisma.fileIds (db s) ->
            id ∈ Prisma.fileIds (db (processFilesBatch flt files s))).
  { intros files s Hs.
    apply (processFilesBatch_ind flt
             (fun _ s' => id ∈ Prisma.fileIds (db s'))); [done| |done].
    intros _ f _ s0 _ H. unfold processFile.
    destruct (upsertFile flt (db s0) (driveFileData f)) as [[d o]|] eqn:U;
      [|done].
    cbn. by apply (upsertFile_keeps _ _ _ _ _ _ U). }
  destruct (Drive.drain (Drive.fetchListing drive)) as [files|] eqn:Hdrain.
  - rewrite (startSync_returns flt drive db0 files Hdrain).
    cbn [snd db emit]. unfold settledState, Prisma.fileIds.
    destruct (cleanupOrphanedData_frame
                (syncAllPermissions flt drive
                   (processFilesBatch flt (map toDriveFileData files)
                      (fetchedState drive db0)))) as (_ & _ & _ & ->).
    rewrite syncAllPermissions_files. apply Hfile.
    by destruct (fetchedState_frame drive db0) as [-> _].
  - revert Hdrain.
    unfold startSync, syncDriveFilesWithPagination, Drive.drain.
    pose proof (getTotalFileCount_frame drive (new db0)) as (Hd & _).
    destruct (getTotalFileCount drive (new db0)) as [n sc].
    destruct (Drive.fetchListing drive) as [r rest].
    pose proof (fetchLoop_frame r rest [] (set_totalFiles n sc))
      as (Hf & Hd' & _).
    destruct (fetchLoop r rest [] (set_totalFiles n sc)) as [fetched sf].
    cbn [fst snd] in *. intros Hdrain. rewrite Hf, Hdrain.
    cbn [snd db emit]. rewrite Hd'. cbn [db set_totalFiles]. by rewrite Hd.
Qed.

(** C1 (the engine at the failing input).  The database holds the entries
    [A], [B], [C] and a grant on [C]; the catalogue has [A] and [B] only.
    The run of the engine completes without an error and leaves [C] and its
    grant in the database; the one-shot synchroniser on the same input ends
    with exactly [A] and [B] and without the grant. *)
Theorem engine_keeps_entries_the_catalogue_lost :
  let run := startSync Prisma.noFaults driveAB dbABC in
  run.1 = Some (mkStats 2 2 1 1 0)
  ∧ Prisma.fileIds (db run.2) = ["A"; "B"; "C"]
  ∧ Prisma.permissionIds (db run.2) = ["pa"; "pc"]
  ∧ option_map (fun report =>
                  (Prisma.fileIds (SyncServer.report_db report),
                   Prisma.permissionIds (SyncServer.report_db report)))
      (SyncServer.POST Prisma.noFaults driveAB dbABC)
    = Some (["A"; "B"], ["pa"]).
Proof. by vm_compute. Qed.

End Pruning.

(** ** C3: the percentages of a run *)

Section Progress.

Import GoogleDriveSyncService Spec Example.

(** C3 (the engine at the failing input).  On a catalogue of 1300 files in
    thirteen pages of 100 the run completes, the last event of the counting
    phase carries 5 percent, and the first event of the fetch phase, emitted
    after it, carries 100/1300 * 60 percent, which is less. *)
Theorem progress_drops_after_counting :
  let run := startSync Prisma.noFaults drive1300 emptyDb in
  let l := percents (emitted run.2) in
  run.1 = Some (mkStats 1300 1300 0 0 0)
  ∧ l !! 12 = Some (Js.Fin 5)
  ∧ l !! 13 = Some (Js.Fin ((100 # 1300) * 60))
  ∧ Js.leb (Js.Fin 5) (Js.Fin ((100 # 1300) * 60)) = false
  ∧ nondecreasing l = false.
Proof. by vm_compute. Qed.

End Progress.

(** ** The properties at concrete inputs *)

Section Instances.

Import GoogleDriveSyncService Spec Example.

Local Ltac decided := apply (bool_decide_unpack _); vm_compute; exact I.


(** A file without a name, persisted and synchronised again. *)
Lemma defaults_applied_before_comparison_witness :
  (∃ r, Prisma.driveFile_.findUnique
          (Prisma.mkDb [row (unnamed "U")] []) "U" = Some r
        ∧ DriveFile.name r = "Untitled")
  ∧ upsertFile Prisma.noFaults (Prisma.mkDb [row (unnamed "U")] [])
      (row (unnamed "U"))
    = Some (Prisma.mkDb [row (unnamed "U")] [], []).
Proof.
  destruct (proj1 defaults_applied_before_comparison Prisma.noFaults emptyDb
              (unnamed "U") (Prisma.mkDb [row (unnamed "U")] [])
              [FileCreated (row (unnamed "U"))] eq_refl)
    as (Hname & _ & Hskip).
  split; [|exact Hskip]. apply Hname. by left.
Defined.

(** The grant ["p"] already processed in this run. *)
Lemma each_grant_id_written_once_witness :
  processPermission refusesOnA "B" ({["p"]}, new dbAB) (grant "p")
  = ({["p"]}, new dbAB).
Proof.
  apply (proj1 (proj2 (each_grant_id_written_once refusesOnA))).
  by apply elem_of_singleton.
Defined.

(** The [POST] that deletes the orphaned grant ["pc"] reports
    [cleaned = 0]. *)
Lemma one_shot_filters_by_fetched_files_witness :
  match SyncServer.POST Prisma.noFaults driveAB dbABC with
  | Some report =>
      SyncServer.permissions_cleaned (SyncServer.report_permissions report)
      = 0
      ∧ Prisma.permissionIds (SyncServer.report_db report) = ["pa"]
  | None => False
  end.
Proof.
  destruct (SyncServer.POST Prisma.noFaults driveAB dbABC) as [report|]
    eqn:Hreport.
  - split.
    + exact (proj2 (proj2 (proj2 (proj2 (proj2
               (one_shot_filters_by_fetched_files Prisma.noFaults [] []
                  dbABC))))) driveAB report Hreport).
    + vm_compute in Hreport. by injection Hreport as <-.
  - vm_compute in Hreport. discriminate.
Defined.

(** A first start. *)
Lemma start_is_never_a_conflict_witness :
  SyncServer.handleStartSync true (Some "folder") []
  = (SyncServer.mkResponse 200 true, [Some "folder"]).
Proof.
  destruct (proj1 (proj2 (start_is_never_a_conflict true (Some "folder") []))
              eq_refl) as [H1 H2].
  destruct (SyncServer.handleStartSync true (Some "folder") []) as [r l].
  simpl in *. by subst.
Defined.

(** C4 at a concrete input: a start request for a [folderId] that has a run
    in flight is answered with success, and two runs for it are in flight
    afterwards. *)
Lemma start_while_running_is_accepted :
  let r := SyncServer.handleStartSync true (Some "folder") [Some "folder"] in
  SyncServer.success r.1 = true
  ∧ SyncServer.status r.1 = 200
  ∧ r.2 = [Some "folder"; Some "folder"].
Proof. done. Qed.

(** C9 at a concrete input: [A] and [B] are shared with the same grantee
    ["p"]; the write of the occurrence under [A] throws, and the occurrence
    under [B], which comes after it, is not skipped but created. *)
Lemma occurrence_after_a_failed_one_is_written :
  let run := startSync refusesOnA driveShared dbAB in
  run.1 = Some (mkStats 2 2 2 1 1)
  ∧ writes (ops run.2)
    = [PermissionCreated (drivePermissionData "B" (grant "p"))]
  ∧ processPermission refusesOnA "B" (∅, new dbAB) (grant "p")
    ≠ (∅, new dbAB).
Proof.
  split_and!; [by vm_compute..|].
  intros H. apply (f_equal (fun r => processedPermissions r.2)) in H.
  vm_compute in H. discriminate.
Qed.

End Instances.

(** * Further properties of the code *)

(** ** The percentages of the progress events *)

Section Percentages.

Import GoogleDriveSyncService Spec Further.

Implicit Types (l : list Js.number) (lo hi q : Q).

Lemma climbs_le lo l hi : climbs lo l hi -> (lo <= hi)%Q.
Proof.
  revert lo. induction l as [|x l IH]; intros lo; cbn; [done|].
  intros (q & _ & Hq & Hl). eapply Qle_trans; [exact Hq|]. by apply IH.
Qed.

Lemma climbs_weaken lo lo' l hi hi' :
  (lo' <= lo)%Q -> (hi <= hi')%Q -> climbs lo l hi -> climbs lo' l hi'.
Proof.
  revert lo lo'. induction l as [|x l IH]; intros lo lo' Hlo Hhi; cbn.
  - intros H. eapply Qle_trans; [exact Hlo|]. by eapply Qle_trans.
  - intros (q & -> & Hq & Hl). exists q. split_and!; [done| |].
    + by eapply Qle_trans.
    + eapply IH; [apply Qle_refl|done|done].
Qed.

Lemma climbs_app lo l1 mid l2 hi :
  climbs lo l1 mid -> climbs mid l2 hi -> climbs lo (l1 ++ l2) hi.
Proof.
  revert lo. induction l1 as [|x l1 IH]; intros lo; cbn.
  - intros H1 H2. eapply climbs_weaken; [exact H1|apply Qle_refl|done].
  - intros (q & -> & Hq & Hl) H2. exists q. split_and!; [done|done|].
    by apply IH.
Qed.

Lemma climbs_snoc lo l hi q :
  climbs lo l hi -> (hi <= q)%Q -> climbs lo (l ++ [Js.Fin q]) q.
Proof.
  intros H1 H2. eapply climbs_app; [exact H1|].
  exists q. split_and!; [done|done|]. cbn. apply Qle_refl.
Qed.

Lemma climbs_Forall lo l hi :
  climbs lo l hi ->
  Forall (fun x => ∃ q, x = Js.Fin q ∧ (lo <= q)%Q ∧ (q <= hi)%Q) l.
Proof.
  revert lo. induction l as [|x l IH]; intros lo; cbn; [by constructor|].
  intros (q & -> & Hq & Hl). constructor.
  - exists q. split_and!; [done|done|]. by eapply climbs_le.
  - eapply Forall_impl; [by apply IH|]. cbn.
    intros x (q' & -> & ? & ?). exists q'. split_and!; [done| |done].
    by eapply Qle_trans.
Qed.

Lemma climbs_nondecreasing lo l hi :
  climbs lo l hi -> Example.nondecreasing l = true.
Proof.
  revert lo. induction l as [|x l IH]; intros lo; [done|].
  intros (q & -> & Hq & Hl). destruct l as [|y l]; [done|].
  cbn [Example.nondecreasing]. apply andb_true_iff. split.
  - destruct Hl as (q' & -> & Hq' & _). cbn. by apply Qle_bool_iff.
  - by eapply IH.
Qed.

(** [Math.min] and the quotients of counters. *)
Lemma min_mono q q' c :
  (q <= q')%Q ->
  ((if Qle_bool q c then q else c) <= (if Qle_bool q' c then q' else c))%Q.
Proof.
  intros H. destruct (Qle_bool q c) eqn:E1, (Qle_bool q' c) eqn:E2.
  - done.
  - by apply Qle_bool_iff.
  - assert (Qle_bool q c = true); [|congruence].
    apply Qle_bool_iff. eapply Qle_trans; [exact H|]. by apply Qle_bool_iff.
  - apply Qle_refl.
Qed.

Lemma min_top q c : ((if Qle_bool q c then q else c) <= c)%Q.
Proof.
  destruct (Qle_bool q c) eqn:E; [by apply Qle_bool_iff|apply Qle_refl].
Qed.

Lemma min_bottom lo q c :
  (lo <= q)%Q -> (lo <= c)%Q -> (lo <= if Qle_bool q c then q else c)%Q.
Proof. by destruct (Qle_bool q c). Qed.

Lemma div_Fin a t :
  0 < t -> Js.div a t = Js.Fin (Z.of_nat a # Pos.of_nat t).
Proof. by destruct t; [lia|]. Qed.

Lemma div_zero a : 0 < a -> Js.div a 0 = Js.Infinity.
Proof. by destruct a; [lia|]. Qed.

Lemma quotient_mono a b p :
  a <= b -> (Z.of_nat a # p <= Z.of_nat b # p)%Q.
Proof. intros H. unfold Qle. cbn. nia. Qed.

Lemma quotient_nonneg a p : (0 <= Z.of_nat a # p)%Q.
Proof. unfold Qle. cbn. lia. Qed.

Lemma scaled_mono x y c : (0 <= c)%Q -> (x <= y)%Q -> (x * c <= y * c)%Q.
Proof. intros. by apply Qmult_le_compat_r. Qed.

Lemma scaled_nonneg x c : (0 <= c)%Q -> (0 <= x)%Q -> (0 <= x * c)%Q.
Proof. intros. by apply Qmult_le_0_compat. Qed.

Lemma shifted_bottom c x : (0 <= x)%Q -> (c <= c + x)%Q.
Proof.
  intros H. rewrite <- (Qplus_0_r c) at 1. by apply Qplus_le_r.
Qed.

Lemma countPercent_climb a b :
  a <= b ->
  ∃ qa qb, countPercent a = Js.Fin qa ∧ countPercent b = Js.Fin qb
           ∧ (0 <= qa)%Q ∧ (qa <= qb)%Q ∧ (qb <= 5)%Q.
Proof.
  intros H. unfold countPercent. rewrite !div_Fin by lia. cbn [Js.times Js.Math_min].
  eexists _, _. split_and!; [done|done| | |].
  - apply min_bottom; [|done].
    apply scaled_nonneg; [done|apply quotient_nonneg].
  - apply min_mono, scaled_mono; [done|by apply quotient_mono].
  - apply min_top.
Qed.

Lemma fetchPercent_climb t a b :
  0 < t -> a <= b ->
  ∃ qa qb, fetchPercent t a = Js.Fin qa ∧ fetchPercent t b = Js.Fin qb
           ∧ (0 <= qa)%Q ∧ (qa <= qb)%Q ∧ (qb <= 60)%Q.
Proof.
  intros Ht H. unfold fetchPercent. rewrite !div_Fin by done.
  cbn [Js.times Js.Math_min].
  eexists _, _. split_and!; [done|done| | |].
  - apply min_bottom; [|done].
    apply scaled_nonneg; [done|apply quotient_nonneg].
  - apply min_mono, scaled_mono; [done|by apply quotient_mono].
  - apply min_top.
Qed.

Lemma filePercent_climb t a b :
  0 < a -> a <= b ->
  ∃ qa qb, filePercent t a = Js.Fin qa ∧ filePercent t b = Js.Fin qb
           ∧ (60 <= qa)%Q ∧ (qa <= qb)%Q ∧ (qb <= 95)%Q.
Proof.
  intros Ha H. unfold filePercent. destruct (decide (t = 0)) as [->|Ht].
  - rewrite !div_zero by lia. cbn. by exists 95%Q, 95%Q.
  - rewrite !div_Fin by lia. cbn [Js.times Js.plus Js.Math_min].
    eexists _, _. split_and!; [done|done| | |].
    + apply min_bottom; [|done].
      apply shifted_bottom, scaled_nonneg; [done|apply quotient_nonneg].
    + apply min_mono, Qplus_le_r, scaled_mono; [done|by apply quotient_mono].
    + apply min_top.
Qed.

Lemma permissionPercent_climb n a b :
  0 < n -> a <= b ->
  ∃ qa qb, permissionPercent n a = Js.Fin qa
           ∧ permissionPercent n b = Js.Fin qb
           ∧ (95 <= qa)%Q ∧ (qa <= qb)%Q ∧ (qb <= 100)%Q.
Proof.
  intros Hn H. unfold permissionPercent. rewrite !div_Fin by lia.
  cbn [Js.times Js.plus Js.Math_min].
  eexists _, _. split_and!; [done|done| | |].
  - apply min_bottom; [|done].
    apply shifted_bottom, scaled_nonneg; [done|apply quotient_nonneg].
  - apply min_mono, Qplus_le_r, scaled_mono; [done|by apply quotient_mono].
  - apply min_top.
Qed.

End Percentages.

Section Events.

Import GoogleDriveSyncService Spec Further.

Variable flt : Prisma.Faults.

Implicit Types (s : t) (events : list SyncProgressEvent).

Lemma emits_refl s : emits s s [].
Proof. unfold emits. cbn. by rewrite app_nil_r. Qed.

Lemma emits_trans s1 s2 s3 e1 e2 :
  emits s1 s2 e1 -> emits s2 s3 e2 -> emits s1 s3 (e1 ++ e2).
Proof. unfold emits. intros H1 H2. by rewrite H2, H1, map_app, app_assoc. Qed.

Lemma emits_frame s1 s2 s3 e :
  emits s1 s2 e -> emitted s3 = emitted s2 -> emits s1 s3 e.
Proof. unfold emits. by intros H1 ->. Qed.

Lemma countPercent_step k k' :
  k <= k' ->
  ∃ q, countPercent k' = Js.Fin q
       ∧ (0 <= finite 0 (countPercent k))%Q
       ∧ (finite 0 (countPercent k) <= q)%Q ∧ (q <= 5)%Q.
Proof.
  intros H. destruct (countPercent_climb k k' H)
    as (qa & qb & Ha & Hb & ? & ? & ?).
  exists qb. by rewrite Ha.
Qed.

Lemma fetchPercent_step t k k' :
  0 < t -> k <= k' ->
  ∃ q, fetchPercent t k' = Js.Fin q
       ∧ (0 <= finite 0 (fetchPercent t k))%Q
       ∧ (finite 0 (fetchPercent t k) <= q)%Q ∧ (q <= 60)%Q.
Proof.
  intros Ht H. destruct (fetchPercent_climb t k k' Ht H)
    as (qa & qb & Ha & Hb & ? & ? & ?).
  exists qb. by rewrite Ha.
Qed.

Lemma filePercent_step t p :
  ∃ q, filePercent t (S p) = Js.Fin q
       ∧ (60 <= finite 60 (filePercent t p))%Q
       ∧ (finite 60 (filePercent t p) <= q)%Q ∧ (q <= 95)%Q.
Proof.
  destruct (filePercent_climb t (S p) (S p))
    as (q & q' & Hq & Hq' & H60 & _ & H95); [lia|lia|].
  assert (q' = q) as -> by congruence. clear Hq'.
  exists q. split; [done|].
  destruct p as [|p].
  - unfold filePercent in *. destruct t as [|t]; [by cbn|].
    rewrite div_Fin in * by lia. cbn [Js.times Js.plus Js.Math_min finite] in *.
    simplify_eq. split_and!; [| |done].
    + apply min_bottom; [|done].
      apply shifted_bottom, scaled_nonneg; [done|apply quotient_nonneg].
    + apply min_mono, Qplus_le_r, scaled_mono; [done|].
      apply quotient_mono. lia.
  - destruct (filePercent_climb t (S p) (S (S p)))
      as (qa & qb & Ha & Hb & ? & ? & ?); [lia|lia|].
    assert (qb = q) as -> by congruence. rewrite Ha. by cbn.
Qed.

Lemma permissionPercent_step n i :
  0 < n ->
  ∃ q, permissionPercent n i = Js.Fin q
       ∧ (95 <= q)%Q
       ∧ (q <= finite 95 (permissionPercent n (S i)))%Q
       ∧ (finite 95 (permissionPercent n (S i)) <= 100)%Q.
Proof.
  intros Hn. destruct (permissionPercent_climb n i (S i))
    as (qa & qb & Ha & Hb & ? & ? & ?); [lia|lia|].
  exists qa. by rewrite Hb.
Qed.

(** *** The counting loop *)

Lemma countLoop_emits rest : ∀ r k s, ∃ events,
  emits s (countLoop r rest k s).2 events
  ∧ Forall (fun e => type e = page_loaded) events
  ∧ climbs (finite 0 (countPercent k)) (map percent events) 5.
Proof.
  induction rest as [|r' rest IH]; intros [files|] k s; cbn [countLoop snd].
  - destruct (countPercent_step k (k + length files)) as (q & Hq & ? & ? & ?);
      [lia|].
    eexists [_]. split_and!; [done|by repeat constructor|].
    cbn. exists q. split; [exact Hq|done].
  - exists []. split_and!; [apply emits_refl|done|]. cbn.
    destruct (countPercent_step k k) as (q & Hq & ? & ? & ?); [lia|].
    by eapply Qle_trans.
  - destruct (countPercent_step k (k + length files)) as (q & Hq & ? & ? & ?);
      [lia|].
    edestruct (IH r' (k + length files)) as (events & He & Hp & Hc).
    eexists (_ :: events). split_and!.
    + eapply (emits_trans _ _ _ [_]); [|exact He]. done.
    + by constructor.
    + cbn. exists q. split; [exact Hq|]. split; [done|].
      fold (countPercent (k + length files)) in Hc.
      by rewrite Hq in Hc.
  - exists []. split_and!; [apply emits_refl|done|]. cbn.
    destruct (countPercent_step k k) as (q & Hq & ? & ? & ?); [lia|].
    by eapply Qle_trans.
Qed.

Lemma getTotalFileCount_emits drive s : ∃ events,
  emits s (getTotalFileCount drive s).2 events
  ∧ Forall (fun e => type e = page_loaded) events
  ∧ climbs 0 (map percent events) 5.
Proof.
  unfold getTotalFileCount. destruct (Drive.countListing drive) as [r rest].
  destruct (countLoop_emits rest r 0 s) as (events & He & Hp & Hc).
  exists events. split_and!; [|done|].
  - by destruct (countLoop r rest 0 s) as [[?|] ?].
  - eapply climbs_weaken; [|apply Qle_refl|exact Hc].
    by destruct (countPercent_step 0 0) as (q & Hq & ? & ? & ?).
Qed.

(** *** The fetch loop *)

Lemma fetchLoop_emits rest : ∀ r acc s, ∃ events,
  emits s (fetchLoop r rest acc s).2 events
  ∧ Forall (fun e => type e = page_loaded) events
  ∧ (0 < totalFiles s ->
     climbs (finite 0 (fetchPercent (totalFiles s) (length acc)))
       (map percent events) 60).
Proof.
  induction rest as [|r' rest IH]; intros [files|] acc s; cbn [fetchLoop snd].
  - eexists [_]. split_and!; [done|by repeat constructor|].
    intros Ht.
    destruct (fetchPercent_step (totalFiles s) (length acc)
                (length (acc ++ files))) as (q & Hq & ? & ? & ?);
      [done|rewrite length_app; lia|].
    cbn. exists q. split; [exact Hq|done].
  - exists []. split_and!; [apply emits_refl|done|]. cbn. intros Ht.
    destruct (fetchPercent_step (totalFiles s) (length acc) (length acc))
      as (q & Hq & ? & ? & ?); [done|lia|].
    by eapply Qle_trans.
  - edestruct (IH r' (acc ++ files)) as (events & He & Hp & Hc).
    eexists (_ :: events). split_and!.
    + eapply (emits_trans _ _ _ [_]); [|exact He]. done.
    + by constructor.
    + intros Ht.
      destruct (fetchPercent_step (totalFiles s) (length acc)
                  (length (acc ++ files))) as (q & Hq & ? & ? & ?);
        [done|rewrite length_app; lia|].
      cbn. exists q. split; [exact Hq|]. split; [done|].
      specialize (Hc Ht). cbn [totalFiles broadcastProgress emit] in Hc.
      by rewrite Hq in Hc.
  - exists []. split_and!; [apply emits_refl|done|]. cbn. intros Ht.
    destruct (fetchPercent_step (totalFiles s) (length acc) (length acc))
      as (q & Hq & ? & ? & ?); [done|lia|].
    by eapply Qle_trans.
Qed.

(** *** The file phase *)

Lemma processFile_emits s f :
  let s' := processFile flt s f in
  totalFiles s' = totalFiles s
  ∧ ((emitted s' = emitted s ∧ processedFiles s' = processedFiles s)
     ∨ (emitted s'
        = emitted s
          ++ [progress
                (mkEvent file_processed (totalFiles s) (S (processedFiles s))
                   (filePercent (totalFiles s) (S (processedFiles s))))]
        ∧ processedFiles s' = S (processedFiles s))).
Proof.
  unfold processFile.
  destruct (upsertFile flt (db s) (driveFileData f)) as [[d o]|]; cbn.
  - split; [done|]. by right.
  - split; [done|]. by left.
Qed.

Lemma processFilesBatch_emits files s : ∃ events,
  emits s (processFilesBatch flt files s) events
  ∧ climbs 60 (map percent events) 95.
Proof.
  cut (totalFiles (processFilesBatch flt files s) = totalFiles s
       ∧ ∃ events,
           emits s (processFilesBatch flt files s) events
           ∧ climbs 60 (map percent events)
               (finite 60 (filePercent (totalFiles s)
                             (processedFiles (processFilesBatch flt files s))))).
  { intros (_ & events & He & Hc). exists events. split; [done|].
    eapply climbs_weaken; [apply Qle_refl| |exact Hc].
    set (p := processedFiles _).
    destruct (decide (p = 0)) as [->|Hp].
    - destruct (filePercent_step (totalFiles s) 0) as (q & _ & _ & H1 & H2).
      by eapply Qle_trans.
    - destruct (filePercent_climb (totalFiles s) p p)
        as (qa & qb & Ha & Hb & _ & _ & ?); [lia|lia|].
      assert (qb = qa) as -> by congruence. by rewrite Ha. }
  apply (processFilesBatch_ind flt
    (fun _ s' =>
       totalFiles s' = totalFiles s
       ∧ ∃ events,
           emits s s' events
           ∧ climbs 60 (map percent events)
               (finite 60 (filePercent (totalFiles s) (processedFiles s'))))).
  - split; [done|]. exists []. split; [apply emits_refl|]. cbn.
    by destruct (filePercent_step (totalFiles s) (processedFiles s))
      as (q & _ & ? & _).
  - intros _ f _ s' _ (Ht & events & He & Hc).
    destruct (processFile_emits s' f) as (Ht' & [[Hsame Hp]|[Hnew Hp]]).
    + split; [congruence|]. exists events. split; [by eapply emits_frame|].
      by rewrite Hp.
    + split; [congruence|].
      destruct (filePercent_step (totalFiles s) (processedFiles s'))
        as (q & Hq & ? & ? & ?).
      eexists (events ++ [_]). split.
      * eapply emits_trans; [exact He|]. unfold emits. rewrite Hnew. done.
      * rewrite map_app, Hp. cbn [map percent]. rewrite Ht, Hq. cbn [finite].
        eapply climbs_snoc; [exact Hc|done].
  - intros _ o s' _ (Ht & events & He & Hc). split; [done|].
    exists events. split; [by eapply emits_frame|done].
Qed.

(** *** The permission phase *)

Lemma processPermission_emitted fileId (x : gset string * t) p :
  emitted (processPermission flt fileId x p).2 = emitted x.2.
Proof.
  destruct x as [seen s]. unfold processPermission.
  case_decide; [done|].
  by destruct (upsertPermission flt (db s) (drivePermissionData fileId p))
    as [[d o]|].
Qed.

Lemma permissions_emitted fileId permissions (x : gset string * t) :
  emitted (fold_left (processPermission flt fileId) permissions x).2
  = emitted x.2.
Proof.
  revert x. induction permissions as [|p ps IH]; intros x; [done|].
  cbn [fold_left]. by rewrite IH, processPermission_emitted.
Qed.

Lemma permissionsOfFile_emits drive n seen s i fileId :
  emits s (permissionsOfFile flt drive n (seen, s) (i, fileId)).2
    (match Drive.permissions_list drive fileId with
     | Some _ => [mkEvent file_processed n (i + 1) (permissionPercent n i)]
     | None => []
     end).
Proof.
  unfold permissionsOfFile.
  destruct (Drive.permissions_list drive fileId) as [permissions|];
    [|by eapply emits_frame; [apply emits_refl|]].
  pose proof (permissions_emitted fileId permissions
                (seen, record TxBegin
                         (set_totalPermissions
                            (totalPermissions s + length permissions) s)))
    as H.
  destruct (fold_left _ permissions _) as [seen' s'].
  unfold emits. cbn in *. by rewrite H.
Qed.

Lemma imap_pair_index (l : list string) done (x : nat * string) rest :
  imap pair l = done ++ x :: rest -> x.1 = length done ∧ length done < length l.
Proof.
  intros H.
  assert (imap pair l !! length done = Some x) as Hx.
  { rewrite H. by rewrite list_lookup_middle. }
  rewrite list_lookup_imap in Hx.
  destruct (l !! length done) as [y|] eqn:E; [|done].
  cbn in Hx. simplify_eq. split; [done|]. by eapply lookup_lt_Some.
Qed.

Lemma syncAllPermissions_emits drive s : ∃ events,
  emits s (syncAllPermissions flt drive s) events
  ∧ climbs 95 (map percent events) 100.
Proof.
  unfold syncAllPermissions.
  set (n := length (Prisma.fileIds (db s))).
  cut (∃ events,
         emits s (fold_left (permissionsOfFile flt drive n)
                    (imap pair (Prisma.fileIds (db s)))
                    (∅, set_totalPermissions 0 s)).2 events
         ∧ climbs 95 (map percent events)
             (finite 95 (permissionPercent n
                           (length (imap pair (Prisma.fileIds (db s))))))).
  { intros (events & He & Hc). exists events. split; [done|].
    eapply climbs_weaken; [apply Qle_refl| |exact Hc].
    rewrite length_imap. fold n. destruct (decide (n = 0)) as [->|Hn]; [done|].
    destruct (permissionPercent_climb n n n)
      as (qa & qb & Ha & Hb & _ & _ & ?); [lia|lia|].
    assert (qb = qa) as -> by congruence. by rewrite Ha. }
  apply (fold_left_ind (permissionsOfFile flt drive n)
    (fun done (acc : gset string * t) =>
       ∃ events,
         emits s acc.2 events
         ∧ climbs 95 (map percent events)
             (finite 95 (permissionPercent n (length done))))).
  - exists []. split; [by eapply emits_frame; [apply emits_refl|]|]. cbn.
    destruct (decide (n = 0)) as [E|Hn]; [by rewrite E|].
    destruct (permissionPercent_climb n 0 0)
      as (qa & qb & Ha & _ & ? & _ & _); [lia|lia|]. by rewrite Ha.
  - intros done [i fileId] rest [seen s'] Hl (events & He & Hc).
    apply imap_pair_index in Hl as [Hi Hn]. cbn in Hi. subst i. fold n in Hn.
    destruct (permissionPercent_step n (length done)) as (q & Hq & ? & ? & ?);
      [lia|].
    pose proof (permissionsOfFile_emits drive n seen s' (length done) fileId)
      as He'.
    rewrite length_app. cbn [length]. rewrite Nat.add_1_r.
    eexists. split; [eapply emits_trans; [exact He|exact He']|].
    rewrite map_app.
    destruct (Drive.permissions_list drive fileId) as [permissions|].
    + cbn [map percent]. rewrite Hq.
      apply (climbs_weaken 95 95 _ q); [apply Qle_refl|done|].
      eapply climbs_snoc; [exact Hc|]. rewrite Hq. apply Qle_refl.
    + cbn [map]. rewrite app_nil_r.
      eapply climbs_weaken; [apply Qle_refl| |exact Hc].
      rewrite Hq. cbn. done.
Qed.

End Events.

Section RunEvents.

Import GoogleDriveSyncService Spec Further.

Variable flt : Prisma.Faults.
Variable drive : Drive.t.

Implicit Types (s : t) (events : list SyncProgressEvent).

Lemma percents_progress events :
  Example.percents (map progress events) = map percent events.
Proof. induction events as [|e l IH]; [done|]. cbn. by f_equal. Qed.

(** What a file or permission event carries. *)
Lemma climbs_from_60 events hi :
  climbs 60 (map percent events) hi ->
  Forall (fun e => type e = file_processed ->
                   ∃ q, percent e = Js.Fin q ∧ (60 <= q)%Q) events.
Proof.
  intros H%climbs_Forall. rewrite Forall_forall in H.
  apply Forall_forall. intros e He _.
  destruct (H (percent e)) as (q & ? & ? & _); [|by exists q].
  by apply list_elem_of_fmap_2.
Qed.

Lemma pages_are_no_file_events events :
  Forall (fun e => type e = page_loaded) events ->
  Forall (fun e => type e = file_processed ->
                   ∃ q, percent e = Js.Fin q ∧ (60 <= q)%Q) events.
Proof. intros H. eapply Forall_impl; [exact H|]. by intros e -> [=]. Qed.

(** The events of a run: those of the count, those of the three phases
    that follow, and the terminal event. *)
Lemma startSync_emits db0 :
  let counted := getTotalFileCount drive (new db0) in
  let run := startSync flt drive db0 in
  ∃ pages events,
    emitted counted.2 = map progress pages
    ∧ emitted run.2 = map progress (pages ++ events) ++ [terminal run.1]
    ∧ Forall (fun e => type e = page_loaded) pages
    ∧ climbs 0 (map percent pages) 5
    ∧ Forall (fun e => type e = file_processed ->
                       ∃ q, percent e = Js.Fin q ∧ (60 <= q)%Q) events
    ∧ (0 < counted.1 -> climbs 0 (map percent events) 100).
Proof.
  unfold startSync, syncDriveFilesWithPagination.
  destruct (getTotalFileCount_emits drive (new db0))
    as (pages & Hpages & Htype & Hclimb).
  destruct (getTotalFileCount drive (new db0)) as [n sc].
  destruct (Drive.fetchListing drive) as [r rest].
  destruct (fetchLoop_emits rest r [] (set_totalFiles n sc))
    as (fetched & Hfetched & Hftype & Hfclimb).
  unfold emits in *. cbn [fst snd emitted new set_totalFiles totalFiles] in *.
  cbn [app] in Hpages.
  assert (0 < n -> climbs 0 (map percent fetched) 60) as Hfclimb'.
  { intros Hn. eapply climbs_weaken; [|apply Qle_refl|by apply Hfclimb].
    cbn [length].
    by destruct (fetchPercent_step n 0 0) as (q & _ & ? & _); [|lia|]. }
  destruct (fetchLoop r rest [] (set_totalFiles n sc)) as [[allFiles|] sf];
    cbn [fst snd] in *.
  - destruct (processFilesBatch_emits flt (map toDriveFileData allFiles) sf)
      as (filed & Hfiled & Hpclimb).
    set (sp := processFilesBatch flt (map toDriveFileData allFiles) sf) in *.
    destruct (syncAllPermissions_emits flt drive sp)
      as (granted & Hgranted & Hgclimb).
    set (sg := syncAllPermissions flt drive sp) in *.
    destruct (cleanupOrphanedData_frame sg) as (_ & _ & Hclean & _).
    exists pages, (fetched ++ filed ++ granted).
    cbn [emitted emit terminal]. unfold emits in *.
    rewrite Hclean, Hgranted, Hfiled, Hfetched, Hpages.
    split_and!; [done| |done|done| |].
    + by rewrite !map_app, !app_assoc.
    + apply Forall_app. split; [by apply pages_are_no_file_events|].
      apply Forall_app. split; [by eapply climbs_from_60|].
      eapply climbs_from_60, climbs_weaken; [|apply Qle_refl|exact Hgclimb].
      done.
    + intros Hn. rewrite !map_app.
      eapply climbs_app; [by apply Hfclimb'|].
      eapply climbs_app; [exact Hpclimb|exact Hgclimb].
  - exists pages, fetched. cbn [emitted emit terminal].
    rewrite Hfetched, Hpages.
    split_and!; [done| |done|done| |].
    + by rewrite !map_app.
    + by apply pages_are_no_file_events.
    + intros Hn. eapply climbs_weaken; [apply Qle_refl| |by apply Hfclimb'].
      done.
Qed.

End RunEvents.

(** ** Counting and fetching *)

Section CountAndFetch.

Import GoogleDriveSyncService Spec Further.

Lemma countLoop_drain rest : ∀ r k s acc,
  k = length acc ->
  (countLoop r rest k s).1
  = option_map (@length _) (Drive.drainFrom r rest acc).
Proof.
  induction rest as [|r' rest IH]; intros [files|] k s acc ->;
    cbn [countLoop Drive.drainFrom fst option_map]; try done.
  - by rewrite length_app.
  - apply IH. by rewrite length_app.
Qed.

Lemma processPermission_totalFiles flt fileId (x : gset string * t) p :
  totalFiles (processPermission flt fileId x p).2 = totalFiles x.2.
Proof.
  destruct x as [seen s]. unfold processPermission.
  case_decide; [done|].
  by destruct (upsertPermission flt (db s) (drivePermissionData fileId p))
    as [[d o]|].
Qed.

Lemma syncAllPermissions_totalFiles flt drive s :
  totalFiles (syncAllPermissions flt drive s) = totalFiles s.
Proof.
  unfold syncAllPermissions.
  apply (fold_left_ind (permissionsOfFile flt drive _)
           (fun _ (acc : gset string * t) => totalFiles acc.2 = totalFiles s));
    [done|].
  intros _ [i fileId] _ [seen s'] _ H. unfold permissionsOfFile.
  destruct (Drive.permissions_list drive fileId) as [permissions|]; [|done].
  set (s0 := record TxBegin _).
  assert (totalFiles (fold_left (processPermission flt fileId) permissions
                        (seen, s0)).2 = totalFiles s') as H'.
  { apply (fold_left_ind (processPermission flt fileId)
             (fun _ (acc : gset string * t) => totalFiles acc.2 = totalFiles s'));
      [done|].
    intros _ p _ x _ Hx. by rewrite processPermission_totalFiles. }
  destruct (fold_left _ permissions _) as [seen' s'']. cbn in *. congruence.
Qed.

Lemma cleanupOrphanedData_counters s :
  let s' := cleanupOrphanedData s in
  totalFiles s' = totalFiles s ∧ processedFiles s' = processedFiles s
  ∧ totalPermissions s' = totalPermissions s
  ∧ processedPermissions s' = processedPermissions s.
Proof. unfold cleanupOrphanedData. by case_match. Qed.

Lemma countLoop_counters rest : ∀ r k s,
  totalFiles (countLoop r rest k s).2 = totalFiles s
  ∧ totalPermissions (countLoop r rest k s).2 = totalPermissions s
  ∧ processedPermissions (countLoop r rest k s).2 = processedPermissions s.
Proof.
  induction rest as [|r' rest IH]; intros [files|] k s; cbn [countLoop snd];
    try done.
  by edestruct (IH r') as (-> & -> & ->).
Qed.

Lemma fetchLoop_counters rest : ∀ r acc s,
  totalPermissions (fetchLoop r rest acc s).2 = totalPermissions s
  ∧ processedPermissions (fetchLoop r rest acc s).2 = processedPermissions s.
Proof.
  induction rest as [|r' rest IH]; intros [files|] acc s; cbn [fetchLoop snd];
    try done.
  by edestruct (IH r') as (-> & ->).
Qed.

Lemma startSync_throws_frame (flt : Prisma.Faults) (drive : Drive.t)
  (db0 : Prisma.Db) :
  Drive.drain (Drive.fetchListing drive) = None ->
  let run := startSync flt drive db0 in
  db run.2 = db0 ∧ ops run.2 = [] ∧ errors run.2 = 0
  ∧ processedFiles run.2 = 0 ∧ processedPermissions run.2 = 0.
Proof.
  cbn zeta.
  unfold startSync, syncDriveFilesWithPagination, Drive.drain.
  pose proof (getTotalFileCount_frame drive (new db0)) as (Hd & Ho & He & Hp).
  destruct (getTotalFileCount drive (new db0)) as [n sc] eqn:E.
  destruct (Drive.fetchListing drive) as [r rest].
  pose proof (fetchLoop_frame r rest [] (set_totalFiles n sc))
    as (Hf & Hd' & Ho' & He' & Hp' & _).
  assert (processedPermissions
            (fetchLoop r rest [] (set_totalFiles n sc)).2 = 0) as Hpp.
  { pose proof (countLoop_counters (Drive.countListing drive).2
                  (Drive.countListing drive).1 0 (new db0)) as (_ & _ & Hc).
    pose proof (fetchLoop_counters rest r [] (set_totalFiles n sc))
      as (_ & ->).
    revert Hc E. unfold getTotalFileCount.
    destruct (Drive.countListing drive) as [r0 rest0]. cbn [fst snd].
    destruct (countLoop r0 rest0 0 (new db0)) as [[k|] s']; cbn [snd];
      by intros ? [= <- <-]. }
  destruct (fetchLoop r rest [] (set_totalFiles n sc)) as [fetched sf].
  cbn [fst snd] in *. intros Hdrain. rewrite Hf, Hdrain.
  cbn [snd db ops errors processedFiles processedPermissions emit].
  rewrite Hd', Ho', He', Hp', Hpp.
  by cbn [ops db errors processedFiles set_totalFiles].
Qed.

End CountAndFetch.

(** ** The events of a run and the page that shows them *)

Section EventsOfARun.

Import GoogleDriveSyncService Spec Further.

(** X4.  The percentages of the counting loop rise from 0 to at most 5.
    When the count is not 0, the percentages that follow it (of the fetch,
    of the files and of the grants, in this order) are all finite and rise
    from 0 to at most 100: after the first event of the fetch the
    percentage of a run never decreases. *)
Theorem progress_rises_within_the_count_and_after_it (flt : Prisma.Faults)
  (drive : Drive.t) (db0 : Prisma.Db) :
  let counted := getTotalFileCount drive (new db0) in
  let run := startSync flt drive db0 in
  ∃ later,
    Example.percents (emitted run.2)
    = Example.percents (emitted counted.2) ++ later
    ∧ climbs 0 (Example.percents (emitted counted.2)) 5
    ∧ Example.nondecreasing (Example.percents (emitted counted.2)) = true
    ∧ (0 < counted.1 ->
       climbs 0 later 100 ∧ Example.nondecreasing later = true).
Proof.
  destruct (startSync_emits flt drive db0)
    as (pages & events & Hc & Hr & _ & Hp & _ & He).
  cbn zeta. exists (map percent events). rewrite Hr, Hc.
  unfold Example.percents at 1. rewrite omap_app, map_app, omap_app.
  fold (Example.percents (map progress pages)).
  fold (Example.percents (map progress events)).
  rewrite !percents_progress. split_and!.
  - by destruct (startSync flt drive db0).1; cbn; rewrite app_nil_r.
  - done.
  - by eapply climbs_nondecreasing.
  - intros Hn. split; [by apply He|]. eapply climbs_nondecreasing. by apply He.
Qed.

(** The events that never bring the page to [processing]. *)
Lemma handleProgressEvent_file (e : SyncProgressEvent) (ui : SyncPage.t) q :
  type e = file_processed -> percent e = Js.Fin q -> (60 <= q)%Q ->
  SyncPage.currentPhase
    (SyncPage.handleProgressEvent (ProgressStream.enqueued (progress e)) ui)
  = SyncPage.permissions.
Proof.
  intros Ht Hq Hle. unfold ProgressStream.enqueued,
    ProgressStream.progressHandler. rewrite Ht, Hq. cbn.
  apply Qle_bool_iff in Hle. by rewrite Hle.
Qed.

Lemma startSync_file_events (flt : Prisma.Faults) (drive : Drive.t)
  (db0 : Prisma.Db) e :
  progress e ∈ emitted (startSync flt drive db0).2 ->
  type e = file_processed ->
  ∃ q, percent e = Js.Fin q ∧ (60 <= q)%Q.
Proof.
  destruct (startSync_emits flt drive db0)
    as (pages & events & _ & Hr & Hp & _ & He & _).
  rewrite Hr. intros [Hin|Hin]%elem_of_app.
  - apply list_elem_of_fmap in Hin as (e' & [= <-] & Hin).
    apply elem_of_app in Hin as [Hin|Hin].
    + rewrite Forall_forall in Hp. rewrite (Hp _ Hin). by intros [=].
    + rewrite Forall_forall in He. by apply He.
  - apply list_elem_of_singleton in Hin.
    by destruct (startSync flt drive db0).1.
Qed.

(** X5.  Every [file_processed] event of a run carries a finite percentage
    of at least 60, those of the file phase included, so the page answers
    each of them with the phase [permissions]: whatever part of the events
    of a run reaches a page, in order, the page never shows the phase
    [processing]. *)
Theorem page_never_shows_the_processing_phase (flt : Prisma.Faults)
  (drive : Drive.t) (db0 : Prisma.Db) :
  let run := startSync flt drive db0 in
  (∀ e ui,
     progress e ∈ emitted run.2 -> type e = file_processed ->
     SyncPage.currentPhase
       (SyncPage.handleProgressEvent (ProgressStream.enqueued (progress e)) ui)
     = SyncPage.permissions)
  ∧ (∀ seen ui,
       seen `sublist_of` emitted run.2 ->
       SyncPage.currentPhase ui ≠ SyncPage.processing ->
       SyncPage.currentPhase
         (SyncPage.received (map ProgressStream.enqueued seen) ui)
       ≠ SyncPage.processing).
Proof.
  cbn zeta. split.
  - intros e ui Hin Ht.
    destruct (startSync_file_events flt drive db0 e Hin Ht) as (q & Hq & Hle).
    by eapply handleProgressEvent_file.
  - intros seen ui Hsub. revert ui.
    assert (∀ x, x ∈ seen -> x ∈ emitted (startSync flt drive db0).2) as Hin.
    { intros x Hx. by eapply elem_of_sublist. }
    clear Hsub. induction seen as [|x seen IH]; intros ui Hui; [done|].
    cbn [map SyncPage.received fold_left]. apply IH.
    { intros y Hy. apply Hin. by right. }
    destruct x as [e| |]; [|done|done].
    destruct (type e) eqn:Ht.
    + unfold ProgressStream.enqueued, ProgressStream.progressHandler.
      by rewrite Ht.
    + destruct (startSync_file_events flt drive db0 e) as (q & Hq & Hle);
        [apply Hin; by left|done|].
      by rewrite (handleProgressEvent_file e ui q).
Qed.

Lemma received_app l1 l2 ui :
  SyncPage.received (l1 ++ l2) ui
  = SyncPage.received l2 (SyncPage.received l1 ui).
Proof. unfold SyncPage.received. by rewrite fold_left_app. Qed.

(** X6.  A page that receives the events of a run from some point on, and
    at least the last of them, ends outside of its syncing state with its
    connection closed: in the phase [complete], at 100 percent, with the
    statistics the run returned and [done] equal to [total], when the run
    completed; in the phase [error] when it threw. *)
Theorem page_settles_when_the_run_ends (flt : Prisma.Faults)
  (drive : Drive.t) (db0 : Prisma.Db) (missed seen : list Emitted)
  (ui : SyncPage.t) :
  let run := startSync flt drive db0 in
  emitted run.2 = missed ++ seen -> seen ≠ [] ->
  let ui' := SyncPage.received (map ProgressStream.enqueued seen) ui in
  SyncPage.isSyncing ui' = false
  ∧ SyncPage.eventSource ui' = false
  ∧ match run.1 with
    | Some stats =>
        SyncPage.currentPhase ui' = SyncPage.complete
        ∧ SyncPage.syncStats ui' = Some stats
        ∧ SyncPage.progress ui' = 100%Q
        ∧ SyncPage.done ui' = SyncPage.total ui'
    | None => SyncPage.currentPhase ui' = SyncPage.error
    end.
Proof.
  cbn zeta. intros Hsplit Hseen.
  destruct (startSync_emits flt drive db0) as (pages & events & _ & Hr & _).
  rewrite Hr in Hsplit.
  destruct (exists_last Hseen) as (seen' & x & ->).
  rewrite app_assoc in Hsplit. apply app_inj_tail in Hsplit as [_ <-].
  rewrite map_app, received_app. cbn [map].
  by destruct (startSync flt drive db0).1.
Qed.

End EventsOfARun.

Section EventInstances.

Import GoogleDriveSyncService Spec Further Example Fixture.

Lemma progress_rises_within_the_count_and_after_it_witness :
  ∃ later,
    percents (emitted (startSync Prisma.noFaults driveAB dbABC).2)
    = percents (emitted (getTotalFileCount driveAB (new dbABC)).2) ++ later
    ∧ nondecreasing later = true.
Proof.
  destruct (progress_rises_within_the_count_and_after_it Prisma.noFaults
              driveAB dbABC) as (later & H1 & _ & _ & H2).
  exists later. split; [exact H1|]. apply H2. vm_compute. lia.
Defined.

Lemma page_never_shows_the_processing_phase_witness :
  SyncPage.currentPhase
    (SyncPage.received
       (map ProgressStream.enqueued
          (emitted (startSync Prisma.noFaults driveAB emptyDb).2))
       started)
  ≠ SyncPage.processing.
Proof.
  apply (proj2 (page_never_shows_the_processing_phase Prisma.noFaults driveAB
                  emptyDb)); [done|by vm_compute].
Defined.

Lemma page_settles_when_the_run_ends_witness :
  SyncPage.isSyncing
    (SyncPage.received
       (map ProgressStream.enqueued
          (drop 3 (emitted (startSync Prisma.noFaults driveAB emptyDb).2)))
       started)
  = false.
Proof.
  refine (proj1 (page_settles_when_the_run_ends Prisma.noFaults driveAB
                   emptyDb
                   (take 3 (emitted (startSync Prisma.noFaults driveAB
                                       emptyDb).2))
                   _ started _ _)).
  - by rewrite take_drop.
  - by vm_compute.
Defined.

End EventInstances.

(** ** The keys of the two tables through a run of the engine *)

Section Keys.

Import GoogleDriveSyncService Spec Further.

Variable flt : Prisma.Faults.

Implicit Types (s : t) (d : Prisma.Db).

Lemma processFile_db s f :
  db (processFile flt s f)
  = match upsertFile flt (db s) (driveFileData f) with
    | Some (d, _) => d
    | None => db s
    end.
Proof.
  unfold processFile.
  by destruct (upsertFile flt (db s) (driveFileData f)) as [[d o]|].
Qed.

(** What every upsert of a file keeps, the file phase keeps. *)
Lemma processFilesBatch_db_ind (Q : Prisma.Db -> Prop) files s :
  (∀ d data d' o, upsertFile flt d data = Some (d', o) -> Q d -> Q d') ->
  Q (db s) -> Q (db (processFilesBatch flt files s)).
Proof.
  intros Hstep H0.
  apply (processFilesBatch_ind flt (fun _ s' => Q (db s'))); [done| |done].
  intros _ f _ s' _ HQ. rewrite processFile_db.
  destruct (upsertFile flt (db s') (driveFileData f)) as [[d o]|] eqn:E;
    [by eapply Hstep|done].
Qed.

Lemma processPermission_db fileId seen s p :
  db (processPermission flt fileId (seen, s) p).2
  = if decide (SchemaPermission.id p ∈ seen) then db s
    else match upsertPermission flt (db s) (drivePermissionData fileId p) with
         | Some (d, _) => d
         | None => db s
         end.
Proof.
  unfold processPermission. case_decide; [done|].
  by destruct (upsertPermission flt (db s) (drivePermissionData fileId p))
    as [[d o]|].
Qed.

(** What every upsert of a permission keeps, the permission phase keeps. *)
Lemma syncAllPermissions_db_ind (Q : Prisma.Db -> Prop) drive s :
  (∀ d data d' o, upsertPermission flt d data = Some (d', o) -> Q d -> Q d') ->
  Q (db s) -> Q (db (syncAllPermissions flt drive s)).
Proof.
  intros Hstep H0. unfold syncAllPermissions.
  apply (fold_left_ind (permissionsOfFile flt drive _)
           (fun _ (acc : gset string * t) => Q (db acc.2))); [done|].
  intros _ [i fileId] _ [seen s'] _ H. unfold permissionsOfFile.
  destruct (Drive.permissions_list drive fileId) as [permissions|]; [|done].
  set (s0 := record TxBegin _).
  assert (Q (db (fold_left (processPermission flt fileId) permissions
                   (seen, s0)).2)) as H'.
  { apply (fold_left_ind (processPermission flt fileId)
             (fun _ (acc : gset string * t) => Q (db acc.2))); [done|].
    intros _ p _ [seen' s''] _ Hx. rewrite processPermission_db.
    case_decide; [done|].
    destruct (upsertPermission flt (db s'') (drivePermissionData fileId p))
      as [[d o]|] eqn:E; [by eapply Hstep|done]. }
  by destruct (fold_left _ permissions _) as [seen' s''].
Qed.

Lemma upsertFile_ids d data d' o :
  upsertFile flt d data = Some (d', o) ->
  NoDup (Prisma.fileIds d) -> NoDup (Prisma.fileIds d').
Proof.
  rewrite upsertFile_spec. unfold Prisma.fileIds.
  destruct (Prisma.driveFile_.findUnique d (DriveFile.id data))
    as [r|] eqn:E.
  - repeat case_match; intros; simplify_eq; simpl; [done|].
    by rewrite (keys_replace DriveFile.id).
  - repeat case_match; intros; simplify_eq; simpl.
    rewrite map_app. simpl. apply NoDup_app. split_and!; [done| |].
    + intros id Hid ->%list_elem_of_singleton.
      by apply (find_None_keys DriveFile.id) in E.
    + apply NoDup_singleton.
Qed.

Lemma upsertFile_referential d data d' o :
  upsertFile flt d data = Some (d', o) ->
  Prisma.referential d -> Prisma.referential d'.
Proof.
  intros H Href p Hp.
  rewrite (upsertFile_permissions flt _ _ _ _ H) in Hp.
  eapply upsertFile_keeps; [exact H|]. by apply Href.
Qed.

Lemma upsertPermission_referential d data d' o :
  upsertPermission flt d data = Some (d', o) ->
  Prisma.referential d -> Prisma.referential d'.
Proof.
  intros H Href p Hp. unfold Prisma.fileIds.
  rewrite (upsertPermission_files flt _ _ _ _ H).
  destruct (upsertPermission_writes flt _ _ _ _ H)
    as [[_ ->]|(_ & Hfile & _)]; [by apply Href|].
  destruct (upsertPermission_rows flt _ _ _ _ _ H Hp) as [Hold|[-> _]];
    [by apply Href|done].
Qed.

Lemma cleanupOrphanedData_unique s :
  Prisma.unique (db s) -> Prisma.unique (db (cleanupOrphanedData s)).
Proof.
  intros [Hf Hp]. unfold cleanupOrphanedData. case_match; [|done].
  split; [done|]. unfold Prisma.permissionIds. cbn.
  apply (sublist_NoDup _ _ Hp).
  apply (fmap_sublist DrivePermission.id). apply sublist_filter.
Qed.

Lemma processFilesBatch_unique files s :
  Prisma.unique (db s) -> Prisma.unique (db (processFilesBatch flt files s)).
Proof.
  apply processFilesBatch_db_ind. intros d data d' o H [Hf Hp]. split.
  - by eapply upsertFile_ids.
  - unfold Prisma.permissionIds.
    by rewrite (upsertFile_permissions flt _ _ _ _ H).
Qed.

Lemma syncAllPermissions_unique drive s :
  Prisma.unique (db s) -> Prisma.unique (db (syncAllPermissions flt drive s)).
Proof.
  apply syncAllPermissions_db_ind. intros d data d' o H [Hf Hp]. split.
  - unfold Prisma.fileIds. by rewrite (upsertPermission_files flt _ _ _ _ H).
  - by eapply upsertPermission_ids.
Qed.

Lemma settledState_unique drive db0 files :
  Prisma.unique db0 -> Prisma.unique (db (settledState flt drive db0 files)).
Proof.
  intros H. unfold settledState.
  apply cleanupOrphanedData_unique, syncAllPermissions_unique,
    processFilesBatch_unique.
  by rewrite (proj1 (fetchedState_frame drive db0)).
Qed.

(** The database of a run, by its outcome. *)
Lemma startSync_db drive db0 :
  db (startSync flt drive db0).2
  = match Drive.drain (Drive.fetchListing drive) with
    | Some files => db (settledState flt drive db0 files)
    | None => db0
    end.
Proof.
  destruct (Drive.drain (Drive.fetchListing drive)) as [files|] eqn:E.
  - by rewrite (startSync_returns flt drive db0 files E).
  - by apply startSync_throws_frame.
Qed.

End Keys.

(** ** What a run of the engine leaves in the two tables *)

Section Tables.

Import GoogleDriveSyncService Spec Further.

Variable flt : Prisma.Faults.
Variable drive : Drive.t.

Implicit Types (s : t) (d : Prisma.Db) (seen : gset string).

Lemma listedGrants_elem fileIds id :
  id ∈ listedGrants drive fileIds
  <-> ∃ fileId permissions p,
        fileId ∈ fileIds
        ∧ Drive.permissions_list drive fileId = Some permissions
        ∧ p ∈ permissions ∧ SchemaPermission.id p = id.
Proof.
  unfold listedGrants. induction fileIds as [|f l IH]; cbn [map concat].
  - split; [by intros ?%elem_of_nil|].
    by intros (? & ? & ? & ?%elem_of_nil & _).
  - rewrite elem_of_app, IH. split.
    + intros [Hid|(fileId & permissions & p & Hf & E & Hp & <-)].
      * destruct (Drive.permissions_list drive f) as [permissions|] eqn:E;
          [|by apply elem_of_nil in Hid].
        apply list_elem_of_fmap in Hid as (p & -> & Hp).
        exists f, permissions, p. split_and!; [by left|done|done|done].
      * exists fileId, permissions, p. split_and!; [by right|done|done|done].
    + intros (fileId & permissions & p & Hf & E & Hp & <-).
      apply elem_of_cons in Hf as [->|Hf].
      * left. rewrite E. by apply list_elem_of_fmap_2.
      * right. by exists fileId, permissions, p.
Qed.

Lemma listedGrants_app l1 l2 :
  listedGrants drive (l1 ++ l2)
  = listedGrants drive l1 ++ listedGrants drive l2.
Proof. unfold listedGrants. by rewrite map_app, concat_app. Qed.

Lemma upsertPermission_keeps d data d' o id :
  upsertPermission flt d data = Some (d', o) ->
  id ∈ Prisma.permissionIds d -> id ∈ Prisma.permissionIds d'.
Proof.
  rewrite upsertPermission_spec. unfold Prisma.permissionIds.
  destruct (Prisma.drivePermission_.findUnique d (DrivePermission.id data))
    as [r|] eqn:E; repeat case_match; intros; simplify_eq; simpl; [done| |].
  - by rewrite (keys_replace DrivePermission.id).
  - rewrite map_app. apply elem_of_app. by left.
Qed.

(** One step of the inner loop. *)
Lemma processPermission_step fileId seen s p :
  fileId ∈ Prisma.fileIds (db s) ->
  let r := processPermission flt fileId (seen, s) p in
  Prisma.driveFile (db r.2) = Prisma.driveFile (db s)
  ∧ seen ⊆ r.1
  ∧ r.1 ⊆ {[SchemaPermission.id p]} ∪ seen
  ∧ processedPermissions r.2 + size seen = processedPermissions s + size r.1
  ∧ totalPermissions r.2 = totalPermissions s
  ∧ ((∀ row, Prisma.refusesPermission flt row = false) ->
     SchemaPermission.id p ∈ r.1)
  ∧ (∀ id, id ∈ r.1 ->
       (id ∈ seen
        ∧ Prisma.drivePermission_.findUnique (db r.2) id
          = Prisma.drivePermission_.findUnique (db s) id)
       ∨ (id = SchemaPermission.id p
          ∧ Prisma.drivePermission_.findUnique (db r.2) id
            = Some (drivePermissionData fileId p)))
  ∧ (∀ id, id ≠ SchemaPermission.id p ->
       Prisma.drivePermission_.findUnique (db r.2) id
       = Prisma.drivePermission_.findUnique (db s) id)
  ∧ (∀ id, id ∈ Prisma.permissionIds (db s) ->
           id ∈ Prisma.permissionIds (db r.2)).
Proof.
  intros Hfile. unfold processPermission. case_decide as Hseen.
  { cbn. split_and!; try done; [apply union_subseteq_r|].
    intros id Hid. by left. }
  destruct (upsertPermission flt (db s) (drivePermissionData fileId p))
    as [[d o]|] eqn:E; cbn [fst snd db processedPermissions totalPermissions
                              set_errors].
  - split_and!.
    + by eapply upsertPermission_files.
    + apply union_subseteq_r.
    + done.
    + rewrite size_union by (by apply disjoint_singleton_l).
      rewrite size_singleton. lia.
    + done.
    + intros _. apply elem_of_union_l. by apply elem_of_singleton.
    + intros id [->%elem_of_singleton|Hid]%elem_of_union.
      * right. split; [done|].
        by apply (upsertPermission_found flt _ _ _ _ E).
      * left. split; [done|].
        apply (upsertPermission_other flt _ _ _ _ _ E). cbn. by intros ->.
    + intros id Hid. by apply (upsertPermission_other flt _ _ _ _ _ E).
    + intros id. by apply (upsertPermission_keeps _ _ _ _ _ E).
  - split_and!; try done; [apply union_subseteq_r| |].
    + intros Hno. exfalso.
      destruct (upsertPermission_None flt _ _ E) as [Hr|Hr]; [|done].
      by rewrite Hno in Hr.
    + intros id Hid. by left.
Qed.

(** The grants of one entry. *)
Lemma permissions_step fileId permissions seen s :
  fileId ∈ Prisma.fileIds (db s) ->
  let ids : gset string :=
    list_to_set (map SchemaPermission.id permissions) in
  let r := fold_left (processPermission flt fileId) permissions (seen, s) in
  Prisma.driveFile (db r.2) = Prisma.driveFile (db s)
  ∧ seen ⊆ r.1
  ∧ r.1 ⊆ ids ∪ seen
  ∧ processedPermissions r.2 + size seen = processedPermissions s + size r.1
  ∧ totalPermissions r.2 = totalPermissions s
  ∧ ((∀ row, Prisma.refusesPermission flt row = false) -> ids ⊆ r.1)
  ∧ (∀ id, id ∈ r.1 ->
       (id ∈ seen
        ∧ Prisma.drivePermission_.findUnique (db r.2) id
          = Prisma.drivePermission_.findUnique (db s) id)
       ∨ (∃ p, p ∈ permissions ∧ SchemaPermission.id p = id
               ∧ Prisma.drivePermission_.findUnique (db r.2) id
                 = Some (drivePermissionData fileId p)))
  ∧ (∀ id, id ∉ ids ->
       Prisma.drivePermission_.findUnique (db r.2) id
       = Prisma.drivePermission_.findUnique (db s) id)
  ∧ (∀ id, id ∈ Prisma.permissionIds (db s) ->
           id ∈ Prisma.permissionIds (db r.2)).
Proof.
  revert seen s. induction permissions as [|p ps IH]; intros seen s Hfile.
  { cbn. split_and!; try done; [apply union_subseteq_r|].
    intros id Hid. by left. }
  cbn [fold_left map].
  destruct (processPermission_step fileId seen s p Hfile)
    as (Hf1 & Hs1 & Hu1 & Hn1 & Ht1 & Hc1 & Hj1 & Ho1 & Hk1).
  destruct (processPermission flt fileId (seen, s) p) as [seen1 s1].
  cbn [fst snd] in *.
  assert (fileId ∈ Prisma.fileIds (db s1)) as Hfile1.
  { unfold Prisma.fileIds. by rewrite Hf1. }
  destruct (IH seen1 s1 Hfile1)
    as (Hf2 & Hs2 & Hu2 & Hn2 & Ht2 & Hc2 & Hj2 & Ho2 & Hk2).
  cbn zeta in *. set (r := fold_left _ ps _) in *.
  split_and!.
  - congruence.
  - by etrans.
  - intros x Hx. apply Hu2 in Hx. rewrite list_to_set_cons.
    apply elem_of_union in Hx as [Hx|Hx].
    + apply elem_of_union_l. by apply elem_of_union_r.
    + apply Hu1 in Hx. apply elem_of_union in Hx as [Hx|Hx].
      * apply elem_of_union_l. by apply elem_of_union_l.
      * by apply elem_of_union_r.
  - lia.
  - congruence.
  - intros Hno x Hx. rewrite list_to_set_cons in Hx.
    apply elem_of_union in Hx as [->%elem_of_singleton|Hx].
    + by apply Hs2, Hc1.
    + by apply Hc2.
  - intros id Hid. destruct (Hj2 id Hid) as [[Hin Heq]|(q & Hq & Hq' & Heq)].
    + destruct (Hj1 id Hin) as [[Hin1 Heq1]|[-> Heq1]].
      * left. split; [done|congruence].
      * right. exists p. split_and!; [by left|done|congruence].
    + right. exists q. split_and!; [by right|done|done].
  - intros id Hid. rewrite list_to_set_cons in Hid.
    rewrite Ho2, Ho1; [done| |].
    + intros ->. apply Hid. apply elem_of_union_l. by apply elem_of_singleton.
    + intros Hx. apply Hid. by apply elem_of_union_r.
  - intros id Hid. by apply Hk2, Hk1.
Qed.

Lemma listedGrants_singleton fileId :
  listedGrants drive [fileId]
  = match Drive.permissions_list drive fileId with
    | Some permissions => map SchemaPermission.id permissions
    | None => []
    end.
Proof. unfold listedGrants. cbn. by rewrite app_nil_r. Qed.

(** One entry of the outer loop. *)
Lemma permissionsOfFile_invariant n s done acc i fileId :
  fileId ∈ Prisma.fileIds (db s) ->
  phaseInvariant flt drive s done acc ->
  phaseInvariant flt drive s (done ++ [fileId])
    (permissionsOfFile flt drive n acc (i, fileId)).
Proof.
  destruct acc as [seen s']. unfold phaseInvariant. cbn [fst snd].
  intros Hfile (I1 & I2 & I3 & I4 & I5 & I6 & I7 & I8).
  unfold permissionsOfFile. rewrite listedGrants_app, listedGrants_singleton.
  destruct (Drive.permissions_list drive fileId) as [permissions|] eqn:E.
  - set (s0 := record TxBegin
                 (set_totalPermissions
                    (totalPermissions s' + length permissions) s')).
    assert (fileId ∈ Prisma.fileIds (db s0)) as Hfile0.
    { unfold Prisma.fileIds. cbn. by rewrite I1. }
    destruct (permissions_step fileId permissions seen s0 Hfile0)
      as (Hf & Hs & Hu & Hn & Ht & Hc & Hj & Ho & Hk).
    destruct (fold_left (processPermission flt fileId) permissions (seen, s0))
      as [seen2 s2]. cbn [fst snd] in *.
    cbn [db processedPermissions totalPermissions record broadcastProgress
           emit set_totalPermissions s0] in *.
    split_and!.
    + congruence.
    + intros x Hx. apply Hu in Hx. apply elem_of_list_to_set.
      apply elem_of_app. apply elem_of_union in Hx as [Hx|Hx].
      * right. by apply elem_of_list_to_set in Hx.
      * left. apply I2 in Hx. by apply elem_of_list_to_set in Hx.
    + lia.
    + rewrite Ht, length_app, length_map. lia.
    + intros Hno x Hx. apply elem_of_list_to_set in Hx.
      apply elem_of_app in Hx as [Hx|Hx].
      * apply Hs, I5; [done|]. by apply elem_of_list_to_set.
      * apply Hc; [done|]. by apply elem_of_list_to_set.
    + intros id Hid.
      destruct (Hj id Hid) as [[Hin Heq]|(p & Hp & Hp' & Heq)].
      * destruct (I6 id Hin) as (f & ps & p & Hf' & Hl & Hp & Hp' & Hrow).
        exists f, ps, p. split_and!; try done.
        -- apply elem_of_app. by left.
        -- congruence.
      * exists fileId, permissions, p. split_and!; try done.
        apply elem_of_app. right. by apply list_elem_of_singleton.
    + intros id Hid. rewrite Ho, I7; [done| |].
      * intros Hx. apply Hid. apply elem_of_app. by left.
      * intros Hx%elem_of_list_to_set. apply Hid. apply elem_of_app.
        by right.
    + intros id Hid. by apply Hk, I8.
  - cbn [db processedPermissions totalPermissions set_errors].
    rewrite app_nil_r. split_and!; try done.
    intros id Hid.
    destruct (I6 id Hid) as (f & ps & p & Hf' & Hl & Hp & Hp' & Hrow).
    exists f, ps, p. split_and!; try done. apply elem_of_app. by left.
Qed.

(** The permission phase as a whole. *)
Lemma syncAllPermissions_invariant s :
  ∃ seen,
    phaseInvariant flt drive s (Prisma.fileIds (db s))
      (seen, syncAllPermissions flt drive s).
Proof.
  unfold syncAllPermissions.
  set (n := length (Prisma.fileIds (db s))).
  cut (phaseInvariant flt drive s
         (map snd (imap pair (Prisma.fileIds (db s))))
         (fold_left (permissionsOfFile flt drive n)
            (imap pair (Prisma.fileIds (db s)))
            (∅, set_totalPermissions 0 s))).
  { rewrite imap_pair_snd. destruct (fold_left _ _ _) as [seen s'].
    intros H. by exists seen. }
  apply (fold_left_ind (permissionsOfFile flt drive n)
           (fun done acc => phaseInvariant flt drive s (map snd done) acc)).
  - unfold phaseInvariant. cbn. rewrite size_empty.
    by split_and!.
  - intros done [i fileId] rest acc Hl H. rewrite map_app. cbn [map snd].
    apply permissionsOfFile_invariant; [|done].
    apply (imap_pair_elem _ (i, fileId)). rewrite Hl.
    apply elem_of_app. right. by left.
Qed.

Lemma size_list_to_set_le (l : list string) :
  size (list_to_set l : gset string) <= length l.
Proof.
  induction l as [|x l IH]; [by rewrite list_to_set_nil, size_empty|].
  rewrite list_to_set_cons, size_union_alt, size_singleton. cbn [length].
  assert (size ((list_to_set l : gset string) ∖ {[x]})
          <= size (list_to_set l : gset string)); [|lia].
  apply subseteq_size. apply subseteq_difference_l. done.
Qed.

(** The state when the permission phase of a run begins. *)
Lemma filedState_frame db0 files :
  let sp := processFilesBatch flt (map toDriveFileData files)
              (fetchedState drive db0) in
  Prisma.drivePermission (db sp) = Prisma.drivePermission db0
  ∧ processedPermissions sp = 0.
Proof.
  cbn zeta.
  destruct (processFilesBatch_frame flt (map toDriveFileData files)
              (fetchedState drive db0)) as (_ & _ & Hp & Hd).
  rewrite Hp, Hd, (proj1 (fetchedState_frame drive db0)). split; [done|].
  unfold fetchedState.
  pose proof (countLoop_counters (Drive.countListing drive).2
                (Drive.countListing drive).1 0 (new db0)) as (_ & _ & Hc).
  destruct (fetchLoop_counters (Drive.fetchListing drive).2
              (Drive.fetchListing drive).1 []
              (set_totalFiles (getTotalFileCount drive (new db0)).1
                 (getTotalFileCount drive (new db0)).2)) as (_ & ->).
  cbn [processedPermissions set_totalFiles].
  revert Hc. unfold getTotalFileCount.
  destruct (Drive.countListing drive) as [r0 rest0]. cbn [fst snd].
  by destruct (countLoop r0 rest0 0 (new db0)) as [[k|] s'].
Qed.

End Tables.

Section RunTables.

Import GoogleDriveSyncService Spec Further.

Variable flt : Prisma.Faults.
Variable drive : Drive.t.

Implicit Types (s : t) (d : Prisma.Db).

Lemma processFilesBatch_other files s id :
  id ∉ map DriveFileData.id files ->
  Prisma.driveFile_.findUnique (db (processFilesBatch flt files s)) id
  = Prisma.driveFile_.findUnique (db s) id.
Proof.
  intros Hid.
  apply (processFilesBatch_ind flt
           (fun _ s' => Prisma.driveFile_.findUnique (db s') id
                        = Prisma.driveFile_.findUnique (db s) id));
    [done| |done].
  intros done f rest s' -> H. rewrite processFile_db.
  destruct (upsertFile flt (db s') (driveFileData f)) as [[d o]|] eqn:E;
    [|done].
  rewrite <- H. apply (upsertFile_other flt _ _ _ _ _ E). cbn.
  intros ->. apply Hid. rewrite map_app. apply elem_of_app. right. by left.
Qed.

(** The tables when a run that completes has settled: the file table is the
    one the file phase left, and the permission table is the one the
    permission phase left, pruned. *)
Lemma settledState_tables db0 files :
  let sp := processFilesBatch flt (map toDriveFileData files)
              (fetchedState drive db0) in
  let sg := syncAllPermissions flt drive sp in
  settledState flt drive db0 files = cleanupOrphanedData sg
  ∧ Prisma.driveFile (db (settledState flt drive db0 files))
    = Prisma.driveFile (db sp)
  ∧ Prisma.drivePermission (db sp) = Prisma.drivePermission db0
  ∧ processedPermissions sp = 0
  ∧ ∃ seen, phaseInvariant flt drive sp (Prisma.fileIds (db sp)) (seen, sg).
Proof.
  cbn zeta. split; [done|]. split.
  { unfold settledState.
    destruct (cleanupOrphanedData_frame
                (syncAllPermissions flt drive
                   (processFilesBatch flt (map toDriveFileData files)
                      (fetchedState drive db0)))) as (_ & _ & _ & ->).
    apply syncAllPermissions_files. }
  destruct (filedState_frame flt drive db0 files) as [Hp Hn].
  split; [done|]. split; [done|]. apply syncAllPermissions_invariant.
Qed.

Lemma findUnique_permissions d d' id :
  Prisma.drivePermission d = Prisma.drivePermission d' ->
  Prisma.drivePermission_.findUnique d id
  = Prisma.drivePermission_.findUnique d' id.
Proof. unfold Prisma.drivePermission_.findUnique. by intros ->. Qed.

Lemma findUnique_files d d' id :
  Prisma.driveFile d = Prisma.driveFile d' ->
  Prisma.driveFile_.findUnique d id = Prisma.driveFile_.findUnique d' id.
Proof. unfold Prisma.driveFile_.findUnique. by intros ->. Qed.

Lemma filedState_referential db0 files :
  Prisma.referential db0 ->
  Prisma.referential
    (db (syncAllPermissions flt drive
           (processFilesBatch flt (map toDriveFileData files)
              (fetchedState drive db0)))).
Proof.
  intros H. apply syncAllPermissions_db_ind; [apply upsertPermission_referential|].
  apply processFilesBatch_db_ind; [apply upsertFile_referential|].
  by rewrite (proj1 (fetchedState_frame drive db0)).
Qed.

End RunTables.

(** ** The tables after a run of the engine *)

Section AfterARun.

Import GoogleDriveSyncService Spec Further.

(** X7.  A run of [startSync] keeps the primary keys of both tables unique
    and keeps the foreign key of the permissions; a run that completes
    leaves every permission with a persisted file, whatever the database
    was. *)
Theorem run_keeps_the_keys (flt : Prisma.Faults) (drive : Drive.t)
  (db0 : Prisma.Db) :
  let run := startSync flt drive db0 in
  (Prisma.unique db0 -> Prisma.unique (db run.2))
  ∧ (Prisma.referential db0 -> Prisma.referential (db run.2))
  ∧ (run.1 ≠ None -> Prisma.referential (db run.2)).
Proof.
  cbn zeta. rewrite startSync_db.
  destruct (Drive.drain (Drive.fetchListing drive)) as [files|] eqn:E.
  - split_and!.
    + apply settledState_unique.
    + intros _. apply cleanupOrphanedData_referential.
    + intros _. apply cleanupOrphanedData_referential.
  - split_and!; [done|done|]. intros H. by rewrite startSync_throws in H.
Qed.

(** X8.  On a database that satisfies the foreign key, the file phase and
    the permission phase keep it, so [cleanupOrphanedData], which runs after
    them, finds no orphaned permission and changes nothing. *)
Theorem cleanup_finds_nothing_under_the_foreign_key (flt : Prisma.Faults)
  (drive : Drive.t) (files : list DriveFileData.t) (s : t) :
  Prisma.referential (db s) ->
  let s' := syncAllPermissions flt drive (processFilesBatch flt files s) in
  Prisma.referential (db s') ∧ cleanupOrphanedData s' = s'.
Proof.
  intros H. cbn zeta.
  assert (Prisma.referential
            (db (syncAllPermissions flt drive (processFilesBatch flt files s))))
    as H'.
  { apply syncAllPermissions_db_ind; [apply upsertPermission_referential|].
    by apply processFilesBatch_db_ind; [apply upsertFile_referential|]. }
  split; [done|]. by apply cleanupOrphanedData_quiet.
Qed.

(** X10.  In the statistics of a run that completes, [totalPermissions] is
    the number of grants that the listings of the persisted entries show,
    every occurrence counted, and [processedPermissions] never exceeds it;
    when no permission write is refused, [processedPermissions] is the
    number of distinct grant ids among them. *)
Theorem permission_statistics_count_grants_and_ids (flt : Prisma.Faults)
  (drive : Drive.t) (db0 : Prisma.Db) (stats : SyncStats) (s1 : t) :
  startSync flt drive db0 = (Some stats, s1) ->
  let listed := listedGrants drive (Prisma.fileIds (db s1)) in
  stats_totalPermissions stats = length listed
  ∧ stats_processedPermissions stats <= stats_totalPermissions stats
  ∧ ((∀ row, Prisma.refusesPermission flt row = false) ->
     stats_processedPermissions stats
     = size (list_to_set listed : gset string)).
Proof.
  intros Hrun.
  destruct (Drive.drain (Drive.fetchListing drive)) as [files|] eqn:Hdrain.
  2: { by rewrite (surjective_pairing (startSync flt drive db0)),
         (startSync_throws flt drive db0 Hdrain) in Hrun. }
  rewrite (startSync_returns flt drive db0 files Hdrain) in Hrun.
  injection Hrun as <- <-. cbn zeta. cbn [db emit].
  destruct (settledState_tables flt drive db0 files)
    as (Hs & Hf & Hp & Hn & seen & I1 & I2 & I3 & I4 & I5 & I6 & I7 & I8).
  cbn [fst snd] in *.
  assert (Prisma.fileIds (db (settledState flt drive db0 files))
          = Prisma.fileIds
              (db (processFilesBatch flt (map toDriveFileData files)
                     (fetchedState drive db0)))) as Hids.
  { unfold Prisma.fileIds. by rewrite Hf. }
  rewrite !Hids.
  cbn [getSyncStats stats_totalPermissions stats_processedPermissions].
  rewrite Hs.
  destruct (cleanupOrphanedData_counters
              (syncAllPermissions flt drive
                 (processFilesBatch flt (map toDriveFileData files)
                    (fetchedState drive db0)))) as (_ & _ & -> & ->).
  rewrite I3, I4, Hn. cbn [Nat.add].
  split; [done|]. split.
  - etrans; [by apply subseteq_size|]. apply size_list_to_set_le.
  - intros Hno. specialize (I5 Hno).
    apply Nat.le_antisymm; by apply subseteq_size.
Qed.

(** X11.  On a database that satisfies the foreign key a run of the engine
    removes no permission: every permission id that has a row before the
    run has one after it, and the row of an id that no listing of a
    persisted entry shows (a grant that was revoked) is left exactly as it
    was. *)
Theorem run_never_removes_a_permission (flt : Prisma.Faults)
  (drive : Drive.t) (db0 : Prisma.Db) :
  Prisma.referential db0 ->
  let d := db (startSync flt drive db0).2 in
  (∀ id, id ∈ Prisma.permissionIds db0 -> id ∈ Prisma.permissionIds d)
  ∧ (∀ id, id ∉ listedGrants drive (Prisma.fileIds d) ->
       Prisma.drivePermission_.findUnique d id
       = Prisma.drivePermission_.findUnique db0 id).
Proof.
  intros Href. cbn zeta. rewrite startSync_db.
  destruct (Drive.drain (Drive.fetchListing drive)) as [files|] eqn:Hdrain;
    [|done].
  destruct (settledState_tables flt drive db0 files)
    as (Hs & Hf & Hp & Hn & seen & I1 & I2 & I3 & I4 & I5 & I6 & I7 & I8).
  cbn [fst snd] in *.
  assert (Prisma.fileIds (db (settledState flt drive db0 files))
          = Prisma.fileIds
              (db (processFilesBatch flt (map toDriveFileData files)
                     (fetchedState drive db0)))) as Hids.
  { unfold Prisma.fileIds. by rewrite Hf. }
  rewrite !Hids.
  rewrite Hs, cleanupOrphanedData_quiet
    by (by apply filedState_referential).
  split.
  - intros id Hid. apply I8. unfold Prisma.permissionIds. by rewrite Hp.
  - intros id Hid. rewrite I7 by done. by apply findUnique_permissions.
Qed.

End AfterARun.

(** ** Which occurrence of a grant the engine stores *)

Section FirstOccurrence.

Import GoogleDriveSyncService Spec Further.

Variable flt : Prisma.Faults.
Variable drive : Drive.t.

Hypothesis accepted : ∀ row, Prisma.refusesPermission flt row = false.

Implicit Types (s : t) (seen : gset string)
  (occ : list (string * SchemaPermission.t)).

Lemma occurrences_app l1 l2 :
  occurrences drive (l1 ++ l2) = occurrences drive l1 ++ occurrences drive l2.
Proof. unfold occurrences. by rewrite map_app, concat_app. Qed.

Lemma occurrences_singleton fileId :
  occurrences drive [fileId]
  = match Drive.permissions_list drive fileId with
    | Some permissions => map (pair fileId) permissions
    | None => []
    end.
Proof. unfold occurrences. cbn. by rewrite app_nil_r. Qed.

Lemma occurrences_elem fileIds fileId p :
  (fileId, p) ∈ occurrences drive fileIds ->
  fileId ∈ fileIds
  ∧ ∃ permissions,
      Drive.permissions_list drive fileId = Some permissions ∧ p ∈ permissions.
Proof.
  induction fileIds as [|f l IH].
  - by intros ?%elem_of_nil.
  - change (f :: l) with ([f] ++ l).
    rewrite occurrences_app, occurrences_singleton.
    intros [Hin|Hin]%elem_of_app.
    + destruct (Drive.permissions_list drive f) as [permissions|] eqn:E;
        [|by apply elem_of_nil in Hin].
      apply list_elem_of_fmap in Hin as (q & [= -> ->] & Hq).
      split; [by left|]. by exists permissions.
    + destruct (IH Hin) as [Hf Hp]. split; [by right|done].
Qed.

Lemma occurrences_ids fileIds :
  map (fun o => SchemaPermission.id o.2) (occurrences drive fileIds)
  = listedGrants drive fileIds.
Proof.
  unfold occurrences, listedGrants.
  induction fileIds as [|f l IH]; [done|]. cbn [map concat].
  rewrite map_app, IH. f_equal.
  destruct (Drive.permissions_list drive f) as [permissions|]; [|done].
  by rewrite map_map.
Qed.

(** One grant. *)
Lemma processPermission_firstWins occ fileId seen s p :
  fileId ∈ Prisma.fileIds (db s) ->
  firstWins occ (seen, s) ->
  firstWins (occ ++ [(fileId, p)]) (processPermission flt fileId (seen, s) p).
Proof.
  intros Hfile Hocc id. specialize (Hocc id) as Hid.
  rewrite (find_snoc (fun o : string * SchemaPermission.t =>
                        SchemaPermission.id o.2)).
  cbn [snd]. unfold processPermission. case_decide as Hseen.
  - destruct (List.find _ occ) as [[f q]|]; [done|].
    destruct (String.eqb_spec (SchemaPermission.id p) id) as [<-|]; done.
  - destruct (upsertPermission flt (db s) (drivePermissionData fileId p))
      as [[d o]|] eqn:E.
    + cbn [fst snd db] in *.
      destruct (List.find _ occ) as [[f q]|].
      * destruct Hid as [Hin Hrow]. split; [by apply elem_of_union_r|].
        rewrite <- Hrow. apply (upsertPermission_other flt _ _ _ _ _ E).
        cbn. by intros ->.
      * destruct (String.eqb_spec (SchemaPermission.id p) id) as [<-|Hne].
        -- split; [apply elem_of_union_l; by apply elem_of_singleton|].
           exact (upsertPermission_found flt _ _ _ _ E).
        -- intros [->%elem_of_singleton|Hin]%elem_of_union; done.
    + exfalso. destruct (upsertPermission_None flt _ _ E) as [Hr|Hr];
        [by rewrite accepted in Hr|done].
Qed.

(** The grants of one entry. *)
Lemma permissions_firstWins occ fileId permissions seen s :
  fileId ∈ Prisma.fileIds (db s) ->
  firstWins occ (seen, s) ->
  firstWins (occ ++ map (pair fileId) permissions)
    (fold_left (processPermission flt fileId) permissions (seen, s)).
Proof.
  revert occ seen s. induction permissions as [|p ps IH];
    intros occ seen s Hfile Hocc.
  { cbn. by rewrite app_nil_r. }
  cbn [fold_left map].
  change ((fileId, p) :: map (pair fileId) ps)
    with ([(fileId, p)] ++ map (pair fileId) ps).
  rewrite app_assoc.
  pose proof (processPermission_firstWins occ fileId seen s p Hfile Hocc) as H1.
  destruct (processPermission_step flt fileId seen s p Hfile) as (Hf & _).
  destruct (processPermission flt fileId (seen, s) p) as [seen1 s1].
  apply IH; [|done]. unfold Prisma.fileIds. cbn [snd] in Hf. by rewrite Hf.
Qed.

(** The permission phase. *)
Lemma syncAllPermissions_firstWins s :
  ∃ seen,
    firstWins (occurrences drive (Prisma.fileIds (db s)))
      (seen, syncAllPermissions flt drive s).
Proof.
  unfold syncAllPermissions.
  set (n := length (Prisma.fileIds (db s))).
  cut (firstWins (occurrences drive
                    (map snd (imap pair (Prisma.fileIds (db s)))))
         (fold_left (permissionsOfFile flt drive n)
            (imap pair (Prisma.fileIds (db s)))
            (∅, set_totalPermissions 0 s))
       ∧ Prisma.driveFile
           (db (fold_left (permissionsOfFile flt drive n)
                  (imap pair (Prisma.fileIds (db s)))
                  (∅, set_totalPermissions 0 s)).2)
         = Prisma.driveFile (db s)).
  { rewrite imap_pair_snd. destruct (fold_left _ _ _) as [seen s'].
    intros [H _]. by exists seen. }
  apply (fold_left_ind (permissionsOfFile flt drive n)
           (fun done acc =>
              firstWins (occurrences drive (map snd done)) acc
              ∧ Prisma.driveFile (db acc.2) = Prisma.driveFile (db s))).
  - split; [|done]. intros id. cbn. apply not_elem_of_empty.
  - intros done [i fileId] rest [seen s'] Hl [H Hf].
    rewrite map_app, occurrences_app. cbn [map snd].
    rewrite occurrences_singleton.
    assert (fileId ∈ Prisma.fileIds (db s)) as Hfile.
    { apply (imap_pair_elem _ (i, fileId)). rewrite Hl.
      apply elem_of_app. right. by left. }
    unfold permissionsOfFile.
    destruct (Drive.permissions_list drive fileId) as [permissions|].
    + set (s0 := record TxBegin
                   (set_totalPermissions
                      (totalPermissions s' + length permissions) s')).
      assert (fileId ∈ Prisma.fileIds (db s0)) as Hfile0.
      { unfold Prisma.fileIds. cbn. cbn in Hf. by rewrite Hf. }
      pose proof (permissions_firstWins _ fileId permissions seen s0 Hfile0 H)
        as H'.
      destruct (permissions_step flt fileId permissions seen s0 Hfile0)
        as (Hf' & _).
      destruct (fold_left (processPermission flt fileId) permissions
                  (seen, s0)) as [seen2 s2].
      cbn [fst snd] in *. split; [exact H'|].
      cbn [db record broadcastProgress emit] in *. by rewrite Hf'.
    + rewrite app_nil_r. by split.
Qed.

End FirstOccurrence.

(** ** The one-shot synchroniser and its answer *)

Section Collected.

Import GoogleDriveService.

Variable drive : Drive.t.

Lemma fold_left_concat {A B} (g : A -> list B) (l : list A) (acc : list B) :
  fold_left (fun acc x => acc ++ g x) l acc = acc ++ concat (map g l).
Proof.
  revert acc. induction l as [|x l IH]; intros acc; cbn.
  - by rewrite app_nil_r.
  - by rewrite IH, app_assoc.
Qed.

Lemma getFilePermissions_fileId fileId p :
  p ∈ getFilePermissions drive fileId -> DrivePermission.fileId p = fileId.
Proof.
  unfold getFilePermissions.
  destruct (Drive.permissions_list drive fileId) as [permissions|];
    [|by intros ?%elem_of_nil].
  by intros (q & -> & _)%list_elem_of_fmap.
Qed.

(** The permissions that [syncAllData] collects are those of the listed
    files, file by file. *)
Lemma syncAllData_permissions files allPermissions :
  syncAllData drive = Some (files, allPermissions) ->
  allPermissions
  = concat (map (fun f => getFilePermissions drive (DriveFileData.id f)) files)
  ∧ Forall (fun p => DrivePermission.fileId p ∈ map DriveFileData.id files)
      allPermissions.
Proof.
  unfold syncAllData.
  destruct (listAllFiles (Drive.fetchListing drive).1) as [fs|]; [|done].
  intros [= <- <-]. rewrite fold_left_concat. cbn [app]. split; [done|].
  apply Forall_forall. intros p Hp. apply list_elem_of_In, in_concat in Hp
    as (l & Hl & Hp).
  apply list_elem_of_In, list_elem_of_fmap in Hl as (f & -> & Hf).
  apply list_elem_of_In in Hp.
  rewrite (getFilePermissions_fileId _ _ Hp). by apply list_elem_of_fmap_2.
Qed.

Lemma getFilePermissions_forgiving fileId :
  getFilePermissions (Spec.forgiving drive) fileId
  = getFilePermissions drive fileId.
Proof.
  unfold getFilePermissions, Spec.forgiving. cbn.
  by destruct (Drive.permissions_list drive fileId).
Qed.

Lemma syncAllData_forgiving :
  syncAllData (Spec.forgiving drive) = syncAllData drive.
Proof.
  unfold syncAllData. cbn [Drive.fetchListing Spec.forgiving].
  destruct (listAllFiles (Drive.fetchListing drive).1) as [fs|]; [|done].
  rewrite !fold_left_concat. do 4 f_equal. apply map_ext.
  intros f. apply getFilePermissions_forgiving.
Qed.

End Collected.

Section Answer.

Import SyncServer Spec.

Variable flt : Prisma.Faults.

Implicit Types (s : Tally) (d : Prisma.Db).

(** [POST] as its two loops. *)
Lemma POST_loops drive db0 :
  SyncResult.POST flt drive db0
  = match GoogleDriveService.syncAllData drive with
    | Some (files, allPermissions) =>
        let valid :=
          filter (fun p => DrivePermission.fileId p
                           ∈ (list_to_set (map DriveFileData.id files)
                                : gset string)) allPermissions in
        let sf := fold_left (syncFile flt) files
                    (mkTally 0 0 0 0 (cleanupOrphanedRecords files db0)
                       [TxBegin]) in
        let sp := fold_left (syncPermission flt) valid
                    (mkTally 0 0 0 0 (db sf) [TxBegin]) in
        (Some (SyncResult.mk (length files)
                 (upserted sf) (updated sf) (skipped sf) (errors sf)
                 (length (List.filter DriveFileData.isFolder files))
                 (length (List.filter
                            (fun f => negb (DriveFileData.isFolder f)) files))
                 (length allPermissions)
                 (upserted sp) (updated sp) (skipped sp) (errors sp) 0
                 (SyncResult.verifyDataIntegrity (db sp))
                 (length (Prisma.driveFile (db sp)))
                 (length (Prisma.drivePermission (db sp)))),
         db sp)
    | None => (None, db0)
    end.
Proof.
  unfold SyncResult.POST.
  by destruct (GoogleDriveService.syncAllData drive) as [[files ps]|].
Qed.

(** The database of [POST] is the one of its report. *)
Lemma POST_report drive db0 :
  option_map report_db (POST flt drive db0)
  = option_map (fun _ => (SyncResult.POST flt drive db0).2)
      (SyncResult.POST flt drive db0).1.
Proof.
  rewrite POST_loops. unfold POST.
  by destruct (GoogleDriveService.syncAllData drive) as [[files ps]|].
Qed.

Lemma syncFile_step s f :
  let s' := syncFile flt s f in
  upserted s' + updated s' + skipped s' + errors s'
  = S (upserted s + updated s + skipped s + errors s).
Proof.
  rewrite syncFile_spec. cbn zeta.
  repeat case_match; cbn [upserted updated skipped errors]; lia.
Qed.

Lemma syncFiles_count files s :
  let s' := fold_left (syncFile flt) files s in
  upserted s' + updated s' + skipped s' + errors s'
  = upserted s + updated s + skipped s + errors s + length files.
Proof.
  revert s. induction files as [|f files IH]; intros s; cbn [fold_left length].
  - cbn zeta. lia.
  - cbn zeta in *. rewrite IH, syncFile_step. lia.
Qed.

Lemma syncPermissions_count permissions s :
  let s' := fold_left (syncPermission flt) permissions s in
  upserted s' + updated s' + skipped s' + errors s'
  = upserted s + updated s + skipped s + errors s + length permissions.
Proof.
  revert s. induction permissions as [|p ps IH]; intros s;
    cbn [fold_left length].
  - cbn zeta. lia.
  - cbn zeta in *. rewrite IH.
    destruct (syncPermission_step flt s p) as [-> _]. lia.
Qed.

(** What every upsert keeps, the two loops keep. *)
Lemma syncFiles_db_ind (Q : Prisma.Db -> Prop) files s :
  (∀ d data d' o,
     GoogleDriveSyncService.upsertFile flt d data = Some (d', o) ->
     Q d -> Q d') ->
  Q (db s) -> Q (db (fold_left (syncFile flt) files s)).
Proof.
  intros Hstep. revert s. induction files as [|f files IH]; intros s H;
    [done|].
  cbn [fold_left]. apply IH. pose proof (syncFile_upsert flt s f) as Hu.
  cbn zeta in Hu.
  destruct (GoogleDriveSyncService.upsertFile flt (db s) (driveFileData f))
    as [[d o]|] eqn:E.
  - destruct Hu as (-> & _). by eapply Hstep.
  - by destruct Hu as (-> & _).
Qed.

Lemma syncPermissions_db_ind (Q : Prisma.Db -> Prop) permissions s :
  (∀ d p d' o,
     p ∈ permissions ->
     GoogleDriveSyncService.upsertPermission flt d (drivePermissionData p)
     = Some (d', o) ->
     Q d -> Q d') ->
  Q (db s) -> Q (db (fold_left (syncPermission flt) permissions s)).
Proof.
  revert s. induction permissions as [|p ps IH]; intros s Hstep H; [done|].
  cbn [fold_left]. apply IH.
  { intros d q d' o Hq. apply Hstep. by right. }
  pose proof (syncPermission_upsert flt s p) as Hu. cbn zeta in Hu.
  destruct (GoogleDriveSyncService.upsertPermission flt (db s)
              (drivePermissionData p)) as [[d o]|] eqn:E.
  - destruct Hu as (-> & _). eapply Hstep; [by left|exact E|done].
  - by destruct Hu as (-> & _).
Qed.

Lemma cleanupOrphanedRecords_unique files d :
  Prisma.unique d -> Prisma.unique (cleanupOrphanedRecords files d).
Proof.
  intros [Hf Hp]. unfold cleanupOrphanedRecords.
  set (d1 := if Nat.ltb 0 _ then _ else d).
  assert (Prisma.unique d1) as [Hf1 Hp1].
  { unfold d1. case_match; [|done]. split; [done|].
    unfold Prisma.permissionIds. cbn. apply (sublist_NoDup _ _ Hp).
    apply (fmap_sublist DrivePermission.id). apply sublist_filter. }
  case_match; [|done]. unfold Prisma.driveFile_.deleteMany. split.
  - unfold Prisma.fileIds. cbn. apply (sublist_NoDup _ _ Hf1).
    apply (fmap_sublist DriveFile.id). apply sublist_filter.
  - unfold Prisma.permissionIds. cbn. apply (sublist_NoDup _ _ Hp1).
    apply (fmap_sublist DrivePermission.id). apply sublist_filter.
Qed.

Lemma cleanupOrphanedRecords_referential files d :
  Prisma.referential d -> Prisma.referential (cleanupOrphanedRecords files d).
Proof.
  intros Href. unfold cleanupOrphanedRecords.
  set (d1 := if Nat.ltb 0 _ then _ else d).
  assert (Prisma.referential d1) as Href1.
  { unfold d1. case_match; [|done].
    intros p [_ Hp]%list_elem_of_filter. by apply Href. }
  case_match; [|done]. unfold Prisma.driveFile_.deleteMany.
  intros p [Hkeep Hp]%list_elem_of_filter. cbn in *.
  pose proof (Href1 p Hp) as Hin.
  apply list_elem_of_fmap in Hin as (r & Hid & Hr).
  unfold Prisma.fileIds. cbn. apply list_elem_of_fmap. exists r.
  split; [done|]. apply list_elem_of_filter. split; [|done].
  intros Hdel. apply Hkeep. split; [by apply Href1|]. by rewrite Hid.
Qed.

(** The keys through the whole of [POST]. *)
Lemma POST_keys drive db0 :
  let d := (SyncResult.POST flt drive db0).2 in
  (Prisma.unique db0 -> Prisma.unique d)
  ∧ (Prisma.referential db0 -> Prisma.referential d).
Proof.
  cbn zeta. rewrite POST_loops.
  destruct (GoogleDriveService.syncAllData drive) as [[files ps]|]; [|done].
  cbn [snd]. split; intros H.
  - apply syncPermissions_db_ind.
    { intros d p d' o _ E [Hf Hp]. split.
      - unfold Prisma.fileIds.
        by rewrite (upsertPermission_files flt _ _ _ _ E).
      - by eapply upsertPermission_ids. }
    cbn [db]. apply syncFiles_db_ind.
    { intros d data d' o E [Hf Hp]. split.
      - by eapply upsertFile_ids.
      - unfold Prisma.permissionIds.
        by rewrite (upsertFile_permissions flt _ _ _ _ E). }
    by apply cleanupOrphanedRecords_unique.
  - apply syncPermissions_db_ind.
    { intros d p d' o _. apply upsertPermission_referential. }
    cbn [db]. apply syncFiles_db_ind; [apply upsertFile_referential|].
    by apply cleanupOrphanedRecords_referential.
Qed.

End Answer.

Section OneShotAnswer.

Import SyncServer Spec.

Variable flt : Prisma.Faults.

Implicit Types (s : Tally) (d : Prisma.Db).

Lemma valid_all (files : list DriveFileData.t)
  (permissions : list DrivePermission.t) :
  Forall (fun p => DrivePermission.fileId p ∈ map DriveFileData.id files)
    permissions ->
  filter (fun p => DrivePermission.fileId p
                   ∈ (list_to_set (map DriveFileData.id files) : gset string))
    permissions
  = permissions.
Proof.
  intros H. apply filter_all. eapply Forall_impl; [exact H|].
  intros p Hp. by apply elem_of_list_to_set.
Qed.

Lemma cleanupOrphanedRecords_keeps files d row :
  NoDup (Prisma.permissionIds d) ->
  row ∈ Prisma.drivePermission d ->
  DrivePermission.fileId row ∈ map DriveFileData.id files ->
  row ∈ Prisma.drivePermission (cleanupOrphanedRecords files d).
Proof.
  intros Hnd Hrow Hfile. unfold cleanupOrphanedRecords.
  set (d1 := if Nat.ltb 0 _ then _ else d).
  assert (row ∈ Prisma.drivePermission d1) as Hrow1.
  { unfold d1. case_match; [|done].
    unfold Prisma.drivePermission_.deleteMany,
      Prisma.drivePermission_.findMany_fileId_notIn. cbn.
    apply list_elem_of_filter. split; [|done].
    intros (o & Hid & [Ho Hin]%list_elem_of_filter)%list_elem_of_fmap.
    assert (row = o) as <-; [|done].
    by apply (same_key_same_row DrivePermission.id (Prisma.drivePermission d)). }
  case_match; [|done]. unfold Prisma.driveFile_.deleteMany. cbn.
  apply list_elem_of_filter. split; [|done].
  intros [_ (r & Hid & [Hr _]%list_elem_of_filter)%list_elem_of_fmap].
  apply Hr. by rewrite <- Hid.
Qed.

Lemma syncPermissions_other permissions s id :
  id ∉ map DrivePermission.id permissions ->
  Prisma.drivePermission_.findUnique
    (db (fold_left (syncPermission flt) permissions s)) id
  = Prisma.drivePermission_.findUnique (db s) id.
Proof.
  intros Hid.
  apply (syncPermissions_db_ind flt
           (fun d => Prisma.drivePermission_.findUnique d id
                     = Prisma.drivePermission_.findUnique (db s) id));
    [|done].
  intros d p d' o Hp E <-. apply (upsertPermission_other flt _ _ _ _ _ E).
  cbn. intros ->. apply Hid. by apply list_elem_of_fmap_2.
Qed.

End OneShotAnswer.

(** ** The answer of the one-shot synchroniser *)

Section OneShotProperties.

Import SyncServer Spec.

(** X13.  The permissions that [syncAllData] collects all belong to files
    it listed, so the filter of [syncDrivePermissions] never drops one of
    them in [POST]: the [total] of the permissions in the answer, which
    counts the collected ones, is the number of permissions the loop went
    through, each of them counted once as upserted, updated, skipped or
    error. *)
Theorem post_counts_every_collected_permission (flt : Prisma.Faults)
  (drive : Drive.t) (db0 : Prisma.Db) (r : SyncResult.t) (d : Prisma.Db) :
  SyncResult.POST flt drive db0 = (Some r, d) ->
  (∃ files allPermissions,
     GoogleDriveService.syncAllData drive = Some (files, allPermissions)
     ∧ Forall (fun p => DrivePermission.fileId p
                        ∈ map DriveFileData.id files) allPermissions
     ∧ (∀ db1, permissions_total
                 (syncDrivePermissions flt allPermissions files db1).1
               = length allPermissions)
     ∧ SyncResult.permissions_total r = length allPermissions)
  ∧ SyncResult.permissions_upserted r + SyncResult.permissions_updated r
    + SyncResult.permissions_skipped r + SyncResult.permissions_errors r
    = SyncResult.permissions_total r.
Proof.
  rewrite POST_loops.
  destruct (GoogleDriveService.syncAllData drive) as [[files ps]|] eqn:E;
    [|done].
  destruct (syncAllData_permissions drive files ps E) as [_ Hin].
  cbn zeta. rewrite (valid_all files ps Hin). intros [= <- <-].
  cbn [SyncResult.permissions_total SyncResult.permissions_upserted
         SyncResult.permissions_updated SyncResult.permissions_skipped
         SyncResult.permissions_errors]. split.
  - exists files, ps. split_and!; [done|done| |done].
    intros db1. unfold syncDrivePermissions. cbn [fst permissions_total].
    by rewrite (valid_all files ps Hin).
  - rewrite syncPermissions_count. cbn. lia.
Qed.

(** X14.  In the answer of [POST] every listed file is counted exactly
    once as upserted, updated, skipped or error, and exactly once as a
    folder or as a regular file: each of the two sums is the [total] of the
    files. *)
Theorem post_counts_every_listed_file (flt : Prisma.Faults)
  (drive : Drive.t) (db0 : Prisma.Db) (r : SyncResult.t) (d : Prisma.Db) :
  SyncResult.POST flt drive db0 = (Some r, d) ->
  SyncResult.files_upserted r + SyncResult.files_updated r
  + SyncResult.files_skipped r + SyncResult.files_errors r
  = SyncResult.files_total r
  ∧ SyncResult.files_folders r + SyncResult.files_regularFiles r
    = SyncResult.files_total r.
Proof.
  rewrite POST_loops.
  destruct (GoogleDriveService.syncAllData drive) as [[files ps]|]; [|done].
  cbn zeta. intros [= <- <-].
  cbn [SyncResult.files_total SyncResult.files_upserted
         SyncResult.files_updated SyncResult.files_skipped
         SyncResult.files_errors SyncResult.files_folders
         SyncResult.files_regularFiles]. split.
  - rewrite syncFiles_count. cbn. lia.
  - apply List.filter_length.
Qed.

(** X15.  [verifyDataIntegrity] reports [isConsistent] exactly when every
    permission row refers to a persisted file, and its two counts are always
    the same number: the second check can never find what the first
    missed. *)
Theorem integrity_check_decides_the_foreign_key (db : Prisma.Db) :
  let check := SyncResult.verifyDataIntegrity db in
  (SyncResult.isConsistent check = true <-> Prisma.referential db)
  ∧ SyncResult.invalidFileReferences check
    = SyncResult.orphanedPermissions check.
Proof.
  cbn zeta. unfold SyncResult.verifyDataIntegrity.
  cbn [SyncResult.isConsistent SyncResult.invalidFileReferences
         SyncResult.orphanedPermissions]. split.
  - unfold Prisma.drivePermission_.findMany_fileId_notIn.
    rewrite Nat.eqb_eq, length_zero_iff_nil. split.
    + intros Hnil p Hp.
      destruct (decide (DrivePermission.fileId p ∈ Prisma.fileIds db))
        as [|Hno]; [done|].
      assert (p ∈ filter (fun p => DrivePermission.fileId p
                                   ∉ Prisma.fileIds db)
                    (Prisma.drivePermission db)) as Hin
        by (by apply list_elem_of_filter).
      rewrite Hnil in Hin. by apply elem_of_nil in Hin.
    + intros Href. apply elem_of_nil_inv.
      intros p [Hno Hp]%list_elem_of_filter. by apply Hno, Href.
  - unfold Prisma.drivePermission_.findMany_fileId_notIn. f_equal.
    apply list_filter_iff. intros p.
    by rewrite elem_of_elements, elem_of_list_to_set.
Qed.

(** X16.  [POST] keeps the primary keys of both tables unique and keeps the
    foreign key of the permissions; so on a database that satisfies the
    foreign key its integrity check always reports a consistent database
    with no orphaned permission. *)
Theorem post_keeps_the_keys_and_reports_them (flt : Prisma.Faults)
  (drive : Drive.t) (db0 : Prisma.Db) :
  let answer := SyncResult.POST flt drive db0 in
  (Prisma.unique db0 -> Prisma.unique answer.2)
  ∧ (Prisma.referential db0 ->
     Prisma.referential answer.2
     ∧ ∀ r, answer.1 = Some r ->
            SyncResult.isConsistent (SyncResult.integrity r) = true
            ∧ SyncResult.orphanedPermissions (SyncResult.integrity r) = 0
            ∧ SyncResult.invalidFileReferences (SyncResult.integrity r) = 0).
Proof.
  cbn zeta. destruct (POST_keys flt drive db0) as [Hu Hr].
  split; [exact Hu|]. intros Href. specialize (Hr Href). split; [exact Hr|].
  revert Hr. rewrite POST_loops.
  destruct (GoogleDriveService.syncAllData drive) as [[files ps]|]; [|done].
  cbn zeta. cbn [fst snd]. intros Hr r [= <-]. cbn [SyncResult.integrity].
  set (d := db _) in *.
  assert (Prisma.drivePermission_.findMany_fileId_notIn d (Prisma.fileIds d)
          = []) as Hnil.
  { apply elem_of_nil_inv. intros p [Hno Hp]%list_elem_of_filter.
    by apply Hno, Hr. }
  assert (Prisma.drivePermission_.findMany_fileId_notIn d
            (elements (list_to_set (Prisma.fileIds d) : gset string))
          = []) as Hnil'.
  { rewrite <- Hnil. apply list_filter_iff. intros p.
    by rewrite elem_of_elements, elem_of_list_to_set. }
  unfold SyncResult.verifyDataIntegrity.
  cbn [SyncResult.isConsistent SyncResult.invalidFileReferences
         SyncResult.orphanedPermissions].
  by rewrite Hnil, Hnil'.
Qed.

(** X17.  After a [POST] without refused file writes, on a catalogue with
    distinct ids and a database with unique keys, the file table holds
    exactly the listed files: the same ids, one row each, every row with
    the listed values (and the defaults of the handler); the answer reports
    as many rows as files. *)
Theorem post_leaves_exactly_the_listed_files (flt : Prisma.Faults)
  (drive : Drive.t) (db0 : Prisma.Db) (files : list DriveFileData.t)
  (allPermissions : list DrivePermission.t) (r : SyncResult.t)
  (d : Prisma.Db) :
  (∀ row, Prisma.refusesFile flt row = false) ->
  Prisma.unique db0 ->
  GoogleDriveService.syncAllData drive = Some (files, allPermissions) ->
  NoDup (map DriveFileData.id files) ->
  SyncResult.POST flt drive db0 = (Some r, d) ->
  Prisma.fileIds d ≡ₚ map DriveFileData.id files
  ∧ (∀ f, f ∈ files ->
       Prisma.driveFile_.findUnique d (DriveFileData.id f)
       = Some (driveFileData f))
  ∧ SyncResult.totalDriveFiles r = SyncResult.files_total r.
Proof.
  intros Hno Huniq Hdata Hnd Hpost.
  pose proof (proj1 (POST_keys flt drive db0) Huniq) as [Hf _].
  rewrite Hpost in Hf. cbn [snd] in Hf.
  revert Hpost. rewrite POST_loops, Hdata. cbn zeta. intros [= <- <-].
  cbn [SyncResult.totalDriveFiles SyncResult.files_total].
  destruct (syncAllData_permissions drive files allPermissions Hdata)
    as [_ Hin].
  rewrite (valid_all files allPermissions Hin) in *.
  set (sf := fold_left (syncFile flt) files _) in *.
  set (sp := fold_left (syncPermission flt) allPermissions _) in *.
  assert (Prisma.driveFile (db sp) = Prisma.driveFile (db sf)) as Hsame.
  { exact (syncPermissions_frame flt allPermissions
             (mkTally 0 0 0 0 (db sf) [TxBegin])). }
  assert (Prisma.fileIds (db sp) ≡ₚ map DriveFileData.id files) as Hperm.
  { apply NoDup_Permutation; [done|done|]. intros id.
    unfold Prisma.fileIds. rewrite Hsame. split.
    - intros (row & -> & Hrow)%list_elem_of_fmap.
      destruct (syncFiles_within flt (map DriveFileData.id files) files
                  (mkTally 0 0 0 0 (cleanupOrphanedRecords files db0)
                     [TxBegin])) as [Hw _].
      + intros f Hf'. by apply list_elem_of_fmap_2.
      + apply cleanupOrphanedRecords_within.
      + by apply Hw.
    - intros (f & -> & Hf')%list_elem_of_fmap.
      by apply (syncFiles_cover flt files). }
  split_and!.
  - done.
  - intros f Hf'. rewrite (findUnique_files _ _ _ Hsame).
    destruct (syncFiles_settle flt files
                (mkTally 0 0 0 0 (cleanupOrphanedRecords files db0) [TxBegin])
                Hnd (driveFileData f)) as [H|H].
    + by apply list_elem_of_fmap_2.
    + done.
    + by rewrite Hno in H.
  - apply Permutation_length in Hperm.
    unfold Prisma.fileIds in Hperm. by rewrite !length_map in Hperm.
Qed.

(** X18.  For the same entry of the catalogue the two synchronisers write
    the same row, file or permission, with one exception: a file of size 0
    is stored with size 0 by the engine and with no size by the one-shot
    synchroniser, so each of them updates the row the other one wrote. *)
Theorem synchronisers_agree_but_for_empty_files :
  (∀ files listed,
     GoogleDriveService.listAllFiles (Some files) = Some listed ->
     Forall (fun file => SchemaFile.size file ≠ Some 0%Z) files ->
     map driveFileData listed
     = map (fun file => GoogleDriveSyncService.driveFileData
                          (GoogleDriveSyncService.toDriveFileData file))
         files)
  ∧ (∀ drive fileId permissions,
       Drive.permissions_list drive fileId = Some permissions ->
       map drivePermissionData
         (GoogleDriveService.getFilePermissions drive fileId)
       = map (GoogleDriveSyncService.drivePermissionData fileId) permissions)
  ∧ (∀ file listed,
       GoogleDriveService.listAllFiles (Some [file]) = Some [listed] ->
       SchemaFile.size file = Some 0%Z ->
       let engine := GoogleDriveSyncService.driveFileData
                       (GoogleDriveSyncService.toDriveFileData file) in
       let oneShot := driveFileData listed in
       DriveFile.size engine = Some 0%Z ∧ DriveFile.size oneShot = None
       ∧ changeCheck (Some (DriveFile.object engine))
           (DriveFile.object oneShot) = Update
       ∧ changeCheck (Some (DriveFile.object oneShot))
           (DriveFile.object engine) = Update).
Proof.
  assert (∀ n, Js.or_str (Some (Js.or_str n "")) "Untitled"
               = Js.or_str n "Untitled") as Hname.
  { intros [n|]; [|done]. cbn. by destruct (String.eqb n "") eqn:E; cbn;
      rewrite ?E. }
  assert (∀ n d, d ≠ "" -> Js.or_str (Some (Js.or_str n "")) d = Js.or_str n d)
    as Hstr.
  { intros [n|] d Hd; [|done]. cbn. by destruct (String.eqb n "") eqn:E; cbn;
      rewrite ?E. }
  assert (∀ m, Js.or_null (Js.or_null m) = Js.or_null m) as Hnull.
  { intros [m|]; [|done]. cbn. by destruct (String.eqb m "") eqn:E; cbn;
      rewrite ?E. }
  assert (∀ z, z ≠ Some 0%Z -> Js.or_null_num z = z) as Hsize.
  { intros [z|] Hz; [|done]. cbn. destruct (Z.eqb_spec z 0); [|done].
    by subst. }
  split_and!.
  - intros files listed [= <-] Hall. rewrite map_map. apply map_ext_Forall.
    eapply Forall_impl; [exact Hall|]. intros file Hz.
    unfold driveFileData, GoogleDriveSyncService.driveFileData,
      GoogleDriveSyncService.toDriveFileData.
    cbn [DriveFileData.id DriveFileData.name DriveFileData.mimeType
           DriveFileData.parents DriveFileData.size DriveFileData.createdTime
           DriveFileData.modifiedTime DriveFileData.trashed
           DriveFileData.isFolder].
    by rewrite Hname, Hnull, (Hsize _ Hz).
  - intros drive fileId permissions E.
    unfold GoogleDriveService.getFilePermissions. rewrite E, map_map.
    apply map_ext. intros p.
    unfold drivePermissionData, GoogleDriveSyncService.drivePermissionData.
    cbn [DrivePermission.id DrivePermission.fileId DrivePermission.type
           DrivePermission.role DrivePermission.emailAddress
           DrivePermission.domain DrivePermission.allowFileDiscovery].
    by rewrite !Hstr, !Hnull.
  - intros file listed [= <-] Hz. cbn zeta.
    assert (DriveFile.size
              (GoogleDriveSyncService.driveFileData
                 (GoogleDriveSyncService.toDriveFileData file)) = Some 0%Z)
      as He by done.
    assert (∀ f, DriveFileData.size f = Some 0%Z ->
                 DriveFile.size (driveFileData f) = None) as Ho.
    { intros f Hf. unfold driveFileData. cbn. by rewrite Hf. }
    split; [done|]. split; [by apply Ho|].
    rewrite !file_changeCheck. split; case_decide as Heq; try done.
    + rewrite Heq in He. by rewrite Ho in He.
    + rewrite <- Heq in He. by rewrite Ho in He.
Qed.

(** X19.  In the one-shot synchroniser a grant listing that throws is the
    same as an empty listing: [POST] gives the same answer and leaves the
    same database as on the catalogue where that entry has no grants; no
    error is counted for it. *)
Theorem post_takes_a_failed_listing_for_an_empty_one (flt : Prisma.Faults)
  (drive : Drive.t) (db0 : Prisma.Db) :
  GoogleDriveService.syncAllData (forgiving drive)
  = GoogleDriveService.syncAllData drive
  ∧ SyncResult.POST flt (forgiving drive) db0 = SyncResult.POST flt drive db0
  ∧ POST flt (forgiving drive) db0 = POST flt drive db0.
Proof.
  pose proof (syncAllData_forgiving drive) as H. split; [done|].
  unfold SyncResult.POST, POST. by rewrite H.
Qed.

(** X20.  [POST] removes no permission of a listed file: on a database with
    unique keys, a permission row whose file is listed and whose id is not
    among the collected permissions (a grant that was revoked, or one of an
    entry whose grant listing throws) is left exactly as it was. *)
Theorem post_keeps_the_permissions_of_listed_files (flt : Prisma.Faults)
  (drive : Drive.t) (db0 : Prisma.Db) (files : list DriveFileData.t)
  (allPermissions : list DrivePermission.t) (row : DrivePermission.t) :
  Prisma.unique db0 ->
  GoogleDriveService.syncAllData drive = Some (files, allPermissions) ->
  row ∈ Prisma.drivePermission db0 ->
  DrivePermission.fileId row ∈ map DriveFileData.id files ->
  DrivePermission.id row ∉ map DrivePermission.id allPermissions ->
  Prisma.drivePermission_.findUnique (SyncResult.POST flt drive db0).2
    (DrivePermission.id row)
  = Some row.
Proof.
  intros Huniq Hdata Hrow Hfile Hid.
  rewrite POST_loops, Hdata. cbn zeta. cbn [snd].
  destruct (syncAllData_permissions drive files allPermissions Hdata)
    as [_ Hin].
  rewrite (valid_all files allPermissions Hin).
  rewrite syncPermissions_other by done. cbn [db].
  rewrite (findUnique_permissions _ _ _
             (syncFiles_frame flt files
                (mkTally 0 0 0 0 (cleanupOrphanedRecords files db0)
                   [TxBegin]))).
  cbn [db]. apply (find_elem DrivePermission.id).
  - apply (cleanupOrphanedRecords_unique files db0 Huniq).
  - apply cleanupOrphanedRecords_keeps; [by destruct Huniq|done|done].
Qed.

End OneShotProperties.

(** ** What the one-shot synchroniser stores and prunes *)

Section OneShotTables.

Import SyncServer Spec.

(** X21.  Without refused writes, [POST] stores every collected permission
    whose id does not occur again later among the collected ones, as it was
    collected (with the defaults of the handler): for a grant id shared by
    several files the row is the one of the last file that lists it. *)
Theorem post_stores_the_last_occurrence_of_a_grant (flt : Prisma.Faults)
  (drive : Drive.t) (db0 : Prisma.Db) (files : list DriveFileData.t)
  (before after : list DrivePermission.t) (p : DrivePermission.t) :
  (∀ row, Prisma.refusesFile flt row = false) ->
  (∀ row, Prisma.refusesPermission flt row = false) ->
  GoogleDriveService.syncAllData drive = Some (files, before ++ p :: after) ->
  DrivePermission.id p ∉ map DrivePermission.id after ->
  Prisma.drivePermission_.findUnique (SyncResult.POST flt drive db0).2
    (DrivePermission.id p)
  = Some (drivePermissionData p).
Proof.
  intros Hnf Hnp Hdata Hlast. rewrite POST_loops, Hdata. cbn zeta. cbn [snd].
  destruct (syncAllData_permissions drive files _ Hdata) as [_ Hin].
  rewrite (valid_all files _ Hin), fold_left_app. cbn [fold_left].
  rewrite syncPermissions_other by done.
  set (sf := fold_left (syncFile flt) files _).
  set (s1 := fold_left (syncPermission flt) before _).
  assert (DrivePermission.fileId p ∈ Prisma.fileIds (db s1)) as Hfile.
  { unfold Prisma.fileIds, s1. rewrite syncPermissions_frame. cbn [db].
    apply Forall_app in Hin as [_ Hin]. apply Forall_cons in Hin as [Hp _].
    apply list_elem_of_fmap in Hp as (f & -> & Hf).
    by apply (syncFiles_cover flt files). }
  pose proof (syncPermission_upsert flt s1 p) as Hu. cbn zeta in Hu.
  destruct (GoogleDriveSyncService.upsertPermission flt (db s1)
              (drivePermissionData p)) as [[d o]|] eqn:E.
  - destruct Hu as (-> & _).
    exact (upsertPermission_found flt _ _ _ _ E).
  - exfalso. destruct (upsertPermission_None flt _ _ E) as [Hr|Hr].
    + by rewrite Hnp in Hr.
    + by apply Hr.
Qed.

(** X22.  After a [POST] that answers, nothing outside the listed files is
    left in either table: every file row has the id of a listed file and
    every permission row refers to a listed file.  The rows of the files
    that the catalogue has lost are gone, and their permissions with
    them. *)
Theorem post_prunes_what_the_catalogue_lost (flt : Prisma.Faults)
  (drive : Drive.t) (db0 : Prisma.Db) (files : list DriveFileData.t)
  (allPermissions : list DrivePermission.t) :
  GoogleDriveService.syncAllData drive = Some (files, allPermissions) ->
  let d := (SyncResult.POST flt drive db0).2 in
  (∀ row, row ∈ Prisma.driveFile d ->
          DriveFile.id row ∈ map DriveFileData.id files)
  ∧ (∀ p, p ∈ Prisma.drivePermission d ->
          DrivePermission.fileId p ∈ map DriveFileData.id files)
  ∧ (∀ id, id ∉ map DriveFileData.id files ->
       Prisma.driveFile_.findUnique d id = None
       ∧ ∀ p, p ∈ Prisma.drivePermission d -> DrivePermission.fileId p ≠ id).
Proof.
  intros Hdata. cbn zeta. rewrite POST_loops, Hdata. cbn zeta. cbn [snd].
  destruct (syncAllData_permissions drive files _ Hdata) as [_ Hin].
  rewrite (valid_all files _ Hin).
  assert (within (map DriveFileData.id files)
            (db (fold_left (syncPermission flt) allPermissions
                   (mkTally 0 0 0 0
                      (db (fold_left (syncFile flt) files
                             (mkTally 0 0 0 0
                                (cleanupOrphanedRecords files db0)
                                [TxBegin])))
                      [TxBegin])))) as [Hf Hp].
  { apply syncPermissions_within; [by apply Forall_forall|]. cbn [db].
    apply syncFiles_within.
    - intros f Hf. by apply list_elem_of_fmap_2.
    - apply cleanupOrphanedRecords_within. }
  split; [exact Hf|]. split; [exact Hp|]. intros id Hid. split.
  - apply (find_None_keys DriveFile.id).
    intros (row & -> & Hrow)%list_elem_of_fmap. by apply Hid, Hf.
  - intros p Hin' <-. by apply Hid, Hp.
Qed.

End OneShotTables.

Section OneShotTablesInstances.

Import SyncServer Spec Example Fixture.

Local Ltac decided := apply (bool_decide_unpack _); vm_compute; exact I.

Lemma post_stores_the_last_occurrence_of_a_grant_witness :
  Prisma.drivePermission_.findUnique
    (SyncResult.POST Prisma.noFaults driveShared dbAB).2 "p"
  = Some (drivePermissionData (collected "p" "B")).
Proof.
  apply (post_stores_the_last_occurrence_of_a_grant Prisma.noFaults
           driveShared dbAB listedAB [collected "p" "A"] []
           (collected "p" "B")).
  - done.
  - done.
  - reflexivity.
  - decided.
Defined.

Lemma post_prunes_what_the_catalogue_lost_witness :
  Prisma.driveFile_.findUnique
    (SyncResult.POST Prisma.noFaults driveAB dbABC).2 "C" = None.
Proof.
  assert (GoogleDriveService.syncAllData driveAB
          = Some (listedAB, [collected "pa" "A"])) as Hdata by reflexivity.
  apply (proj2 (proj2 (post_prunes_what_the_catalogue_lost Prisma.noFaults
                         driveAB dbABC listedAB [collected "pa" "A"] Hdata))).
  decided.
Defined.

End OneShotTablesInstances.

Section NothingCounted.

Import GoogleDriveSyncService Spec Further.

(** What follows the fetch loop only adds to what was broadcast. *)
Lemma startSync_after_the_count (flt : Prisma.Faults) (drive : Drive.t)
  (db0 : Prisma.Db) :
  let counted := getTotalFileCount drive (new db0) in
  let fetched := fetchLoop (Drive.fetchListing drive).1
                   (Drive.fetchListing drive).2 []
                   (set_totalFiles counted.1 counted.2) in
  ∃ after,
    emitted (startSync flt drive db0).2 = emitted fetched.2 ++ after.
Proof.
  cbn zeta. unfold startSync, syncDriveFilesWithPagination.
  destruct (getTotalFileCount drive (new db0)) as [n sc].
  destruct (Drive.fetchListing drive) as [r rest]. cbn [fst snd].
  destruct (fetchLoop r rest [] (set_totalFiles n sc)) as [[allFiles|] sf];
    cbn [fst snd].
  - destruct (processFilesBatch_emits flt (map toDriveFileData allFiles) sf)
      as (filed & Hfiled & _).
    set (sp := processFilesBatch flt (map toDriveFileData allFiles) sf) in *.
    destruct (syncAllPermissions_emits flt drive sp) as (granted & Hgranted & _).
    set (sg := syncAllPermissions flt drive sp) in *.
    destruct (cleanupOrphanedData_frame sg) as (_ & _ & Hclean & _).
    unfold emits in *. cbn [emitted emit].
    rewrite Hclean, Hgranted, Hfiled, <- !app_assoc. by eexists.
  - cbn [emitted emit]. by eexists.
Qed.

(** X23.  When the count is 0 and the first page of the fetch is empty (an
    empty folder), the first event of the fetch carries a percentage that
    is not a number: 0 divided by 0.  The stream writes it as [null] and the
    page shows 0 percent for it. *)
Theorem empty_first_page_after_a_zero_count_is_not_a_number
  (flt : Prisma.Faults) (drive : Drive.t) (db0 : Prisma.Db)
  (rest : list Drive.response) (ui : SyncPage.t) :
  (getTotalFileCount drive (new db0)).1 = 0 ->
  Drive.fetchListing drive = (Some [], rest) ->
  let e := mkEvent page_loaded 0 0 Js.NaN in
  (∃ after,
     emitted (startSync flt drive db0).2
     = emitted (getTotalFileCount drive (new db0)).2 ++ progress e :: after)
  ∧ ProgressStream.enqueued (progress e)
    = ProgressStream.Progress page_loaded 0 0 None
  ∧ SyncPage.progress
      (SyncPage.handleProgressEvent (ProgressStream.enqueued (progress e)) ui)
    = 0%Q.
Proof.
  intros Hcount Hfetch. cbn zeta. split; [|done].
  destruct (startSync_after_the_count flt drive db0) as (after & ->).
  rewrite Hfetch, Hcount. cbn [fst snd].
  set (sc := (getTotalFileCount drive (new db0)).2).
  destruct rest as [|r' rest]; cbn [fetchLoop snd].
  - cbn. exists after. by rewrite <- app_assoc.
  - edestruct (fetchLoop_emits rest r') as (events & He & _).
    unfold emits in He. rewrite He. cbn.
    exists (map progress events ++ after). by rewrite <- !app_assoc.
Qed.

End NothingCounted.

Section NothingCountedInstance.

Import GoogleDriveSyncService Spec Further Example Fixture.

Lemma empty_first_page_after_a_zero_count_is_not_a_number_witness :
  ∃ after,
    emitted (startSync Prisma.noFaults (catalogue [] (fun _ => Some []))
               emptyDb).2
    = emitted (getTotalFileCount (catalogue [] (fun _ => Some []))
                 (new emptyDb)).2
      ++ progress (mkEvent page_loaded 0 0 Js.NaN) :: after.
Proof.
  exact (proj1 (empty_first_page_after_a_zero_count_is_not_a_number
                  Prisma.noFaults (catalogue [] (fun _ => Some [])) emptyDb []
                  started eq_refl eq_refl)).
Defined.

End NothingCountedInstance.

(** ** The further properties at concrete inputs *)

Section FurtherInstances.

Import GoogleDriveSyncService Spec Further Example Fixture.

Local Ltac decided := apply (bool_decide_unpack _); vm_compute; exact I.

Lemma dbABC_referential : Prisma.referential dbABC.
Proof. unfold Prisma.referential. apply Forall_forall. decided. Qed.

Lemma dbRevoked_referential : Prisma.referential dbRevoked.
Proof. unfold Prisma.referential. apply Forall_forall. decided. Qed.

Lemma dbABC_unique : Prisma.unique dbABC.
Proof. split; decided. Qed.

Lemma run_keeps_the_keys_witness :
  Prisma.unique (db (startSync Prisma.noFaults driveAB dbABC).2)
  ∧ Prisma.referential (db (startSync Prisma.noFaults driveAB dbABC).2).
Proof.
  destruct (run_keeps_the_keys Prisma.noFaults driveAB dbABC) as (H1 & H2 & _).
  split; [apply H1|apply H2].
  - exact dbABC_unique.
  - exact dbABC_referential.
Defined.

Lemma cleanup_finds_nothing_under_the_foreign_key_witness :
  cleanupOrphanedData
    (syncAllPermissions Prisma.noFaults driveAB
       (processFilesBatch Prisma.noFaults (map toDriveFileData [A; B])
          (new dbABC)))
  = syncAllPermissions Prisma.noFaults driveAB
      (processFilesBatch Prisma.noFaults (map toDriveFileData [A; B])
         (new dbABC)).
Proof.
  exact (proj2 (cleanup_finds_nothing_under_the_foreign_key Prisma.noFaults
                  driveAB (map toDriveFileData [A; B]) (new dbABC)
                  dbABC_referential)).
Defined.

Lemma permission_statistics_count_grants_and_ids_witness :
  2 = length (listedGrants driveShared
                (Prisma.fileIds
                   (db (startSync Prisma.noFaults driveShared dbAB).2)))
  ∧ 1 = size (list_to_set
                (listedGrants driveShared
                   (Prisma.fileIds
                      (db (startSync Prisma.noFaults driveShared dbAB).2)))
              : gset string).
Proof.
  destruct (permission_statistics_count_grants_and_ids Prisma.noFaults
              driveShared dbAB (mkStats 2 2 2 1 0)
              (startSync Prisma.noFaults driveShared dbAB).2)
    as (H1 & _ & H3).
  - vm_compute. reflexivity.
  - split; [exact H1|]. by apply H3.
Defined.

Lemma run_never_removes_a_permission_witness :
  Prisma.drivePermission_.findUnique
    (db (startSync Prisma.noFaults driveAB dbRevoked).2) "old"
  = Prisma.drivePermission_.findUnique dbRevoked "old".
Proof.
  apply (proj2 (run_never_removes_a_permission Prisma.noFaults driveAB
                  dbRevoked dbRevoked_referential)).
  decided.
Defined.

Lemma post_counts_every_collected_permission_witness :
  match SyncResult.POST Prisma.noFaults driveFolder dbABC with
  | (Some r, _) =>
      SyncResult.permissions_upserted r + SyncResult.permissions_updated r
      + SyncResult.permissions_skipped r + SyncResult.permissions_errors r
      = SyncResult.permissions_total r
  | (None, _) => False
  end.
Proof.
  destruct (SyncResult.POST Prisma.noFaults driveFolder dbABC) as [[r|] d]
    eqn:E; [|vm_compute in E; discriminate E].
  exact (proj2 (post_counts_every_collected_permission Prisma.noFaults
                  driveFolder dbABC r d E)).
Defined.

Lemma post_counts_every_listed_file_witness :
  match SyncResult.POST Prisma.noFaults driveFolder dbABC with
  | (Some r, _) =>
      SyncResult.files_folders r + SyncResult.files_regularFiles r
      = SyncResult.files_total r
  | (None, _) => False
  end.
Proof.
  destruct (SyncResult.POST Prisma.noFaults driveFolder dbABC) as [[r|] d]
    eqn:E; [|vm_compute in E; discriminate E].
  exact (proj2 (post_counts_every_listed_file Prisma.noFaults driveFolder
                  dbABC r d E)).
Defined.

Lemma post_keeps_the_keys_and_reports_them_witness :
  Prisma.unique (SyncResult.POST Prisma.noFaults driveAB dbABC).2
  ∧ Prisma.referential (SyncResult.POST Prisma.noFaults driveAB dbABC).2.
Proof.
  destruct (post_keeps_the_keys_and_reports_them Prisma.noFaults driveAB
              dbABC) as (H1 & H2).
  split; [apply H1|apply H2].
  - exact dbABC_unique.
  - exact dbABC_referential.
Defined.

Lemma post_leaves_exactly_the_listed_files_witness :
  Prisma.fileIds (SyncResult.POST Prisma.noFaults driveAB dbABC).2
  ≡ₚ ["A"; "B"].
Proof.
  destruct (GoogleDriveService.syncAllData driveAB) as [[files ps]|] eqn:E;
    [|vm_compute in E; discriminate E].
  destruct (SyncResult.POST Prisma.noFaults driveAB dbABC) as [[r|] d] eqn:EP;
    [|vm_compute in EP; discriminate EP].
  destruct (post_leaves_exactly_the_listed_files Prisma.noFaults driveAB dbABC
              files ps r d) as (H & _).
  - done.
  - exact dbABC_unique.
  - exact E.
  - vm_compute in E. injection E as <- <-. decided.
  - exact EP.
  - cbn [snd]. vm_compute in E. injection E as <- <-. exact H.
Defined.

Lemma synchronisers_agree_but_for_empty_files_witness :
  match GoogleDriveService.listAllFiles (Some [empty]) with
  | Some [listed] =>
      changeCheck (Some (DriveFile.object (row empty)))
        (DriveFile.object (SyncServer.driveFileData listed)) = Update
  | _ => False
  end.
Proof.
  destruct (GoogleDriveService.listAllFiles (Some [empty]))
    as [[|listed [|]]|] eqn:E; try (vm_compute in E; discriminate E).
  exact (proj1 (proj2 (proj2 (proj2 (proj2
           synchronisers_agree_but_for_empty_files) empty listed E eq_refl)))).
Defined.

Lemma post_keeps_the_permissions_of_listed_files_witness :
  Prisma.drivePermission_.findUnique
    (SyncResult.POST Prisma.noFaults driveAB dbRevoked).2 "old"
  = Some (drivePermissionData "A" (grant "old")).
Proof.
  destruct (GoogleDriveService.syncAllData driveAB) as [[files ps]|] eqn:E;
    [|vm_compute in E; discriminate E].
  apply (post_keeps_the_permissions_of_listed_files Prisma.noFaults driveAB
           dbRevoked files ps (drivePermissionData "A" (grant "old"))).
  - split; decided.
  - exact E.
  - decided.
  - vm_compute in E. injection E as <- <-. decided.
  - vm_compute in E. injection E as <- <-. decided.
Defined.

End FurtherInstances.

(** * The engine where it runs *)

(** ** Writes inside a transaction *)

Section DeployedUpserts.

Import GoogleDriveSyncService.

Variable env : Deployed.Env.

Lemma deployed_upsertFile_spec d data :
  Deployed.upsertFile env d data
  = match Prisma.driveFile_.findUnique d (DriveFile.id data) with
    | None =>
        if Prisma.refusesFile (Deployed.refused env) data
        then Deployed.Rejected
        else if Prisma.refusesFile (Deployed.failing env) data
        then Deployed.Failed
        else Deployed.Done
               (Prisma.mkDb (Prisma.driveFile d ++ [data])
                            (Prisma.drivePermission d),
                [FileCreated data])
    | Some r =>
        if decide (r = data) then Deployed.Done (d, [])
        else if Prisma.refusesFile (Deployed.refused env) data
        then Deployed.Rejected
        else if Prisma.refusesFile (Deployed.failing env) data
        then Deployed.Failed
        else Deployed.Done
               (Prisma.mkDb
                  (Prisma.replace DriveFile.id (DriveFile.id data) data
                     (Prisma.driveFile d))
                  (Prisma.drivePermission d),
                [FileUpdated data])
    end.
Proof.
  unfold Deployed.upsertFile, Deployed.statement, Prisma.driveFile_.update,
    Prisma.driveFile_.create.
  destruct (Prisma.driveFile_.findUnique d (DriveFile.id data)) as [r|] eqn:E;
    cbn [option_map Prisma.refusesFile Prisma.noFaults].
  - rewrite file_changeCheck. destruct (decide (r = data)); [done|].
    destruct (Prisma.refusesFile (Deployed.refused env) data); [done|].
    by destruct (Prisma.refusesFile (Deployed.failing env) data).
  - cbn [changeCheck].
    destruct (Prisma.refusesFile (Deployed.refused env) data); [done|].
    by destruct (Prisma.refusesFile (Deployed.failing env) data).
Qed.

Lemma deployed_upsertPermission_spec d data :
  Deployed.upsertPermission env d data
  = match Prisma.drivePermission_.findUnique d (DrivePermission.id data) with
    | None =>
        if Prisma.refusesPermission (Deployed.refused env) data
        then Deployed.Rejected
        else if Prisma.refusesPermission (Deployed.failing env) data
        then Deployed.Failed
        else if negb (Prisma.drivePermission_.references d data)
        then Deployed.Failed
        else Deployed.Done
               (Prisma.mkDb (Prisma.driveFile d)
                            (Prisma.drivePermission d ++ [data]),
                [PermissionCreated data])
    | Some r =>
        if decide (r = data) then Deployed.Done (d, [])
        else if Prisma.refusesPermission (Deployed.refused env) data
        then Deployed.Rejected
        else if Prisma.refusesPermission (Deployed.failing env) data
        then Deployed.Failed
        else if negb (Prisma.drivePermission_.references d data)
        then Deployed.Failed
        else Deployed.Done
               (Prisma.mkDb (Prisma.driveFile d)
                  (Prisma.replace DrivePermission.id
                     (DrivePermission.id data) data
                     (Prisma.drivePermission d)),
                [PermissionUpdated data])
    end.
Proof.
  unfold Deployed.upsertPermission, Deployed.statement,
    Prisma.drivePermission_.update, Prisma.drivePermission_.create.
  destruct (Prisma.drivePermission_.findUnique d (DrivePermission.id data))
    as [r|] eqn:E; cbn [option_map Prisma.refusesPermission Prisma.noFaults].
  - rewrite permission_changeCheck. destruct (decide (r = data)); [done|].
    destruct (Prisma.refusesPermission (Deployed.refused env) data); [done|].
    destruct (Prisma.refusesPermission (Deployed.failing env) data); [done|].
    by destruct (Prisma.drivePermission_.references d data).
  - cbn [changeCheck].
    destruct (Prisma.refusesPermission (Deployed.refused env) data); [done|].
    destruct (Prisma.refusesPermission (Deployed.failing env) data); [done|].
    by destruct (Prisma.drivePermission_.references d data).
Qed.

(** A write that is done is the write of the engine's text when nothing is
    refused. *)
Lemma deployed_upsertFile_Done d data d' o :
  Deployed.upsertFile env d data = Deployed.Done (d', o) ->
  upsertFile Prisma.noFaults d data = Some (d', o).
Proof.
  rewrite deployed_upsertFile_spec, upsertFile_spec.
  cbn [Prisma.refusesFile Prisma.noFaults].
  destruct (Prisma.driveFile_.findUnique d (DriveFile.id data)) as [r|].
  - destruct (decide (r = data)); [by intros [= <- <-]|].
    destruct (Prisma.refusesFile (Deployed.refused env) data); [done|].
    destruct (Prisma.refusesFile (Deployed.failing env) data); [done|].
    by intros [= <- <-].
  - destruct (Prisma.refusesFile (Deployed.refused env) data); [done|].
    destruct (Prisma.refusesFile (Deployed.failing env) data); [done|].
    by intros [= <- <-].
Qed.

Lemma deployed_upsertPermission_Done d data d' o :
  Deployed.upsertPermission env d data = Deployed.Done (d', o) ->
  upsertPermission Prisma.noFaults d data = Some (d', o).
Proof.
  rewrite deployed_upsertPermission_spec, upsertPermission_spec.
  cbn [Prisma.refusesPermission Prisma.noFaults].
  destruct (Prisma.drivePermission_.findUnique d (DrivePermission.id data))
    as [r|].
  - destruct (decide (r = data)); [by intros [= <- <-]|].
    destruct (Prisma.refusesPermission (Deployed.refused env) data); [done|].
    destruct (Prisma.refusesPermission (Deployed.failing env) data); [done|].
    destruct (Prisma.drivePermission_.references d data); [|done].
    by intros [= <- <-].
  - destruct (Prisma.refusesPermission (Deployed.refused env) data); [done|].
    destruct (Prisma.refusesPermission (Deployed.failing env) data); [done|].
    destruct (Prisma.drivePermission_.references d data); [|done].
    by intros [= <- <-].
Qed.

(** A row that is already there is left alone, whatever the environment. *)
Lemma deployed_upsertFile_present d data :
  Prisma.driveFile_.findUnique d (DriveFile.id data) = Some data ->
  Deployed.upsertFile env d data = Deployed.Done (d, []).
Proof.
  intros H. rewrite deployed_upsertFile_spec, H. by rewrite decide_True.
Qed.

Lemma deployed_upsertPermission_present d data :
  Prisma.drivePermission_.findUnique d (DrivePermission.id data) = Some data ->
  Deployed.upsertPermission env d data = Deployed.Done (d, []).
Proof.
  intros H. rewrite deployed_upsertPermission_spec, H. by rewrite decide_True.
Qed.

(** Where no file row is refused or fails, every file write is done. *)
Lemma deployed_upsertFile_accepted d data :
  Prisma.refusesFile (Deployed.refused env) data = false ->
  Prisma.refusesFile (Deployed.failing env) data = false ->
  ∃ d' o, Deployed.upsertFile env d data = Deployed.Done (d', o).
Proof.
  intros Hr Hf. rewrite deployed_upsertFile_spec, Hr, Hf.
  destruct (Prisma.driveFile_.findUnique d (DriveFile.id data)) as [r|];
    [destruct (decide (r = data))|]; by eexists _, _.
Qed.

(** Where no permission row is refused or fails, every write of a
    permission of a persisted file is done. *)
Lemma deployed_upsertPermission_accepted d data :
  Prisma.refusesPermission (Deployed.refused env) data = false ->
  Prisma.refusesPermission (Deployed.failing env) data = false ->
  DrivePermission.fileId data ∈ Prisma.fileIds d ->
  ∃ d' o, Deployed.upsertPermission env d data = Deployed.Done (d', o).
Proof.
  intros Hr Hf Hin. rewrite deployed_upsertPermission_spec, Hr, Hf.
  unfold Prisma.drivePermission_.references. rewrite bool_decide_eq_true_2 by done.
  cbn [negb].
  destruct (Prisma.drivePermission_.findUnique d (DrivePermission.id data))
    as [r|]; [destruct (decide (r = data))|]; by eexists _, _.
Qed.

(** What a file write comes to depends on the table only through the row
    of its id. *)
Lemma deployed_fails_row d d' f :
  Prisma.driveFile_.findUnique d' (DriveFileData.id f)
  = Prisma.driveFile_.findUnique d (DriveFileData.id f) ->
  Deployed.fails env d' f = Deployed.fails env d f
  ∧ Deployed.rejects env d' f = Deployed.rejects env d f.
Proof.
  unfold Deployed.fails, Deployed.rejects.
  rewrite !deployed_upsertFile_spec. cbn [driveFileData DriveFile.id].
  intros ->.
  destruct (Prisma.driveFile_.findUnique d (DriveFileData.id f)) as [r|].
  - destruct (decide (r = driveFileData f)); [done|].
    destruct (Prisma.refusesFile (Deployed.refused env) (driveFileData f));
      [done|].
    by destruct (Prisma.refusesFile (Deployed.failing env) (driveFileData f)).
  - destruct (Prisma.refusesFile (Deployed.refused env) (driveFileData f));
      [done|].
    by destruct (Prisma.refusesFile (Deployed.failing env) (driveFileData f)).
Qed.

End DeployedUpserts.

(** ** The transaction of a batch *)

Section DeployedBatch.

Import GoogleDriveSyncService.

Variable env : Deployed.Env.

Implicit Types (s : t) (batch : list DriveFileData.t).

Lemma existsb_agree {A} (f g : A -> bool) (l : list A) :
  (∀ x, x ∈ l -> f x = g x) -> existsb f l = existsb g l.
Proof.
  induction l as [|x l IH]; intros H; cbn [existsb]; [done|].
  rewrite (H x) by left. f_equal. apply IH. intros y Hy. apply H. by right.
Qed.

Lemma set_errors_same s : set_errors (errors s) s = s.
Proof. by destruct s. Qed.

Lemma set_errors_twice n m s : set_errors n (set_errors m s) = set_errors n s.
Proof. done. Qed.

(** In an aborted transaction every record costs one error and nothing
    else. *)
Lemma deployed_aborted_records batch s :
  fold_left (Deployed.processFile env) batch (true, s)
  = (true, set_errors (errors s + length batch) s).
Proof.
  revert s. induction batch as [|f batch IH]; intros s; cbn [fold_left].
  - cbn [length]. by rewrite Nat.add_0_r, set_errors_same.
  - cbn [Deployed.processFile]. rewrite IH. cbn [errors set_errors length].
    rewrite set_errors_twice. do 2 f_equal. lia.
Qed.

(** The errors counted so far do not bear on what follows. *)
Lemma deployed_processFile_bump a s f :
  Deployed.processFile env (a, set_errors (S (errors s)) s) f
  = ((Deployed.processFile env (a, s) f).1,
     set_errors (S (errors (Deployed.processFile env (a, s) f).2))
       (Deployed.processFile env (a, s) f).2).
Proof.
  unfold Deployed.processFile. destruct a; [done|].
  cbn [db set_errors].
  destruct (Deployed.upsertFile env (db s) (driveFileData f))
    as [[d o]| |]; [|done..].
  unfold Deployed.broadcastProgress, Deployed.emit. cbn.
  by destruct (Deployed.listenerThrows env (length (emitted s))).
Qed.

Lemma deployed_records_bump batch a s :
  fold_left (Deployed.processFile env) batch (a, set_errors (S (errors s)) s)
  = ((fold_left (Deployed.processFile env) batch (a, s)).1,
     set_errors
       (S (errors (fold_left (Deployed.processFile env) batch (a, s)).2))
       (fold_left (Deployed.processFile env) batch (a, s)).2).
Proof.
  revert a s. induction batch as [|f batch IH]; intros a s; cbn [fold_left].
  - done.
  - rewrite deployed_processFile_bump.
    destruct (Deployed.processFile env (a, s) f) as [a1 s1]. cbn [fst snd].
    apply IH.
Qed.

(** One record in a transaction that is not aborted. *)
Lemma deployed_processFile_step s f :
  match Deployed.upsertFile env (db s) (driveFileData f) with
  | Deployed.Done (d, o) =>
      ∃ s',
        Deployed.processFile env (false, s) f = (false, s')
        ∧ db s' = d ∧ ops s' = ops s ++ o
        ∧ processedFiles s' = S (processedFiles s)
        ∧ errors s'
          = (if Deployed.listenerThrows env (length (emitted s))
             then S (errors s) else errors s)
        ∧ length (emitted s') = S (length (emitted s))
  | Deployed.Rejected =>
      Deployed.processFile env (false, s) f
      = (false, set_errors (S (errors s)) s)
  | Deployed.Failed =>
      Deployed.processFile env (false, s) f
      = (true, set_errors (S (errors s)) s)
  end.
Proof.
  unfold Deployed.processFile.
  destruct (Deployed.upsertFile env (db s) (driveFileData f))
    as [[d o]| |]; [|done..].
  unfold Deployed.broadcastProgress, Deployed.emit. cbn.
  eexists. split; [done|].
  destruct (Deployed.listenerThrows env (length (emitted s))); cbn;
    rewrite length_app; cbn; split_and!; try done; lia.
Qed.

(** What the counters other than [processedFiles] and [errors] do. *)
Lemma deployed_records_frame batch a s :
  let r := fold_left (Deployed.processFile env) batch (a, s) in
  totalFiles r.2 = totalFiles s
  ∧ totalPermissions r.2 = totalPermissions s
  ∧ processedPermissions r.2 = processedPermissions s
  ∧ Prisma.drivePermission (db r.2) = Prisma.drivePermission (db s).
Proof.
  revert a s. induction batch as [|f batch IH]; intros a s; cbn [fold_left].
  - done.
  - cbv zeta in *.
    assert (totalFiles (Deployed.processFile env (a, s) f).2 = totalFiles s
            ∧ totalPermissions (Deployed.processFile env (a, s) f).2
              = totalPermissions s
            ∧ processedPermissions (Deployed.processFile env (a, s) f).2
              = processedPermissions s
            ∧ Prisma.drivePermission
                (db (Deployed.processFile env (a, s) f).2)
              = Prisma.drivePermission (db s)) as (H1 & H2 & H3 & H4).
    { unfold Deployed.processFile. destruct a; [done|].
      destruct (Deployed.upsertFile env (db s) (driveFileData f))
        as [[d o]| |] eqn:E; [|done..].
      apply deployed_upsertFile_Done in E.
      apply upsertFile_permissions in E.
      unfold Deployed.broadcastProgress, Deployed.emit. cbn.
      by destruct (Deployed.listenerThrows env (length (emitted s))). }
    destruct (Deployed.processFile env (a, s) f) as [a1 s1].
    cbn [snd] in *. destruct (IH a1 s1) as (I1 & I2 & I3 & I4).
    split_and!; congruence.
Qed.

(** The records of a batch add writes only, at most one each. *)
Lemma deployed_records_ops batch a s :
  ∃ inner,
    ops (fold_left (Deployed.processFile env) batch (a, s)).2
    = ops s ++ inner
    ∧ Forall (fun o => isWrite o = true) inner
    ∧ length inner <= length batch.
Proof.
  revert a s. induction batch as [|f batch IH]; intros a s; cbn [fold_left].
  - exists []. rewrite app_nil_r. split_and!; [done|constructor|done].
  - destruct a.
    + destruct (IH true (set_errors (S (errors s)) s))
        as (inner & Hops & Hw & Hl).
      exists inner. cbn [Deployed.processFile]. rewrite Hops.
      split_and!; [done|done|cbn; lia].
    + pose proof (deployed_processFile_step s f) as Hstep.
      destruct (Deployed.upsertFile env (db s) (driveFileData f))
        as [[d o]| |] eqn:E.
      * destruct Hstep as (s' & -> & _ & Ho & _).
        destruct (IH false s') as (inner & Hops & Hw & Hl).
        exists (o ++ inner). rewrite Hops, Ho, app_assoc.
        apply deployed_upsertFile_Done in E.
        pose proof (upsertFile_isWrite _ _ _ _ _ E) as Hwo.
        split_and!; [done|by apply Forall_app|].
        rewrite length_app. cbn [length].
        destruct (upsertFile_writes _ _ _ _ _ E)
          as [[-> _]|[_ [-> | ->]]]; cbn; lia.
      * rewrite Hstep.
        destruct (IH false (set_errors (S (errors s)) s))
          as (inner & Hops & Hw & Hl).
        exists inner. rewrite Hops. split_and!; [done|done|cbn; lia].
      * rewrite Hstep.
        destruct (IH true (set_errors (S (errors s)) s))
          as (inner & Hops & Hw & Hl).
        exists inner. rewrite Hops. split_and!; [done|done|cbn; lia].
Qed.

(** Every record is processed or counted as an error, and both when a
    listener throws on its broadcast. *)
Lemma deployed_records_accounts batch a s :
  let r := fold_left (Deployed.processFile env) batch (a, s) in
  processedFiles s <= processedFiles r.2 <= processedFiles s + length batch
  ∧ processedFiles s + errors s + length batch
    <= processedFiles r.2 + errors r.2
  ∧ (Deployed.quiet env ->
     processedFiles r.2 + errors r.2
     = processedFiles s + errors s + length batch).
Proof.
  revert a s. induction batch as [|f batch IH]; intros a s; cbn [fold_left].
  - cbn. split_and!; [lia..|]. intros _. lia.
  - cbv zeta in *. destruct a.
    + cbn [Deployed.processFile].
      destruct (IH true (set_errors (S (errors s)) s)) as (I1 & I2 & I3).
      cbn [processedFiles errors set_errors length] in *.
      split_and!; [lia..|]. intros Hq. specialize (I3 Hq). lia.
    + pose proof (deployed_processFile_step s f) as Hstep.
      destruct (Deployed.upsertFile env (db s) (driveFileData f))
        as [[d o]| |] eqn:E.
      * destruct Hstep as (s' & -> & _ & _ & Hp & He & _).
        destruct (IH false s') as (I1 & I2 & I3).
        rewrite Hp in *. cbn [length].
        assert (errors s <= errors s') as Hle
          by (rewrite He; case_match; lia).
        split_and!; [lia..|]. intros Hq. specialize (I3 Hq).
        rewrite He, Hq in *. lia.
      * rewrite Hstep.
        destruct (IH false (set_errors (S (errors s)) s)) as (I1 & I2 & I3).
        cbn [processedFiles errors set_errors length] in *.
        split_and!; [lia..|]. intros Hq. specialize (I3 Hq). lia.
      * rewrite Hstep.
        destruct (IH true (set_errors (S (errors s)) s)) as (I1 & I2 & I3).
        cbn [processedFiles errors set_errors length] in *.
        split_and!; [lia..|]. intros Hq. specialize (I3 Hq). lia.
Qed.

(** The tables after the records of a transaction that started on [db s]:
    the transaction is aborted exactly when the write of one of its records
    fails in the database; otherwise every record has its row as fetched,
    but for the rows that the client refuses, and no other row has
    changed. *)
Lemma deployed_records_tables batch s :
  NoDup (map DriveFileData.id batch) ->
  let r := fold_left (Deployed.processFile env) batch (false, s) in
  r.1 = existsb (Deployed.fails env (db s)) batch
  ∧ (r.1 = false ->
     (∀ f, f ∈ batch ->
        Prisma.driveFile_.findUnique (db r.2) (DriveFileData.id f)
        = if Deployed.rejects env (db s) f
          then Prisma.driveFile_.findUnique (db s) (DriveFileData.id f)
          else Some (driveFileData f))
     ∧ (∀ id, id ∉ map DriveFileData.id batch ->
          Prisma.driveFile_.findUnique (db r.2) id
          = Prisma.driveFile_.findUnique (db s) id)).
Proof.
  revert s. induction batch as [|f batch IH]; intros s Hnd; cbn [fold_left].
  - cbn. split; [done|]. intros _. split; [|done].
    by intros f ?%elem_of_nil.
  - apply NoDup_cons in Hnd as [Hf Hnd]. cbv zeta in *.
    pose proof (deployed_processFile_step s f) as Hstep.
    cbn [existsb]. unfold Deployed.fails at 1.
    assert (Hrej : Deployed.rejects env (db s) f
                   = match Deployed.upsertFile env (db s) (driveFileData f)
                     with Deployed.Rejected => true | _ => false end)
      by done.
    destruct (Deployed.upsertFile env (db s) (driveFileData f))
      as [[d o]| |] eqn:E.
    + destruct Hstep as (s' & -> & Hd & _).
      apply deployed_upsertFile_Done in E.
      assert (Hother : ∀ id, id ≠ DriveFileData.id f ->
                Prisma.driveFile_.findUnique (db s') id
                = Prisma.driveFile_.findUnique (db s) id).
      { intros id Hid. rewrite Hd.
        by apply (upsertFile_other _ _ _ _ _ _ E). }
      assert (Hsame : ∀ g, g ∈ batch ->
                Deployed.fails env (db s') g = Deployed.fails env (db s) g
                ∧ Deployed.rejects env (db s') g
                  = Deployed.rejects env (db s) g).
      { intros g Hg. apply deployed_fails_row, Hother.
        intros Heq. apply Hf. rewrite <- Heq. by apply list_elem_of_fmap_2. }
      destruct (IH s' Hnd) as (Ha & Hrows). cbn [orb]. split.
      * rewrite Ha. apply existsb_agree.
        intros g Hg. by apply Hsame.
      * intros Hno. destruct (Hrows Hno) as (Hin & Hout). split.
        -- intros g [->|Hg]%elem_of_cons.
           ++ rewrite Hrej, Hout by done. rewrite Hd.
              exact (upsertFile_found _ _ _ _ _ E).
           ++ rewrite (Hin g Hg), (proj2 (Hsame g Hg)).
              destruct (Deployed.rejects env (db s) g); [|done].
              apply Hother. intros Heq. apply Hf. rewrite <- Heq.
              by apply list_elem_of_fmap_2.
        -- intros id Hid. apply not_elem_of_cons in Hid as [Hne Hid].
           rewrite (Hout id Hid). by apply Hother.
    + rewrite Hstep. cbn [orb].
      destruct (IH (set_errors (S (errors s)) s) Hnd) as (Ha & Hrows).
      cbn [db set_errors] in *. split; [done|].
      intros Hno. destruct (Hrows Hno) as (Hin & Hout). split.
      * intros g [->|Hg]%elem_of_cons; [|by apply Hin].
        rewrite Hrej. by apply Hout.
      * intros id Hid. apply not_elem_of_cons in Hid as [Hne Hid].
        by apply Hout.
    + rewrite Hstep, deployed_aborted_records. cbn [fst orb]. split; [done|].
      done.
Qed.

(** *** [processBatch] *)

(** The transaction of a batch: one bracket, the writes of its records in
    between. *)
Lemma deployed_processBatch_ops s batch :
  ∃ inner,
    ops (Deployed.processBatch env s batch)
    = ops s ++ Deployed.bracket inner
    ∧ Forall (fun o => isWrite o = true) inner
    ∧ length inner <= length batch.
Proof.
  unfold Deployed.processBatch.
  destruct (deployed_records_ops batch false (record TxBegin s))
    as (inner & Hops & Hw & Hl).
  destruct (fold_left _ batch _) as [a s']. cbn [snd] in Hops.
  exists inner. split; [|done].
  unfold Deployed.bracket.
  destruct a; cbn [ops record set_db] in *; rewrite Hops;
    by rewrite <- !app_assoc.
Qed.

Lemma deployed_processBatch_accounts s batch :
  let s' := Deployed.processBatch env s batch in
  processedFiles s <= processedFiles s' <= processedFiles s + length batch
  ∧ processedFiles s + errors s + length batch
    <= processedFiles s' + errors s'
  ∧ (Deployed.quiet env ->
     processedFiles s' + errors s'
     = processedFiles s + errors s + length batch).
Proof.
  unfold Deployed.processBatch.
  pose proof (deployed_records_accounts batch false (record TxBegin s)) as H.
  destruct (fold_left _ batch _) as [a s']. cbn [snd] in H.
  by destruct a.
Qed.

Lemma deployed_processBatch_frame s batch :
  let s' := Deployed.processBatch env s batch in
  totalFiles s' = totalFiles s
  ∧ totalPermissions s' = totalPermissions s
  ∧ processedPermissions s' = processedPermissions s
  ∧ Prisma.drivePermission (db s') = Prisma.drivePermission (db s).
Proof.
  unfold Deployed.processBatch.
  pose proof (deployed_records_frame batch false (record TxBegin s)) as H.
  destruct (fold_left _ batch _) as [a s']. cbn [snd] in H.
  destruct H as (H1 & H2 & H3 & H4). by destruct a.
Qed.

(** All or nothing: a batch one of whose writes fails in the database
    leaves the tables as they were; a batch without such a write leaves
    every record with its row as fetched, but for the rows that the client
    refuses. *)
Lemma deployed_processBatch_tables s batch :
  NoDup (map DriveFileData.id batch) ->
  let s' := Deployed.processBatch env s batch in
  if existsb (Deployed.fails env (db s)) batch
  then db s' = db s
  else (∀ f, f ∈ batch ->
          Prisma.driveFile_.findUnique (db s') (DriveFileData.id f)
          = if Deployed.rejects env (db s) f
            then Prisma.driveFile_.findUnique (db s) (DriveFileData.id f)
            else Some (driveFileData f))
       ∧ (∀ id, id ∉ map DriveFileData.id batch ->
            Prisma.driveFile_.findUnique (db s') id
            = Prisma.driveFile_.findUnique (db s) id).
Proof.
  intros Hnd. unfold Deployed.processBatch.
  destruct (deployed_records_tables batch (record TxBegin s) Hnd)
    as (Ha & Hrows).
  destruct (fold_left _ batch _) as [a s']. cbn [fst snd db record] in *.
  rewrite <- Ha. destruct a; [done|]. by apply Hrows.
Qed.

End DeployedBatch.

(** ** The file phase *)

Section DeployedFilePhase.

Import GoogleDriveSyncService.

Variable env : Deployed.Env.

Implicit Types (s : t) (batch : list DriveFileData.t)
  (batches : list (list DriveFileData.t)).

(** A record that the client refuses is passed over: the batch ends as the
    batch without the record, with one error more. *)
Lemma deployed_processBatch_rejected s before f after :
  let s1 := fold_left (Deployed.processFile env) before
              (false, record TxBegin s) in
  s1.1 = false ->
  Deployed.upsertFile env (db s1.2) (driveFileData f) = Deployed.Rejected ->
  Deployed.processBatch env s (before ++ f :: after)
  = set_errors
      (S (errors (Deployed.processBatch env s (before ++ after))))
      (Deployed.processBatch env s (before ++ after)).
Proof.
  cbv zeta. intros Ha Hr. unfold Deployed.processBatch.
  rewrite !fold_left_app. cbn [fold_left].
  destruct (fold_left _ before _) as [a1 s1]. cbn [fst snd] in *. subst a1.
  pose proof (deployed_processFile_step env s1 f) as Hstep.
  rewrite Hr in Hstep. rewrite Hstep, deployed_records_bump.
  destruct (fold_left _ after (false, s1)) as [a2 s2]. cbn [fst snd].
  by destruct a2.
Qed.

(** A record whose write fails in the database takes the batch with it:
    the records after it are counted as errors and write nothing, and the
    commit leaves the tables as they were before the batch. *)
Lemma deployed_processBatch_failed s before f after :
  let s1 := fold_left (Deployed.processFile env) before
              (false, record TxBegin s) in
  s1.1 = false ->
  Deployed.upsertFile env (db s1.2) (driveFileData f) = Deployed.Failed ->
  let s' := Deployed.processBatch env s (before ++ f :: after) in
  db s' = db s
  ∧ processedFiles s' = processedFiles s1.2
  ∧ errors s' = errors s1.2 + 1 + length after
  ∧ ops s' = ops s1.2 ++ [TxCommit]
  ∧ emitted s' = emitted s1.2.
Proof.
  cbv zeta. intros Ha Hr. unfold Deployed.processBatch.
  rewrite !fold_left_app. cbn [fold_left].
  destruct (fold_left _ before _) as [a1 s1]. cbn [fst snd] in *. subst a1.
  pose proof (deployed_processFile_step env s1 f) as Hstep.
  rewrite Hr in Hstep. rewrite Hstep, deployed_aborted_records.
  cbn. split_and!; try done. lia.
Qed.

(** *** The batches in order *)

Lemma deployed_batches_ops batches s :
  ∃ inners,
    Forall2 (fun batch inner =>
               Forall (fun o => isWrite o = true) inner
               ∧ length inner <= length batch) batches inners
    ∧ ops (fold_left (Deployed.processBatch env) batches s)
      = ops s ++ concat (map Deployed.bracket inners).
Proof.
  revert s. induction batches as [|batch batches IH]; intros s;
    cbn [fold_left].
  - exists []. split; [constructor|]. cbn. by rewrite app_nil_r.
  - destruct (deployed_processBatch_ops env s batch)
      as (inner & Hops & Hw & Hl).
    destruct (IH (Deployed.processBatch env s batch)) as (inners & H2 & Hall).
    exists (inner :: inners). split; [by constructor|].
    rewrite Hall, Hops. cbn [map concat]. by rewrite <- app_assoc.
Qed.

Lemma deployed_batches_accounts batches s :
  let s' := fold_left (Deployed.processBatch env) batches s in
  processedFiles s <= processedFiles s'
                   <= processedFiles s + length (concat batches)
  ∧ processedFiles s + errors s + length (concat batches)
    <= processedFiles s' + errors s'
  ∧ (Deployed.quiet env ->
     processedFiles s' + errors s'
     = processedFiles s + errors s + length (concat batches)).
Proof.
  revert s. induction batches as [|batch batches IH]; intros s;
    cbn [fold_left concat].
  - cbn. split_and!; [lia..|]. intros _. lia.
  - cbv zeta in *. rewrite length_app.
    destruct (deployed_processBatch_accounts env s batch) as (B1 & B2 & B3).
    destruct (IH (Deployed.processBatch env s batch)) as (I1 & I2 & I3).
    split_and!; [lia..|]. intros Hq. specialize (B3 Hq). specialize (I3 Hq).
    lia.
Qed.

Lemma deployed_batches_frame batches s :
  let s' := fold_left (Deployed.processBatch env) batches s in
  totalFiles s' = totalFiles s
  ∧ totalPermissions s' = totalPermissions s
  ∧ processedPermissions s' = processedPermissions s
  ∧ Prisma.drivePermission (db s') = Prisma.drivePermission (db s).
Proof.
  revert s. induction batches as [|batch batches IH]; intros s;
    cbn [fold_left]; [done|].
  cbv zeta in *.
  destruct (deployed_processBatch_frame env s batch) as (B1 & B2 & B3 & B4).
  destruct (IH (Deployed.processBatch env s batch)) as (I1 & I2 & I3 & I4).
  split_and!; congruence.
Qed.

(** What every write of a file keeps, the file phase keeps: a batch ends
    with its writes, or with the tables it started from. *)
Lemma deployed_batches_db_ind (Q : Prisma.Db -> Prop) batches s :
  (∀ d data d' o, upsertFile Prisma.noFaults d data = Some (d', o) ->
                  Q d -> Q d') ->
  Q (db s) -> Q (db (fold_left (Deployed.processBatch env) batches s)).
Proof.
  intros Hstep. revert s.
  induction batches as [|batch batches IH]; intros s H0; cbn [fold_left];
    [done|].
  apply IH. unfold Deployed.processBatch.
  assert (Q (db (fold_left (Deployed.processFile env) batch
                   (false, record TxBegin s)).2)) as H.
  { apply (fold_left_ind (Deployed.processFile env)
             (fun _ (acc : bool * t) => Q (db acc.2))); [done|].
    intros _ f _ [a s'] _ HQ. cbn [snd] in *.
    destruct a; [done|].
    pose proof (deployed_processFile_step env s' f) as Hs.
    destruct (Deployed.upsertFile env (db s') (driveFileData f))
      as [[d o]| |] eqn:E.
    - destruct Hs as (s2 & -> & Hd & _). cbn [snd]. rewrite Hd.
      apply deployed_upsertFile_Done in E. by eapply Hstep.
    - by rewrite Hs.
    - by rewrite Hs. }
  destruct (fold_left _ batch _) as [a s']. by destruct a.
Qed.

Lemma deployed_batches_unique batches s :
  Prisma.unique (db s) ->
  Prisma.unique (db (fold_left (Deployed.processBatch env) batches s)).
Proof.
  apply deployed_batches_db_ind. intros d data d' o H [Hf Hp]. split.
  - by eapply upsertFile_ids.
  - unfold Prisma.permissionIds.
    by rewrite (upsertFile_permissions _ _ _ _ _ H).
Qed.

(** The tables after the batches of a catalogue with distinct ids, batch
    by batch. *)
Lemma deployed_batches_tables batches s :
  NoDup (map DriveFileData.id (concat batches)) ->
  let s' := fold_left (Deployed.processBatch env) batches s in
  (∀ batch, batch ∈ batches ->
     ∀ f, f ∈ batch ->
       Prisma.driveFile_.findUnique (db s') (DriveFileData.id f)
       = if existsb (Deployed.fails env (db s)) batch
         then Prisma.driveFile_.findUnique (db s) (DriveFileData.id f)
         else if Deployed.rejects env (db s) f
         then Prisma.driveFile_.findUnique (db s) (DriveFileData.id f)
         else Some (driveFileData f))
  ∧ (∀ id, id ∉ map DriveFileData.id (concat batches) ->
       Prisma.driveFile_.findUnique (db s') id
       = Prisma.driveFile_.findUnique (db s) id).
Proof.
  revert s. induction batches as [|batch batches IH]; intros s Hnd;
    cbn [fold_left].
  - split; [|done]. by intros batch ?%elem_of_nil.
  - cbv zeta in *. cbn [concat] in Hnd. rewrite map_app in Hnd.
    apply NoDup_app in Hnd as (Hb & Hdisj & Hrest).
    set (s1 := Deployed.processBatch env s batch).
    assert (Hother : ∀ id, id ∉ map DriveFileData.id batch ->
              Prisma.driveFile_.findUnique (db s1) id
              = Prisma.driveFile_.findUnique (db s) id).
    { intros id Hid.
      pose proof (deployed_processBatch_tables env s batch Hb) as H.
      fold s1 in H. cbv zeta in H.
      destruct (existsb _ batch); [by rewrite H|]. by apply H. }
    assert (Hlater : ∀ g, DriveFileData.id g ∈ map DriveFileData.id
                                                 (concat batches) ->
              DriveFileData.id g ∉ map DriveFileData.id batch).
    { intros g Hg Hin. by apply (Hdisj _ Hin). }
    assert (Hsame : ∀ g, g ∈ concat batches ->
              Deployed.fails env (db s1) g = Deployed.fails env (db s) g
              ∧ Deployed.rejects env (db s1) g
                = Deployed.rejects env (db s) g).
    { intros g Hg. apply deployed_fails_row, Hother, Hlater.
      by apply list_elem_of_fmap_2. }
    destruct (IH s1 Hrest) as (Hin & Hout). split.
    + intros b [->|Hb']%elem_of_cons f Hf.
      * rewrite Hout by (apply Hdisj; by apply list_elem_of_fmap_2).
        pose proof (deployed_processBatch_tables env s batch Hb) as H.
        fold s1 in H. cbv zeta in H.
        destruct (existsb _ batch); [by rewrite H|]. by apply H.
      * assert (f ∈ concat batches) as Hfc.
        { apply list_elem_of_In, in_concat. exists b.
          split; by apply list_elem_of_In. }
        rewrite (Hin b Hb' f Hf).
        rewrite (existsb_agree (Deployed.fails env (db s1))
                   (Deployed.fails env (db s)) b).
        2:{ intros g Hg. apply Hsame.
            apply list_elem_of_In, in_concat. exists b.
            split; by apply list_elem_of_In. }
        rewrite (proj2 (Hsame f Hfc)).
        assert (Prisma.driveFile_.findUnique (db s1) (DriveFileData.id f)
                = Prisma.driveFile_.findUnique (db s) (DriveFileData.id f))
          as -> by (apply Hother, Hlater; by apply list_elem_of_fmap_2).
        done.
    + intros id Hid. cbn [concat] in Hid. rewrite map_app in Hid.
      apply not_elem_of_app in Hid as [Hid1 Hid2].
      rewrite (Hout id Hid2). by apply Hother.
Qed.

(** *** [processFilesBatch] *)

Lemma deployed_processFilesBatch_frame files s :
  let s' := Deployed.processFilesBatch env files s in
  totalFiles s' = totalFiles s
  ∧ totalPermissions s' = totalPermissions s
  ∧ processedPermissions s' = processedPermissions s
  ∧ Prisma.drivePermission (db s') = Prisma.drivePermission (db s).
Proof. apply deployed_batches_frame. Qed.

Lemma deployed_processFilesBatch_accounts files s :
  let s' := Deployed.processFilesBatch env files s in
  processedFiles s <= processedFiles s' <= processedFiles s + length files
  ∧ processedFiles s + errors s + length files
    <= processedFiles s' + errors s'
  ∧ (Deployed.quiet env ->
     processedFiles s' + errors s'
     = processedFiles s + errors s + length files).
Proof.
  pose proof (deployed_batches_accounts (batchesOf files) s) as H.
  by rewrite batchesOf_concat in H.
Qed.

End DeployedFilePhase.

(** ** Counting and fetching under listeners that may throw *)

Section DeployedLoops.

Import GoogleDriveSyncService Further.

Variable env : Deployed.Env.

Implicit Types (s : t).

Lemma quietFor_S k n :
  Deployed.quietFor env k (S n)
  = negb (Deployed.listenerThrows env k) && Deployed.quietFor env (S k) n.
Proof. done. Qed.

Lemma quietFor_quiet k n :
  Deployed.quiet env -> Deployed.quietFor env k n = true.
Proof.
  intros Hq. revert k. induction n as [|n IH]; intros k; [done|].
  by rewrite quietFor_S, Hq, IH.
Qed.

(** The loop of [getTotalFileCount] comes to its count exactly when every
    request is answered and no listener throws on one of its broadcasts. *)
Lemma deployed_countLoop_spec rest : ∀ r k s acc,
  k = length acc ->
  (Deployed.countLoop env r rest k s).1
  = match Drive.drainFrom r rest acc with
    | Some files =>
        if Deployed.quietFor env (length (emitted s)) (S (length rest))
        then Some (length files) else None
    | None => None
    end.
Proof.
  induction rest as [|r' rest IH]; intros [files|] k s acc ->;
    cbn [Deployed.countLoop Drive.drainFrom]; try done.
  - unfold Deployed.broadcastProgress, Deployed.emit.
    rewrite quietFor_S. cbn [Deployed.quietFor seq forallb]. rewrite andb_true_r.
    destruct (Deployed.listenerThrows env (length (emitted s))); cbn;
      [done|]. by rewrite length_app.
  - unfold Deployed.broadcastProgress, Deployed.emit.
    rewrite quietFor_S.
    destruct (Deployed.listenerThrows env (length (emitted s))) eqn:E;
      cbn [negb andb fst snd].
    + by destruct (Drive.drainFrom r' rest (acc ++ files)).
    + rewrite (IH r' _ _ (acc ++ files)) by (by rewrite length_app).
      cbn [emitted GoogleDriveSyncService.emit]. rewrite length_app.
      cbn [length]. by rewrite Nat.add_1_r.
Qed.

Lemma deployed_countLoop_frame rest : ∀ r k s,
  let c := Deployed.countLoop env r rest k s in
  db c.2 = db s ∧ ops c.2 = ops s ∧ errors c.2 = errors s
  ∧ processedFiles c.2 = processedFiles s
  ∧ totalFiles c.2 = totalFiles s
  ∧ totalPermissions c.2 = totalPermissions s
  ∧ processedPermissions c.2 = processedPermissions s
  ∧ ∃ events, emits s c.2 events.
Proof.
  induction rest as [|r' rest IH]; intros [files|] k s;
    cbn [Deployed.countLoop].
  - unfold Deployed.broadcastProgress, Deployed.emit.
    destruct (Deployed.listenerThrows env (length (emitted s)));
      cbn; split_and!; try done; by eexists [_].
  - cbn. split_and!; try done. exists []. apply emits_refl.
  - unfold Deployed.broadcastProgress, Deployed.emit.
    destruct (Deployed.listenerThrows env (length (emitted s))).
    + cbn. split_and!; try done. by eexists [_].
    + cbv zeta in IH.
      edestruct (IH r' (k + length files)) as (-> & -> & -> & -> & -> & -> & ->
                                               & events & He).
      cbn. split_and!; try done. eexists (_ :: events).
      eapply (emits_trans _ _ _ [_]); [|exact He]. done.
  - cbn. split_and!; try done. exists []. apply emits_refl.
Qed.

Lemma deployed_getTotalFileCount_spec drive s :
  (Deployed.getTotalFileCount env drive s).1
  = match Drive.drain (Drive.countListing drive) with
    | Some files =>
        if Deployed.quietFor env (length (emitted s))
             (Deployed.pages (Drive.countListing drive))
        then length files else 0
    | None => 0
    end.
Proof.
  unfold Deployed.getTotalFileCount, Drive.drain, Deployed.pages.
  destruct (Drive.countListing drive) as [r rest]. cbn [fst snd].
  pose proof (deployed_countLoop_spec rest r 0 s [] eq_refl) as H.
  destruct (Deployed.countLoop env r rest 0 s) as [[n|] s']; cbn [fst] in *.
  - destruct (Drive.drainFrom r rest []); [|done].
    destruct (Deployed.quietFor _ _ _); by simplify_eq.
  - destruct (Drive.drainFrom r rest []); [|done].
    by destruct (Deployed.quietFor _ _ _).
Qed.

Lemma deployed_getTotalFileCount_frame drive s :
  let c := Deployed.getTotalFileCount env drive s in
  db c.2 = db s ∧ ops c.2 = ops s ∧ errors c.2 = errors s
  ∧ processedFiles c.2 = processedFiles s
  ∧ totalFiles c.2 = totalFiles s
  ∧ totalPermissions c.2 = totalPermissions s
  ∧ processedPermissions c.2 = processedPermissions s
  ∧ ∃ events, emits s c.2 events.
Proof.
  unfold Deployed.getTotalFileCount.
  destruct (Drive.countListing drive) as [r rest].
  pose proof (deployed_countLoop_frame rest r 0 s) as H.
  by destruct (Deployed.countLoop env r rest 0 s) as [[n|] s'].
Qed.

(** The loop of [syncDriveFilesWithPagination] likewise. *)
Lemma deployed_fetchLoop_spec rest : ∀ r acc s,
  (Deployed.fetchLoop env r rest acc s).1
  = match Drive.drainFrom r rest acc with
    | Some files =>
        if Deployed.quietFor env (length (emitted s)) (S (length rest))
        then Some files else None
    | None => None
    end.
Proof.
  induction rest as [|r' rest IH]; intros [files|] acc s;
    cbn [Deployed.fetchLoop Drive.drainFrom]; try done.
  - unfold Deployed.broadcastProgress, Deployed.emit.
    rewrite quietFor_S. cbn [Deployed.quietFor seq forallb]. rewrite andb_true_r.
    by destruct (Deployed.listenerThrows env (length (emitted s))).
  - unfold Deployed.broadcastProgress, Deployed.emit.
    rewrite quietFor_S.
    destruct (Deployed.listenerThrows env (length (emitted s))) eqn:E;
      cbn [negb andb fst snd].
    + by destruct (Drive.drainFrom r' rest (acc ++ files)).
    + rewrite IH.
      cbn [emitted GoogleDriveSyncService.emit]. rewrite length_app.
      cbn [length]. by rewrite Nat.add_1_r.
Qed.

Lemma deployed_fetchLoop_frame rest : ∀ r acc s,
  let c := Deployed.fetchLoop env r rest acc s in
  db c.2 = db s ∧ ops c.2 = ops s ∧ errors c.2 = errors s
  ∧ processedFiles c.2 = processedFiles s
  ∧ totalFiles c.2 = totalFiles s
  ∧ totalPermissions c.2 = totalPermissions s
  ∧ processedPermissions c.2 = processedPermissions s
  ∧ ∃ events, emits s c.2 events.
Proof.
  induction rest as [|r' rest IH]; intros [files|] acc s;
    cbn [Deployed.fetchLoop].
  - unfold Deployed.broadcastProgress, Deployed.emit.
    destruct (Deployed.listenerThrows env (length (emitted s)));
      cbn; split_and!; try done; by eexists [_].
  - cbn. split_and!; try done. exists []. apply emits_refl.
  - unfold Deployed.broadcastProgress, Deployed.emit.
    destruct (Deployed.listenerThrows env (length (emitted s))).
    + cbn. split_and!; try done. by eexists [_].
    + cbv zeta in IH.
      edestruct (IH r' (acc ++ files)) as (-> & -> & -> & -> & -> & -> & ->
                                           & events & He).
      cbn. split_and!; try done. eexists (_ :: events).
      eapply (emits_trans _ _ _ [_]); [|exact He]. done.
  - cbn. split_and!; try done. exists []. apply emits_refl.
Qed.

(** When the fetch ends without its files, a request has thrown or a
    listener has, on one of the broadcasts of the loop. *)
Lemma deployed_fetchLoop_None rest : ∀ r acc s,
  (Deployed.fetchLoop env r rest acc s).1 = None ->
  Drive.drainFrom r rest acc = None
  ∨ ∃ k, length (emitted s) <= k
         < length (emitted (Deployed.fetchLoop env r rest acc s).2)
         ∧ Deployed.listenerThrows env k = true.
Proof.
  induction rest as [|r' rest IH]; intros [files|] acc s;
    cbn [Deployed.fetchLoop Drive.drainFrom]; try (by left).
  - unfold Deployed.broadcastProgress, Deployed.emit.
    destruct (Deployed.listenerThrows env (length (emitted s))) eqn:E;
      [|done].
    intros _. right. exists (length (emitted s)). cbn.
    rewrite length_app. cbn. split; [lia|done].
  - unfold Deployed.broadcastProgress, Deployed.emit.
    destruct (Deployed.listenerThrows env (length (emitted s))) eqn:E.
    + intros _. right. exists (length (emitted s)). cbn.
      rewrite length_app. cbn. split; [lia|done].
    + intros [H|(k & Hk & Ht)]%IH; [by left|]. right. exists k.
      split; [|done]. revert Hk. cbn [emitted GoogleDriveSyncService.emit].
      rewrite length_app. cbn [length]. lia.
Qed.

End DeployedLoops.

(** ** The permission phase *)

Section DeployedPermissionPhase.

Import GoogleDriveSyncService Spec Further.

Variable env : Deployed.Env.

Implicit Types (s : t) (seen : gset string) (d : Prisma.Db).

(** One grant in a transaction that is not aborted. *)
Lemma deployed_processPermission_step fileId seen s p :
  SchemaPermission.id p ∉ seen ->
  match Deployed.upsertPermission env (db s) (drivePermissionData fileId p)
  with
  | Deployed.Done (d, o) =>
      Deployed.processPermission env fileId (false, (seen, s)) p
      = (false, processPermission Prisma.noFaults fileId (seen, s) p)
      ∧ upsertPermission Prisma.noFaults (db s)
          (drivePermissionData fileId p) = Some (d, o)
  | Deployed.Rejected =>
      Deployed.processPermission env fileId (false, (seen, s)) p
      = (false, (seen, set_errors (S (errors s)) s))
  | Deployed.Failed =>
      Deployed.processPermission env fileId (false, (seen, s)) p
      = (true, (seen, set_errors (S (errors s)) s))
  end.
Proof.
  intros Hp. unfold Deployed.processPermission, processPermission.
  rewrite !decide_False by done.
  destruct (Deployed.upsertPermission env (db s)
              (drivePermissionData fileId p)) as [[d o]| |] eqn:E; [|done..].
  apply deployed_upsertPermission_Done in E. by rewrite E.
Qed.

(** What every write of a permission keeps, a transaction of the phase
    keeps, and so does the phase: a transaction ends with its writes, or
    with the tables it started from. *)
Lemma deployed_permissions_db_ind (Q : Prisma.Db -> Prop) fileId permissions
  a seen s :
  (∀ d data d' o, upsertPermission Prisma.noFaults d data = Some (d', o) ->
                  Q d -> Q d') ->
  Q (db s) ->
  Q (db (fold_left (Deployed.processPermission env fileId) permissions
           (a, (seen, s))).2.2).
Proof.
  intros Hstep H0.
  apply (fold_left_ind (Deployed.processPermission env fileId)
           (fun _ (acc : bool * (gset string * t)) => Q (db acc.2.2)));
    [done|].
  intros _ p _ [a' [seen' s']] _ HQ. cbn [snd] in *.
  unfold Deployed.processPermission. case_decide; [done|].
  destruct a'; [done|].
  destruct (Deployed.upsertPermission env (db s')
              (drivePermissionData fileId p)) as [[d o]| |] eqn:E; [|done..].
  apply deployed_upsertPermission_Done in E. cbn. by eapply Hstep.
Qed.

Lemma deployed_permissionsOfFile_db_ind (Q : Prisma.Db -> Prop) drive n seen
  s file :
  (∀ d data d' o, upsertPermission Prisma.noFaults d data = Some (d', o) ->
                  Q d -> Q d') ->
  Q (db s) ->
  Q (db (Deployed.permissionsOfFile env drive n (seen, s) file).2).
Proof.
  intros Hstep H0. destruct file as [i fileId].
  unfold Deployed.permissionsOfFile.
  destruct (Drive.permissions_list drive fileId) as [permissions|]; [|done].
  pose proof (deployed_permissions_db_ind Q fileId permissions false seen
                (record TxBegin
                   (set_totalPermissions
                      (totalPermissions s + length permissions) s))
                Hstep H0) as H.
  destruct (fold_left _ permissions _) as [a [seen' s']]. cbn [snd] in H.
  unfold Deployed.broadcastProgress, Deployed.emit.
  destruct a; cbn [snd]; case_match; done.
Qed.

Lemma deployed_syncAllPermissions_db_ind (Q : Prisma.Db -> Prop) drive s :
  (∀ d data d' o, upsertPermission Prisma.noFaults d data = Some (d', o) ->
                  Q d -> Q d') ->
  Q (db s) -> Q (db (Deployed.syncAllPermissions env drive s)).
Proof.
  intros Hstep H0. unfold Deployed.syncAllPermissions.
  apply (fold_left_ind (Deployed.permissionsOfFile env drive _)
           (fun _ (acc : gset string * t) => Q (db acc.2))); [done|].
  intros _ file _ [seen s'] _ H.
  by apply deployed_permissionsOfFile_db_ind.
Qed.

Lemma deployed_syncAllPermissions_files drive s :
  Prisma.driveFile (db (Deployed.syncAllPermissions env drive s))
  = Prisma.driveFile (db s).
Proof.
  apply (deployed_syncAllPermissions_db_ind
           (fun d => Prisma.driveFile d = Prisma.driveFile (db s)));
    [|done].
  intros d data d' o H <-. by eapply upsertPermission_files.
Qed.

Lemma deployed_syncAllPermissions_unique drive s :
  Prisma.unique (db s) ->
  Prisma.unique (db (Deployed.syncAllPermissions env drive s)).
Proof.
  apply deployed_syncAllPermissions_db_ind. intros d data d' o H [Hf Hp].
  split.
  - unfold Prisma.fileIds. by rewrite (upsertPermission_files _ _ _ _ _ H).
  - by eapply upsertPermission_ids.
Qed.

(** The phase leaves the counters of the files alone. *)
Lemma deployed_permissions_counters fileId permissions a seen s :
  let r := fold_left (Deployed.processPermission env fileId) permissions
             (a, (seen, s)) in
  totalFiles r.2.2 = totalFiles s
  ∧ processedFiles r.2.2 = processedFiles s
  ∧ emitted r.2.2 = emitted s
  ∧ totalPermissions r.2.2 = totalPermissions s.
Proof.
  cbv zeta.
  apply (fold_left_ind (Deployed.processPermission env fileId)
           (fun _ (acc : bool * (gset string * t)) =>
              totalFiles acc.2.2 = totalFiles s
              ∧ processedFiles acc.2.2 = processedFiles s
              ∧ emitted acc.2.2 = emitted s
              ∧ totalPermissions acc.2.2 = totalPermissions s)); [done|].
  intros _ p _ [a' [seen' s']] _ H. cbn [snd] in *.
  unfold Deployed.processPermission. case_decide; [done|].
  destruct a'; [done|].
  by destruct (Deployed.upsertPermission env (db s')
                 (drivePermissionData fileId p)) as [[d o]| |].
Qed.

Lemma deployed_syncAllPermissions_counters drive s :
  let s' := Deployed.syncAllPermissions env drive s in
  totalFiles s' = totalFiles s ∧ processedFiles s' = processedFiles s
  ∧ ∃ events, emits s s' events.
Proof.
  cbv zeta. unfold Deployed.syncAllPermissions.
  apply (fold_left_ind (Deployed.permissionsOfFile env drive _)
           (fun _ (acc : gset string * t) =>
              totalFiles acc.2 = totalFiles s
              ∧ processedFiles acc.2 = processedFiles s
              ∧ ∃ events, emits s acc.2 events)).
  { split_and!; [done..|]. exists []. unfold emits. cbn.
    by rewrite app_nil_r. }
  intros _ [i fileId] _ [seen s'] _ (H1 & H2 & events & He). cbn [snd] in *.
  unfold Deployed.permissionsOfFile.
  destruct (Drive.permissions_list drive fileId) as [permissions|].
  - pose proof (deployed_permissions_counters fileId permissions false seen
                  (record TxBegin
                     (set_totalPermissions
                        (totalPermissions s' + length permissions) s')))
      as (C1 & C2 & C3 & _).
    destruct (fold_left _ permissions _) as [a [seen' s2]]. cbn in C1, C2, C3.
    set (s3 := record TxCommit _).
    assert (totalFiles s3 = totalFiles s ∧ processedFiles s3 = processedFiles s
            ∧ emitted s3 = emitted s') as (T1 & T2 & T3).
    { subst s3. destruct a; cbn; split_and!; congruence. }
    unfold Deployed.broadcastProgress, Deployed.emit. cbn [fst snd].
    assert (∀ e, emits s (GoogleDriveSyncService.emit (progress e) s3)
                   (events ++ [e])) as Hemit.
    { intros e. unfold emits in *.
      cbn [emitted GoogleDriveSyncService.emit].
      by rewrite T3, He, map_app, app_assoc. }
    destruct (Deployed.listenerThrows env (length (emitted s3)));
      cbn [snd totalFiles processedFiles set_errors
           GoogleDriveSyncService.emit];
      (split_and!; [exact T1|exact T2|]); eexists;
      (eapply emits_frame; [apply Hemit|done]).
  - cbn. split_and!; [done..|]. by exists events.
Qed.

End DeployedPermissionPhase.

(** ** The permission phase where no permission is refused *)

Section DeployedAccepted.

Import GoogleDriveSyncService Spec Further.

Variable env : Deployed.Env.
Variable drive : Drive.t.

Hypothesis accepted : Deployed.acceptsPermissions env.

Implicit Types (s : t) (seen : gset string)
  (occ : list (string * SchemaPermission.t)).

(** The transaction of an entry is never aborted, and it does what the
    text of the engine says. *)
Lemma deployed_permissions_accepted fileId permissions seen s :
  fileId ∈ Prisma.fileIds (db s) ->
  fold_left (Deployed.processPermission env fileId) permissions
    (false, (seen, s))
  = (false,
     fold_left (processPermission Prisma.noFaults fileId) permissions
       (seen, s)).
Proof.
  revert seen s. induction permissions as [|p ps IH]; intros seen s Hfile;
    cbn [fold_left]; [done|].
  destruct (decide (SchemaPermission.id p ∈ seen)) as [Hin|Hin].
  - unfold Deployed.processPermission at 2, processPermission at 2.
    rewrite !decide_True by done. by apply IH.
  - pose proof (deployed_processPermission_step env fileId seen s p Hin)
      as Hstep.
    destruct (deployed_upsertPermission_accepted env (db s)
                (drivePermissionData fileId p)) as (d & o & E);
      [apply accepted..|done|].
    rewrite E in Hstep. destruct Hstep as [-> _].
    pose proof (processPermission_step Prisma.noFaults fileId seen s p Hfile)
      as (Hf & _).
    destruct (processPermission Prisma.noFaults fileId (seen, s) p)
      as [seen1 s1]. cbn [snd] in Hf.
    apply IH. unfold Prisma.fileIds. by rewrite Hf.
Qed.

(** The entry of the loop of [syncAllPermissions], by what the text of the
    engine does on it. *)
Lemma deployed_permissionsOfFile_accepted n seen s i fileId :
  fileId ∈ Prisma.fileIds (db s) ->
  let r := permissionsOfFile Prisma.noFaults drive n (seen, s) (i, fileId) in
  let r' := Deployed.permissionsOfFile env drive n (seen, s) (i, fileId) in
  r'.1 = r.1 ∧ db r'.2 = db r.2
  ∧ processedPermissions r'.2 = processedPermissions r.2
  ∧ totalPermissions r'.2 = totalPermissions r.2
  ∧ ops r'.2 = ops r.2
  ∧ errors r.2 <= errors r'.2
  ∧ (Deployed.quiet env -> errors r'.2 = errors r.2).
Proof.
  intros Hfile. cbv zeta.
  unfold Deployed.permissionsOfFile, permissionsOfFile.
  destruct (Drive.permissions_list drive fileId) as [permissions|].
  - rewrite deployed_permissions_accepted by done.
    destruct (fold_left (processPermission Prisma.noFaults fileId)
                permissions _) as [seen1 s1].
    unfold Deployed.broadcastProgress, Deployed.emit. cbn [fst snd].
    set (k := length _).
    destruct (Deployed.listenerThrows env k) eqn:E; cbn.
    + split_and!; try done; [lia|]. intros Hq. by rewrite Hq in E.
    + split_and!; try done.
  - cbn. split_and!; try done.
Qed.

(** The row of every grant id is the one of its first occurrence. *)
Lemma deployed_permissionsOfFile_firstWins occ n seen s i fileId :
  fileId ∈ Prisma.fileIds (db s) ->
  firstWins occ (seen, s) ->
  firstWins (occ ++ occurrences drive [fileId])
    (Deployed.permissionsOfFile env drive n (seen, s) (i, fileId)).
Proof.
  intros Hfile Hocc.
  destruct (deployed_permissionsOfFile_accepted n seen s i fileId Hfile)
    as (H1 & H2 & _).
  assert (firstWins (occ ++ occurrences drive [fileId])
            (permissionsOfFile Prisma.noFaults drive n (seen, s) (i, fileId)))
    as Hold.
  { rewrite occurrences_singleton. unfold permissionsOfFile.
    destruct (Drive.permissions_list drive fileId) as [permissions|].
    - set (s0 := record TxBegin _).
      assert (fileId ∈ Prisma.fileIds (db s0)) as Hfile0 by done.
      pose proof (permissions_firstWins Prisma.noFaults (fun _ => eq_refl)
                    occ fileId permissions seen s0 Hfile0 Hocc) as H.
      destruct (fold_left _ permissions _) as [seen2 s2]. exact H.
    - by rewrite app_nil_r. }
  intros id. specialize (Hold id). rewrite H1, H2. exact Hold.
Qed.

Lemma deployed_syncAllPermissions_firstWins s :
  (∀ fileId, fileId ∈ Deployed.findMany env (Prisma.fileIds (db s)) ->
             fileId ∈ Prisma.fileIds (db s)) ->
  ∀ id,
    match firstOccurrence drive
            (Deployed.findMany env (Prisma.fileIds (db s))) id with
    | Some (fileId, p) =>
        Prisma.drivePermission_.findUnique
          (db (Deployed.syncAllPermissions env drive s)) id
        = Some (drivePermissionData fileId p)
    | None => True
    end.
Proof.
  intros Hsub. unfold Deployed.syncAllPermissions, firstOccurrence.
  set (order := Deployed.findMany env (Prisma.fileIds (db s))) in *.
  set (n := length order).
  cut (firstWins (occurrences drive (map snd (imap pair order)))
         (fold_left (Deployed.permissionsOfFile env drive n)
            (imap pair order) (∅, set_totalPermissions 0 s))
       ∧ Prisma.driveFile
           (db (fold_left (Deployed.permissionsOfFile env drive n)
                  (imap pair order) (∅, set_totalPermissions 0 s)).2)
         = Prisma.driveFile (db s)).
  { rewrite imap_pair_snd. intros [H _] id. specialize (H id).
    destruct (List.find _ (occurrences drive order)) as [[fileId p]|];
      [|done].
    by destruct H. }
  apply (fold_left_ind (Deployed.permissionsOfFile env drive n)
           (fun done acc =>
              firstWins (occurrences drive (map snd done)) acc
              ∧ Prisma.driveFile (db acc.2) = Prisma.driveFile (db s))).
  - split; [|done]. intros id. cbn. apply not_elem_of_empty.
  - intros done [i fileId] rest [seen s'] Hl [H Hf].
    rewrite map_app, occurrences_app. cbn [map snd].
    assert (fileId ∈ Prisma.fileIds (db s')) as Hfile.
    { unfold Prisma.fileIds. cbn [snd] in Hf. rewrite Hf. apply Hsub.
      apply (imap_pair_elem _ (i, fileId)). rewrite Hl.
      apply elem_of_app. right. by left. }
    split; [by apply deployed_permissionsOfFile_firstWins|].
    cbn [snd] in *. rewrite <- Hf.
    apply (deployed_permissionsOfFile_db_ind env
             (fun d => Prisma.driveFile d = Prisma.driveFile (db s')));
      [|done].
    intros d data d' o HU <-. by eapply upsertPermission_files.
Qed.

(** The errors of the phase, where moreover no listener throws: the
    listings that threw. *)
Lemma deployed_files_errors n (files : list (nat * string)) seen s :
  Deployed.quiet env ->
  (∀ file, file ∈ files -> file.2 ∈ Prisma.fileIds (db s)) ->
  errors (fold_left (Deployed.permissionsOfFile env drive n) files
            (seen, s)).2
  = errors s + length (throwing drive (map snd files)).
Proof.
  intros Hq. revert seen s.
  induction files as [|[i fileId] files IH]; intros seen s Hfiles;
    cbn [fold_left map snd].
  - unfold throwing. simpl. lia.
  - assert (fileId ∈ Prisma.fileIds (db s)) as Hfile
      by (apply (Hfiles (i, fileId)); left).
    destruct (deployed_permissionsOfFile_accepted n seen s i fileId Hfile)
      as (_ & Hd & _ & _ & _ & _ & He).
    specialize (He Hq).
    pose proof (files_errors Prisma.noFaults drive n [(i, fileId)] seen s
                  (fun _ => eq_refl)) as Hold.
    cbn [fold_left map snd] in Hold. rewrite Hold in He.
    2:{ intros file ->%list_elem_of_singleton. done. }
    pose proof (permissionsOfFile_advances Prisma.noFaults drive n seen s i
                  fileId) as (_ & Hf & _).
    destruct (Deployed.permissionsOfFile env drive n (seen, s) (i, fileId))
      as [seen' s']. cbn [fst snd] in *.
    rewrite IH.
    + rewrite He. unfold throwing.
      change (fileId :: map snd files) with ([fileId] ++ map snd files).
      rewrite filter_app, length_app. lia.
    + intros file Hin. unfold Prisma.fileIds. rewrite Hd, Hf.
      apply Hfiles. by right.
Qed.

Lemma deployed_syncAllPermissions_errors s :
  Deployed.quiet env -> Deployed.ordered env ->
  errors (Deployed.syncAllPermissions env drive s)
  = errors s + length (throwing drive (Prisma.fileIds (db s))).
Proof.
  intros Hq Ho. unfold Deployed.syncAllPermissions.
  rewrite deployed_files_errors; [|done|].
  - rewrite imap_pair_snd. cbn [errors set_totalPermissions]. f_equal.
    unfold throwing. apply Permutation_length.
    by rewrite (Ho (Prisma.fileIds (db s))).
  - intros file Hin%imap_pair_elem. cbn [db set_totalPermissions].
    by rewrite (Ho (Prisma.fileIds (db s))) in Hin.
Qed.

End DeployedAccepted.

(** ** A grant listing that throws *)

Section DeployedListingFailure.

Import GoogleDriveSyncService Spec Further.

Variable env : Deployed.Env.

Local Ltac alike_fields :=
  unfold Deployed.alike;
  cbn [fst snd db processedPermissions totalPermissions ops errors emitted
       totalFiles processedFiles set_errors set_totalPermissions set_db record
       broadcastProgress GoogleDriveSyncService.emit] in *.

Lemma deployed_processPermission_alike k fileId a x y p :
  Deployed.alike env k x y ->
  (Deployed.processPermission env fileId (a, x) p).1
  = (Deployed.processPermission env fileId (a, y) p).1
  ∧ Deployed.alike env k
      (Deployed.processPermission env fileId (a, x) p).2
      (Deployed.processPermission env fileId (a, y) p).2.
Proof.
  destruct x as [seen s], y as [seen' s'].
  intros (Hs & Hd & Hp & Ht & Ho & He). cbn [fst snd] in *. subst seen'.
  unfold Deployed.processPermission. rewrite <- Hd.
  destruct (decide (SchemaPermission.id p ∈ seen)).
  { split; [done|]. by alike_fields. }
  destruct a.
  { split; [done|]. alike_fields. split_and!; try done.
    intros Hq. specialize (He Hq). lia. }
  destruct (Deployed.upsertPermission env (db s)
              (drivePermissionData fileId p)) as [[d o]| |];
    (split; [done|]); alike_fields; split_and!;
    rewrite ?writes_app, ?Ho, ?Hp; try done;
    intros Hq; specialize (He Hq); lia.
Qed.

Lemma deployed_permissions_alike k fileId permissions a x y :
  Deployed.alike env k x y ->
  (fold_left (Deployed.processPermission env fileId) permissions (a, x)).1
  = (fold_left (Deployed.processPermission env fileId) permissions (a, y)).1
  ∧ Deployed.alike env k
      (fold_left (Deployed.processPermission env fileId) permissions (a, x)).2
      (fold_left (Deployed.processPermission env fileId) permissions (a, y)).2.
Proof.
  revert a x y. induction permissions as [|p permissions IH]; intros a x y H;
    cbn [fold_left]; [done|].
  destruct (deployed_processPermission_alike k fileId a x y p H) as [Ha Hxy].
  destruct (Deployed.processPermission env fileId (a, x) p) as [a1 x1].
  destruct (Deployed.processPermission env fileId (a, y) p) as [a2 y1].
  cbn [fst snd] in *. subst a2. by apply IH.
Qed.

Lemma deployed_permissionsOfFile_alike drive drive' n k x y i fileId
  permissions :
  Drive.permissions_list drive fileId = Some permissions ->
  Drive.permissions_list drive' fileId = Some permissions ->
  Deployed.alike env k x y ->
  Deployed.alike env k
    (Deployed.permissionsOfFile env drive n x (i, fileId))
    (Deployed.permissionsOfFile env drive' n y (i, fileId)).
Proof.
  intros Hl Hl' Hxy. destruct x as [seen s], y as [seen' s'].
  unfold Deployed.permissionsOfFile. rewrite Hl, Hl'.
  pose proof (deployed_permissions_alike k fileId permissions false
    (seen, record TxBegin
             (set_totalPermissions
                (totalPermissions s + length permissions) s))
    (seen', record TxBegin
              (set_totalPermissions
                 (totalPermissions s' + length permissions) s'))) as H.
  destruct (fold_left _ permissions (false, (seen, _))) as [a1 [seen1 s1]].
  destruct (fold_left _ permissions (false, (seen', _))) as [a1' [seen1' s1']].
  destruct Hxy as (Hs & Hd & Hp & Ht & Ho & He). cbn [fst snd] in *.
  destruct H as (Ha & Hs1 & Hd1 & Hp1 & Ht1 & Ho1 & He1).
  { alike_fields. split_and!;
      rewrite ?writes_app, ?Ho, ?Ht; try done. }
  subst a1'. unfold Deployed.broadcastProgress, Deployed.emit.
  cbn [fst snd] in *.
  assert (∀ m m', Deployed.quiet env ->
            Deployed.listenerThrows env m = false
            ∧ Deployed.listenerThrows env m' = false) as Hq
    by (intros m m' Hq; by rewrite !Hq).
  destruct a1;
    repeat match goal with
           | |- context [Deployed.listenerThrows env ?m] =>
               let E := fresh "E" in
               destruct (Deployed.listenerThrows env m) eqn:E
           end;
    alike_fields; split_and!; rewrite ?writes_app, ?Ho1; try done;
    intros Hquiet; specialize (He1 Hquiet);
    rewrite ?Hquiet in *; try done; try lia.
Qed.

(** A listing that throws costs one error and nothing else: the phase ends
    as it would had the entry no grants. *)
Lemma deployed_files_alike drive n (files : list (nat * string)) k x y :
  Deployed.alike env k x y ->
  Deployed.alike env (k + length (throwing drive (map snd files)))
    (fold_left (Deployed.permissionsOfFile env drive n) files x)
    (fold_left (Deployed.permissionsOfFile env (forgiving drive) n) files y).
Proof.
  revert k x y. induction files as [|[i fileId] files IH]; intros k x y Hxy;
    cbn [fold_left map snd].
  - unfold throwing. simpl. by rewrite Nat.add_0_r.
  - unfold throwing.
    destruct (Drive.permissions_list drive fileId) as [permissions|] eqn:Hl.
    + rewrite filter_cons_False by (by rewrite Hl).
      apply IH.
      apply (deployed_permissionsOfFile_alike _ _ _ _ _ _ _ _ permissions);
        [done| |done].
      simpl. by rewrite Hl.
    + rewrite filter_cons_True by done. cbn [length].
      replace (k + S (length (filter
                 (fun f => Drive.permissions_list drive f = None)
                 (map snd files))))
        with (S k + length (throwing drive (map snd files)))
        by (unfold throwing; lia).
      apply IH. destruct x as [seen s], y as [seen' s'].
      destruct Hxy as (Hs & Hd & Hp & Ht & Ho & He). cbn [fst snd] in *.
      unfold Deployed.permissionsOfFile. rewrite Hl.
      cbn [forgiving Drive.permissions_list]. rewrite Hl.
      cbn [fold_left length].
      unfold Deployed.broadcastProgress, Deployed.emit. cbn [fst snd].
      match goal with
      | |- context [Deployed.listenerThrows env ?m] =>
          destruct (Deployed.listenerThrows env m) eqn:E
      end;
        alike_fields; split_and!;
        rewrite ?writes_app, ?Ho, ?Nat.add_0_r; try done;
        try (simpl; by rewrite !app_nil_r);
        intros Hquiet; specialize (He Hquiet); rewrite ?Hquiet in *;
        try done; lia.
Qed.

Lemma deployed_syncAllPermissions_alike drive s :
  let failing := Deployed.syncAllPermissions env drive s in
  let empty := Deployed.syncAllPermissions env (forgiving drive) s in
  db failing = db empty
  ∧ processedPermissions failing = processedPermissions empty
  ∧ totalPermissions failing = totalPermissions empty
  ∧ writes (ops failing) = writes (ops empty)
  ∧ (Deployed.quiet env -> Deployed.ordered env ->
     errors failing
     = errors empty + length (throwing drive (Prisma.fileIds (db s)))).
Proof.
  unfold Deployed.syncAllPermissions.
  set (order := Deployed.findMany env (Prisma.fileIds (db s))).
  pose proof (deployed_files_alike drive (length order)
                (imap pair order) 0
                (∅, set_totalPermissions 0 s)
                (∅, set_totalPermissions 0 s)) as H.
  rewrite imap_pair_snd in H.
  destruct (fold_left (Deployed.permissionsOfFile env drive _) _ _)
    as [seen1 s1].
  destruct (fold_left (Deployed.permissionsOfFile env (forgiving drive) _) _ _)
    as [seen2 s2].
  destruct H as (_ & Hd & Hp & Ht & Ho & He).
  { unfold Deployed.alike. split_and!; try done. all: intros _; cbn; lia. }
  cbn [fst snd] in *. split_and!; try done.
  intros Hq Hord. rewrite (He Hq), Nat.add_0_l. f_equal.
  unfold throwing. apply Permutation_length. subst order.
  by rewrite (Hord (Prisma.fileIds (db s))).
Qed.

End DeployedListingFailure.

(** ** A run on a persisted state that equals the fetched state *)

Section DeployedPersisted.

Import GoogleDriveSyncService Spec Further.

Variable env : Deployed.Env.

Implicit Types (s : t) (seen : gset string).

Lemma find_app {A} (f : A -> bool) (l1 l2 : list A) :
  List.find f (l1 ++ l2)
  = match List.find f l1 with
    | Some x => Some x
    | None => List.find f l2
    end.
Proof.
  induction l1 as [|x l1 IH]; cbn [app List.find]; [done|].
  by destruct (f x).
Qed.

(** The records of a transaction whose rows are all there as fetched:
    every change check is a skip. *)
Lemma deployed_records_persisted batch s :
  (∀ f, f ∈ batch ->
     Prisma.driveFile_.findUnique (db s) (DriveFileData.id f)
     = Some (driveFileData f)) ->
  let r := fold_left (Deployed.processFile env) batch (false, s) in
  r.1 = false ∧ db r.2 = db s ∧ ops r.2 = ops s
  ∧ processedFiles r.2 = processedFiles s + length batch
  ∧ (Deployed.quiet env -> errors r.2 = errors s).
Proof.
  revert s. induction batch as [|f batch IH]; intros s Hrows;
    cbn [fold_left].
  - cbn. split_and!; try done; lia.
  - cbv zeta in *.
    pose proof (deployed_processFile_step env s f) as Hstep.
    rewrite (deployed_upsertFile_present env (db s) (driveFileData f))
      in Hstep by (apply Hrows; left).
    destruct Hstep as (s' & -> & Hd & Ho & Hp & He & _).
    destruct (IH s') as (I1 & I2 & I3 & I4 & I5).
    { intros g Hg. rewrite Hd. apply Hrows. by right. }
    rewrite app_nil_r in Ho. cbn [length].
    split_and!; [done|congruence|congruence|lia|].
    intros Hq. rewrite (I5 Hq), He. by rewrite Hq.
Qed.

Lemma deployed_batches_persisted (batches : list (list DriveFileData.t)) s :
  (∀ f, f ∈ concat batches ->
     Prisma.driveFile_.findUnique (db s) (DriveFileData.id f)
     = Some (driveFileData f)) ->
  let s' := fold_left (Deployed.processBatch env) batches s in
  db s' = db s ∧ writes (ops s') = writes (ops s)
  ∧ processedFiles s' = processedFiles s + length (concat batches)
  ∧ (Deployed.quiet env -> errors s' = errors s).
Proof.
  revert s. induction batches as [|batch batches IH]; intros s Hrows;
    cbn [fold_left concat].
  - cbn. split_and!; try done; lia.
  - cbv zeta in *.
    assert (db (Deployed.processBatch env s batch) = db s
            ∧ writes (ops (Deployed.processBatch env s batch))
              = writes (ops s)
            ∧ processedFiles (Deployed.processBatch env s batch)
              = processedFiles s + length batch
            ∧ (Deployed.quiet env ->
               errors (Deployed.processBatch env s batch) = errors s))
      as (B1 & B2 & B3 & B4).
    { unfold Deployed.processBatch.
      destruct (deployed_records_persisted batch (record TxBegin s))
        as (R1 & R2 & R3 & R4 & R5).
      { intros f Hf. apply Hrows. apply elem_of_app. by left. }
      destruct (fold_left _ batch _) as [a s1]. cbn [fst snd] in *.
      subst a. cbn [db ops processedFiles errors record] in *.
      rewrite R3, !writes_app. cbn. rewrite !app_nil_r.
      split_and!; done. }
    destruct (IH (Deployed.processBatch env s batch)) as (I1 & I2 & I3 & I4).
    { intros f Hf. rewrite B1. apply Hrows. apply elem_of_app. by right. }
    rewrite length_app.
    split_and!; [congruence|congruence|lia|].
    intros Hq. by rewrite (I4 Hq), (B4 Hq).
Qed.

Lemma deployed_processFilesBatch_persisted files s :
  Deployed.filesPersisted files (db s) ->
  let s' := Deployed.processFilesBatch env (map toDriveFileData files) s in
  db s' = db s ∧ writes (ops s') = writes (ops s)
  ∧ processedFiles s' = processedFiles s + length files
  ∧ (Deployed.quiet env -> errors s' = errors s).
Proof.
  intros Hrows.
  pose proof (deployed_batches_persisted
                (batchesOf (map toDriveFileData files)) s) as H.
  rewrite batchesOf_concat, length_map in H. apply H.
  intros f (g & -> & Hg)%list_elem_of_fmap. by apply Hrows.
Qed.

(** The grants of the entries, when the row of each listed id is the one
    of its first occurrence: the first occurrence is a skip and the later
    ones are passed over. *)
Lemma deployed_syncAllPermissions_persisted drive s :
  Deployed.grantsPersisted env drive (db s) ->
  let s' := Deployed.syncAllPermissions env drive s in
  db s' = db s ∧ writes (ops s') = writes (ops s).
Proof.
  intros Hrows. cbv zeta. unfold Deployed.syncAllPermissions.
  unfold Deployed.grantsPersisted, firstOccurrence in Hrows.
  set (order := Deployed.findMany env (Prisma.fileIds (db s))) in *.
  set (n := length order).
  cut (db (fold_left (Deployed.permissionsOfFile env drive n)
             (imap pair order) (∅, set_totalPermissions 0 s)).2 = db s
       ∧ writes (ops (fold_left (Deployed.permissionsOfFile env drive n)
                        (imap pair order) (∅, set_totalPermissions 0 s)).2)
         = writes (ops s)
       ∧ ∀ id, id ∈ (fold_left (Deployed.permissionsOfFile env drive n)
                       (imap pair order) (∅, set_totalPermissions 0 s)).1
               <-> id ∈ listedGrants drive (map snd (imap pair order))).
  { by intros (H1 & H2 & _). }
  apply (fold_left_ind (Deployed.permissionsOfFile env drive n)
           (fun done (acc : gset string * t) =>
              db acc.2 = db s ∧ writes (ops acc.2) = writes (ops s)
              ∧ ∀ id, id ∈ acc.1 <-> id ∈ listedGrants drive (map snd done))).
  { split_and!; [done..|]. intros id. cbn. split.
    - by intros ?%not_elem_of_empty.
    - by intros ?%elem_of_nil. }
  intros done [i fileId] rest [seen s1] Hl (Hd & Hw & Hseen).
  cbn [fst snd] in *.
  assert (order = map snd done ++ fileId :: map snd rest) as Horder.
  { rewrite <- (imap_pair_snd order), Hl, map_app. done. }
  rewrite map_app, listedGrants_app. cbn [map snd].
  rewrite listedGrants_singleton.
  unfold Deployed.permissionsOfFile.
  destruct (Drive.permissions_list drive fileId) as [permissions|] eqn:Hlist.
  2:{ cbn. rewrite app_nil_r. by split_and!. }
  set (s0 := record TxBegin _).
  assert (fold_left (Deployed.processPermission env fileId) permissions
            (false, (seen, s0))
          = (false, (fold_left (Deployed.processPermission env fileId)
                       permissions (false, (seen, s0))).2)
          ∧ db (fold_left (Deployed.processPermission env fileId) permissions
                  (false, (seen, s0))).2.2 = db s
          ∧ writes (ops (fold_left (Deployed.processPermission env fileId)
                           permissions (false, (seen, s0))).2.2)
            = writes (ops s)
          ∧ ∀ id, id ∈ (fold_left (Deployed.processPermission env fileId)
                          permissions (false, (seen, s0))).2.1
                  <-> id ∈ listedGrants drive (map snd done)
                      ∨ id ∈ map SchemaPermission.id permissions)
    as (Hfold & Hd2 & Hw2 & Hseen2).
  { apply (fold_left_ind (Deployed.processPermission env fileId)
             (fun pdone (acc : bool * (gset string * t)) =>
                acc = (false, acc.2)
                ∧ db acc.2.2 = db s ∧ writes (ops acc.2.2) = writes (ops s)
                ∧ ∀ id, id ∈ acc.2.1
                        <-> id ∈ listedGrants drive (map snd done)
                            ∨ id ∈ map SchemaPermission.id pdone)).
    { split_and!; try done.
      - subst s0. cbn. by rewrite writes_app, Hw, app_nil_r.
      - intros id. cbn. rewrite Hseen. split; [by left|].
        by intros [?|?%elem_of_nil]. }
    intros pdone p prest [a [seen' s']] Hp (Ha & Hd' & Hw' & Hs').
    cbn [fst snd] in *. injection Ha as ->.
    unfold Deployed.processPermission.
    destruct (decide (SchemaPermission.id p ∈ seen')) as [Hin|Hin].
    - cbn [fst snd]. split_and!; try done. intros id.
      rewrite Hs', map_app, elem_of_app. cbn [map].
      rewrite list_elem_of_singleton. split; [tauto|].
      intros [?|[?| ->]]; [tauto..|]. by apply Hs'.
    - assert (List.find
                (fun o : string * SchemaPermission.t =>
                   String.eqb (SchemaPermission.id o.2)
                     (SchemaPermission.id p))
                (occurrences drive order) = Some (fileId, p)) as Hfirst.
      { rewrite Horder.
        change (fileId :: map snd rest) with ([fileId] ++ map snd rest).
        rewrite !occurrences_app, occurrences_singleton, Hlist, Hp.
        rewrite map_app. cbn [map]. rewrite !find_app.
        assert ((SchemaPermission.id p ∉ listedGrants drive (map snd done))
                ∧ (SchemaPermission.id p ∉ map SchemaPermission.id pdone))
          as [N1 N2].
        { split; intros H; apply Hin, Hs'; tauto. }
        rewrite <- occurrences_ids in N1.
        apply (find_None_keys (fun o : string * SchemaPermission.t =>
                                 SchemaPermission.id o.2)) in N1.
        rewrite N1.
        assert (List.find
                  (fun o : string * SchemaPermission.t =>
                     String.eqb (SchemaPermission.id o.2)
                       (SchemaPermission.id p))
                  (map (pair fileId) pdone) = None) as ->.
        { apply (find_None_keys (fun o : string * SchemaPermission.t =>
                                   SchemaPermission.id o.2)).
          by rewrite map_map. }
        cbn [List.find snd]. by rewrite String.eqb_refl. }
      pose proof (Hrows _ _ _ Hfirst) as Hrow. rewrite <- Hd' in Hrow.
      rewrite (deployed_upsertPermission_present env (db s')
                 (drivePermissionData fileId p)) by exact Hrow.
      cbn [fst snd db ops]. rewrite app_nil_r.
      split_and!; try done. intros id.
      rewrite elem_of_union, elem_of_singleton, Hs', map_app, elem_of_app.
      cbn [map]. rewrite list_elem_of_singleton. tauto. }
  rewrite Hfold. destruct (fold_left _ permissions _) as [a [seen2 s2]].
  cbn [fst snd] in *.
  unfold Deployed.broadcastProgress, Deployed.emit. cbn [fst snd].
  match goal with
  | |- context [Deployed.listenerThrows env ?m] =>
      destruct (Deployed.listenerThrows env m)
  end;
    cbn [db ops set_errors record GoogleDriveSyncService.emit];
    rewrite writes_app; cbn; rewrite app_nil_r;
    (split_and!; [done..|]);
    intros id; rewrite Hseen2, elem_of_app; tauto.
Qed.

End DeployedPersisted.

(** ** A run as a whole *)

Section DeployedRun.

Import GoogleDriveSyncService Spec Further.

Variable env : Deployed.Env.
Variable drive : Drive.t.

Implicit Types (s : t).

(** The file phase broadcasts progress events only. *)
Lemma deployed_records_emits batch a s :
  ∃ events,
    emits s (fold_left (Deployed.processFile env) batch (a, s)).2 events.
Proof.
  revert a s. induction batch as [|f batch IH]; intros a s; cbn [fold_left].
  - exists []. apply emits_refl.
  - assert (∃ events, emits s (Deployed.processFile env (a, s) f).2 events)
      as (e1 & H1).
    { unfold Deployed.processFile. destruct a.
      - exists []. unfold emits. cbn. by rewrite app_nil_r.
      - destruct (Deployed.upsertFile env (db s) (driveFileData f))
          as [[d o]| |].
        + unfold Deployed.broadcastProgress, Deployed.emit. cbn [fst snd].
          eexists [_].
          match goal with
          | |- context [Deployed.listenerThrows env ?m] =>
              destruct (Deployed.listenerThrows env m)
          end; unfold emits; cbn; done.
        + exists []. unfold emits. cbn. by rewrite app_nil_r.
        + exists []. unfold emits. cbn. by rewrite app_nil_r. }
    destruct (Deployed.processFile env (a, s) f) as [a1 s1]. cbn [snd] in *.
    destruct (IH a1 s1) as (e2 & H2). exists (e1 ++ e2).
    by eapply emits_trans.
Qed.

Lemma deployed_processFilesBatch_emits files s :
  ∃ events, emits s (Deployed.processFilesBatch env files s) events.
Proof.
  unfold Deployed.processFilesBatch. generalize (batchesOf files).
  intros batches. revert s.
  induction batches as [|batch batches IH]; intros s; cbn [fold_left].
  - exists []. apply emits_refl.
  - assert (∃ events, emits s (Deployed.processBatch env s batch) events)
      as (e1 & H1).
    { unfold Deployed.processBatch.
      destruct (deployed_records_emits batch false (record TxBegin s))
        as (e1 & H1).
      destruct (fold_left _ batch _) as [a s1]. cbn [snd] in H1.
      exists e1. unfold emits in *. by destruct a. }
    destruct (IH (Deployed.processBatch env s batch)) as (e2 & H2).
    exists (e1 ++ e2). by eapply emits_trans.
Qed.

(** Where no file row is refused or fails, no batch is aborted and every
    record is processed. *)
Lemma deployed_records_acceptedFiles batch s :
  Deployed.acceptsFiles env ->
  let r := fold_left (Deployed.processFile env) batch (false, s) in
  r.1 = false
  ∧ processedFiles r.2 = processedFiles s + length batch
  ∧ (Deployed.quiet env -> errors r.2 = errors s).
Proof.
  intros Hacc. revert s. induction batch as [|f batch IH]; intros s;
    cbn [fold_left].
  - cbn. split_and!; try done; lia.
  - cbv zeta in *.
    pose proof (deployed_processFile_step env s f) as Hstep.
    destruct (deployed_upsertFile_accepted env (db s) (driveFileData f))
      as (d & o & E); [apply Hacc..|].
    rewrite E in Hstep. destruct Hstep as (s' & -> & _ & _ & Hp & He & _).
    destruct (IH s') as (I1 & I2 & I3). cbn [length].
    split_and!; [done|lia|]. intros Hq. rewrite (I3 Hq), He. by rewrite Hq.
Qed.

Lemma deployed_processFilesBatch_acceptedFiles files s :
  Deployed.acceptsFiles env ->
  let s' := Deployed.processFilesBatch env files s in
  processedFiles s' = processedFiles s + length files
  ∧ (Deployed.quiet env -> errors s' = errors s).
Proof.
  intros Hacc. cbv zeta. unfold Deployed.processFilesBatch.
  rewrite <- (batchesOf_concat files) at 2.
  generalize (batchesOf files). intros batches. revert s.
  induction batches as [|batch batches IH]; intros s;
    cbn [fold_left concat].
  - cbn. split; [lia|done].
  - assert (processedFiles (Deployed.processBatch env s batch)
            = processedFiles s + length batch
            ∧ (Deployed.quiet env ->
               errors (Deployed.processBatch env s batch) = errors s))
      as (B1 & B2).
    { unfold Deployed.processBatch.
      destruct (deployed_records_acceptedFiles batch (record TxBegin s) Hacc)
        as (R1 & R2 & R3).
      destruct (fold_left _ batch _) as [a s1]. cbn [fst snd] in *.
      subst a. done. }
    destruct (IH (Deployed.processBatch env s batch)) as (I1 & I2).
    rewrite length_app. split; [lia|].
    intros Hq. by rewrite (I2 Hq), (B2 Hq).
Qed.

(** The service when the file phase begins. *)
Lemma deployed_fetchedState_frame db0 :
  let sf := Deployed.fetchedState env drive db0 in
  db sf = db0 ∧ ops sf = [] ∧ errors sf = 0 ∧ processedFiles sf = 0
  ∧ totalPermissions sf = 0 ∧ processedPermissions sf = 0
  ∧ totalFiles sf = (Deployed.getTotalFileCount env drive (new db0)).1
  ∧ ∃ events, emitted sf = map progress events.
Proof.
  cbv zeta. unfold Deployed.fetchedState.
  pose proof (deployed_getTotalFileCount_frame env drive (new db0))
    as (C1 & C2 & C3 & C4 & _ & C6 & C7 & e1 & E1).
  destruct (Deployed.getTotalFileCount env drive (new db0)) as [n sc].
  cbn [fst snd] in *.
  pose proof (deployed_fetchLoop_frame env (Drive.fetchListing drive).2
                (Drive.fetchListing drive).1 [] (set_totalFiles n sc))
    as (F1 & F2 & F3 & F4 & F5 & F6 & F7 & e2 & E2).
  unfold emits in *.
  cbn [db ops errors processedFiles totalFiles totalPermissions
       processedPermissions emitted set_totalFiles new app] in *.
  split_and!; try congruence.
  exists (e1 ++ e2). by rewrite E2, E1, map_app.
Qed.

(** A run, by what its fetch comes to. *)
Lemma deployed_startSync_spec db0 :
  Deployed.startSync env drive db0
  = match (Deployed.fetchLoop env (Drive.fetchListing drive).1
             (Drive.fetchListing drive).2 []
             (set_totalFiles
                (Deployed.getTotalFileCount env drive (new db0)).1
                (Deployed.getTotalFileCount env drive (new db0)).2)).1 with
    | Some files =>
        let s := Deployed.settledState env drive db0 files in
        if Deployed.listenerThrows env (length (emitted s))
        then (None,
              GoogleDriveSyncService.emit sync_error
                (GoogleDriveSyncService.emit
                   (sync_complete (getSyncStats s)) s))
        else (Some (getSyncStats s),
              GoogleDriveSyncService.emit (sync_complete (getSyncStats s)) s)
    | None =>
        (None,
         GoogleDriveSyncService.emit sync_error
           (Deployed.fetchedState env drive db0))
    end.
Proof.
  unfold Deployed.startSync, Deployed.syncDriveFilesWithPagination,
    Deployed.settledState, Deployed.fetchedState.
  destruct (Deployed.getTotalFileCount env drive (new db0)) as [n sc].
  destruct (Drive.fetchListing drive) as [r rest]. cbn [fst snd].
  destruct (Deployed.fetchLoop env r rest [] (set_totalFiles n sc))
    as [[files|] sf]; cbn [fst snd]; [|done].
  unfold Deployed.emit. cbn [fst snd].
  by destruct (Deployed.listenerThrows env _).
Qed.

(** The files of a fetch that came to its end are those of the listing. *)
Lemma deployed_fetched s files :
  (Deployed.fetchLoop env (Drive.fetchListing drive).1
     (Drive.fetchListing drive).2 [] s).1 = Some files ->
  Drive.drain (Drive.fetchListing drive) = Some files.
Proof.
  rewrite deployed_fetchLoop_spec. unfold Drive.drain.
  destruct (Drive.drainFrom _ _ []) as [files'|]; [|done].
  by destruct (Deployed.quietFor _ _ _).
Qed.

(** A run that completes has fetched the files of the listing and ends
    in the settled state. *)
Lemma deployed_startSync_completed db0 stats :
  (Deployed.startSync env drive db0).1 = Some stats ->
  ∃ files,
    Drive.drain (Drive.fetchListing drive) = Some files
    ∧ stats = getSyncStats (Deployed.settledState env drive db0 files)
    ∧ Deployed.listenerThrows env
        (length (emitted (Deployed.settledState env drive db0 files)))
      = false
    ∧ (Deployed.startSync env drive db0).2
      = GoogleDriveSyncService.emit (sync_complete stats)
          (Deployed.settledState env drive db0 files).
Proof.
  rewrite deployed_startSync_spec.
  destruct (Deployed.fetchLoop env _ _ [] _).1 as [files|] eqn:E; [|done].
  cbv zeta.
  destruct (Deployed.listenerThrows env _) eqn:Hl; [done|].
  cbn [fst snd]. intros [= <-]. exists files.
  split_and!; try done. by eapply deployed_fetched.
Qed.

(** Where no listener throws, the fetch comes to its end when its requests
    are answered. *)
Lemma deployed_fetch_quiet s files :
  Deployed.quiet env ->
  Drive.drain (Drive.fetchListing drive) = Some files ->
  (Deployed.fetchLoop env (Drive.fetchListing drive).1
     (Drive.fetchListing drive).2 [] s).1 = Some files.
Proof.
  intros Hq Hd. rewrite deployed_fetchLoop_spec. unfold Drive.drain in Hd.
  by rewrite Hd, quietFor_quiet.
Qed.

End DeployedRun.

(** ** The tables when the pruning is over *)

Section DeployedSettled.

Import GoogleDriveSyncService Spec Further.

Variable env : Deployed.Env.
Variable drive : Drive.t.

Implicit Types (s : t).

(** The file table is the one that the file phase left. *)
Lemma deployed_settledState_files db0 files :
  Prisma.driveFile (db (Deployed.settledState env drive db0 files))
  = Prisma.driveFile
      (db (Deployed.processFilesBatch env (map toDriveFileData files)
             (Deployed.fetchedState env drive db0))).
Proof.
  unfold Deployed.settledState.
  destruct (cleanupOrphanedData_frame
              (Deployed.syncAllPermissions env drive
                 (Deployed.processFilesBatch env (map toDriveFileData files)
                    (Deployed.fetchedState env drive db0))))
    as (_ & _ & _ & ->).
  apply deployed_syncAllPermissions_files.
Qed.

(** The rows of the files, batch by batch. *)
Lemma deployed_settledState_tables db0 files :
  NoDup (map SchemaFile.id files) ->
  let d := db (Deployed.settledState env drive db0 files) in
  (∀ batch, batch ∈ batchesOf (map toDriveFileData files) ->
     ∀ f, f ∈ batch ->
       Prisma.driveFile_.findUnique d (DriveFileData.id f)
       = if existsb (Deployed.fails env db0) batch
         then Prisma.driveFile_.findUnique db0 (DriveFileData.id f)
         else if Deployed.rejects env db0 f
         then Prisma.driveFile_.findUnique db0 (DriveFileData.id f)
         else Some (driveFileData f))
  ∧ (∀ id, id ∉ map SchemaFile.id files ->
       Prisma.driveFile_.findUnique d id
       = Prisma.driveFile_.findUnique db0 id).
Proof.
  intros Hnd. cbv zeta.
  pose proof (deployed_batches_tables env
                (batchesOf (map toDriveFileData files))
                (Deployed.fetchedState env drive db0)) as H.
  rewrite batchesOf_concat, toDriveFileData_ids in H.
  specialize (H Hnd). cbv zeta in H.
  rewrite (proj1 (deployed_fetchedState_frame env drive db0)) in H.
  destruct H as [Hin Hout]. split.
  - intros batch Hb f Hf.
    rewrite (findUnique_files _ _ _ (deployed_settledState_files db0 files)).
    by apply Hin.
  - intros id Hid.
    rewrite (findUnique_files _ _ _ (deployed_settledState_files db0 files)).
    by apply Hout.
Qed.

(** Where no permission row is refused or fails, the row of every listed
    grant id is the one of its first occurrence. *)
Lemma deployed_settledState_grants db0 files :
  Deployed.acceptsPermissions env -> Deployed.ordered env ->
  Prisma.unique db0 ->
  Deployed.grantsPersisted env drive
    (db (Deployed.settledState env drive db0 files)).
Proof.
  intros Hacc Hord Huniq id fileId p.
  assert (Prisma.fileIds (db (Deployed.settledState env drive db0 files))
          = Prisma.fileIds
              (db (Deployed.processFilesBatch env (map toDriveFileData files)
                     (Deployed.fetchedState env drive db0)))) as ->.
  { unfold Prisma.fileIds. by rewrite deployed_settledState_files. }
  set (sp := Deployed.processFilesBatch env _ _).
  intros Hfirst.
  pose proof (deployed_syncAllPermissions_firstWins env drive Hacc sp) as H.
  specialize (H (fun fileId' Hin =>
                   proj1 (elem_of_Permutation_proper _ _ _
                            (Hord (Prisma.fileIds (db sp)))) Hin) id).
  rewrite Hfirst in H.
  unfold firstOccurrence in Hfirst.
  apply (find_Some_elem (fun o : string * SchemaPermission.t =>
                           SchemaPermission.id o.2)) in Hfirst as [Hocc _].
  apply occurrences_elem in Hocc as (Hfile & _).
  rewrite (Hord (Prisma.fileIds (db sp))) in Hfile.
  unfold Deployed.settledState. fold sp.
  apply cleanupOrphanedData_pruned; [| exact H |].
  - apply deployed_syncAllPermissions_unique, deployed_batches_unique.
    by rewrite (proj1 (deployed_fetchedState_frame env drive db0)).
  - cbn. unfold Prisma.fileIds.
    by rewrite deployed_syncAllPermissions_files.
Qed.

End DeployedSettled.

(** ** The text of the engine as an environment *)

Section Textual.

Import GoogleDriveSyncService Spec Further.

Variable flt : Prisma.Faults.

Implicit Types (s : t) (seen : gset string).

Lemma textual_countLoop rest : ∀ r k s,
  Deployed.countLoop (Deployed.textual flt) r rest k s = countLoop r rest k s.
Proof.
  induction rest as [|r' rest IH]; intros [files|] k s;
    cbn [Deployed.countLoop countLoop]; try done.
  unfold Deployed.broadcastProgress, Deployed.emit. cbn. apply IH.
Qed.

Lemma textual_fetchLoop rest : ∀ r acc s,
  Deployed.fetchLoop (Deployed.textual flt) r rest acc s
  = fetchLoop r rest acc s.
Proof.
  induction rest as [|r' rest IH]; intros [files|] acc s;
    cbn [Deployed.fetchLoop fetchLoop]; try done.
  unfold Deployed.broadcastProgress, Deployed.emit. cbn. apply IH.
Qed.

Lemma textual_upsertFile d data :
  Deployed.upsertFile (Deployed.textual flt) d data
  = match upsertFile flt d data with
    | Some x => Deployed.Done x
    | None => Deployed.Rejected
    end.
Proof.
  rewrite deployed_upsertFile_spec, upsertFile_spec.
  cbn [Deployed.textual Deployed.refused Deployed.failing Prisma.refusesFile
       Prisma.noFaults].
  destruct (Prisma.driveFile_.findUnique d (DriveFile.id data)) as [r|].
  - destruct (decide (r = data)); [done|].
    by destruct (Prisma.refusesFile flt data).
  - by destruct (Prisma.refusesFile flt data).
Qed.

Lemma textual_upsertPermission d data :
  DrivePermission.fileId data ∈ Prisma.fileIds d ->
  Deployed.upsertPermission (Deployed.textual flt) d data
  = match upsertPermission flt d data with
    | Some x => Deployed.Done x
    | None => Deployed.Rejected
    end.
Proof.
  intros Hin. rewrite deployed_upsertPermission_spec, upsertPermission_spec.
  cbn [Deployed.textual Deployed.refused Deployed.failing
       Prisma.refusesPermission Prisma.noFaults].
  unfold Prisma.drivePermission_.references.
  rewrite bool_decide_eq_true_2 by done. cbn [negb].
  destruct (Prisma.drivePermission_.findUnique d (DrivePermission.id data))
    as [r|].
  - destruct (decide (r = data)); [done|].
    by destruct (Prisma.refusesPermission flt data).
  - by destruct (Prisma.refusesPermission flt data).
Qed.

Lemma textual_records batch s :
  fold_left (Deployed.processFile (Deployed.textual flt)) batch (false, s)
  = (false, fold_left (processFile flt) batch s).
Proof.
  revert s. induction batch as [|f batch IH]; intros s; cbn [fold_left];
    [done|].
  assert (Deployed.processFile (Deployed.textual flt) (false, s) f
          = (false, processFile flt s f)) as ->; [|apply IH].
  unfold Deployed.processFile, processFile. rewrite textual_upsertFile.
  by destruct (upsertFile flt (db s) (driveFileData f)) as [[d o]|].
Qed.

Lemma textual_processFilesBatch files s :
  Deployed.processFilesBatch (Deployed.textual flt) files s
  = processFilesBatch flt files s.
Proof.
  unfold Deployed.processFilesBatch, processFilesBatch.
  generalize (batchesOf files). intros batches. revert s.
  induction batches as [|batch batches IH]; intros s; cbn [fold_left];
    [done|].
  rewrite <- IH. f_equal. unfold Deployed.processBatch, processBatch.
  by rewrite textual_records.
Qed.

Lemma textual_permissions fileId permissions seen s :
  fileId ∈ Prisma.fileIds (db s) ->
  fold_left (Deployed.processPermission (Deployed.textual flt) fileId)
    permissions (false, (seen, s))
  = (false, fold_left (processPermission flt fileId) permissions (seen, s)).
Proof.
  revert seen s. induction permissions as [|p ps IH]; intros seen s Hfile;
    cbn [fold_left]; [done|].
  assert (Deployed.processPermission (Deployed.textual flt) fileId
            (false, (seen, s)) p
          = (false, processPermission flt fileId (seen, s) p)) as ->.
  { unfold Deployed.processPermission, processPermission.
    case_decide; [done|]. rewrite textual_upsertPermission by done.
    by destruct (upsertPermission flt (db s) (drivePermissionData fileId p))
      as [[d o]|]. }
  pose proof (processPermission_step flt fileId seen s p Hfile) as (Hf & _).
  destruct (processPermission flt fileId (seen, s) p) as [seen1 s1].
  cbn [snd] in Hf. apply IH. unfold Prisma.fileIds. by rewrite Hf.
Qed.

Lemma textual_permissionsOfFile drive n seen s i fileId :
  fileId ∈ Prisma.fileIds (db s) ->
  Deployed.permissionsOfFile (Deployed.textual flt) drive n (seen, s)
    (i, fileId)
  = permissionsOfFile flt drive n (seen, s) (i, fileId).
Proof.
  intros Hfile. unfold Deployed.permissionsOfFile, permissionsOfFile.
  destruct (Drive.permissions_list drive fileId) as [permissions|]; [|done].
  rewrite textual_permissions by done.
  by destruct (fold_left (processPermission flt fileId) permissions _)
    as [seen1 s1].
Qed.

Lemma textual_syncAllPermissions drive s :
  Deployed.syncAllPermissions (Deployed.textual flt) drive s
  = syncAllPermissions flt drive s.
Proof.
  unfold Deployed.syncAllPermissions, syncAllPermissions.
  cbn [Deployed.textual Deployed.findMany].
  set (n := length (Prisma.fileIds (db s))). f_equal.
  assert (∀ files x,
            (∀ file, file ∈ files -> file.2 ∈ Prisma.fileIds (db x.2)) ->
            fold_left (Deployed.permissionsOfFile (Deployed.textual flt)
                         drive n) files x
            = fold_left (permissionsOfFile flt drive n) files x) as H.
  { induction files as [|[i fileId] files IH]; intros [seen s'] Hfiles;
      cbn [fold_left]; [done|].
    rewrite textual_permissionsOfFile by (apply (Hfiles (i, fileId)); left).
    apply IH. intros file Hin.
    pose proof (permissionsOfFile_advances flt drive n seen s' i fileId)
      as (_ & Hf & _).
    unfold Prisma.fileIds. cbn [snd] in *. rewrite Hf.
    apply Hfiles. by right. }
  apply H. intros file Hin. by apply imap_pair_elem.
Qed.

(** [GoogleDriveSyncService] is the engine where it runs when every
    refusal comes from the client, no listener throws, and [findMany]
    answers in the order of the table. *)
Lemma textual_startSync drive db0 :
  Deployed.startSync (Deployed.textual flt) drive db0
  = startSync flt drive db0.
Proof.
  unfold Deployed.startSync, startSync, Deployed.getTotalFileCount,
    getTotalFileCount, Deployed.syncDriveFilesWithPagination,
    syncDriveFilesWithPagination.
  destruct (Drive.countListing drive) as [rc restc].
  rewrite textual_countLoop.
  destruct (countLoop rc restc 0 (new db0)) as [[n|] sc];
    destruct (Drive.fetchListing drive) as [r rest];
    rewrite textual_fetchLoop;
    destruct (fetchLoop r rest [] _) as [[files|] sf]; try done;
    by rewrite textual_processFilesBatch, textual_syncAllPermissions.
Qed.

End Textual.

(** * The properties of the specification, where the engine runs *)

(** ** C8: batches *)

Section BatchesWhereTheyRun.

Import GoogleDriveSyncService Example Scenario.

(** C8 (the engine, and the engine at the failing input).
    [processFilesBatch] cuts the fetched files, in submission order, into
    consecutive batches of at most ten (the [k]-th batch is the files
    [10k .. 10k+9]), and runs each batch in one transaction of its own,
    with at most one write a record.  Every record is processed or counted
    as an error.  A batch none of whose writes fails in the database ends
    with every record persisted as fetched, but for the rows that the
    client refuses; a record that the client refuses costs one error and
    nothing else, the batch ends as it would without the record.  But a
    record whose write fails in the database is not isolated: the records
    after it in the batch are counted as errors and write nothing, and the
    commit leaves the tables as they were before the batch, the rows of
    the records before it included.  At the failing input, the batch [A],
    [B], [C] on an empty database where the write of [B] fails in the
    database, the run completes with one file processed and two errors and
    leaves no row; had the client refused [B], it would have left [A] and
    [C], with one error. *)
Theorem a_failed_write_takes_its_batch (env : Deployed.Env)
  (files : list DriveFileData.t) (s : t) :
  concat (batchesOf files) = files
  ∧ Forall (fun batch => 0 < length batch <= 10) (batchesOf files)
  ∧ (∀ k, batchesOf files !! k
          = if Nat.ltb (10 * k) (length files)
            then Some (take 10 (drop (10 * k) files))
            else None)
  ∧ (∃ inners,
       Forall2 (fun batch inner =>
                  Forall (fun o => isWrite o = true) inner
                  ∧ length inner <= length batch) (batchesOf files) inners
       ∧ ops (Deployed.processFilesBatch env files s)
         = ops s ++ concat (map Deployed.bracket inners))
  ∧ (let s' := Deployed.processFilesBatch env files s in
     processedFiles s <= processedFiles s' <= processedFiles s + length files
     ∧ processedFiles s + errors s + length files
       <= processedFiles s' + errors s'
     ∧ (Deployed.quiet env ->
        processedFiles s' + errors s'
        = processedFiles s + errors s + length files))
  ∧ (∀ s batch,
       NoDup (map DriveFileData.id batch) ->
       let s' := Deployed.processBatch env s batch in
       if existsb (Deployed.fails env (db s)) batch
       then db s' = db s
       else (∀ f, f ∈ batch ->
               Prisma.driveFile_.findUnique (db s') (DriveFileData.id f)
               = if Deployed.rejects env (db s) f
                 then Prisma.driveFile_.findUnique (db s) (DriveFileData.id f)
                 else Some (driveFileData f))
            ∧ (∀ id, id ∉ map DriveFileData.id batch ->
                 Prisma.driveFile_.findUnique (db s') id
                 = Prisma.driveFile_.findUnique (db s) id))
  ∧ (∀ s before f after,
       let s1 := fold_left (Deployed.processFile env) before
                   (false, record TxBegin s) in
       s1.1 = false ->
       Deployed.upsertFile env (db s1.2) (driveFileData f)
       = Deployed.Rejected ->
       Deployed.processBatch env s (before ++ f :: after)
       = set_errors
           (S (errors (Deployed.processBatch env s (before ++ after))))
           (Deployed.processBatch env s (before ++ after)))
  ∧ (∀ s before f after,
       let s1 := fold_left (Deployed.processFile env) before
                   (false, record TxBegin s) in
       s1.1 = false ->
       Deployed.upsertFile env (db s1.2) (driveFileData f)
       = Deployed.Failed ->
       let s' := Deployed.processBatch env s (before ++ f :: after) in
       db s' = db s
       ∧ processedFiles s' = processedFiles s1.2
       ∧ errors s' = errors s1.2 + 1 + length after
       ∧ ops s' = ops s1.2 ++ [TxCommit]
       ∧ emitted s' = emitted s1.2)
  ∧ (let run := Deployed.startSync failsB driveABC emptyDb in
     run.1 = Some (mkStats 3 1 0 0 2)
     ∧ db run.2 = emptyDb)
  ∧ (let run := Deployed.startSync rejectsB driveABC emptyDb in
     run.1 = Some (mkStats 3 2 0 0 1)
     ∧ Prisma.fileIds (db run.2) = ["A"; "C"]).
Proof.
  split_and!.
  - apply batchesOf_concat.
  - apply batchesOf_bounded.
  - apply batchesOf_lookup.
  - apply deployed_batches_ops.
  - apply deployed_processFilesBatch_accounts.
  - intros s0 batch. apply deployed_processBatch_tables.
  - intros s0 before f after. apply deployed_processBatch_rejected.
  - intros s0 before f after. apply deployed_processBatch_failed.
  - by vm_compute.
  - by vm_compute.
Qed.

End BatchesWhereTheyRun.

Section BatchesInstances.

Import GoogleDriveSyncService Example Scenario.

(** The batch [A], [B], [C] on the empty database: when the write of [B]
    fails in the database nothing is left and [C] is an error too; when
    the client refuses [B] the batch ends as the batch [A], [C], with one
    error more. *)
Lemma a_failed_write_takes_its_batch_witness :
  (db (Deployed.processBatch failsB (new emptyDb)
         [recordA; recordB; recordC]) = emptyDb
   ∧ errors (Deployed.processBatch failsB (new emptyDb)
               [recordA; recordB; recordC]) = 2)
  ∧ Deployed.processBatch rejectsB (new emptyDb) [recordA; recordB; recordC]
    = set_errors 1
        (Deployed.processBatch rejectsB (new emptyDb) [recordA; recordC]).
Proof.
  split.
  - destruct (proj1 (proj2 (proj2 (proj2 (proj2 (proj2 (proj2 (proj2
                (a_failed_write_takes_its_batch failsB
                   [recordA; recordB; recordC] (new emptyDb)))))))))
               (new emptyDb) [recordA] recordB [recordC] eq_refl eq_refl)
      as (Hd & _ & He & _).
    split; [exact Hd|exact He].
  - exact (proj1 (proj2 (proj2 (proj2 (proj2 (proj2 (proj2
             (a_failed_write_takes_its_batch rejectsB
                [recordA; recordB; recordC] (new emptyDb))))))))
             (new emptyDb) [recordA] recordB [recordC] eq_refl eq_refl).
Defined.

End BatchesInstances.

(** ** C7: a grant listing that throws *)

Section ListingFailureWhereItRuns.

Import GoogleDriveSyncService Spec Further.

Lemma deployed_settledState_counters env drive db0 files :
  Deployed.quiet env -> Deployed.ordered env ->
  Deployed.acceptsFiles env -> Deployed.acceptsPermissions env ->
  let s1 := Deployed.settledState env drive db0 files in
  processedFiles s1 = length files
  ∧ errors s1 = length (throwing drive (Prisma.fileIds (db s1))).
Proof.
  intros Hq Hord Hf Hp. cbv zeta.
  assert (Prisma.fileIds (db (Deployed.settledState env drive db0 files))
          = Prisma.fileIds
              (db (Deployed.processFilesBatch env (map toDriveFileData files)
                     (Deployed.fetchedState env drive db0)))) as ->.
  { unfold Prisma.fileIds. by rewrite deployed_settledState_files. }
  unfold Deployed.settledState.
  set (sf := Deployed.fetchedState env drive db0).
  destruct (deployed_fetchedState_frame env drive db0)
    as (_ & _ & E0 & P0 & _).
  fold sf in E0, P0.
  destruct (deployed_processFilesBatch_acceptedFiles env
              (map toDriveFileData files) sf Hf) as (P1 & E1).
  specialize (E1 Hq). rewrite length_map in P1.
  set (sp := Deployed.processFilesBatch env _ sf) in *.
  pose proof (deployed_syncAllPermissions_errors env drive Hp sp Hq Hord)
    as E2.
  destruct (deployed_syncAllPermissions_counters env drive sp)
    as (_ & P2 & _).
  set (sg := Deployed.syncAllPermissions env drive sp) in *.
  destruct (cleanupOrphanedData_frame sg) as (_ & E3 & _).
  destruct (cleanupOrphanedData_counters sg) as (_ & P3 & _).
  split; [lia|]. rewrite E3, E2. lia.
Qed.

(** C7 (as the code behaves).  In the engine an entry whose grant listing
    throws costs exactly one error and nothing else, and the loop goes on
    from the same set of processed ids, database and counters; the phase
    ends with the database, the permission counters and the writes it
    would have had the entry no grants at all.  Where no listener throws,
    the phase counts one error more for every such entry, and where
    moreover no write is refused or fails these are all its errors: a run
    whose pages all arrive completes with as many errors as entries whose
    listing threw (one of ten: [errors = 1]), and every grant that an
    answered listing shows is persisted, under the first entry that shows
    its id.  In the one-shot synchroniser [getFilePermissions] catches
    the failure too and answers with no grants, and counts nothing:
    [POST] answers as on the catalogue where that entry has no grants. *)
Theorem grant_listing_failure_is_isolated (env : Deployed.Env)
  (drive : Drive.t) (s : t) :
  (∀ seen s0 n i fileId,
     Drive.permissions_list drive fileId = None ->
     Deployed.permissionsOfFile env drive n (seen, s0) (i, fileId)
     = (seen, set_errors (S (errors s0)) s0))
  ∧ (let failing := Deployed.syncAllPermissions env drive s in
     let empty := Deployed.syncAllPermissions env (forgiving drive) s in
     db failing = db empty
     ∧ processedPermissions failing = processedPermissions empty
     ∧ totalPermissions failing = totalPermissions empty
     ∧ writes (ops failing) = writes (ops empty)
     ∧ (Deployed.quiet env -> Deployed.ordered env ->
        errors failing
        = errors empty + length (throwing drive (Prisma.fileIds (db s)))))
  ∧ (Deployed.quiet env -> Deployed.ordered env ->
     Deployed.acceptsPermissions env ->
     errors (Deployed.syncAllPermissions env drive s)
     = errors s + length (throwing drive (Prisma.fileIds (db s))))
  ∧ (∀ db0 files,
       Deployed.quiet env -> Deployed.ordered env ->
       Deployed.acceptsFiles env -> Deployed.acceptsPermissions env ->
       Prisma.unique db0 ->
       Drive.drain (Drive.fetchListing drive) = Some files ->
       let run := Deployed.startSync env drive db0 in
       ∃ stats,
         run.1 = Some stats
         ∧ stats_processedFiles stats = length files
         ∧ stats_errors stats
           = length (throwing drive (Prisma.fileIds (db run.2)))
         ∧ ∀ fileId permissions p,
             fileId ∈ Prisma.fileIds (db run.2) ->
             Drive.permissions_list drive fileId = Some permissions ->
             p ∈ permissions ->
             ∃ fileId' p',
               firstOccurrence drive
                 (Deployed.findMany env (Prisma.fileIds (db run.2)))
                 (SchemaPermission.id p) = Some (fileId', p')
               ∧ Prisma.drivePermission_.findUnique (db run.2)
                   (SchemaPermission.id p)
                 = Some (drivePermissionData fileId' p'))
  ∧ (∀ fileId,
       Drive.permissions_list drive fileId = None ->
       GoogleDriveService.getFilePermissions drive fileId = [])
  ∧ (∀ flt db0,
       SyncServer.POST flt drive db0
       = SyncServer.POST flt (forgiving drive) db0).
Proof.
  split_and!.
  - intros seen s0 n i fileId Hl. unfold Deployed.permissionsOfFile.
    by rewrite Hl.
  - apply deployed_syncAllPermissions_alike.
  - intros Hq Hord Hp. by apply deployed_syncAllPermissions_errors.
  - intros db0 files Hq Hord Hf Hp Huniq Hdrain. cbv zeta.
    rewrite deployed_startSync_spec.
    rewrite (deployed_fetch_quiet env drive _ files Hq Hdrain).
    cbv zeta. rewrite Hq. cbn [fst snd db GoogleDriveSyncService.emit].
    destruct (deployed_settledState_counters env drive db0 files Hq Hord
                Hf Hp) as [Hpf He].
    eexists. split; [done|]. cbn [stats_processedFiles stats_errors
                                  getSyncStats].
    split_and!; [done..|].
    intros fileId permissions p Hfile Hl Hin.
    pose proof (deployed_settledState_grants env drive db0 files Hp Hord
                  Huniq) as Hgrants.
    unfold firstOccurrence.
    destruct (List.find _ (occurrences drive _)) as [[fileId' p']|] eqn:E.
    + exists fileId', p'. split; [done|]. by apply Hgrants.
    + exfalso.
      apply (find_None_keys (fun o : string * SchemaPermission.t =>
                               SchemaPermission.id o.2)) in E.
      rewrite occurrences_ids in E. apply E.
      apply listedGrants_elem. exists fileId, permissions, p.
      split_and!; try done.
      by rewrite (Hord (Prisma.fileIds _)).
  - intros fileId Hl. unfold GoogleDriveService.getFilePermissions.
    by rewrite Hl.
  - intros flt db0. unfold SyncServer.POST.
    by rewrite syncAllData_forgiving.
Qed.

End ListingFailureWhereItRuns.

Section ListingFailureInstances.

Import GoogleDriveSyncService Spec Further Example Scenario.

Local Ltac decided := apply (bool_decide_unpack _); vm_compute; exact I.

Lemma plain_quiet : Deployed.quiet plain.
Proof. by intros k. Qed.

Lemma plain_ordered : Deployed.ordered plain.
Proof. by intros ids. Qed.

Lemma plain_acceptsFiles : Deployed.acceptsFiles plain.
Proof. by intros row. Qed.

Lemma plain_acceptsPermissions : Deployed.acceptsPermissions plain.
Proof. by intros row. Qed.

(** Ten entries, the listing of ["f3"] throws: the run of the engine
    completes with one error and the grant of ["f4"] is persisted. *)
Lemma grant_listing_failure_is_isolated_witness :
  ∃ stats,
    (Deployed.startSync plain driveTen emptyDb).1 = Some stats
    ∧ stats_processedFiles stats = 10
    ∧ stats_errors stats = 1
    ∧ Prisma.drivePermission_.findUnique
        (db (Deployed.startSync plain driveTen emptyDb).2) "gf4"
      = Some (drivePermissionData "f4" (grant "gf4")).
Proof.
  destruct (proj1 (proj2 (proj2 (proj2
              (grant_listing_failure_is_isolated plain driveTen
                 (new emptyDb)))))
              emptyDb ten plain_quiet plain_ordered plain_acceptsFiles
              plain_acceptsPermissions)
    as (stats & Hrun & Hp & He & Hgrants).
  - split; constructor.
  - reflexivity.
  - exists stats. split_and!; [exact Hrun|exact Hp| |].
    + rewrite He. by vm_compute.
    + destruct (Hgrants "f4" [grant "gf4"] (grant "gf4"))
        as (fileId' & p' & Hfirst & Hrow).
      * decided.
      * reflexivity.
      * by left.
      * vm_compute in Hfirst. injection Hfirst as <- <-. exact Hrow.
Defined.

(** The same ten entries in the one-shot synchroniser: the listing of
    ["f3"] throws, nine grants are persisted and no error is counted. *)
Lemma one_shot_counts_no_listing_failure :
  Drive.permissions_list driveTen "f3" = None
  ∧ option_map
      (fun report =>
         (SyncServer.files_errors (SyncServer.report_files report),
          SyncServer.permissions_errors
            (SyncServer.report_permissions report),
          length (Prisma.drivePermission (SyncServer.report_db report))))
      (SyncServer.POST Prisma.noFaults driveTen emptyDb)
    = Some (0, 0, 9).
Proof. by vm_compute. Qed.

End ListingFailureInstances.

(** ** C2: a second run *)

Section SecondRunWhereItRuns.

Import GoogleDriveSyncService Spec Further.

(** On a persisted state that equals the fetched state the three phases
    and the pruning write nothing. *)
Lemma deployed_settledState_persisted env drive db0 files :
  Deployed.filesPersisted files db0 ->
  Deployed.grantsPersisted env drive db0 ->
  Prisma.referential db0 ->
  let s := Deployed.settledState env drive db0 files in
  db s = db0 ∧ writes (ops s) = [] ∧ processedFiles s = length files.
Proof.
  intros Hfiles Hgrants Href. cbv zeta. unfold Deployed.settledState.
  destruct (deployed_fetchedState_frame env drive db0)
    as (D0 & O0 & _ & P0 & _).
  set (sf := Deployed.fetchedState env drive db0) in *.
  destruct (deployed_processFilesBatch_persisted env files sf)
    as (D1 & O1 & P1 & _); [by rewrite D0|].
  set (sp := Deployed.processFilesBatch env _ sf) in *.
  destruct (deployed_syncAllPermissions_persisted env drive sp)
    as (D2 & O2); [by rewrite D1, D0|].
  destruct (deployed_syncAllPermissions_counters env drive sp)
    as (_ & P2 & _).
  set (sg := Deployed.syncAllPermissions env drive sp) in *.
  rewrite cleanupOrphanedData_quiet by (by rewrite D2, D1, D0).
  split_and!; [congruence| |lia].
  rewrite O2, O1, O0. done.
Qed.

(** The file loop of the one-shot synchroniser on rows that are there as
    it would write them: every file is skipped. *)
Lemma syncFiles_skip flt files s :
  (∀ f, f ∈ files ->
     Prisma.driveFile_.findUnique (SyncServer.db s) (DriveFileData.id f)
     = Some (SyncServer.driveFileData f)) ->
  fold_left (SyncServer.syncFile flt) files s
  = SyncServer.mkTally (SyncServer.upserted s) (SyncServer.updated s)
      (SyncServer.skipped s + length files) (SyncServer.errors s)
      (SyncServer.db s) (SyncServer.ops s).
Proof.
  revert s. induction files as [|f files IH]; intros s Hrows;
    cbn [fold_left length].
  - rewrite Nat.add_0_r. by destruct s.
  - rewrite syncFile_spec. cbv zeta. rewrite (Hrows f) by left.
    rewrite decide_True by done. rewrite IH.
    + cbn. do 2 f_equal. lia.
    + intros g Hg. cbn. apply Hrows. by right.
Qed.

End SecondRunWhereItRuns.

Section SecondRun.

Import GoogleDriveSyncService Spec Further Example Scenario.

(** C2 (the code, and the one-shot synchroniser at the failing input).
    The engine on a persisted state that equals the fetched state (every
    fetched file has its row as fetched, every listed grant id the row of
    its first occurrence, no permission without its file) performs no
    create and no update and leaves the database as it is, whatever is
    refused, fails or throws; where no listener throws it completes with
    every file processed.  A run of the engine that completes where no
    write is refused or fails leaves such a state: a second run on the
    unchanged catalogue writes nothing, also when a grant id is shared by
    several entries.  The file loop of the one-shot synchroniser skips
    every file that is there as it would write it.  Its permission loop
    does not: it has no set of processed ids, and at the failing input,
    the entries [A] and [B] shared with the same grantee, every [POST]
    after the first updates the row of the grant twice, where the second
    run of the engine on the same input writes nothing. *)
Theorem one_shot_rewrites_shared_grants_on_every_run (env : Deployed.Env)
  (drive : Drive.t) (db0 : Prisma.Db) :
  (∀ files,
     Drive.drain (Drive.fetchListing drive) = Some files ->
     Deployed.filesPersisted files db0 ->
     Deployed.grantsPersisted env drive db0 ->
     Prisma.referential db0 ->
     let run := Deployed.startSync env drive db0 in
     db run.2 = db0 ∧ writes (ops run.2) = []
     ∧ (Deployed.quiet env ->
        ∃ stats, run.1 = Some stats
                 ∧ stats_processedFiles stats = length files))
  ∧ (∀ files stats,
       Deployed.acceptsFiles env -> Deployed.acceptsPermissions env ->
       Deployed.ordered env -> Prisma.unique db0 ->
       Drive.drain (Drive.fetchListing drive) = Some files ->
       NoDup (map SchemaFile.id files) ->
       (Deployed.startSync env drive db0).1 = Some stats ->
       let d1 := db (Deployed.startSync env drive db0).2 in
       let run2 := Deployed.startSync env drive d1 in
       db run2.2 = d1 ∧ writes (ops run2.2) = [])
  ∧ (∀ flt files d,
       (∀ f, f ∈ files ->
          Prisma.driveFile_.findUnique d (DriveFileData.id f)
          = Some (SyncServer.driveFileData f)) ->
       let r := SyncServer.syncDriveFiles flt files d in
       r.1 = SyncServer.mkFilesResult 0 0 (length files) 0 (length files)
       ∧ SyncServer.db r.2 = d
       ∧ writes (SyncServer.ops r.2) = [])
  ∧ match SyncServer.POST Prisma.noFaults driveShared dbAB with
    | Some report =>
        option_map
          (fun report2 =>
             (SyncServer.permissions_updated
                (SyncServer.report_permissions report2),
              SyncServer.permissions_skipped
                (SyncServer.report_permissions report2)))
          (SyncServer.POST Prisma.noFaults driveShared
             (SyncServer.report_db report))
        = Some (2, 0)
    | None => False
    end
  ∧ (let d1 := db (Deployed.startSync plain driveShared dbAB).2 in
     let run2 := Deployed.startSync plain driveShared d1 in
     db run2.2 = d1 ∧ writes (ops run2.2) = []).
Proof.
  assert (Hpersisted : ∀ env drive db0 files,
            Drive.drain (Drive.fetchListing drive) = Some files ->
            Deployed.filesPersisted files db0 ->
            Deployed.grantsPersisted env drive db0 ->
            Prisma.referential db0 ->
            db (Deployed.startSync env drive db0).2 = db0
            ∧ writes (ops (Deployed.startSync env drive db0).2) = []).
  { clear. intros env drive db0 files Hdrain Hf Hg Href.
    rewrite deployed_startSync_spec.
    destruct (Deployed.fetchLoop env _ _ [] _).1 as [files'|] eqn:E.
    - apply deployed_fetched in E.
      assert (files' = files) as -> by congruence. cbv zeta.
      destruct (deployed_settledState_persisted env drive db0 files Hf Hg
                  Href) as (Hd & Ho & _).
      by destruct (Deployed.listenerThrows env _).
    - cbn. destruct (deployed_fetchedState_frame env drive db0)
        as (-> & -> & _). done. }
  split_and!.
  - intros files Hdrain Hf Hg Href. cbv zeta.
    destruct (Hpersisted env drive db0 files Hdrain Hf Hg Href) as [Hd Ho].
    split_and!; [done..|]. intros Hq.
    rewrite deployed_startSync_spec.
    rewrite (deployed_fetch_quiet env drive _ files Hq Hdrain).
    cbv zeta. rewrite Hq. eexists. split; [done|]. cbn.
    by destruct (deployed_settledState_persisted env drive db0 files Hf Hg
                   Href) as (_ & _ & ->).
  - intros files stats Hf Hp Hord Huniq Hdrain Hnd Hrun. cbv zeta.
    apply deployed_startSync_completed in Hrun
      as (files' & Hd' & _ & _ & ->).
    assert (files' = files) as -> by congruence.
    cbn [db GoogleDriveSyncService.emit].
    apply (Hpersisted env drive _ files Hdrain).
    + intros f Hin.
      destruct (deployed_settledState_tables env drive db0 files Hnd)
        as [Hrows _].
      assert (toDriveFileData f ∈ concat (batchesOf (map toDriveFileData
                                                        files))) as Hc.
      { rewrite batchesOf_concat. by apply list_elem_of_fmap_2. }
      apply list_elem_of_In, in_concat in Hc as (batch & Hb & Hfb).
      apply list_elem_of_In in Hb, Hfb.
      specialize (Hrows batch Hb _ Hfb). cbn [toDriveFileData
                                               DriveFileData.id] in Hrows.
      rewrite Hrows.
      assert (∀ g, Deployed.fails env db0 g = false
                   ∧ Deployed.rejects env db0 g = false) as Hok.
      { intros g. unfold Deployed.fails, Deployed.rejects.
        destruct (deployed_upsertFile_accepted env db0 (driveFileData g))
          as (d' & o & ->); [apply Hf..|]. done. }
      rewrite (existsb_agree (Deployed.fails env db0) (fun _ => false) batch)
        by (intros g _; apply Hok).
      assert (existsb (fun _ : DriveFileData.t => false) batch = false)
        as -> by (clear; induction batch; done).
      by rewrite (proj2 (Hok _)).
    + by apply deployed_settledState_grants.
    + unfold Deployed.settledState. apply cleanupOrphanedData_referential.
  - intros flt files d Hrows. cbv zeta. unfold SyncServer.syncDriveFiles.
    rewrite syncFiles_skip by done. cbn. by split_and!.
  - by vm_compute.
  - by vm_compute.
Qed.

End SecondRun.

(** * Further properties of the code, where the engine runs *)

(** ** Counting, fetching and the events of a run *)

Section DeployedCountAndFetch.

Import GoogleDriveSyncService Spec Further.

Variable env : Deployed.Env.
Variable drive : Drive.t.

Lemma deployed_settledState_frame db0 files :
  let s := Deployed.settledState env drive db0 files in
  totalFiles s = (Deployed.getTotalFileCount env drive (new db0)).1
  ∧ ∃ events, emitted s = map progress events.
Proof.
  cbv zeta. unfold Deployed.settledState.
  destruct (deployed_fetchedState_frame env drive db0)
    as (_ & _ & _ & _ & _ & _ & Ht & e0 & E0).
  set (sf := Deployed.fetchedState env drive db0) in *.
  destruct (deployed_processFilesBatch_frame env (map toDriveFileData files)
              sf) as (F1 & _).
  destruct (deployed_processFilesBatch_emits env (map toDriveFileData files)
              sf) as (e1 & E1).
  set (sp := Deployed.processFilesBatch env _ sf) in *.
  destruct (deployed_syncAllPermissions_counters env drive sp)
    as (P1 & _ & e2 & E2).
  set (sg := Deployed.syncAllPermissions env drive sp) in *.
  destruct (cleanupOrphanedData_counters sg) as (C1 & _).
  destruct (cleanupOrphanedData_frame sg) as (_ & _ & C2 & _).
  split; [congruence|].
  exists (e0 ++ e1 ++ e2). unfold emits in *.
  by rewrite C2, E2, E1, E0, !map_app, !app_assoc.
Qed.

End DeployedCountAndFetch.

Section DeployedCount.

Import GoogleDriveSyncService Spec Further.

(** X1.  The count of [getTotalFileCount] is the number of files of the
    pages of its listing when every request is answered and no listener
    throws on one of the broadcasts of the loop, and 0 otherwise: a
    request that throws and a listener that throws are swallowed by the
    same [catch].  [startSync] keeps this number as [totalFiles] to the
    end of the run and reports it in its statistics. *)
Theorem count_is_the_listing_length_or_zero (env : Deployed.Env)
  (drive : Drive.t) (db0 : Prisma.Db) :
  let count (k : nat) :=
    match Drive.drain (Drive.countListing drive) with
    | Some files =>
        if Deployed.quietFor env k (Deployed.pages (Drive.countListing drive))
        then length files else 0
    | None => 0
    end in
  (∀ s, (Deployed.getTotalFileCount env drive s).1
        = count (length (emitted s)))
  ∧ totalFiles (Deployed.startSync env drive db0).2 = count 0
  ∧ (∀ stats, (Deployed.startSync env drive db0).1 = Some stats ->
              stats_totalFiles stats = count 0).
Proof.
  cbv zeta. split_and!.
  - intros s. apply deployed_getTotalFileCount_spec.
  - rewrite deployed_startSync_spec.
    pose proof (deployed_getTotalFileCount_spec env drive (new db0)) as Hc.
    cbn [emitted new length] in Hc. rewrite <- Hc.
    destruct (Deployed.fetchLoop env _ _ [] _).1 as [files|].
    + cbv zeta.
      destruct (deployed_settledState_frame env drive db0 files) as [Ht _].
      by destruct (Deployed.listenerThrows env _).
    + cbn. apply deployed_fetchedState_frame.
  - intros stats Hrun.
    apply deployed_startSync_completed in Hrun
      as (files & _ & -> & _ & _).
    pose proof (deployed_getTotalFileCount_spec env drive (new db0)) as Hc.
    cbn [emitted new length] in Hc. rewrite <- Hc.
    cbn. apply deployed_settledState_frame.
Qed.

(** X2.  A run of [startSync] ends without a result only when a request of
    the fetch loop throws or a listener throws on one of its broadcasts.
    When a request of the fetch throws the run has written nothing: the
    database is unchanged, no operation was performed, nothing was
    processed and no error was counted.  Where no listener throws, the
    failing runs are exactly those whose fetch throws. *)
Theorem run_fails_only_when_a_fetch_or_a_listener_throws
  (env : Deployed.Env) (drive : Drive.t) (db0 : Prisma.Db) :
  let run := Deployed.startSync env drive db0 in
  (Drive.drain (Drive.fetchListing drive) = None ->
   run.1 = None ∧ db run.2 = db0 ∧ ops run.2 = [] ∧ errors run.2 = 0
   ∧ processedFiles run.2 = 0 ∧ processedPermissions run.2 = 0)
  ∧ (run.1 = None ->
     Drive.drain (Drive.fetchListing drive) = None
     ∨ ∃ k, k < length (emitted run.2)
            ∧ Deployed.listenerThrows env k = true)
  ∧ (Deployed.quiet env ->
     (run.1 = None <-> Drive.drain (Drive.fetchListing drive) = None)).
Proof.
  cbv zeta.
  assert (Hthrown : Drive.drain (Drive.fetchListing drive) = None ->
            (Deployed.startSync env drive db0).1 = None
            ∧ db (Deployed.startSync env drive db0).2 = db0
            ∧ ops (Deployed.startSync env drive db0).2 = []
            ∧ errors (Deployed.startSync env drive db0).2 = 0
            ∧ processedFiles (Deployed.startSync env drive db0).2 = 0
            ∧ processedPermissions (Deployed.startSync env drive db0).2 = 0).
  { intros Hd. rewrite deployed_startSync_spec, deployed_fetchLoop_spec.
    unfold Drive.drain in Hd. rewrite Hd. cbn.
    destruct (deployed_fetchedState_frame env drive db0)
      as (F1 & F2 & F3 & F4 & F5 & F6 & _).
    by split_and!. }
  assert (Hcause : (Deployed.startSync env drive db0).1 = None ->
            Drive.drain (Drive.fetchListing drive) = None
            ∨ ∃ k, k < length (emitted (Deployed.startSync env drive db0).2)
                   ∧ Deployed.listenerThrows env k = true).
  { rewrite deployed_startSync_spec.
    destruct (Deployed.fetchLoop env _ _ [] _).1 as [files|] eqn:E.
    - cbv zeta.
      destruct (Deployed.listenerThrows env _) eqn:Hl; cbn [fst snd];
        [|done].
      intros _. right.
      exists (length (emitted (Deployed.settledState env drive db0 files))).
      split; [|exact Hl].
      cbn [emitted GoogleDriveSyncService.emit]. rewrite !length_app.
      cbn [length]. lia.
    - intros _.
      apply deployed_fetchLoop_None in E as [E|(k & Hk & Ht)]; [by left|].
      right. exists k. split; [|done]. cbn. rewrite length_app.
      unfold Deployed.fetchedState. lia. }
  split_and!; [done..|].
  intros Hq. split; [|intros Hd; by destruct (Hthrown Hd)].
  intros [H|(k & _ & Hk)]%Hcause; [done|]. by rewrite Hq in Hk.
Qed.

(** X3.  Every run of [startSync] broadcasts progress events and then its
    terminal events, last: [sync_complete] with the statistics it returns
    when it completes, [sync_error] when the fetch fails, and both, in this
    order, when a listener throws on [sync_complete] (the broadcast is
    inside the [try]).  Where no listener throws there is exactly one
    terminal event. *)
Theorem run_ends_with_its_terminal_events (env : Deployed.Env)
  (drive : Drive.t) (db0 : Prisma.Db) :
  let run := Deployed.startSync env drive db0 in
  ∃ events,
    match run.1 with
    | Some stats =>
        emitted run.2 = map progress events ++ [sync_complete stats]
        ∧ Deployed.listenerThrows env (length events) = false
    | None =>
        emitted run.2 = map progress events ++ [sync_error]
        ∨ ∃ stats,
            emitted run.2
            = map progress events ++ [sync_complete stats; sync_error]
            ∧ Deployed.listenerThrows env (length events) = true
    end
    ∧ (Deployed.quiet env ->
       emitted run.2 = map progress events ++ [terminal run.1]).
Proof.
  cbv zeta. rewrite deployed_startSync_spec.
  destruct (Deployed.fetchLoop env _ _ [] _).1 as [files|] eqn:E.
  - cbv zeta.
    destruct (deployed_settledState_frame env drive db0 files)
      as (_ & events & He).
    exists events. rewrite He, length_map.
    destruct (Deployed.listenerThrows env (length events)) eqn:Hl;
      cbn [fst snd emitted GoogleDriveSyncService.emit].
    + rewrite He. split.
      * right. eexists. split; [|done]. by rewrite <- app_assoc.
      * intros Hq. by rewrite Hq in Hl.
    + rewrite He. by split.
  - destruct (deployed_fetchedState_frame env drive db0)
      as (_ & _ & _ & _ & _ & _ & _ & events & He).
    exists events. cbn [fst snd emitted GoogleDriveSyncService.emit].
    rewrite He. split; [by left|done].
Qed.

End DeployedCount.

(** ** The tables after a run *)

Section DeployedAfterARun.

Import GoogleDriveSyncService Spec Further.

(** X9.  After a run that completes on a catalogue with distinct ids the
    files are persisted batch by batch.  A batch one of whose writes fails
    in the database leaves no trace: each of its records has the row it
    had before the run, or none.  In every other batch each record has its
    row with the fetched values (and the defaults of the conversion),
    unless the client refuses that row, which then stays as it was.  The
    row of every id that was not fetched is exactly as it was before the
    run, present or absent. *)
Theorem run_persists_the_batches_that_commit (env : Deployed.Env)
  (drive : Drive.t) (db0 : Prisma.Db) (files : list SchemaFile.t)
  (stats : SyncStats) :
  (Deployed.startSync env drive db0).1 = Some stats ->
  Drive.drain (Drive.fetchListing drive) = Some files ->
  NoDup (map SchemaFile.id files) ->
  let d := db (Deployed.startSync env drive db0).2 in
  (∀ batch, batch ∈ batchesOf (map toDriveFileData files) ->
     ∀ f, f ∈ batch ->
       Prisma.driveFile_.findUnique d (DriveFileData.id f)
       = if existsb (Deployed.fails env db0) batch
         then Prisma.driveFile_.findUnique db0 (DriveFileData.id f)
         else if Deployed.rejects env db0 f
         then Prisma.driveFile_.findUnique db0 (DriveFileData.id f)
         else Some (driveFileData f))
  ∧ (∀ id, id ∉ map SchemaFile.id files ->
       Prisma.driveFile_.findUnique d id
       = Prisma.driveFile_.findUnique db0 id).
Proof.
  intros Hrun Hdrain Hnd.
  apply deployed_startSync_completed in Hrun as (files' & Hd' & _ & _ & ->).
  assert (files' = files) as -> by congruence.
  cbn [db GoogleDriveSyncService.emit].
  by apply deployed_settledState_tables.
Qed.

(** X12.  After a run that completes where no permission row is refused
    or fails (on a database with unique keys), every grant id that the
    listing of a persisted entry shows has a row, and the row is the one
    of its first occurrence: the first entry, in the order in which
    [findMany] returns the entries, whose listing shows the id, with the
    grant as that listing shows it first and the defaults applied.  For an
    id shared by several entries the other entries are not recorded. *)
Theorem run_stores_the_first_occurrence_of_a_grant (env : Deployed.Env)
  (drive : Drive.t) (db0 : Prisma.Db) (stats : SyncStats) :
  Deployed.acceptsPermissions env ->
  Deployed.ordered env ->
  Prisma.unique db0 ->
  (Deployed.startSync env drive db0).1 = Some stats ->
  let d := db (Deployed.startSync env drive db0).2 in
  let order := Deployed.findMany env (Prisma.fileIds d) in
  ∀ id, id ∈ listedGrants drive order ->
    ∃ fileId permissions p,
      firstOccurrence drive order id = Some (fileId, p)
      ∧ fileId ∈ Prisma.fileIds d
      ∧ Drive.permissions_list drive fileId = Some permissions
      ∧ p ∈ permissions ∧ SchemaPermission.id p = id
      ∧ Prisma.drivePermission_.findUnique d id
        = Some (drivePermissionData fileId p).
Proof.
  intros Hacc Hord Huniq Hrun.
  apply deployed_startSync_completed in Hrun as (files & _ & _ & _ & ->).
  cbn [db GoogleDriveSyncService.emit]. cbv zeta.
  pose proof (deployed_settledState_grants env drive db0 files Hacc Hord
                Huniq) as Hgrants.
  set (d := db (Deployed.settledState env drive db0 files)) in *.
  intros id Hid. unfold firstOccurrence.
  destruct (List.find _ (occurrences drive _)) as [[fileId p]|] eqn:E.
  - pose proof (Hgrants id fileId p E) as Hrow.
    apply (find_Some_elem (fun o : string * SchemaPermission.t =>
                             SchemaPermission.id o.2)) in E as [Hocc Hp].
    apply occurrences_elem in Hocc as (Hfile & permissions & Hl & Hin).
    exists fileId, permissions, p. split_and!; try done.
    by rewrite (Hord (Prisma.fileIds d)) in Hfile.
  - exfalso.
    apply (find_None_keys (fun o : string * SchemaPermission.t =>
                             SchemaPermission.id o.2)) in E.
    by rewrite occurrences_ids in E.
Qed.

End DeployedAfterARun.

(** ** The properties at concrete inputs, where the engine runs *)

Section DeployedInstances.

Import GoogleDriveSyncService Spec Further Example Fixture Scenario.

Local Ltac decided := apply (bool_decide_unpack _); vm_compute; exact I.

Lemma reversed_ordered : Deployed.ordered reversed.
Proof. intros ids. cbn. symmetry. apply Permutation_rev. Qed.

Lemma reversed_acceptsPermissions : Deployed.acceptsPermissions reversed.
Proof. by intros row. Qed.

(** The second run of the engine on [A] and [B], shared with the same
    grantee, started from what the first run left. *)
Lemma one_shot_rewrites_shared_grants_on_every_run_witness :
  writes
    (ops (Deployed.startSync plain driveShared
            (db (Deployed.startSync plain driveShared dbAB).2)).2) = [].
Proof.
  refine (proj2 (proj1 (proj2
            (one_shot_rewrites_shared_grants_on_every_run plain driveShared
               dbAB)) [A; B] (mkStats 2 2 2 1 0) plain_acceptsFiles
            plain_acceptsPermissions plain_ordered _ eq_refl _ eq_refl)).
  - split; decided.
  - decided.
Defined.

(** Two files on one page: the count is 2; it is 0 when the second request
    of the count throws, and 0 when a listener throws on the first
    broadcast. *)
Lemma count_is_the_listing_length_or_zero_witness :
  (Deployed.getTotalFileCount plain driveAB (new dbABC)).1 = 2
  ∧ (Deployed.getTotalFileCount plain driveUncounted (new emptyDb)).1 = 0
  ∧ (Deployed.getTotalFileCount (deafAt 0) driveAB (new dbABC)).1 = 0.
Proof.
  split_and!.
  - by rewrite (proj1 (count_is_the_listing_length_or_zero plain driveAB
                         dbABC)).
  - by rewrite (proj1 (count_is_the_listing_length_or_zero plain
                         driveUncounted emptyDb)).
  - by rewrite (proj1 (count_is_the_listing_length_or_zero (deafAt 0)
                         driveAB dbABC)).
Defined.

(** Every request is answered and a listener throws on the broadcast of
    the fetched page: the run ends without a result. *)
Lemma run_fails_only_when_a_fetch_or_a_listener_throws_witness :
  (Deployed.startSync (deafAt 1) driveAB dbABC).1 = None
  ∧ ∃ k, k < length (emitted (Deployed.startSync (deafAt 1) driveAB
                                dbABC).2)
         ∧ Deployed.listenerThrows (deafAt 1) k = true.
Proof.
  split; [reflexivity|].
  destruct (proj1 (proj2 (run_fails_only_when_a_fetch_or_a_listener_throws
                            (deafAt 1) driveAB dbABC)) eq_refl)
    as [H|H].
  - discriminate H.
  - exact H.
Defined.

(** A listener throws on [sync_complete]: the run ends with both terminal
    events, after having written. *)
Lemma run_ends_with_its_terminal_events_witness :
  ∃ events stats,
    emitted (Deployed.startSync (deafAt 7) driveAB dbABC).2
    = map progress events ++ [sync_complete stats; sync_error].
Proof.
  destruct (run_ends_with_its_terminal_events (deafAt 7) driveAB dbABC)
    as (events & H & _).
  change ((Deployed.startSync (deafAt 7) driveAB dbABC).1)
    with (@None SyncStats) in H.
  destruct H as [H|(stats & H & _)].
  - exfalso.
    destruct events
      as [|e1 [|e2 [|e3 [|e4 [|e5 [|e6 [|e7 [|e8 events]]]]]]]];
      vm_compute in H; discriminate H.
  - by exists events, stats.
Defined.

(** The write of [B] fails in the database: [A], of the same batch, has
    no row; had the client refused [B], [A] would have its row. *)
Lemma run_persists_the_batches_that_commit_witness :
  Prisma.driveFile_.findUnique
    (db (Deployed.startSync failsB driveABC emptyDb).2) "A" = None
  ∧ Prisma.driveFile_.findUnique
      (db (Deployed.startSync rejectsB driveABC emptyDb).2) "A"
    = Some (row A).
Proof.
  assert (NoDup (map SchemaFile.id [A; B; C])) as Hnd by decided.
  assert ([recordA; recordB; recordC]
          ∈ batchesOf (map toDriveFileData [A; B; C])) as Hb by (by left).
  split.
  - exact (proj1 (run_persists_the_batches_that_commit failsB driveABC
                    emptyDb [A; B; C] (mkStats 3 1 0 0 2) eq_refl eq_refl
                    Hnd) _ Hb recordA (list_elem_of_here _ _)).
  - exact (proj1 (run_persists_the_batches_that_commit rejectsB driveABC
                    emptyDb [A; B; C] (mkStats 3 2 0 0 1) eq_refl eq_refl
                    Hnd) _ Hb recordA (list_elem_of_here _ _)).
Defined.

(** [A] and [B] are shared with the same grantee and [findMany] returns
    [B] first: the grant is stored under [B]. *)
Lemma run_stores_the_first_occurrence_of_a_grant_witness :
  Prisma.drivePermission_.findUnique
    (db (Deployed.startSync reversed driveShared dbAB).2) "p"
  = Some (drivePermissionData "B" (grant "p")).
Proof.
  destruct (run_stores_the_first_occurrence_of_a_grant reversed driveShared
              dbAB (mkStats 2 2 2 1 0) reversed_acceptsPermissions
              reversed_ordered) with (id := "p")
    as (fileId & permissions & p & Hfirst & _ & _ & _ & _ & Hrow).
  - split; decided.
  - reflexivity.
  - decided.
  - vm_compute in Hfirst. injection Hfirst as <- <-. exact Hrow.
Defined.

End DeployedInstances.
